(** * Self-balancing ordered sets over string keys: AVL, Red-Black, Treap

    A shallow embedding of [methods/node.py], [methods/base.py],
    [methods/avl_tree.py], [methods/rb_tree.py] and
    [methods/treap_tree.py], of the two functions of
    [utils/tree_util.py] and of the in-order walk that the test suites
    use.

    The Python code works on mutable [Node] objects linked by
    [parent]/[left]/[right] references.  Objects live here in a store
    addressed by references; a link is an [option ref] ([None] is
    Python's [None]).  Every method is a function of the tree object
    that returns the new tree object next to its result; [None] as an
    outcome stands for a Python exception other than [AssertionError]
    (an attribute access on [None], an ordering comparison with
    [None]) or for a loop that was cut by its iteration bound.  The
    recursive helpers of [validate] and of [utils/tree_util.py] take
    the number of nested calls that the interpreter allows and give
    RecursionError when it is used up. *)

From Stdlib Require Import ZArith Lia.
From stdpp Require Import gmap strings list sorting.

Local Open Scope Z_scope.

(** ** Keys: Python [str] with [==] and [<] *)

Definition str_eq (a b : string) : bool := String.eqb a b.
Definition str_lt (a b : string) : bool := String.ltb a b.

(** ** [methods/node.py] *)

Definition ref := nat.

Record Node := mkNode {
  value : option string;
  parent : option ref;
  left : option ref;
  right : option ref;
  height : Z;
  color : option bool;
  priority : option Z
}.

Definition RED : bool := true.
Definition BLACK : bool := false.

(** [Node.__init__]: links to the children start absent, [height] is 1. *)
Definition Node_init (v : option string) (p : option ref)
    (c : option bool) (q : option Z) : Node :=
  mkNode v p None None 1 c q.

Definition set_value (v : option string) (n : Node) : Node :=
  mkNode v (parent n) (left n) (right n) (height n) (color n) (priority n).
Definition set_parent (p : option ref) (n : Node) : Node :=
  mkNode (value n) p (left n) (right n) (height n) (color n) (priority n).
Definition set_left (l : option ref) (n : Node) : Node :=
  mkNode (value n) (parent n) l (right n) (height n) (color n) (priority n).
Definition set_right (r : option ref) (n : Node) : Node :=
  mkNode (value n) (parent n) (left n) r (height n) (color n) (priority n).
Definition set_height (h : Z) (n : Node) : Node :=
  mkNode (value n) (parent n) (left n) (right n) h (color n) (priority n).
Definition set_color (c : option bool) (n : Node) : Node :=
  mkNode (value n) (parent n) (left n) (right n) (height n) c (priority n).

(** ** The tree object

    One record holds the attributes of the three classes:
    [rotations_insert] and [rotations_delete] come from
    [BaseDataStructure], [root] from each engine, [nil] from [RBTree]
    (absent in the two others) and [max_priority] from [Treap].
    [cells] is the store of the [Node] objects created so far and
    [next] the reference the next [Node(...)] call receives.
    [guard_returns] is a ghost counter, not an attribute of the Python
    objects: the number of times a rotation primitive has returned
    through its guard, without rotating. *)

Record Tree := mkTree {
  cells : gmap ref Node;
  next : ref;
  root : option ref;
  nil : option ref;
  max_priority : Z;
  rotations_insert : nat;
  rotations_delete : nat;
  guard_returns : nat
}.

Definition with_cells (f : gmap ref Node → gmap ref Node) (s : Tree) : Tree :=
  mkTree (f (cells s)) (next s) (root s) (nil s) (max_priority s)
         (rotations_insert s) (rotations_delete s) (guard_returns s).

Definition set_root (r : option ref) (s : Tree) : Tree :=
  mkTree (cells s) (next s) r (nil s) (max_priority s)
         (rotations_insert s) (rotations_delete s) (guard_returns s).

(** [Node(...)]: the new object gets the reference [next s]. *)
Definition alloc (n : Node) (s : Tree) : ref * Tree :=
  (next s,
   mkTree (<[next s := n]> (cells s)) (S (next s)) (root s) (nil s)
          (max_priority s) (rotations_insert s) (rotations_delete s)
          (guard_returns s)).

(** Attribute writes [x.f = v] on the object [x]. *)
Definition wr_value (x : ref) (v : option string) : Tree → Tree :=
  with_cells (alter (set_value v) x).
Definition wr_parent (x : ref) (p : option ref) : Tree → Tree :=
  with_cells (alter (set_parent p) x).
Definition wr_left (x : ref) (l : option ref) : Tree → Tree :=
  with_cells (alter (set_left l) x).
Definition wr_right (x : ref) (r : option ref) : Tree → Tree :=
  with_cells (alter (set_right r) x).
Definition wr_height (x : ref) (h : Z) : Tree → Tree :=
  with_cells (alter (set_height h) x).
Definition wr_color (x : ref) (c : option bool) : Tree → Tree :=
  with_cells (alter (set_color c) x).

(** Attribute reads [x.f]. *)
Definition rd {A} (f : Node → A) (s : Tree) (x : ref) : option A :=
  f <$> cells s !! x.

(** Reads of an optional attribute whose value is then used: a link
    followed to its object, a [value] that is compared. *)
Definition nd {A} (f : Node → option A) (s : Tree) (x : ref) : option A :=
  n ← cells s !! x; f n.

(** ** [methods/base.py] *)

Definition total_rotations (s : Tree) : nat :=
  (rotations_insert s + rotations_delete s)%nat.

Definition reset_metrics (s : Tree) : Tree :=
  mkTree (cells s) (next s) (root s) (nil s) (max_priority s) 0%nat 0%nat
         (guard_returns s).

(** The tail of every rotation primitive:
    [if is_delete: self.rotations_delete += 1 else: self.rotations_insert += 1]. *)
Definition count_rotation (is_delete : bool) (s : Tree) : Tree :=
  if is_delete
  then mkTree (cells s) (next s) (root s) (nil s) (max_priority s)
              (rotations_insert s) (S (rotations_delete s)) (guard_returns s)
  else mkTree (cells s) (next s) (root s) (nil s) (max_priority s)
              (S (rotations_insert s)) (rotations_delete s) (guard_returns s).

(** The guard at the head of every rotation primitive returns at once
    when the pivot lacks the child to lift; the ghost counter records it. *)
Definition count_guard (s : Tree) : Tree :=
  mkTree (cells s) (next s) (root s) (nil s) (max_priority s)
         (rotations_insert s) (rotations_delete s) (S (guard_returns s)).

(** The iteration bound of the loops of a public operation: no loop of
    the engines visits more nodes than there are objects in the store. *)
Definition fuel_of (s : Tree) : nat := S (S (next s)).

(** Outcome of the descent that looks for the insertion point. *)
Inductive descent :=
| Duplicate
| Slot (par : option ref).

(** Outcome of a [validate] walk: the value returned, [AssertionError],
    or the RecursionError that the interpreter raises when a call
    would nest deeper than it allows. *)
Inductive checked (A : Type) :=
| Passed (a : A)
| AssertionError (at_value : option string)
| RecursionError.
Arguments Passed {A} a.
Arguments AssertionError {A} at_value.
Arguments RecursionError {A}.

(** ** Rotations without a sentinel

    [AVLTree._rotate_right] and [Treap._rotate_right] share, word for
    word, the statements between the guard on [y.left] and the
    reattachment of [x] to the former parent of [y]; the same holds for
    the two [_rotate_left]. *)

Definition relink_right (s : Tree) (y x : ref) : option Tree :=
  T2 ← rd right s x;
  let s := wr_right x (Some y) s in
  let s := wr_left y T2 s in
  yp ← rd parent s y;
  let s := wr_parent x yp s in
  let s := wr_parent y (Some x) s in
  let s := match T2 with Some t => wr_parent t (Some y) s | None => s end in
  xp ← rd parent s x;
  match xp with
  | None => Some (set_root (Some x) s)
  | Some p =>
      pl ← rd left s p;
      Some (if bool_decide (pl = Some y)
            then wr_left p (Some x) s else wr_right p (Some x) s)
  end.

Definition relink_left (s : Tree) (x y : ref) : option Tree :=
  T2 ← rd left s y;
  let s := wr_left y (Some x) s in
  let s := wr_right x T2 s in
  xp ← rd parent s x;
  let s := wr_parent y xp s in
  let s := wr_parent x (Some y) s in
  let s := match T2 with Some t => wr_parent t (Some x) s | None => s end in
  yp ← rd parent s y;
  match yp with
  | None => Some (set_root (Some y) s)
  | Some p =>
      pl ← rd left s p;
      Some (if bool_decide (pl = Some x)
            then wr_left p (Some y) s else wr_right p (Some y) s)
  end.

(** The BST search loop of [contains], the same in [AVLTree] and [Treap]:
    [while cur: ...]. *)
Fixpoint search (fuel : nat) (s : Tree) (v : string) (cur : option ref)
    : option bool :=
  match cur with
  | None => Some false
  | Some c =>
      match fuel with
      | O => None
      | S fuel =>
          cv ← nd value s c;
          if str_eq v cv then Some true
          else if str_lt v cv
               then l ← rd left s c; search fuel s v l
               else r ← rd right s c; search fuel s v r
      end
  end.

(** The descent of [insert], the same in [AVLTree] and [Treap]:
    [while cur: parent = cur; ...]. *)
Fixpoint descend (fuel : nat) (s : Tree) (v : string)
    (cur par : option ref) : option descent :=
  match cur with
  | None => Some (Slot par)
  | Some c =>
      match fuel with
      | O => None
      | S fuel =>
          cv ← nd value s c;
          if str_eq v cv then Some Duplicate
          else if str_lt v cv
               then l ← rd left s c; descend fuel s v l (Some c)
               else r ← rd right s c; descend fuel s v r (Some c)
      end
  end.

(** ** [methods/avl_tree.py] *)

Module AVL.

Definition init : Tree := mkTree ∅ 0%nat None None 0 0%nat 0%nat 0%nat.

Definition get_height (s : Tree) (node : option ref) : option Z :=
  match node with
  | None => Some 0
  | Some x => rd height s x
  end.

Definition update_height (s : Tree) (node : option ref) : option Tree :=
  match node with
  | None => Some s
  | Some x =>
      l ← rd left s x;
      r ← rd right s x;
      hl ← get_height s l;
      hr ← get_height s r;
      Some (wr_height x (1 + Z.max hl hr) s)
  end.

Definition get_balance (s : Tree) (node : option ref) : option Z :=
  match node with
  | None => Some 0
  | Some x =>
      l ← rd left s x;
      r ← rd right s x;
      hl ← get_height s l;
      hr ← get_height s r;
      Some (hl - hr)
  end.

Definition rotate_right (s : Tree) (y : ref) (is_delete : bool)
    : option (ref * Tree) :=
  yl ← rd left s y;
  match yl with
  | None => Some (y, count_guard s)
  | Some x =>
      s ← relink_right s y x;
      s ← update_height s (Some y);
      s ← update_height s (Some x);
      Some (x, count_rotation is_delete s)
  end.

Definition rotate_left (s : Tree) (x : ref) (is_delete : bool)
    : option (ref * Tree) :=
  xr ← rd right s x;
  match xr with
  | None => Some (x, count_guard s)
  | Some y =>
      s ← relink_left s x y;
      s ← update_height s (Some x);
      s ← update_height s (Some y);
      Some (y, count_rotation is_delete s)
  end.

(** The block that [insert] runs at every step of its walk to the root
    and [_delete_node] runs before returning, the two copies differing
    in the [is_delete] flag only: height update, balance factor, single
    or double rotation.  The result is the value of [node] after it. *)
Definition rebalance (s : Tree) (node : ref) (is_delete : bool)
    : option (ref * Tree) :=
  s ← update_height s (Some node);
  balance ← get_balance s (Some node);
  if 1 <? balance then
    l ← rd left s node;
    bl ← get_balance s l;
    s ← (if bl <? 0
         then lx ← l; snd <$> rotate_left s lx is_delete
         else Some s);
    rotate_right s node is_delete
  else if balance <? -1 then
    r ← rd right s node;
    br ← get_balance s r;
    s ← (if 0 <? br
         then rx ← r; snd <$> rotate_right s rx is_delete
         else Some s);
    rotate_left s node is_delete
  else Some (node, s).

(** [while node: ...; node = node.parent] *)
Fixpoint insert_walk (fuel : nat) (s : Tree) (node : option ref)
    : option Tree :=
  match node with
  | None => Some s
  | Some n =>
      match fuel with
      | O => None
      | S fuel =>
          '(n, s) ← rebalance s n false;
          p ← rd parent s n;
          insert_walk fuel s p
      end
  end.

Definition insert (s : Tree) (v : string) : option (bool * Tree) :=
  match root s with
  | None =>
      let '(x, s) := alloc (Node_init (Some v) None None None) s in
      Some (true, set_root (Some x) s)
  | Some _ =>
      d ← descend (fuel_of s) s v (root s) None;
      match d with
      | Duplicate => Some (false, s)
      | Slot par =>
          let '(new_node, s) := alloc (Node_init (Some v) par None None) s in
          p ← par;
          pv ← nd value s p;
          let s := if str_lt v pv
                   then wr_left p (Some new_node) s
                   else wr_right p (Some new_node) s in
          node ← rd parent s new_node;
          s ← insert_walk (fuel_of s) s node;
          Some (true, s)
      end
  end.

Definition contains (s : Tree) (v : string) : option bool :=
  search (fuel_of s) s v (root s).

(** [while succ.left: succ = succ.left] *)
Fixpoint leftmost (fuel : nat) (s : Tree) (succ : ref) : option ref :=
  match fuel with
  | O => None
  | S fuel =>
      l ← rd left s succ;
      match l with
      | None => Some succ
      | Some l => leftmost fuel s l
      end
  end.

(** [_delete_node], the recursive helper of [delete]. *)
Fixpoint delete_node (fuel : nat) (s : Tree) (node : option ref) (v : string)
    : option (option ref * Tree) :=
  match node with
  | None => Some (None, s)
  | Some n =>
      match fuel with
      | O => None
      | S fuel =>
          nv ← nd value s n;
          if str_lt v nv then
            l ← rd left s n;
            '(res, s) ← delete_node fuel s l v;
            let s := wr_left n res s in
            let s := match res with
                     | Some c => wr_parent c (Some n) s
                     | None => s
                     end in
            '(n, s) ← rebalance s n true;
            Some (Some n, s)
          else if str_lt nv v then
            r ← rd right s n;
            '(res, s) ← delete_node fuel s r v;
            let s := wr_right n res s in
            let s := match res with
                     | Some c => wr_parent c (Some n) s
                     | None => s
                     end in
            '(n, s) ← rebalance s n true;
            Some (Some n, s)
          else
            l ← rd left s n;
            r ← rd right s n;
            match l, r with
            | Some _, Some r0 =>
                succ ← leftmost fuel s r0;
                sv ← rd value s succ;
                let s := wr_value n sv s in
                r ← rd right s n;
                sv ← sv;
                '(res, s) ← delete_node fuel s r sv;
                let s := wr_right n res s in
                let s := match res with
                         | Some c => wr_parent c (Some n) s
                         | None => s
                         end in
                '(n, s) ← rebalance s n true;
                Some (Some n, s)
            | _, _ =>
                let replacement := match l with Some _ => l | None => r end in
                p ← rd parent s n;
                let s := match replacement with
                         | Some c => wr_parent c p s
                         | None => s
                         end in
                Some (replacement, s)
            end
      end
  end.

Definition delete (s : Tree) (v : string) : option (bool * Tree) :=
  found ← contains s v;
  if negb found then Some (false, s)
  else
    '(r, s) ← delete_node (fuel_of s) s (root s) v;
    let s := set_root r s in
    let s := match r with
             | Some x => wr_parent x None s
             | None => s
             end in
    Some (true, s).

(** [_check], the recursive helper of [validate]; it returns the height
    of the subtree.  [limit] is the number of nested calls of [_check]
    that the interpreter still allows (its recursion limit less the
    frames that are on the stack): every call takes one, a call on
    [None] too, and a call made when none is left raises
    RecursionError, which nothing catches. *)
Fixpoint check (limit : nat) (s : Tree) (node : option ref)
    : option (checked Z) :=
  match limit with
  | O => Some RecursionError
  | S limit =>
      match node with
      | None => Some (Passed 0)
      | Some n =>
          c ← cells s !! n;
          lres ← check limit s (left c);
          match lres with
          | AssertionError a => Some (AssertionError a)
          | RecursionError => Some RecursionError
          | Passed left_height =>
              rres ← check limit s (right c);
              match rres with
              | AssertionError a => Some (AssertionError a)
              | RecursionError => Some RecursionError
              | Passed right_height =>
                  okl ← match left c with
                        | Some l => lv ← nd value s l; nv ← value c;
                                    Some (str_lt lv nv)
                        | None => Some true
                        end;
                  if negb okl then Some (AssertionError (value c)) else
                  okr ← match right c with
                        | Some r => rv ← nd value s r; nv ← value c;
                                    Some (str_lt nv rv)
                        | None => Some true
                        end;
                  if negb okr then Some (AssertionError (value c)) else
                  let expected_height := 1 + Z.max left_height right_height in
                  if negb (height c =? expected_height)
                  then Some (AssertionError (value c)) else
                  let balance := left_height - right_height in
                  if negb ((-1 <=? balance) && (balance <=? 1))
                  then Some (AssertionError (value c))
                  else Some (Passed expected_height)
              end
          end
      end
  end.

(** [validate], called where the interpreter allows [limit] nested
    calls of [_check]. *)
Definition validate (limit : nat) (s : Tree) : option (checked unit) :=
  match root s with
  | None => Some (Passed tt)
  | Some _ =>
      res ← check limit s (root s);
      match res with
      | Passed _ => Some (Passed tt)
      | AssertionError a => Some (AssertionError a)
      | RecursionError => Some RecursionError
      end
  end.

End AVL.

(** ** [methods/treap_tree.py]

    [random.randint(0, self.max_priority)] is an input of [insert]: the
    argument [q] is the priority that the call draws. *)

Module Treap.

Definition init (max_prio : Z) : Tree :=
  mkTree ∅ 0%nat None None max_prio 0%nat 0%nat 0%nat.

Definition rotate_right (s : Tree) (y : ref) (is_delete : bool)
    : option (ref * Tree) :=
  yl ← rd left s y;
  match yl with
  | None => Some (y, count_guard s)
  | Some x =>
      s ← relink_right s y x;
      Some (x, count_rotation is_delete s)
  end.

Definition rotate_left (s : Tree) (x : ref) (is_delete : bool)
    : option (ref * Tree) :=
  xr ← rd right s x;
  match xr with
  | None => Some (x, count_guard s)
  | Some y =>
      s ← relink_left s x y;
      Some (y, count_rotation is_delete s)
  end.

(** [while cur.parent and cur.parent.priority < cur.priority: ...] *)
Fixpoint bubble_up (fuel : nat) (s : Tree) (cur : ref) : option Tree :=
  match fuel with
  | O => None
  | S fuel =>
      p ← rd parent s cur;
      match p with
      | None => Some s
      | Some p =>
          pp ← nd priority s p;
          cp ← nd priority s cur;
          if pp <? cp then
            pl ← rd left s p;
            '(_, s) ← (if bool_decide (pl = Some cur)
                       then rotate_right s p false
                       else rotate_left s p false);
            bubble_up fuel s cur
          else Some s
      end
  end.

Definition insert (s : Tree) (v : string) (q : Z) : option (bool * Tree) :=
  match root s with
  | None =>
      let '(node, s) := alloc (Node_init (Some v) None None (Some q)) s in
      Some (true, set_root (Some node) s)
  | Some _ =>
      d ← descend (fuel_of s) s v (root s) None;
      match d with
      | Duplicate => Some (false, s)
      | Slot par =>
          let '(new_node, s) :=
            alloc (Node_init (Some v) par None (Some q)) s in
          p ← par;
          pv ← nd value s p;
          let s := if str_lt v pv
                   then wr_left p (Some new_node) s
                   else wr_right p (Some new_node) s in
          s ← bubble_up (fuel_of s) s new_node;
          Some (true, s)
      end
  end.

Definition contains (s : Tree) (v : string) : option bool :=
  search (fuel_of s) s v (root s).

(** [while cur and cur.value != value: ...] *)
Fixpoint find (fuel : nat) (s : Tree) (v : string) (cur : option ref)
    : option (option ref) :=
  match cur with
  | None => Some None
  | Some c =>
      match fuel with
      | O => None
      | S fuel =>
          cv ← nd value s c;
          if negb (str_eq cv v) then
            if str_lt v cv
            then l ← rd left s c; find fuel s v l
            else r ← rd right s c; find fuel s v r
          else Some (Some c)
      end
  end.

(** [while cur.left or cur.right: ...] *)
Fixpoint rotate_down (fuel : nat) (s : Tree) (cur : ref) : option Tree :=
  match fuel with
  | O => None
  | S fuel =>
      l ← rd left s cur;
      r ← rd right s cur;
      match l, r with
      | None, None => Some s
      | None, Some _ =>
          '(_, s) ← rotate_left s cur true; rotate_down fuel s cur
      | Some _, None =>
          '(_, s) ← rotate_right s cur true; rotate_down fuel s cur
      | Some lx, Some rx =>
          lp ← nd priority s lx;
          rp ← nd priority s rx;
          '(_, s) ← (if lp >? rp
                     then rotate_right s cur true
                     else rotate_left s cur true);
          rotate_down fuel s cur
      end
  end.

Definition delete (s : Tree) (v : string) : option (bool * Tree) :=
  cur ← find (fuel_of s) s v (root s);
  match cur with
  | None => Some (false, s)
  | Some cur =>
      s ← rotate_down (fuel_of s) s cur;
      p ← rd parent s cur;
      match p with
      | None => Some (true, set_root None s)
      | Some p =>
          pl ← rd left s p;
          Some (true, if bool_decide (pl = Some cur)
                      then wr_left p None s else wr_right p None s)
      end
  end.

(** [_check], the recursive helper of [validate]; [limit] is the number
    of nested calls of [_check] that the interpreter still allows. *)
Fixpoint check (limit : nat) (s : Tree) (node : option ref)
    (min_val max_val : option string) : option (checked unit) :=
  match limit with
  | O => Some RecursionError
  | S limit =>
      match node with
      | None => Some (Passed tt)
      | Some n =>
          c ← cells s !! n;
          oklo ← match min_val with
                 | Some m => nv ← value c; Some (str_lt m nv)
                 | None => Some true
                 end;
          if negb oklo then Some (AssertionError (value c)) else
          okhi ← match max_val with
                 | Some m => nv ← value c; Some (str_lt nv m)
                 | None => Some true
                 end;
          if negb okhi then Some (AssertionError (value c)) else
          okl ← match left c with
                | Some l =>
                    lp ← nd priority s l; np ← priority c;
                    lpar ← rd parent s l;
                    Some (if lp <=? np
                          then bool_decide (lpar = Some n) else false)
                | None => Some true
                end;
          if negb okl then Some (AssertionError (value c)) else
          okr ← match right c with
                | Some r =>
                    rp ← nd priority s r; np ← priority c;
                    rpar ← rd parent s r;
                    Some (if rp <=? np
                          then bool_decide (rpar = Some n) else false)
                | None => Some true
                end;
          if negb okr then Some (AssertionError (value c)) else
          lres ← check limit s (left c) min_val (value c);
          match lres with
          | AssertionError a => Some (AssertionError a)
          | RecursionError => Some RecursionError
          | Passed _ => check limit s (right c) (value c) max_val
          end
      end
  end.

Definition validate (limit : nat) (s : Tree) : option (checked unit) :=
  check limit s (root s) None None.

End Treap.

(** ** [methods/rb_tree.py]

    Every link of a Red-Black node is an object: the sentinel [self.nil]
    stands where the two other engines have [None]. *)

Module RB.

Definition set_nil (r : option ref) (s : Tree) : Tree :=
  mkTree (cells s) (next s) (root s) r (max_priority s)
         (rotations_insert s) (rotations_delete s) (guard_returns s).

(** [x is self.nil] *)
Definition is_nil (s : Tree) (x : ref) : bool := bool_decide (nil s = Some x).

(** [c == Node.RED], [c == Node.BLACK] on an optional color. *)
Definition is_red (c : option bool) : bool := bool_decide (c = Some RED).
Definition is_black (c : option bool) : bool := bool_decide (c = Some BLACK).

Definition init : Tree :=
  let '(n, s) := alloc (Node_init None None (Some BLACK) None)
                       (mkTree ∅ 0%nat None None 0 0%nat 0%nat 0%nat) in
  let s := set_nil (Some n) s in
  let s := wr_left n (Some n) s in
  let s := wr_right n (Some n) s in
  let s := wr_parent n (Some n) s in
  set_root (Some n) s.

(** [while cur is not self.nil: ...] *)
Fixpoint search (fuel : nat) (s : Tree) (v : string) (cur : ref)
    : option bool :=
  if is_nil s cur then Some false
  else
    match fuel with
    | O => None
    | S fuel =>
        cv ← nd value s cur;
        if str_eq v cv then Some true
        else if str_lt v cv
             then l ← nd left s cur; search fuel s v l
             else r ← nd right s cur; search fuel s v r
    end.

Definition contains (s : Tree) (v : string) : option bool :=
  r ← root s; search (fuel_of s) s v r.

Definition left_rotate (s : Tree) (x : ref) (is_delete : bool)
    : option Tree :=
  y ← nd right s x;
  if is_nil s y then Some (count_guard s)
  else
    yl ← nd left s y;
    let s := wr_right x (Some yl) s in
    yl ← nd left s y;
    let s := if is_nil s yl then s else wr_parent yl (Some x) s in
    xp ← nd parent s x;
    let s := wr_parent y (Some xp) s in
    xp ← nd parent s x;
    s ← (if is_nil s xp then Some (set_root (Some y) s)
         else xpl ← nd left s xp;
              Some (if bool_decide (x = xpl)
                    then wr_left xp (Some y) s
                    else wr_right xp (Some y) s));
    let s := wr_left y (Some x) s in
    let s := wr_parent x (Some y) s in
    Some (count_rotation is_delete s).

Definition right_rotate (s : Tree) (y : ref) (is_delete : bool)
    : option Tree :=
  x ← nd left s y;
  if is_nil s x then Some (count_guard s)
  else
    xr ← nd right s x;
    let s := wr_left y (Some xr) s in
    xr ← nd right s x;
    let s := if is_nil s xr then s else wr_parent xr (Some y) s in
    yp ← nd parent s y;
    let s := wr_parent x (Some yp) s in
    yp ← nd parent s y;
    s ← (if is_nil s yp then Some (set_root (Some x) s)
         else ypl ← nd left s yp;
              Some (if bool_decide (y = ypl)
                    then wr_left yp (Some x) s
                    else wr_right yp (Some x) s));
    let s := wr_right x (Some y) s in
    let s := wr_parent y (Some x) s in
    Some (count_rotation is_delete s).

(** The loop of [_insert_fixup]: [while z.parent.color == Node.RED: ...] *)
Fixpoint insert_fixup_loop (fuel : nat) (s : Tree) (z : ref) : option Tree :=
  match fuel with
  | O => None
  | S fuel =>
      zp ← nd parent s z;
      zpc ← rd color s zp;
      if negb (is_red zpc) then Some s
      else
        zpp ← nd parent s zp;
        zppl ← nd left s zpp;
        if bool_decide (zp = zppl) then
          y ← nd right s zpp;
          yc ← rd color s y;
          if is_red yc then
            let s := wr_color zp (Some BLACK) s in
            let s := wr_color y (Some BLACK) s in
            let s := wr_color zpp (Some RED) s in
            insert_fixup_loop fuel s zpp
          else
            zpr ← nd right s zp;
            '(z, s) ← (if bool_decide (z = zpr)
                       then s ← left_rotate s zp false; Some (zp, s)
                       else Some (z, s));
            zp ← nd parent s z;
            let s := wr_color zp (Some BLACK) s in
            zpp ← nd parent s zp;
            let s := wr_color zpp (Some RED) s in
            s ← right_rotate s zpp false;
            insert_fixup_loop fuel s z
        else
          y ← nd left s zpp;
          yc ← rd color s y;
          if is_red yc then
            let s := wr_color zp (Some BLACK) s in
            let s := wr_color y (Some BLACK) s in
            let s := wr_color zpp (Some RED) s in
            insert_fixup_loop fuel s zpp
          else
            zpl ← nd left s zp;
            '(z, s) ← (if bool_decide (z = zpl)
                       then s ← right_rotate s zp false; Some (zp, s)
                       else Some (z, s));
            zp ← nd parent s z;
            let s := wr_color zp (Some BLACK) s in
            zpp ← nd parent s zp;
            let s := wr_color zpp (Some RED) s in
            s ← left_rotate s zpp false;
            insert_fixup_loop fuel s z
  end.

Definition insert_fixup (s : Tree) (z : ref) : option Tree :=
  s ← insert_fixup_loop (fuel_of s) s z;
  r ← root s;
  Some (wr_color r (Some BLACK) s).

(** The descent of [insert]:
    [while x is not self.nil: y = x; ...]. *)
Fixpoint descend (fuel : nat) (s : Tree) (v : string) (x y : ref)
    : option descent :=
  if is_nil s x then Some (Slot (Some y))
  else
    match fuel with
    | O => None
    | S fuel =>
        xv ← nd value s x;
        if str_eq v xv then Some Duplicate
        else if str_lt v xv
             then l ← nd left s x; descend fuel s v l x
             else r ← nd right s x; descend fuel s v r x
    end.

Definition insert (s : Tree) (v : string) : option (bool * Tree) :=
  let '(node, s) := alloc (Node_init (Some v) None (Some RED) None) s in
  let s := wr_left node (nil s) s in
  let s := wr_right node (nil s) s in
  let s := wr_parent node (nil s) s in
  nl ← nil s;
  r ← root s;
  d ← descend (fuel_of s) s v r nl;
  match d with
  | Duplicate => Some (false, s)
  | Slot y =>
      y ← y;
      let s := wr_parent node (Some y) s in
      s ← (if is_nil s y then Some (set_root (Some node) s)
           else
             yv ← nd value s y;
             Some (if str_lt v yv
                   then wr_left y (Some node) s
                   else wr_right y (Some node) s));
      s ← insert_fixup s node;
      Some (true, s)
  end.

Definition transplant (s : Tree) (u v : ref) : option Tree :=
  up ← nd parent s u;
  s ← (if is_nil s up then Some (set_root (Some v) s)
       else upl ← nd left s up;
            Some (if bool_decide (u = upl)
                  then wr_left up (Some v) s
                  else wr_right up (Some v) s));
  up ← nd parent s u;
  Some (wr_parent v (Some up) s).

(** [while node.left is not self.nil: node = node.left] *)
Fixpoint minimum (fuel : nat) (s : Tree) (node : ref) : option ref :=
  match fuel with
  | O => None
  | S fuel =>
      l ← nd left s node;
      if is_nil s l then Some node else minimum fuel s l
  end.

(** The loop of [_delete_fixup]:
    [while x is not self.root and x.color == Node.BLACK: ...];
    the result carries the final [x]. *)
Fixpoint delete_fixup_loop (fuel : nat) (s : Tree) (x : ref)
    : option (ref * Tree) :=
  match fuel with
  | O => None
  | S fuel =>
      r ← root s;
      go ← (if bool_decide (x = r) then Some false
            else xc ← rd color s x; Some (is_black xc));
      if negb go then Some (x, s)
      else
        xp ← nd parent s x;
        xpl ← nd left s xp;
        if bool_decide (x = xpl) then
          w ← nd right s xp;
          wc ← rd color s w;
          '(w, s) ← (if is_red wc then
                       let s := wr_color w (Some BLACK) s in
                       xp ← nd parent s x;
                       let s := wr_color xp (Some RED) s in
                       s ← left_rotate s xp true;
                       xp ← nd parent s x;
                       w ← nd right s xp;
                       Some (w, s)
                     else Some (w, s));
          wl ← nd left s w;
          wlc ← rd color s wl;
          all_black ← (if is_black wlc
                  then wr ← nd right s w; wrc ← rd color s wr;
                       Some (is_black wrc)
                  else Some false);
          if (all_black : bool) then
            let s := wr_color w (Some RED) s in
            xp ← nd parent s x;
            delete_fixup_loop fuel s xp
          else
            wr ← nd right s w;
            wrc ← rd color s wr;
            '(w, s) ← (if is_black wrc then
                         wl ← nd left s w;
                         let s := wr_color wl (Some BLACK) s in
                         let s := wr_color w (Some RED) s in
                         s ← right_rotate s w true;
                         xp ← nd parent s x;
                         w ← nd right s xp;
                         Some (w, s)
                       else Some (w, s));
            xp ← nd parent s x;
            xpc ← rd color s xp;
            let s := wr_color w xpc s in
            let s := wr_color xp (Some BLACK) s in
            wr ← nd right s w;
            let s := wr_color wr (Some BLACK) s in
            s ← left_rotate s xp true;
            r ← root s;
            delete_fixup_loop fuel s r
        else
          w ← nd left s xp;
          wc ← rd color s w;
          '(w, s) ← (if is_red wc then
                       let s := wr_color w (Some BLACK) s in
                       xp ← nd parent s x;
                       let s := wr_color xp (Some RED) s in
                       s ← right_rotate s xp true;
                       xp ← nd parent s x;
                       w ← nd left s xp;
                       Some (w, s)
                     else Some (w, s));
          wr ← nd right s w;
          wrc ← rd color s wr;
          all_black ← (if is_black wrc
                  then wl ← nd left s w; wlc ← rd color s wl;
                       Some (is_black wlc)
                  else Some false);
          if (all_black : bool) then
            let s := wr_color w (Some RED) s in
            xp ← nd parent s x;
            delete_fixup_loop fuel s xp
          else
            wl ← nd left s w;
            wlc ← rd color s wl;
            '(w, s) ← (if is_black wlc then
                         wr ← nd right s w;
                         let s := wr_color wr (Some BLACK) s in
                         let s := wr_color w (Some RED) s in
                         s ← left_rotate s w true;
                         xp ← nd parent s x;
                         w ← nd left s xp;
                         Some (w, s)
                       else Some (w, s));
            xp ← nd parent s x;
            xpc ← rd color s xp;
            let s := wr_color w xpc s in
            let s := wr_color xp (Some BLACK) s in
            wl ← nd left s w;
            let s := wr_color wl (Some BLACK) s in
            s ← right_rotate s xp true;
            r ← root s;
            delete_fixup_loop fuel s r
  end.

Definition delete_fixup (s : Tree) (x : ref) : option Tree :=
  '(x, s) ← delete_fixup_loop (fuel_of s) s x;
  Some (wr_color x (Some BLACK) s).

(** The search loop of [delete]: [while z is not self.nil: ... else: return False];
    [None] is the [else] exit. *)
Fixpoint find (fuel : nat) (s : Tree) (v : string) (z : ref)
    : option (option ref) :=
  if is_nil s z then Some None
  else
    match fuel with
    | O => None
    | S fuel =>
        zv ← nd value s z;
        if str_eq v zv then Some (Some z)
        else if str_lt v zv
             then l ← nd left s z; find fuel s v l
             else r ← nd right s z; find fuel s v r
    end.

Definition delete (s : Tree) (v : string) : option (bool * Tree) :=
  r ← root s;
  z ← find (fuel_of s) s v r;
  match z with
  | None => Some (false, s)
  | Some z =>
      y_original_color ← rd color s z;
      zl ← nd left s z;
      zr ← nd right s z;
      '(x, y_original_color, s) ←
        (if is_nil s zl then
           s ← transplant s z zr; Some (zr, y_original_color, s)
         else if is_nil s zr then
           s ← transplant s z zl; Some (zl, y_original_color, s)
         else
           y ← minimum (fuel_of s) s zr;
           y_original_color ← rd color s y;
           x ← nd right s y;
           yp ← nd parent s y;
           s ← (if bool_decide (yp = z) then Some (wr_parent x (Some y) s)
                else
                  yr ← nd right s y;
                  s ← transplant s y yr;
                  zr ← nd right s z;
                  let s := wr_right y (Some zr) s in
                  yr ← nd right s y;
                  Some (wr_parent yr (Some y) s));
           s ← transplant s z y;
           zl ← nd left s z;
           let s := wr_left y (Some zl) s in
           yl ← nd left s y;
           let s := wr_parent yl (Some y) s in
           zc ← rd color s z;
           let s := wr_color y zc s in
           Some (x, y_original_color, s));
      s ← (if is_black y_original_color then delete_fixup s x else Some s);
      Some (true, s)
  end.

(** [check_node], the recursive helper of [validate]; it returns the
    black height of the subtree.  [limit] is the number of nested calls
    of [check_node] that the interpreter still allows; the call on the
    sentinel takes one too. *)
Fixpoint check_node (limit : nat) (s : Tree) (node : ref)
    (min_val max_val : option string) : option (checked Z) :=
  match limit with
  | O => Some RecursionError
  | S limit =>
      if is_nil s node then Some (Passed 1)
      else
        c ← cells s !! node;
        oklo ← match min_val with
               | Some m => nv ← value c; Some (str_lt m nv)
               | None => Some true
               end;
        if negb oklo then Some (AssertionError (value c)) else
        okhi ← match max_val with
               | Some m => nv ← value c; Some (str_lt nv m)
               | None => Some true
               end;
        if negb okhi then Some (AssertionError (value c)) else
        l ← left c;
        r ← right c;
        lres ← check_node limit s l min_val (value c);
        match lres with
        | AssertionError a => Some (AssertionError a)
        | RecursionError => Some RecursionError
        | Passed left_black_height =>
            rres ← check_node limit s r (value c) max_val;
            match rres with
            | AssertionError a => Some (AssertionError a)
            | RecursionError => Some RecursionError
            | Passed right_black_height =>
                if negb (left_black_height =? right_black_height)
                then Some (AssertionError (value c)) else
                ok ← (if is_red (color c) then
                        lc ← rd color s l;
                        if negb (is_black lc) then Some false
                        else rc ← rd color s r; Some (is_black rc)
                      else Some true);
                if negb ok then Some (AssertionError (value c)) else
                Some (Passed (left_black_height
                              + (if is_black (color c) then 1 else 0)))
            end
        end
  end.

Definition validate (limit : nat) (s : Tree) : option (checked unit) :=
  r ← root s;
  ok ← (if negb (is_nil s r)
        then c ← rd color s r; Some (is_black c) else Some true);
  if negb ok then Some (AssertionError None) else
  res ← check_node limit s r None None;
  match res with
  | Passed _ => Some (Passed tt)
  | AssertionError a => Some (AssertionError a)
  | RecursionError => Some RecursionError
  end.

End RB.

(** ** In-order enumeration, as the test suites define it
    ([inorder_values] in [test/]): the walk stops at [stop], which is
    [None] for AVL and Treap and [self.nil] for Red-Black. *)
Fixpoint inorder_values (fuel : nat) (s : Tree) (stop n : option ref)
    : option (list (option string)) :=
  if bool_decide (n = stop) then Some []
  else
    match fuel with
    | O => None
    | S fuel =>
        x ← n;
        c ← cells s !! x;
        ls ← inorder_values fuel s stop (left c);
        rs ← inorder_values fuel s stop (right c);
        Some (ls ++ value c :: rs)
    end.

Definition inorder (s : Tree) : option (list (option string)) :=
  inorder_values (fuel_of s) s (nil s) (root s).

(** * Abstraction: the tree that a store represents

    A [tree] records, for every node object, its reference and the
    attributes that are not links.  [rep nilp σ t p] states that the
    store [σ] holds the objects of [t] linked as [t] prescribes, under
    the parent [p], with [nilp] in the place of every missing child
    ([None], or the sentinel for Red-Black). *)

Record Info := mkInfo {
  ikey : string;
  iheight : Z;
  icolor : option bool;
  iprio : option Z
}.

Definition cell (i : Info) (p l r : option ref) : Node :=
  mkNode (Some (ikey i)) p l r (iheight i) (icolor i) (iprio i).

Inductive tree :=
| E
| T (l : tree) (x : ref) (i : Info) (r : tree).

Fixpoint ids (t : tree) : list ref :=
  match t with
  | E => []
  | T l x _ r => ids l ++ x :: ids r
  end.

Fixpoint elems (t : tree) : list Info :=
  match t with
  | E => []
  | T l _ i r => elems l ++ i :: elems r
  end.

Definition keys (t : tree) : list string := ikey <$> elems t.

Fixpoint size (t : tree) : nat :=
  match t with
  | E => 0
  | T l _ _ r => S (size l + size r)
  end.

(** A tree with a hole: the path from the hole up to the root, the
    innermost frame first. *)
Inductive frame :=
| FL (x : ref) (i : Info) (r : tree)
| FR (l : tree) (x : ref) (i : Info).

Definition ctx := list frame.

Fixpoint plug (c : ctx) (t : tree) : tree :=
  match c with
  | [] => t
  | FL x i r :: c => plug c (T t x i r)
  | FR l x i :: c => plug c (T l x i t)
  end.

Fixpoint cids (c : ctx) : list ref :=
  match c with
  | [] => []
  | FL x _ r :: c => x :: ids r ++ cids c
  | FR l x _ :: c => x :: ids l ++ cids c
  end.

(** The elements of the context to the left and to the right of the hole. *)
Fixpoint cleft (c : ctx) : list Info :=
  match c with
  | [] => []
  | FL _ _ _ :: c => cleft c
  | FR l _ i :: c => cleft c ++ elems l ++ [i]
  end.

Fixpoint cright (c : ctx) : list Info :=
  match c with
  | [] => []
  | FL _ i r :: c => i :: elems r ++ cright c
  | FR _ _ _ :: c => cright c
  end.

Section Rep.
Variable nilp : option ref.

Definition ptr (t : tree) : option ref :=
  match t with
  | E => nilp
  | T _ x _ _ => Some x
  end.

Fixpoint rep (σ : gmap ref Node) (t : tree) (p : option ref) : Prop :=
  match t with
  | E => True
  | T l x i r =>
      σ !! x = Some (cell i p (ptr l) (ptr r))
      ∧ rep σ l (Some x) ∧ rep σ r (Some x)
  end.

(** The parent of the hole. *)
Definition cpar (c : ctx) (top : option ref) : option ref :=
  match c with
  | [] => top
  | FL x _ _ :: _ | FR _ x _ :: _ => Some x
  end.

(** [rep_ctx σ c h top]: the store holds the frames of [c], the link
    into the hole being [h]. *)
Fixpoint rep_ctx (σ : gmap ref Node) (c : ctx) (h top : option ref) : Prop :=
  match c with
  | [] => True
  | FL x i r :: c =>
      σ !! x = Some (cell i (cpar c top) h (ptr r))
      ∧ rep σ r (Some x) ∧ rep_ctx σ c (Some x) top
  | FR l x i :: c =>
      σ !! x = Some (cell i (cpar c top) (ptr l) h)
      ∧ rep σ l (Some x) ∧ rep_ctx σ c (Some x) top
  end.

(** The link that the owner of the whole tree holds. *)
Definition croot (c : ctx) (h : option ref) : option ref :=
  match last c with
  | None => h
  | Some (FL x _ _) | Some (FR _ x _) => Some x
  end.

End Rep.

(** Two lists of references without a common element. *)
Definition disj (l k : list ref) : Prop := ∀ x, x ∈ l → x ∉ k.

(** The attributes of the tree object that no node operation touches. *)
Definition same_attrs (s s' : Tree) : Prop :=
  next s' = next s ∧ nil s' = nil s ∧ max_priority s' = max_priority s.

Definition same_counters (s s' : Tree) : Prop :=
  rotations_insert s' = rotations_insert s
  ∧ rotations_delete s' = rotations_delete s
  ∧ guard_returns s' = guard_returns s.

(** ** Ordering of the keys *)

Definition klt (a b : string) : Prop := str_lt a b = true.

Definition sorted (l : list string) : Prop := StronglySorted klt l.

Definition ilt (a b : Info) : Prop := klt (ikey a) (ikey b).

Definition bst (t : tree) : Prop := StronglySorted ilt (elems t).

(** [v] lies between the elements to the left and to the right of the hole. *)
Definition fits (v : string) (c : ctx) : Prop :=
  Forall (λ i, klt (ikey i) v) (cleft c) ∧ Forall (λ i, klt v (ikey i)) (cright c).

(** The descent for [v] on the tree itself: where the search loops of
    the engines stop. *)
Fixpoint locate (v : string) (c : ctx) (t : tree) : ctx * tree :=
  match t with
  | E => (c, E)
  | T l x i r =>
      if str_eq v (ikey i) then (c, t)
      else if str_lt v (ikey i) then locate v (FL x i r :: c) l
           else locate v (FR l x i :: c) r
  end.

(** ** A represented tree with a focus

    [zrep s c t]: the store of [s] represents the tree [plug c t], whose
    root the tree object [s] holds, without a sentinel. *)
Definition zrep (s : Tree) (c : ctx) (t : tree) : Prop :=
  NoDup (ids t ++ cids c)
  ∧ rep_ctx None (cells s) c (ptr None t) None
  ∧ rep None (cells s) t (cpar c None)
  ∧ root s = croot c (ptr None t).

(** The rotations counted between [s] and [s']: [n] of them, on the
    counter that [is_delete] selects, and no return through a guard. *)
Definition counted (is_delete : bool) (n : nat) (s s' : Tree) : Prop :=
  guard_returns s' = guard_returns s
  ∧ if is_delete
    then rotations_insert s' = rotations_insert s
         ∧ rotations_delete s' = (rotations_delete s + n)%nat
    else rotations_insert s' = (rotations_insert s + n)%nat
         ∧ rotations_delete s' = rotations_delete s.

(** ** AVL shape *)

Fixpoint hgt (t : tree) : Z :=
  match t with
  | E => 0
  | T l _ _ r => 1 + Z.max (hgt l) (hgt r)
  end.

(** The [height] attribute of the root, as [_get_height] reads it. *)
Definition sh (t : tree) : Z :=
  match t with
  | E => 0
  | T _ _ i _ => iheight i
  end.

Fixpoint avl (t : tree) : Prop :=
  match t with
  | E => True
  | T l _ i r =>
      avl l ∧ avl r
      ∧ iheight i = 1 + Z.max (hgt l) (hgt r)
      ∧ -1 ≤ hgt l - hgt r ≤ 1
  end.

Definition set_ih (h : Z) (i : Info) : Info :=
  mkInfo (ikey i) h (icolor i) (iprio i).

(** The frames around a hole are AVL nodes for a hole of height [h]. *)
Fixpoint cavl (c : ctx) (h : Z) : Prop :=
  match c with
  | [] => True
  | FL _ i r :: c =>
      avl r ∧ -1 ≤ h - hgt r ≤ 1
      ∧ iheight i = 1 + Z.max h (hgt r) ∧ cavl c (iheight i)
  | FR l _ i :: c =>
      avl l ∧ -1 ≤ hgt l - h ≤ 1
      ∧ iheight i = 1 + Z.max (hgt l) h ∧ cavl c (iheight i)
  end.

(** The nodes of a tree in order, each with its key. *)
Fixpoint binds (t : tree) : list (ref * string) :=
  match t with
  | E => []
  | T l x i r => binds l ++ (x, ikey i) :: binds r
  end.

(** Every node of the tree is an object of the store. *)
Definition bounded (s : Tree) (t : tree) : Prop :=
  Forall (λ x, (x < next s)%nat) (ids t).

(** ** The invariant of an AVL tree object: it represents a search tree
    with exact heights and balance factors in {-1, 0, 1}. *)
Definition avl_inv (s : Tree) (t : tree) : Prop :=
  nil s = None ∧ zrep s [] t ∧ bounded s t ∧ bst t ∧ avl t.

(** The node of a frame. *)
Definition fid (f : frame) : ref :=
  match f with FL x _ _ | FR _ x _ => x end.

Definition finfo (f : frame) : Info :=
  match f with FL _ i _ | FR _ _ i => i end.

(** The attributes of a node that [Node(...)] has just created. *)
Definition new_info (v : string) (c : option bool) (q : option Z) : Info :=
  mkInfo v 1 c q.

(** A fact kept aside while the tactics split its likes. *)
Definition keep (P : Prop) : Prop := P.

(** The leftmost node of a tree and its key. *)
Fixpoint minid (d : ref) (t : tree) : ref :=
  match t with
  | E => d
  | T l x _ _ => minid x l
  end.

Fixpoint minkey (d : string) (t : tree) : string :=
  match t with
  | E => d
  | T l _ i _ => minkey (ikey i) l
  end.

Definition set_ikey (k : string) (i : Info) : Info :=
  mkInfo k (iheight i) (icolor i) (iprio i).

(** What [_delete_node] leaves of the nodes of [t], in order: a node
    with at most one child gives its place to that child; a node with
    two children stays, takes the key of its successor, and the
    successor is removed from the right subtree. *)
Fixpoint bdelete (v : string) (t : tree) : list (ref * string) :=
  match t with
  | E => []
  | T l x i r =>
      if str_lt v (ikey i) then bdelete v l ++ (x, ikey i) :: binds r
      else if str_lt (ikey i) v then binds l ++ (x, ikey i) :: bdelete v r
      else match l, r with
           | T _ _ _ _, T _ _ ir _ =>
               binds l ++ (x, minkey (ikey ir) r)
                 :: bdelete (minkey (ikey ir) r) r
           | _, _ => binds l ++ binds r
           end
  end.

(** [zrep] up to the link into the hole, which [_delete_node] leaves to
    its caller. *)
Definition zrep_stale (s : Tree) (c : ctx) (t : tree) : Prop :=
  ∃ h, NoDup (ids t ++ cids c)
       ∧ rep_ctx None (cells s) c h None
       ∧ rep None (cells s) t (cpar c None)
       ∧ root s = croot c h.

(** ** Treap shape: a max-heap on the priorities *)

(** The root of [t], if any, has a priority, and it is at most [q]. *)
Definition le_prio (t : tree) (q : Z) : Prop :=
  match t with
  | E => True
  | T _ _ i _ => ∃ p, iprio i = Some p ∧ p ≤ q
  end.

Fixpoint heap (t : tree) : Prop :=
  match t with
  | E => True
  | T l _ i r =>
      ∃ q, iprio i = Some q ∧ le_prio l q ∧ le_prio r q ∧ heap l ∧ heap r
  end.

(** The innermost frame of [c], if any, has a priority at least [q]. *)
Definition cle (c : ctx) (q : Z) : Prop :=
  match c with
  | [] => True
  | f :: _ => ∃ p, iprio (finfo f) = Some p ∧ q ≤ p
  end.

(** The root of [t] may stand in the hole of [c]. *)
Definition cfits (t : tree) (c : ctx) : Prop :=
  match c with
  | [] => True
  | f :: _ => ∃ p, iprio (finfo f) = Some p ∧ le_prio t p
  end.

Fixpoint cheap (c : ctx) : Prop :=
  match c with
  | [] => True
  | FL _ i r :: c =>
      ∃ q, iprio i = Some q ∧ le_prio r q ∧ heap r ∧ cle c q ∧ cheap c
  | FR l _ i :: c =>
      ∃ q, iprio i = Some q ∧ le_prio l q ∧ heap l ∧ cle c q ∧ cheap c
  end.

(** The invariant of a Treap object. *)
Definition treap_inv (s : Tree) (t : tree) : Prop :=
  nil s = None ∧ zrep s [] t ∧ bounded s t ∧ bst t ∧ heap t.

(** ** Red-Black trees: representation with the sentinel *)

(** The sentinel object: no value, BLACK, its own children. *)
Definition sentinel (p : option ref) (nl : ref) : Node :=
  mkNode None p (Some nl) (Some nl) 1 (Some BLACK) None.

(** [rzrep s nl c t]: the store of [s] represents the tree [plug c t]
    with the sentinel [nl] for every missing child and as the parent of
    the root. *)
Definition rzrep (s : Tree) (nl : ref) (c : ctx) (t : tree) : Prop :=
  nil s = Some nl
  ∧ NoDup (nl :: ids t ++ cids c)
  ∧ rep_ctx (Some nl) (cells s) c (ptr (Some nl) t) (Some nl)
  ∧ rep (Some nl) (cells s) t (cpar c (Some nl))
  ∧ root s = croot c (ptr (Some nl) t)
  ∧ ∃ p, cells s !! nl = Some (sentinel p nl).

Definition set_ic (co : option bool) (i : Info) : Info :=
  mkInfo (ikey i) (iheight i) co (iprio i).

(** The color that the code reads at the root of [t]. *)
Definition rcol (t : tree) : option bool :=
  match t with
  | E => Some BLACK
  | T _ _ i _ => icolor i
  end.

(** [rb t n]: no RED node of [t] has a RED child and every path from
    the root of [t] to a sentinel passes through [n] BLACK nodes. *)
Fixpoint rb (t : tree) (n : nat) : Prop :=
  match t with
  | E => n = 0%nat
  | T l _ i r =>
      (icolor i = Some RED ∧ rcol l = Some BLACK ∧ rcol r = Some BLACK
       ∧ rb l n ∧ rb r n)
      ∨ (icolor i = Some BLACK ∧ ∃ m, n = S m ∧ rb l m ∧ rb r m)
  end.

(** The frames around a hole make a Red-Black tree once the hole
    receives a subtree of black height [n], RED at its root only if
    [hred] says so. *)
Fixpoint crb (c : ctx) (n : nat) (hred : bool) : Prop :=
  match c with
  | [] => hred = false
  | FL _ i r :: c | FR r _ i :: c =>
      (icolor i = Some RED ∧ hred = false ∧ rcol r = Some BLACK
       ∧ rb r n ∧ crb c n true)
      ∨ (icolor i = Some BLACK ∧ rb r n ∧ crb c (S n) false)
  end.

(** The invariant of a Red-Black tree object. *)
Definition rb_inv (s : Tree) (t : tree) : Prop :=
  ∃ nl, rzrep s nl [] t ∧ bounded s t ∧ (nl < next s)%nat ∧ bst t
        ∧ rcol t = Some BLACK ∧ ∃ n, rb t n.

(** The object that the link to the root of [t] designates. *)
Definition pid (nl : ref) (t : tree) : ref :=
  match t with
  | E => nl
  | T _ x _ _ => x
  end.

(** [t] with a BLACK root. *)
Definition blacken (t : tree) : tree :=
  match t with
  | E => E
  | T l x i r => T l x (set_ic (Some BLACK) i) r
  end.

(** The frames around the node [z] of [_insert_fixup]: those of a
    Red-Black tree, except that the parent of the hole may be RED while
    the hole receives a RED node, and that the hole may be the root. *)
Definition irb (c : ctx) (n : nat) : Prop :=
  match c with
  | [] => True
  | FL _ i r :: c | FR r _ i :: c =>
      (icolor i = Some RED ∧ rcol r = Some BLACK ∧ rb r n ∧ crb c n true)
      ∨ (icolor i = Some BLACK ∧ rb r n ∧ crb c (S n) false)
  end.

(** Whether the code reads RED at the root of [t]. *)
Definition hred (t : tree) : bool := bool_decide (rcol t = Some RED).

(** Between [s] and [s'] the attributes of the tree object and the
    objects that [s] holds are the same: [s'] holds, at most, new
    objects. *)
Definition same_objects (s s' : Tree) : Prop :=
  root s' = root s ∧ nil s' = nil s ∧ max_priority s' = max_priority s
  ∧ rotations_insert s' = rotations_insert s
  ∧ rotations_delete s' = rotations_delete s
  ∧ guard_returns s' = guard_returns s
  ∧ (next s ≤ next s')%nat
  ∧ ∀ x, (x < next s)%nat → cells s' !! x = cells s !! x.

(** The state after the first two statements of [RBTree.insert]: the
    new RED object, its three links on the sentinel [nl]. *)
Definition fresh_red (v : string) (nl : ref) (s : Tree) : Tree :=
  wr_parent (next s) (Some nl)
    (wr_right (next s) (Some nl)
       (wr_left (next s) (Some nl)
          (alloc (Node_init (Some v) None (Some RED) None) s).2)).

(** ** The loop of [_delete_fixup], part by part

    The statements of the loop body that follow the first [if], once
    the sibling [w] is BLACK (cases 2 to 4 of CLRS), for [x] on the left
    and on the right of its parent; [rec] is the rest of the loop. *)
Definition fixup_left_tail (rec : Tree → ref → option (ref * Tree))
    (s : Tree) (x w : ref) : option (ref * Tree) :=
  wl ← nd left s w;
  wlc ← rd color s wl;
  all_black ← (if RB.is_black wlc
          then wr ← nd right s w; wrc ← rd color s wr;
               Some (RB.is_black wrc)
          else Some false);
  if (all_black : bool) then
    let s := wr_color w (Some RED) s in
    xp ← nd parent s x;
    rec s xp
  else
    wr ← nd right s w;
    wrc ← rd color s wr;
    '(w, s) ← (if RB.is_black wrc then
                 wl ← nd left s w;
                 let s := wr_color wl (Some BLACK) s in
                 let s := wr_color w (Some RED) s in
                 s ← RB.right_rotate s w true;
                 xp ← nd parent s x;
                 w ← nd right s xp;
                 Some (w, s)
               else Some (w, s));
    xp ← nd parent s x;
    xpc ← rd color s xp;
    let s := wr_color w xpc s in
    let s := wr_color xp (Some BLACK) s in
    wr ← nd right s w;
    let s := wr_color wr (Some BLACK) s in
    s ← RB.left_rotate s xp true;
    r ← root s;
    rec s r.

Definition fixup_right_tail (rec : Tree → ref → option (ref * Tree))
    (s : Tree) (x w : ref) : option (ref * Tree) :=
  wr ← nd right s w;
  wrc ← rd color s wr;
  all_black ← (if RB.is_black wrc
          then wl ← nd left s w; wlc ← rd color s wl;
               Some (RB.is_black wlc)
          else Some false);
  if (all_black : bool) then
    let s := wr_color w (Some RED) s in
    xp ← nd parent s x;
    rec s xp
  else
    wl ← nd left s w;
    wlc ← rd color s wl;
    '(w, s) ← (if RB.is_black wlc then
                 wr ← nd right s w;
                 let s := wr_color wr (Some BLACK) s in
                 let s := wr_color w (Some RED) s in
                 s ← RB.left_rotate s w true;
                 xp ← nd parent s x;
                 w ← nd left s xp;
                 Some (w, s)
               else Some (w, s));
    xp ← nd parent s x;
    xpc ← rd color s xp;
    let s := wr_color w xpc s in
    let s := wr_color xp (Some BLACK) s in
    wl ← nd left s w;
    let s := wr_color wl (Some BLACK) s in
    s ← RB.right_rotate s xp true;
    r ← root s;
    rec s r.

(** The node [x] of [_delete_fixup] may be the sentinel: what the loop
    needs of it is its [parent] attribute. *)
Definition dzrep (s : Tree) (nl : ref) (c : ctx) (t : tree) : Prop :=
  rzrep s nl c t ∧ nd parent s (pid nl t) = cpar c (Some nl).

(** The subtree at [x] in [_delete_fixup]: a Red-Black tree of black
    height [k] with a BLACK root, or one with a RED root that has the
    black height [S k] once its root is BLACK. *)
Definition short (t : tree) (k : nat) : Prop :=
  (rcol t = Some BLACK ∧ rb t k) ∨ (rcol t = Some RED ∧ rb (blacken t) (S k)).

(** The outcome [res] of the loop of [_delete_fixup], started in the
    state [s] on the subtree [t] at the hole of [c]: the node it returns
    is the root of a subtree [t'], and the tree is a Red-Black tree once
    that root is BLACK. *)
Definition fixed (nl : ref) (s : Tree) (c : ctx) (t : tree)
    (res : option (ref * Tree)) : Prop :=
  ∃ s' c' t' n,
    res = Some (pid nl t', s')
    ∧ rzrep s' nl c' t'
    ∧ (∃ m, rb (plug c' (blacken t')) m)
    ∧ rcol (plug c' (blacken t')) = Some BLACK
    ∧ binds (plug c' t') = binds (plug c t)
    ∧ same_attrs s s' ∧ counted true n s s'.

(** ** [RBTree.delete], part by part

    The statements of [delete] between the search loop and the call of
    [_delete_fixup]: the node [z] leaves the tree; the result is the
    node [x], the color [y_original_color] and the new state. *)
Definition unlink (s : Tree) (z : ref) (y_original_color : option bool)
    (zl zr : ref) : option (ref * option bool * Tree) :=
  if RB.is_nil s zl then
    s ← RB.transplant s z zr; Some (zr, y_original_color, s)
  else if RB.is_nil s zr then
    s ← RB.transplant s z zl; Some (zl, y_original_color, s)
  else
    y ← RB.minimum (fuel_of s) s zr;
    y_original_color ← rd color s y;
    x ← nd right s y;
    yp ← nd parent s y;
    s ← (if bool_decide (yp = z) then Some (wr_parent x (Some y) s)
         else
           yr ← nd right s y;
           s ← RB.transplant s y yr;
           zr ← nd right s z;
           let s := wr_right y (Some zr) s in
           yr ← nd right s y;
           Some (wr_parent yr (Some y) s));
    s ← RB.transplant s z y;
    zl ← nd left s z;
    let s := wr_left y (Some zl) s in
    yl ← nd left s y;
    let s := wr_parent yl (Some y) s in
    zc ← rd color s z;
    let s := wr_color y zc s in
    Some (x, y_original_color, s).

(** The leftmost node of the tree [T l x i r], with the frames above it
    added to [c]. *)
Fixpoint lmost (c : ctx) (l : tree) (x : ref) (i : Info) (r : tree)
    : ctx * (ref * Info * tree) :=
  match l with
  | E => (c, (x, i, r))
  | T ll lx li lr => lmost (FL x i r :: c) ll lx li lr
  end.

(** What [unlink] does to the tree when [z] is the root of the subtree
    [T l z iz r] at the hole of [c]: the frames around the node [x], the
    subtree under [x] and the color that [delete] tests.  A node [z]
    with two children is replaced by its successor [y], which takes the
    color of [z]; [x] is the right child of [y]. *)
Definition unlinked (c : ctx) (l : tree) (iz : Info) (r : tree)
    : ctx * tree * option bool :=
  match l, r with
  | E, _ => (c, r, icolor iz)
  | _, E => (c, l, icolor iz)
  | _, T rl rx ri rr =>
      let '(cy, (y, iy, ry)) := lmost [] rl rx ri rr in
      (cy ++ FR l y (set_ic (icolor iz) iy) :: c, ry, icolor iy)
  end.

Definition is_FL (f : frame) : Prop :=
  match f with
  | FL _ _ _ => True
  | FR _ _ _ => False
  end.

(** * The three engines behind their common interface

    [BaseDataStructure] declares [insert], [contains] and [delete]; an
    [op] is one call, a list of them a use of the tree from its
    creation.  [Insert v q] carries the priority [q] that [Treap.insert]
    draws; the two other engines ignore it. *)

Inductive engine :=
| EAVL
| ERB
| ETreap (max_prio : Z).

Inductive op :=
| Insert (v : string) (q : Z)
| Contains (v : string)
| Delete (v : string).

(** The empty tree that the constructor builds. *)
Definition engine_init (e : engine) : Tree :=
  match e with
  | EAVL => AVL.init
  | ERB => RB.init
  | ETreap max_prio => Treap.init max_prio
  end.

Definition exec (e : engine) (o : op) (s : Tree) : option (bool * Tree) :=
  match e, o with
  | EAVL, Insert v _ => AVL.insert s v
  | EAVL, Contains v => b ← AVL.contains s v; Some (b, s)
  | EAVL, Delete v => AVL.delete s v
  | ERB, Insert v _ => RB.insert s v
  | ERB, Contains v => b ← RB.contains s v; Some (b, s)
  | ERB, Delete v => RB.delete s v
  | ETreap _, Insert v q => Treap.insert s v q
  | ETreap _, Contains v => b ← Treap.contains s v; Some (b, s)
  | ETreap _, Delete v => Treap.delete s v
  end.

(** The calls of [ops] in turn; the results of the calls are in [outs]. *)
Fixpoint run_outs (e : engine) (ops : list op) (s : Tree)
    : option (list bool * Tree) :=
  match ops with
  | [] => Some ([], s)
  | o :: ops =>
      '(b, s) ← exec e o s;
      '(bs, s) ← run_outs e ops s;
      Some (b :: bs, s)
  end.

Definition run (e : engine) (ops : list op) (s : Tree) : option Tree :=
  snd <$> run_outs e ops s.

(** The invariant of the tree object of each engine. *)
Definition inv (e : engine) (s : Tree) (t : tree) : Prop :=
  match e with
  | EAVL => avl_inv s t
  | ERB => rb_inv s t
  | ETreap _ => treap_inv s t
  end.

(** The ordered set that the calls maintain. *)
Definition keyset (t : tree) : gset string := list_to_set (keys t).

Definition op_keys (o : op) (K : gset string) : gset string :=
  match o with
  | Insert v _ => K ∪ {[v]}
  | Contains _ => K
  | Delete v => K ∖ {[v]}
  end.

Definition op_result (o : op) (K : gset string) : bool :=
  match o with
  | Insert v _ => bool_decide (v ∉ K)
  | Contains v | Delete v => bool_decide (v ∈ K)
  end.

(** The keys present after the calls of [ops] on a set [K], and the
    results that the calls report. *)
Fixpoint present_from (K : gset string) (ops : list op) : gset string :=
  match ops with
  | [] => K
  | o :: ops => present_from (op_keys o K) ops
  end.

Fixpoint results_from (K : gset string) (ops : list op) : list bool :=
  match ops with
  | [] => []
  | o :: ops => op_result o K :: results_from (op_keys o K) ops
  end.

Definition present (ops : list op) : gset string := present_from ∅ ops.
Definition results (ops : list op) : list bool := results_from ∅ ops.

(** What a call may do to the counters: an insertion counts rotations
    on [rotations_insert], a deletion on [rotations_delete], a lookup
    leaves the tree object as it is; no rotation returns through its
    guard. *)
Definition op_counted (o : op) (s s' : Tree) : Prop :=
  match o with
  | Insert _ _ => ∃ k, counted false k s s'
  | Contains _ => s' = s
  | Delete _ => ∃ k, counted true k s s'
  end.

(** The link [child] of the node [x] of a Treap, if it leads to a node:
    that node has a priority no greater than the priority of [x], and
    its [parent] link leads back to [x]. *)
Definition child_ok (s : Tree) (x : ref) (child : option ref) : Prop :=
  match child with
  | None => True
  | Some y =>
      ∃ q qy, nd priority s x = Some q ∧ nd priority s y = Some qy
              ∧ qy ≤ q ∧ rd parent s y = Some (Some x)
  end.

(** A rotation primitive called with the flag [fl] on [s], with the
    state [res] after it: the counter that [fl] selects is one higher
    and the other is as before, unless the call returned through its
    guard, which leaves both as they were. *)
Definition counts_one (fl : bool) (s : Tree) (res : option Tree) : Prop :=
  match res with
  | None => True
  | Some s' =>
      counted fl 1 s s'
      ∨ (rotations_insert s' = rotations_insert s
         ∧ rotations_delete s' = rotations_delete s
         ∧ guard_returns s' = S (guard_returns s))
  end.

(** ** The rule that [Treap.delete] follows to rotate a node down

    [a.priority > b.priority], as the loop of [delete] compares the
    priorities of the two children. *)
Definition prio_gt (a b : Info) : bool :=
  match iprio a, iprio b with
  | Some p, Some q => p >? q
  | _, _ => false
  end.

(** The frames that end up above a node with the subtrees [l] and [r],
    under the frames [c], once the rule has made it a leaf: with only a
    right child the node is rotated left and that child becomes its
    parent, keeping its own right subtree; with only a left child it is
    rotated right; with both, right if the left child has the strictly
    greater priority and left otherwise. *)
Fixpoint sink (l : tree) : ctx → tree → ctx :=
  fix sink_right (c : ctx) (r : tree) {struct r} : ctx :=
    match l, r with
    | E, E => c
    | E, T rl y iy rr => sink_right (FL y iy rr :: c) rl
    | T ll x ix lr, E => sink lr (FR ll x ix :: c) E
    | T ll x ix lr, T rl y iy rr =>
        if prio_gt ix iy
        then sink lr (FR ll x ix :: c) r
        else sink_right (FL y iy rr :: c) rl
    end.

(** ** Concrete trees

    The tree of the keys m, c, t inserted in this order, in the AVL and
    in the Red-Black engine, with the trees that the two stores
    represent: m is the root and has two children. *)
Definition three_keys : list op := [Insert "m" 0; Insert "c" 0; Insert "t" 0].

Definition avl_mct : Tree := default AVL.init (run EAVL three_keys AVL.init).

Definition avl_mct_tree : tree :=
  T (T E 1%nat (mkInfo "c" 1 None None) E)
    0%nat (mkInfo "m" 2 None None)
    (T E 2%nat (mkInfo "t" 1 None None) E).

Definition rb_mct : Tree := default RB.init (run ERB three_keys RB.init).

Definition rb_mct_tree : tree :=
  T (T E 2%nat (mkInfo "c" 1 (Some RED) None) E)
    1%nat (mkInfo "m" 1 (Some BLACK) None)
    (T E 3%nat (mkInfo "t" 1 (Some RED) None) E).

(** A store built by hand, as a caller of [validate] may hold it: every
    node is in order with its two children, the heights and balance
    factors are those of an AVL tree, but z, in the left subtree of m,
    is greater than m.

<<
          m (h=3)
         /       \
      c (h=2)   t (h=1)
         \
        z (h=1)
>> *)
Definition avl_hidden_violation : Tree :=
  mkTree
    (list_to_map
       [(0%nat, mkNode (Some "m") None (Some 1%nat) (Some 2%nat) 3 None None);
        (1%nat, mkNode (Some "c") (Some 0%nat) None (Some 3%nat) 2 None None);
        (2%nat, mkNode (Some "t") (Some 0%nat) None None 1 None None);
        (3%nat, mkNode (Some "z") (Some 1%nat) None None 1 None None)])
    4%nat (Some 0%nat) None 0 0%nat 0%nat 0%nat.

(** ** What the [validate] methods accept *)

(** Every node is in order with its two children: the comparison that
    [_check] of [AVLTree.validate] makes. *)
Fixpoint child_ordered (t : tree) : Prop :=
  match t with
  | E => True
  | T l _ i r =>
      child_ordered l ∧ child_ordered r
      ∧ match l with E => True | T _ _ il _ => klt (ikey il) (ikey i) end
      ∧ match r with E => True | T _ _ ir _ => klt (ikey i) (ikey ir) end
  end.

(** [validate] of each engine, called where the interpreter allows
    [limit] nested calls of its helper. *)
Definition validate (e : engine) (limit : nat) (s : Tree)
    : option (checked unit) :=
  match e with
  | EAVL => AVL.validate limit s
  | ERB => RB.validate limit s
  | ETreap _ => Treap.validate limit s
  end.

(** Whether [limit] nested calls suffice for the walk of [validate] on
    the tree [t]: the helper is called once per level and once more on
    the missing children at the bottom; [AVLTree.validate] does not
    call it on an empty tree. *)
Definition validate_fits (e : engine) (limit : nat) (t : tree) : bool :=
  match e, t with
  | EAVL, E => true
  | _, _ => bool_decide (hgt t < Z.of_nat limit)
  end.

(** [k] lies strictly between the bounds that the [validate] walks of
    the Treap and of the Red-Black tree pass down. *)
Definition in_range (lo hi : option string) (k : string) : Prop :=
  match lo with Some m => klt m k | None => True end
  ∧ match hi with Some m => klt k m | None => True end.

Definition within (lo hi : option string) (t : tree) : Prop :=
  Forall (λ i, in_range lo hi (ikey i)) (elems t).

(** Every node has a priority, every node has a color. *)
Definition prioritized (t : tree) : Prop :=
  Forall (λ i, is_Some (iprio i)) (elems t).

Definition colored (t : tree) : Prop :=
  Forall (λ i, is_Some (icolor i)) (elems t).

(** The tree that [avl_hidden_violation] represents. *)
Definition avl_hidden_tree : tree :=
  T (T E 1%nat (mkInfo "c" 2 None None)
       (T E 3%nat (mkInfo "z" 1 None None) E))
    0%nat (mkInfo "m" 3 None None)
    (T E 2%nat (mkInfo "t" 1 None None) E).

(** The Treap of the keys m, c, t, all drawn with the priority 0. *)
Definition treap_mct : Tree :=
  default (Treap.init 10) (run (ETreap 10) three_keys (Treap.init 10)).

Definition treap_mct_tree : tree :=
  T (T E 1%nat (mkInfo "c" 1 None (Some 0)) E)
    0%nat (mkInfo "m" 1 None (Some 0))
    (T E 2%nat (mkInfo "t" 1 None (Some 0)) E).

(** ** [BaseDataStructure.__init__] with [values]

    [for v in values: self.insert(v)], on the empty tree that the
    constructor of the engine has just set up, with both counters at 0;
    each value comes with the priority that [Treap.insert] draws for
    it. *)
Fixpoint insert_all (e : engine) (values : list (string * Z)) (s : Tree)
    : option Tree :=
  match values with
  | [] => Some s
  | (v, q) :: values =>
      '(_, s) ← exec e (Insert v q) s;
      insert_all e values s
  end.

Definition construct (e : engine) (values : list (string * Z)) : option Tree :=
  insert_all e values (engine_init e).

(** The link [child] of the node [x] leads to the missing-child mark
    [nilp] or to a node whose [parent] link leads back to [x]. *)
Definition links_back (nilp : option ref) (s : Tree) (x : ref)
    (child : option ref) : Prop :=
  child = nilp ∨ ∃ y, child = Some y ∧ rd parent s y = Some (Some x).

(** ** [utils/tree_util.py]

    The two functions walk a tree of any engine from its root: a link
    is followed unless it is [None] or leads to a node without a value
    (the sentinel of a Red-Black tree).  Their helpers are recursive:
    [limit] is the number of nested calls of the helper that the
    interpreter still allows, and every call takes one. *)

Module TreeUtil.

(** Outcome of a walk: the value returned, the RuntimeError that
    [tree_height] raises when it meets a node twice, or the
    RecursionError (a RuntimeError too, for Python) of the interpreter. *)
Inductive outcome (A : Type) :=
| Returned (a : A)
| RuntimeError
| RecursionError.
Arguments Returned {A} a.
Arguments RuntimeError {A}.
Arguments RecursionError {A}.

(** [_h], the helper of [tree_height]; all its calls share the set
    [visited], which each call receives and hands on. *)
Fixpoint h (limit : nat) (s : Tree) (visited : gset ref) (n : option ref)
    : option (outcome (Z * gset ref)) :=
  match limit with
  | O => Some RecursionError
  | S limit =>
      match n with
      | None => Some (Returned (0, visited))
      | Some x =>
          c ← cells s !! x;
          match value c with
          | None => Some (Returned (0, visited))
          | Some _ =>
              if bool_decide (x ∈ visited) then Some RuntimeError
              else
                let visited := {[x]} ∪ visited in
                lres ← h limit s visited (left c);
                match lres with
                | RuntimeError => Some RuntimeError
                | RecursionError => Some RecursionError
                | Returned (lh, visited) =>
                    rres ← h limit s visited (right c);
                    match rres with
                    | RuntimeError => Some RuntimeError
                    | RecursionError => Some RecursionError
                    | Returned (rh, visited) =>
                        Some (Returned (1 + Z.max lh rh, visited))
                    end
                end
          end
      end
  end.

Definition tree_height (limit : nat) (s : Tree) (root : option ref)
    : option (outcome Z) :=
  match root with
  | None => Some (Returned 0)
  | Some _ =>
      res ← h limit s ∅ root;
      match res with
      | RuntimeError => Some RuntimeError
      | RecursionError => Some RecursionError
      | Returned (height, _) => Some (Returned height)
      end
  end.

(** [helper] of [compute_balance_metrics]; the list [depths] and the
    variable [max_imbalance] that it updates are passed along. *)
Fixpoint helper (limit : nat) (s : Tree) (depths : list Z) (max_imbalance : Z)
    (node : option ref) (depth : Z) : option (outcome (Z * list Z * Z)) :=
  match limit with
  | O => Some RecursionError
  | S limit =>
      match node with
      | None => Some (Returned (0, depths, max_imbalance))
      | Some x =>
          c ← cells s !! x;
          match value c with
          | None => Some (Returned (0, depths, max_imbalance))
          | Some _ =>
              lres ← helper limit s depths max_imbalance (left c) (depth + 1);
              match lres with
              | RuntimeError => Some RuntimeError
              | RecursionError => Some RecursionError
              | Returned (left_h, depths, max_imbalance) =>
                  rres ← helper limit s depths max_imbalance (right c)
                           (depth + 1);
                  match rres with
                  | RuntimeError => Some RuntimeError
                  | RecursionError => Some RecursionError
                  | Returned (right_h, depths, max_imbalance) =>
                      let depths := depths ++ [depth] in
                      let max_imbalance :=
                        Z.max max_imbalance (Z.abs (left_h - right_h)) in
                      Some (Returned (1 + Z.max left_h right_h, depths,
                                      max_imbalance))
                  end
              end
          end
      end
  end.

(** The dictionary that [compute_balance_metrics] returns; the float
    ["avg_depth"] is [sum(depths) / len(depths)] (0.0 when [depths] is
    empty) and is kept as the two operands of that division. *)
Record metrics := mkMetrics {
  m_height : Z;
  m_depths_sum : Z;
  m_depths_len : nat;
  m_max_subtree_imbalance : Z
}.

Definition sum_list (l : list Z) : Z := foldr Z.add 0 l.

Definition compute_balance_metrics (limit : nat) (s : Tree)
    (root : option ref) : option (outcome metrics) :=
  match root with
  | None => Some (Returned (mkMetrics 0 0 0 0))
  | Some x =>
      c ← cells s !! x;
      match value c with
      | None => Some (Returned (mkMetrics 0 0 0 0))
      | Some _ =>
          res ← helper limit s [] 0 root 1;
          match res with
          | RuntimeError => Some RuntimeError
          | RecursionError => Some RecursionError
          | Returned (height, depths, max_imbalance) =>
              Some (Returned (mkMetrics height (sum_list depths)
                                        (length depths) max_imbalance))
          end
      end
  end.

End TreeUtil.

(** Whether [limit] nested calls suffice for [tree_height] on the tree
    [t] of the engine [e]: [_h] is called once per level and once more
    at the bottom; it is not called on a root that is [None], and is
    called once on a root that is the sentinel. *)
Definition tree_height_fits (e : engine) (limit : nat) (t : tree) : bool :=
  match e, t with
  | ERB, _ => bool_decide (hgt t < Z.of_nat limit)
  | _, E => true
  | _, _ => bool_decide (hgt t < Z.of_nat limit)
  end.

(** The same for [compute_balance_metrics], which calls [helper] on no
    empty tree. *)
Definition metrics_fits (limit : nat) (t : tree) : bool :=
  match t with
  | E => true
  | _ => bool_decide (hgt t < Z.of_nat limit)
  end.


(** The greatest difference of the heights of the two subtrees of a
    node of [t]. *)
Fixpoint imbalance (t : tree) : Z :=
  match t with
  | E => 0
  | T l _ _ r =>
      Z.max (Z.max (imbalance l) (imbalance r)) (Z.abs (hgt l - hgt r))
  end.

(** The depths of the nodes of [t], the root at depth [d], children
    before their parent. *)
Fixpoint depths_of (t : tree) (d : Z) : list Z :=
  match t with
  | E => []
  | T l _ _ r => depths_of l (d + 1) ++ depths_of r (d + 1) ++ [d]
  end.

(** The node that stands for a missing child, if there is one, has no
    value. *)
Definition mark_has_no_value (s : Tree) (nilp : option ref) : Prop :=
  match nilp with
  | None => True
  | Some nl => ∃ c, cells s !! nl = Some c ∧ value c = None
  end.

(** The calls of [ops] with the priorities of the insertions drawn
    anew, from [qs] in turn. *)
Fixpoint redraw (qs : list Z) (ops : list op) : list op :=
  match ops with
  | [] => []
  | Insert v q :: ops =>
      match qs with
      | q' :: qs => Insert v q' :: redraw qs ops
      | [] => Insert v q :: redraw [] ops
      end
  | o :: ops => o :: redraw qs ops
  end.

(** The Red-Black engine, or the Treap with the bound [max_prio] on its
    priorities. *)
Definition rb_or_treap (max_prio : option Z) : engine :=
  match max_prio with
  | None => ERB
  | Some max_prio => ETreap max_prio
  end.

(** ** The rule that [Treap.insert] follows to lift the new node

    [parent.priority < q], as the loop of [insert] compares the
    priority of the parent with the priority [q] of the new node. *)
Definition prio_lt (p : Info) (q : Z) : bool :=
  match iprio p with
  | Some pq => pq <? q
  | None => false
  end.

(** Where a node of priority [q] with the subtrees [l] and [r] under
    the frames [c] ends up: as long as its parent has a strictly
    smaller priority, the parent is rotated (right if the node is its
    left child, left otherwise) and becomes a child of the node. *)
Fixpoint rise (q : Z) (c : ctx) (l r : tree) : ctx * tree * tree :=
  match c with
  | [] => ([], l, r)
  | FL p ip pr :: c' =>
      if prio_lt ip q then rise q c' l (T r p ip pr) else (c, l, r)
  | FR pl p ip :: c' =>
      if prio_lt ip q then rise q c' (T pl p ip l) r else (c, l, r)
  end.

(** A store in which the root m is left-heavy by 2, as [insert] meets
    it on its way up after it has linked a below c. *)
Definition avl_left_chain : Tree :=
  mkTree
    (list_to_map
       [(0%nat, mkNode (Some "m") None (Some 1%nat) None 2 None None);
        (1%nat, mkNode (Some "c") (Some 0%nat) (Some 2%nat) None 2 None None);
        (2%nat, mkNode (Some "a") (Some 1%nat) None None 1 None None)])
    3%nat (Some 0%nat) None 0 0%nat 0%nat 0%nat.

(** * Properties of the representation *)

Section RepFacts.
Variable nilp : option ref.
Local Abbreviation rep := (rep nilp).
Local Abbreviation rep_ctx := (rep_ctx nilp).
Local Abbreviation ptr := (ptr nilp).

Lemma rep_frame σ σ' t p :
  rep σ t p → (∀ k, k ∈ ids t → σ' !! k = σ !! k) → rep σ' t p.
Proof.
  revert p. induction t as [|l IHl x i r IHr]; intros p; simpl; [done|].
  intros (Hx & Hl & Hr) Hk. split_and!.
  - rewrite Hk; [done|]. set_solver.
  - apply IHl; [done|]. intros k ?. apply Hk. set_solver.
  - apply IHr; [done|]. intros k ?. apply Hk. set_solver.
Qed.

Lemma rep_ctx_frame σ σ' c h top :
  rep_ctx σ c h top → (∀ k, k ∈ cids c → σ' !! k = σ !! k) →
  rep_ctx σ' c h top.
Proof.
  revert h. induction c as [|[x i r|l x i] c IH]; intros h; simpl; [done| |].
  - intros (Hx & Hr & Hc) Hk. split_and!.
    + rewrite Hk; [done|]. set_solver.
    + eapply rep_frame; [done|]. intros k ?. apply Hk. set_solver.
    + apply IH; [done|]. intros k ?. apply Hk. set_solver.
  - intros (Hx & Hr & Hc) Hk. split_and!.
    + rewrite Hk; [done|]. set_solver.
    + eapply rep_frame; [done|]. intros k ?. apply Hk. set_solver.
    + apply IH; [done|]. intros k ?. apply Hk. set_solver.
Qed.

Lemma rep_plug σ c t top :
  rep σ (plug c t) top ↔ rep_ctx σ c (ptr t) top ∧ rep σ t (cpar c top).
Proof.
  revert t. induction c as [|[x i r|l x i] c IH]; intros t; simpl.
  - tauto.
  - rewrite IH. simpl. tauto.
  - rewrite IH. simpl. tauto.
Qed.

Lemma ptr_plug c t : ptr (plug c t) = croot c (ptr t).
Proof.
  revert t. induction c as [|f c IH]; intros t; [done|].
  unfold croot. destruct f as [x i r|l x i]; simpl plug; rewrite IH;
    unfold croot; destruct c as [|f' c']; simpl; try done;
    rewrite last_cons; by destruct (last c').
Qed.

End RepFacts.

Lemma ids_plug c t : ids (plug c t) ≡ₚ ids t ++ cids c.
Proof.
  revert t. induction c as [|[x i r|l x i] c IH]; intros t; simpl.
  - by rewrite app_nil_r.
  - rewrite IH. simpl. by rewrite <-!app_assoc.
  - rewrite IH. simpl. rewrite <-!app_assoc. simpl.
    rewrite <-(Permutation_middle (ids t)).
    rewrite (Permutation_app_comm (ids l)). simpl. constructor.
    rewrite <-app_assoc. f_equiv. apply Permutation_app_comm.
Qed.

Lemma elems_plug c t : elems (plug c t) = cleft c ++ elems t ++ cright c.
Proof.
  revert t. induction c as [|[x i r|l x i] c IH]; intros t; simpl.
  - by rewrite app_nil_r.
  - rewrite IH. simpl. by rewrite <-!app_assoc.
  - rewrite IH. simpl. by rewrite <-!app_assoc.
Qed.

Lemma size_ids t : length (ids t) = size t.
Proof. induction t; simpl; [done|]. rewrite length_app. simpl. lia. Qed.

Lemma croot_cons f c h h' : croot (f :: c) h = croot (f :: c) h'.
Proof. unfold croot. rewrite !last_cons. by destruct (last c). Qed.

Lemma croot_nil h : croot [] h = h.
Proof. done. Qed.

(** ** Distinct references

    The references of a tree are pairwise distinct; the tactic
    [nodup_norm] splits such a fact into its atoms. *)

Lemma NoDup_app_disj (l k : list ref) :
  NoDup (l ++ k) → NoDup l ∧ disj l k ∧ NoDup k.
Proof. by intros ?%NoDup_app. Qed.

Lemma NoDup_cons_1 (x : ref) l : NoDup (x :: l) → (x ∉ l) ∧ NoDup l.
Proof. by intros ?%NoDup_cons. Qed.

Lemma disj_app_l l1 l2 k : disj (l1 ++ l2) k → disj l1 k ∧ disj l2 k.
Proof. unfold disj. setoid_rewrite elem_of_app. naive_solver. Qed.

Lemma disj_cons_l x l k : disj (x :: l) k → (x ∉ k) ∧ disj l k.
Proof. unfold disj. setoid_rewrite elem_of_cons. naive_solver. Qed.

Lemma disj_app_r l k1 k2 : disj l (k1 ++ k2) → disj l k1 ∧ disj l k2.
Proof. unfold disj. setoid_rewrite elem_of_app. naive_solver. Qed.

Lemma disj_cons_r x l k : disj l (x :: k) → (x ∉ l) ∧ disj l k.
Proof. unfold disj. setoid_rewrite elem_of_cons. naive_solver. Qed.

Lemma notin_app_1 (x : ref) l k : x ∉ l ++ k → (x ∉ l) ∧ (x ∉ k).
Proof. rewrite elem_of_app. tauto. Qed.

Lemma notin_cons_1 (x y : ref) l : x ∉ y :: l → x ≠ y ∧ (x ∉ l).
Proof. rewrite elem_of_cons. tauto. Qed.

Lemma disj_sym l k : disj l k → disj k l.
Proof. unfold disj. naive_solver. Qed.

Lemma disj_nil_r l : disj l [].
Proof. intros x _. apply not_elem_of_nil. Qed.

Lemma disj_nil_l l : disj [] l.
Proof. intros x Hx. by apply elem_of_nil in Hx. Qed.

Ltac nodup_norm :=
  repeat match goal with
  | H : NoDup (_ ++ _) |- _ =>
      apply NoDup_app_disj in H; destruct H as (? & ? & ?)
  | H : NoDup (_ :: _) |- _ =>
      apply NoDup_cons_1 in H; destruct H as (? & ?)
  | H : NoDup [] |- _ => clear H
  | H : disj (_ ++ _) _ |- _ => apply disj_app_l in H; destruct H as (? & ?)
  | H : disj (_ :: _) _ |- _ => apply disj_cons_l in H; destruct H as (? & ?)
  | H : disj [] _ |- _ => clear H
  | H : disj _ (_ ++ _) |- _ => apply disj_app_r in H; destruct H as (? & ?)
  | H : disj _ (_ :: _) |- _ => apply disj_cons_r in H; destruct H as (? & ?)
  | H : disj _ [] |- _ => clear H
  | H : _ ∉ _ ++ _ |- _ => apply notin_app_1 in H; destruct H as (? & ?)
  | H : _ ∉ _ :: _ |- _ => apply notin_cons_1 in H; destruct H as (? & ?)
  | H : _ ∉ [] |- _ => clear H
  end.

Lemma NoDup_app_disj_2 (l k : list ref) :
  NoDup l → disj l k → NoDup k → NoDup (l ++ k).
Proof. intros. by apply NoDup_app. Qed.

Lemma disj_app_l_2 l1 l2 k : disj l1 k → disj l2 k → disj (l1 ++ l2) k.
Proof. unfold disj. setoid_rewrite elem_of_app. naive_solver. Qed.

Lemma disj_cons_l_2 x l k : x ∉ k → disj l k → disj (x :: l) k.
Proof. unfold disj. setoid_rewrite elem_of_cons. naive_solver. Qed.

Lemma disj_app_r_2 l k1 k2 : disj l k1 → disj l k2 → disj l (k1 ++ k2).
Proof. unfold disj. setoid_rewrite elem_of_app. naive_solver. Qed.

Lemma disj_cons_r_2 x l k : x ∉ l → disj l k → disj l (x :: k).
Proof. unfold disj. setoid_rewrite elem_of_cons. naive_solver. Qed.

Lemma notin_app_2 (x : ref) l k : x ∉ l → x ∉ k → x ∉ l ++ k.
Proof. rewrite elem_of_app. tauto. Qed.

Lemma notin_cons_2 (x y : ref) l : x ≠ y → x ∉ l → x ∉ y :: l.
Proof. rewrite elem_of_cons. tauto. Qed.

(** Rebuilds a distinctness fact from the atoms of [nodup_norm]. *)
Ltac nodup_solve :=
  repeat match goal with
  | |- NoDup (_ ++ _) => apply NoDup_app_disj_2
  | |- NoDup (_ :: _) => apply NoDup_cons_2
  | |- NoDup [] => apply NoDup_nil_2
  | |- disj (_ ++ _) _ => apply disj_app_l_2
  | |- disj (_ :: _) _ => apply disj_cons_l_2
  | |- disj [] _ => apply disj_nil_l
  | |- disj _ (_ ++ _) => apply disj_app_r_2
  | |- disj _ (_ :: _) => apply disj_cons_r_2
  | |- disj _ [] => apply disj_nil_r
  | |- _ ∉ _ ++ _ => apply notin_app_2
  | |- _ ∉ _ :: _ => apply notin_cons_2
  | |- _ ∉ [] => apply not_elem_of_nil
  end;
  first [ assumption | apply not_eq_sym; assumption
        | apply disj_sym; assumption ].

Ltac solve_ne := solve [ assumption | apply not_eq_sym; assumption ].

(** ** Reading and writing the store *)

Lemma cells_count_rotation b s : cells (count_rotation b s) = cells s.
Proof. by destruct b. Qed.
Lemma root_count_rotation b s : root (count_rotation b s) = root s.
Proof. by destruct b. Qed.
Lemma next_count_rotation b s : next (count_rotation b s) = next s.
Proof. by destruct b. Qed.
Lemma nil_count_rotation b s : nil (count_rotation b s) = nil s.
Proof. by destruct b. Qed.
Lemma max_priority_count_rotation b s :
  max_priority (count_rotation b s) = max_priority s.
Proof. by destruct b. Qed.
Lemma guard_returns_count_rotation b s :
  guard_returns (count_rotation b s) = guard_returns s.
Proof. by destruct b. Qed.

Lemma rd_lookup {A} (f : Node → A) s x n :
  cells s !! x = Some n → rd f s x = Some (f n).
Proof. unfold rd. by intros ->. Qed.

Lemma nd_lookup {A} (f : Node → option A) s x n :
  cells s !! x = Some n → nd f s x = f n.
Proof. unfold nd. by intros ->. Qed.

Ltac unwr :=
  rewrite ?cells_count_rotation, ?root_count_rotation, ?next_count_rotation,
    ?nil_count_rotation, ?max_priority_count_rotation,
    ?guard_returns_count_rotation;
  cbn [cells root next nil rotations_insert rotations_delete max_priority
       guard_returns
       with_cells set_root wr_left wr_right wr_parent wr_value wr_height
       wr_color alloc fst snd].

(** Names the state after [Node(...)] instead of unfolding it. *)
Ltac do_alloc s :=
  lazymatch goal with
  | |- context [alloc ?n s] =>
      change (alloc n s) with (next s, (alloc n s).2); cbv beta iota
  end.

Ltac lk :=
  unwr;
  repeat first
    [ rewrite lookup_alter_eq
    | rewrite lookup_alter_ne by solve_ne
    | rewrite lookup_insert_eq
    | rewrite lookup_insert_ne by solve_ne ].

Ltac nsimpl :=
  unfold cell, set_left, set_right, set_parent, set_value, set_height,
    set_color, set_ih, set_ikey, set_ic, sentinel;
  cbn [fmap option_fmap option_map ptr value parent left right height color
       priority ikey iheight icolor iprio].

Ltac lookup_of H := first [ exact H | lk; rewrite H; nsimpl; reflexivity ].

(** Resolves the cell lookup in the goal from the hypothesis on the
    same reference. *)
Ltac solve_cell :=
  match goal with
  | H : cells _ !! ?x = Some _ |- cells _ !! ?x = Some _ => lookup_of H
  | H : cells _ !! ?x = Some _ |- alter _ _ _ !! ?x = Some _ => lookup_of H
  | H : cells _ !! ?x = Some _ |- insert _ _ _ !! ?x = Some _ => lookup_of H
  end.

(** The read that the program [e] performs first. *)
Ltac find_read e k :=
  lazymatch e with
  | mbind _ ?m => find_read m k
  | fmap _ ?m => find_read m k
  | rd ?f ?s ?x => k s x
  | nd ?f ?s ?x => k s x
  end.

Ltac rewrite_read e E :=
  lazymatch e with
  | mbind _ ?m => rewrite_read m E
  | fmap _ ?m => rewrite_read m E
  | rd ?f ?s ?x => rewrite (rd_lookup f s x _ E)
  | nd ?f ?s ?x => rewrite (nd_lookup f s x _ E)
  end.

Ltac step_on e H :=
  find_read e ltac:(fun s x =>
    let E := fresh in
    eassert (E : cells s !! x = Some _) by lookup_of H;
    rewrite_read e E; clear E;
    cbn [mbind option_bind fmap option_fmap option_map ptr cell set_ih
         set_ikey set_ic sentinel value parent left right height color priority
         ikey iheight icolor iprio]).

(** The program of the goal: the left-hand side of its equation. *)
Ltac with_program k :=
  lazymatch goal with
  | |- ?e = _ => k e
  | |- ?e = _ ∧ _ => k e
  | |- ∃ _, ?e = _ ∧ _ => k e
  | |- ∃ _ _, ?e = _ ∧ _ => k e
  | |- ∃ _ _ _, ?e = _ ∧ _ => k e
  | |- ∃ _ _ _ _, ?e = _ ∧ _ => k e
  | |- ∃ _ _ _ _ _, ?e = _ ∧ _ => k e
  | |- fixed _ _ _ _ ?e => k e
  end.

Ltac step_with H := with_program ltac:(fun e => step_on e H).

(** One step of symbolic execution: the first read of the program in
    the goal is answered from the hypothesis on the cell it reads. *)
Ltac step :=
  with_program ltac:(fun e =>
    find_read e ltac:(fun s x =>
      match goal with
      | H : cells _ !! x = Some _ |- _ => step_on e H
      end)).

(** Continues with the result of a call whose outcome [E] is known. *)
Ltac call E := rewrite E; cbn [mbind option_bind fmap option_fmap option_map].

Lemma rep_alter nilp σ t p f x :
  x ∉ ids t → rep nilp σ t p → rep nilp (alter f x σ) t p.
Proof.
  intros Hx Hr. eapply rep_frame; [done|]. intros k Hk.
  apply lookup_alter_ne. by intros ->.
Qed.

Lemma rep_ctx_alter nilp σ c h top f x :
  x ∉ cids c → rep_ctx nilp σ c h top → rep_ctx nilp (alter f x σ) c h top.
Proof.
  intros Hx Hr. eapply rep_ctx_frame; [done|]. intros k Hk.
  apply lookup_alter_ne. by intros ->.
Qed.

Lemma rep_insert nilp σ t p n x :
  x ∉ ids t → rep nilp σ t p → rep nilp (<[x:=n]> σ) t p.
Proof.
  intros Hx Hr. eapply rep_frame; [done|]. intros k Hk.
  apply lookup_insert_ne. by intros ->.
Qed.

Lemma rep_ctx_insert nilp σ c h top n x :
  x ∉ cids c → rep_ctx nilp σ c h top → rep_ctx nilp (<[x:=n]> σ) c h top.
Proof.
  intros Hx Hr. eapply rep_ctx_frame; [done|]. intros k Hk.
  apply lookup_insert_ne. by intros ->.
Qed.

(** Transfers a representation fact across writes to other cells. *)
Ltac frame :=
  unwr;
  repeat first
    [ apply rep_alter; [assumption|]
    | apply rep_ctx_alter; [assumption|]
    | apply rep_insert; [assumption|]
    | apply rep_ctx_insert; [assumption|] ];
  assumption.

(** ** The rotations of AVL and Treap on a represented tree *)

Ltac ptr_ne l :=
  destruct l; simpl in *; nodup_norm; congruence.

Ltac finish_relink Hroot :=
  split_and!; try done;
  first [ solve_cell | frame
        | unwr; rewrite Hroot; first [reflexivity | apply croot_cons] ].

Lemma relink_right_spec s c a x ix b y iy d :
  NoDup (ids (T (T a x ix b) y iy d) ++ cids c) →
  rep_ctx None (cells s) c (Some y) None →
  rep None (cells s) (T (T a x ix b) y iy d) (cpar c None) →
  root s = croot c (Some y) →
  ∃ s', relink_right s y x = Some s'
    ∧ rep_ctx None (cells s') c (Some x) None
    ∧ rep None (cells s') (T a x ix (T b y iy d)) (cpar c None)
    ∧ root s' = croot c (Some x)
    ∧ same_attrs s s' ∧ same_counters s s'.
Proof.
  intros Hnd Hc (Hy & (Hx & Ha & Hb) & Hd) Hroot.
  unfold relink_right, cell in *.
  destruct c as [|[P iP r|l P iP] c'];
    (destruct b as [|bl t it br]; [|destruct Hb as (Ht & Hbl & Hbr)]);
    simpl in *; try destruct Hc as (HP & Hr & Hc); nodup_norm;
    eexists; (split; [repeat step|]).
  - reflexivity.
  - finish_relink Hroot.
  - reflexivity.
  - finish_relink Hroot.
  - rewrite bool_decide_true by done. reflexivity.
  - finish_relink Hroot.
  - rewrite bool_decide_true by done. reflexivity.
  - finish_relink Hroot.
  - rewrite bool_decide_false by ptr_ne l. reflexivity.
  - finish_relink Hroot.
  - rewrite bool_decide_false by ptr_ne l. reflexivity.
  - finish_relink Hroot.
Qed.

Lemma relink_left_spec s c a x ix b y iy d :
  NoDup (ids (T a x ix (T b y iy d)) ++ cids c) →
  rep_ctx None (cells s) c (Some x) None →
  rep None (cells s) (T a x ix (T b y iy d)) (cpar c None) →
  root s = croot c (Some x) →
  ∃ s', relink_left s x y = Some s'
    ∧ rep_ctx None (cells s') c (Some y) None
    ∧ rep None (cells s') (T (T a x ix b) y iy d) (cpar c None)
    ∧ root s' = croot c (Some y)
    ∧ same_attrs s s' ∧ same_counters s s'.
Proof.
  intros Hnd Hc (Hx & Ha & (Hy & Hb & Hd)) Hroot.
  unfold relink_left, cell in *.
  destruct c as [|[P iP r|l P iP] c'];
    (destruct b as [|bl t it br]; [|destruct Hb as (Ht & Hbl & Hbr)]);
    simpl in *; try destruct Hc as (HP & Hr & Hc); nodup_norm;
    eexists; (split; [repeat step|]).
  - reflexivity.
  - finish_relink Hroot.
  - reflexivity.
  - finish_relink Hroot.
  - rewrite bool_decide_true by done. reflexivity.
  - finish_relink Hroot.
  - rewrite bool_decide_true by done. reflexivity.
  - finish_relink Hroot.
  - rewrite bool_decide_false by ptr_ne l. reflexivity.
  - finish_relink Hroot.
  - rewrite bool_decide_false by ptr_ne l. reflexivity.
  - finish_relink Hroot.
Qed.

(** * The order on keys *)

Lemma str_eq_true a b : str_eq a b = true ↔ a = b.
Proof. apply String.eqb_eq. Qed.

Lemma str_eq_false a b : str_eq a b = false ↔ a ≠ b.
Proof. apply String.eqb_neq. Qed.

Lemma str_eq_sym a b : str_eq a b = str_eq b a.
Proof. apply String.eqb_sym. Qed.

Lemma str_lt_compare a b : str_lt a b = true ↔ String.compare a b = Lt.
Proof.
  unfold str_lt, String.ltb. destruct (String.compare a b); split; congruence.
Qed.

Lemma compare_refl a : String.compare a a = Eq.
Proof.
  induction a as [|c a IH]; simpl; [done|].
  unfold Ascii.compare. by rewrite N.compare_refl.
Qed.

Lemma compare_lt_trans a b c :
  String.compare a b = Lt → String.compare b c = Lt → String.compare a c = Lt.
Proof.
  revert b c. induction a as [|x a IH]; intros [|y b] [|z c]; simpl; try done.
  destruct (Ascii.compare x y) eqn:Hxy; try done.
  - apply Ascii.compare_eq_iff in Hxy as ->.
    destruct (Ascii.compare y z); try done. apply IH.
  - intros _. destruct (Ascii.compare y z) eqn:Hyz; try done.
    + apply Ascii.compare_eq_iff in Hyz as ->. by rewrite Hxy.
    + intros _. unfold Ascii.compare in *.
      rewrite N.compare_lt_iff in *.
      assert (H : (Ascii.N_of_ascii x < Ascii.N_of_ascii z)%N) by lia.
      apply N.compare_lt_iff in H. by rewrite H.
Qed.

Lemma klt_irrefl a : ¬ klt a a.
Proof. unfold klt. rewrite str_lt_compare, compare_refl. done. Qed.

Lemma klt_trans a b c : klt a b → klt b c → klt a c.
Proof. unfold klt. rewrite !str_lt_compare. apply compare_lt_trans. Qed.

Lemma klt_asym a b : klt a b → ¬ klt b a.
Proof. intros H1 H2. apply (klt_irrefl a). by eapply klt_trans. Qed.

Lemma klt_ne a b : klt a b → a ≠ b.
Proof. intros H ->. by apply klt_irrefl in H. Qed.

Lemma str_trichotomy a b :
  str_eq a b = false → str_lt a b = false → klt b a.
Proof.
  intros Hne Hlt. unfold klt. rewrite str_lt_compare.
  rewrite String.compare_antisym.
  destruct (String.compare a b) eqn:Hc; simpl; [| |done].
  - apply String.compare_eq_iff in Hc. apply str_eq_false in Hne. done.
  - apply str_lt_compare in Hc. congruence.
Qed.

Lemma str_lt_false a b : klt b a → str_lt a b = false.
Proof.
  intros H. destruct (str_lt a b) eqn:Hab; [|done].
  by apply klt_asym in H.
Qed.

#[global] Instance klt_strict : StrictOrder klt.
Proof.
  split; [intros a; apply klt_irrefl | intros a b c; apply klt_trans].
Qed.

#[global] Instance ilt_strict : StrictOrder ilt.
Proof.
  split; [intros a; apply klt_irrefl | intros a b c; apply klt_trans].
Qed.

Lemma bst_sorted t : bst t → sorted (keys t).
Proof. apply StronglySorted_fmap. done. Qed.

Arguments rd : simpl never.
Arguments counted : simpl never.
Arguments nd : simpl never.

(** * Descents *)

Lemma plug_locate v c t :
  plug (locate v c t).1 (locate v c t).2 = plug c t.
Proof.
  revert c. induction t as [|l IHl x i r IHr]; intros c; simpl; [done|].
  destruct (str_eq v (ikey i)); [done|].
  destruct (str_lt v (ikey i)); [apply IHl|apply IHr].
Qed.

Lemma bst_plug_inv c l x i r :
  bst (plug c (T l x i r)) →
  Forall (λ k, ilt k i) (cleft c ++ elems l) ∧ Forall (ilt i) (elems r ++ cright c).
Proof.
  unfold bst. rewrite elems_plug. simpl.
  rewrite <-(app_assoc (elems l)). rewrite app_assoc. simpl.
  rewrite StronglySorted_app, StronglySorted_cons.
  intros (H1 & _ & H2 & _). split; [|done].
  apply Forall_forall. intros k ?. apply H1; [done|]. by left.
Qed.

Lemma locate_fits v c t :
  bst (plug c t) → fits v c →
  fits v (locate v c t).1
  ∧ match (locate v c t).2 with
    | E => ∀ k, k ∈ elems (plug c t) → ikey k ≠ v
    | T _ _ i _ => ikey i = v
    end.
Proof.
  revert c. induction t as [|l IHl x i r IHr]; intros c Hs Hf; simpl.
  - split; [done|]. intros k. rewrite elems_plug. simpl.
    destruct Hf as [Hl Hr]. rewrite Forall_forall in Hl, Hr.
    intros [Hk|Hk]%elem_of_app.
    + by apply klt_ne, Hl.
    + apply not_eq_sym. by apply klt_ne, Hr.
  - destruct (str_eq v (ikey i)) eqn:Heq.
    { split; [done|]. simpl. symmetry. by apply str_eq_true. }
    apply bst_plug_inv in Hs as Hb. destruct Hb as [Hlo Hhi].
    destruct Hf as [Hl Hr].
    destruct (str_lt v (ikey i)) eqn:Hlt.
    + apply IHl; [done|]. split; [done|]. simpl.
      constructor; [done|]. apply Forall_app in Hhi as [Hhi _].
      apply Forall_app; split; [|done].
      eapply Forall_impl; [done|]. intros k Hk.
      eapply klt_trans; [exact Hlt|exact Hk].
    + apply str_trichotomy in Hlt; [|done].
      apply IHr; [done|]. split; [|done]. simpl.
      apply Forall_app in Hlo as [_ Hlo].
      rewrite !Forall_app. split_and!; [done| |by repeat constructor].
      eapply Forall_impl; [done|]. intros k Hk.
      eapply klt_trans; [exact Hk|exact Hlt].
Qed.

Lemma search_spec fuel s v c t p :
  rep None (cells s) t p → (size t < fuel)%nat →
  search fuel s v (ptr None t) =
  Some (match (locate v c t).2 with E => false | _ => true end).
Proof.
  revert fuel c p. induction t as [|l IHl x i r IHr]; intros fuel c p Hrep Hf.
  - destruct fuel; reflexivity.
  - destruct fuel as [|fuel]; [simpl in Hf; lia|].
    destruct Hrep as (Hx & Hl & Hr). simpl in *.
    step. destruct (str_eq v (ikey i)); [reflexivity|].
    destruct (str_lt v (ikey i)).
    + step. eapply IHl; [done|lia].
    + step. eapply IHr; [done|lia].
Qed.

Lemma descend_spec fuel s v c t :
  rep None (cells s) t (cpar c None) → (size t < fuel)%nat →
  descend fuel s v (ptr None t) (cpar c None) =
  Some (match (locate v c t).2 with
        | E => Slot (cpar (locate v c t).1 None)
        | _ => Duplicate
        end).
Proof.
  revert fuel c. induction t as [|l IHl x i r IHr]; intros fuel c Hrep Hf.
  - destruct fuel; reflexivity.
  - destruct fuel as [|fuel]; [simpl in Hf; lia|].
    destruct Hrep as (Hx & Hl & Hr). simpl in *.
    step. destruct (str_eq v (ikey i)); [reflexivity|].
    destruct (str_lt v (ikey i)).
    + step. apply (IHl fuel (FL x i r :: c)); [done|lia].
    + step. apply (IHr fuel (FR l x i :: c)); [done|lia].
Qed.

Lemma find_spec fuel s v c t p :
  rep None (cells s) t p → (size t < fuel)%nat →
  Treap.find fuel s v (ptr None t) = Some (ptr None (locate v c t).2).
Proof.
  revert fuel c p. induction t as [|l IHl x i r IHr]; intros fuel c p Hrep Hf.
  - destruct fuel; reflexivity.
  - destruct fuel as [|fuel]; [simpl in Hf; lia|].
    destruct Hrep as (Hx & Hl & Hr). simpl in *.
    step. rewrite str_eq_sym. destruct (str_eq v (ikey i)); [reflexivity|]. simpl.
    destruct (str_lt v (ikey i)).
    + step. eapply IHl; [done|lia].
    + step. eapply IHr; [done|lia].
Qed.

(** * AVL: heights, rotations and rebalancing on a represented tree *)

Lemma hgt_nonneg t : 0 ≤ hgt t.
Proof. induction t; simpl; lia. Qed.

Lemma sh_avl t : avl t → sh t = hgt t.
Proof. destruct t; simpl; [done|]. tauto. Qed.

Lemma croot_FL x i r c h : croot (FL x i r :: c) h = croot c (Some x).
Proof. unfold croot. rewrite last_cons. by destruct (last c). Qed.

Lemma croot_FR l x i c h : croot (FR l x i :: c) h = croot c (Some x).
Proof. unfold croot. rewrite last_cons. by destruct (last c). Qed.

Lemma perm_swap (l1 l2 k : list ref) x :
  l1 ++ x :: l2 ++ k ≡ₚ l2 ++ x :: l1 ++ k.
Proof.
  rewrite <-!Permutation_middle. constructor.
  rewrite !app_assoc. f_equiv. apply Permutation_app_comm.
Qed.

Lemma zrep_FL s c l x i r :
  zrep s (FL x i r :: c) l ↔ zrep s c (T l x i r).
Proof.
  unfold zrep. simpl. rewrite croot_FL, <-app_assoc. simpl. tauto.
Qed.

Lemma zrep_FR s c l x i r :
  zrep s (FR l x i :: c) r ↔ zrep s c (T l x i r).
Proof.
  unfold zrep. simpl. rewrite croot_FR, <-app_assoc. simpl.
  rewrite (perm_swap (ids r)). tauto.
Qed.

Lemma zrep_down_l s c l x i r : zrep s c (T l x i r) → zrep s (FL x i r :: c) l.
Proof. apply zrep_FL. Qed.
Lemma zrep_up_l s c l x i r : zrep s (FL x i r :: c) l → zrep s c (T l x i r).
Proof. apply zrep_FL. Qed.
Lemma zrep_down_r s c l x i r : zrep s c (T l x i r) → zrep s (FR l x i :: c) r.
Proof. apply zrep_FR. Qed.
Lemma zrep_up_r s c l x i r : zrep s (FR l x i :: c) r → zrep s c (T l x i r).
Proof. apply zrep_FR. Qed.

Lemma get_height_rep s t p :
  rep None (cells s) t p → AVL.get_height s (ptr None t) = Some (sh t).
Proof.
  destruct t as [|l x i r]; [done|]. intros (Hx & _). simpl.
  eapply rd_lookup in Hx. by rewrite Hx.
Qed.

Lemma get_balance_rep s l x i r p :
  rep None (cells s) (T l x i r) p →
  AVL.get_balance s (Some x) = Some (sh l - sh r).
Proof.
  intros (Hx & Hl & Hr). unfold AVL.get_balance. do 2 step.
  by rewrite (get_height_rep _ _ _ Hl), (get_height_rep _ _ _ Hr).
Qed.

Lemma get_balance_ptr s t p :
  rep None (cells s) t p →
  AVL.get_balance s (ptr None t) =
  Some (match t with E => 0 | T l _ _ r => sh l - sh r end).
Proof.
  destruct t; [done|]. apply get_balance_rep.
Qed.

Lemma update_height_rep s l x i r p :
  rep None (cells s) (T l x i r) p →
  AVL.update_height s (Some x) =
  Some (wr_height x (1 + Z.max (sh l) (sh r)) s).
Proof.
  intros (Hx & Hl & Hr). unfold AVL.update_height. do 2 step.
  by rewrite (get_height_rep _ _ _ Hl), (get_height_rep _ _ _ Hr).
Qed.

Lemma zrep_wr_height s c l x i r h :
  zrep s c (T l x i r) → zrep (wr_height x h s) c (T l x (set_ih h i) r).
Proof.
  intros (Hnd & Hc & (Hx & Hl & Hr) & Hroot). simpl in *.
  split; [done|]. nodup_norm. cbn [rep].
  split_and!; try done; first [solve_cell | frame].
Qed.

Lemma counted_0 b s s' : same_counters s s' → counted b 0 s s'.
Proof. intros (? & ? & ?). destruct b; unfold counted; lia. Qed.

Lemma counted_count b s : counted b 1 s (count_rotation b s).
Proof. destruct b; unfold counted; simpl; lia. Qed.

Lemma counted_trans b n m s1 s2 s3 :
  counted b n s1 s2 → counted b m s2 s3 → counted b (n + m) s1 s3.
Proof. destruct b; unfold counted; lia. Qed.

Lemma same_attrs_refl s : same_attrs s s.
Proof. done. Qed.

Lemma same_attrs_trans s1 s2 s3 :
  same_attrs s1 s2 → same_attrs s2 s3 → same_attrs s1 s3.
Proof. unfold same_attrs. intros (?&?&?) (?&?&?). split_and!; congruence. Qed.

Lemma relink_right_zrep s c a x ix b y iy d :
  zrep s c (T (T a x ix b) y iy d) →
  ∃ s', relink_right s y x = Some s'
    ∧ zrep s' c (T a x ix (T b y iy d))
    ∧ same_attrs s s' ∧ same_counters s s'.
Proof.
  intros (Hnd & Hc & Hr & Hroot).
  destruct (relink_right_spec s c a x ix b y iy d) as (s' & ? & ? & ? & ? & ? & ?);
    try done.
  exists s'. split; [done|]. split; [|done]. unfold zrep.
  split_and!; try done.
  clear -Hnd. simpl in *. rewrite <-!app_assoc in *. simpl in *.
  by rewrite <-?app_assoc in *.
Qed.

Lemma relink_left_zrep s c a x ix b y iy d :
  zrep s c (T a x ix (T b y iy d)) →
  ∃ s', relink_left s x y = Some s'
    ∧ zrep s' c (T (T a x ix b) y iy d)
    ∧ same_attrs s s' ∧ same_counters s s'.
Proof.
  intros (Hnd & Hc & Hr & Hroot).
  destruct (relink_left_spec s c a x ix b y iy d) as (s' & ? & ? & ? & ? & ? & ?);
    try done.
  exists s'. split; [done|]. split; [|done]. unfold zrep.
  split_and!; try done.
  clear -Hnd. simpl in *. rewrite <-!app_assoc in *. simpl in *.
  by rewrite <-?app_assoc in *.
Qed.

Lemma zrep_count_rotation b s c t : zrep s c t → zrep (count_rotation b s) c t.
Proof. by destruct b. Qed.

Lemma zrep_root_cell s c l x i r :
  zrep s c (T l x i r) →
  cells s !! x = Some (cell i (cpar c None) (ptr None l) (ptr None r)).
Proof. by intros (_ & _ & (? & _) & _). Qed.

Lemma zrep_sub s c t : zrep s c t → rep None (cells s) t (cpar c None).
Proof. by intros (_ & _ & ? & _). Qed.

Lemma rotate_right_spec s c a x ix b y iy d fl :
  zrep s c (T (T a x ix b) y iy d) →
  ∃ s', AVL.rotate_right s y fl = Some (x, s')
    ∧ zrep s' c
        (T a x (set_ih (1 + Z.max (sh a) (1 + Z.max (sh b) (sh d))) ix)
           (T b y (set_ih (1 + Z.max (sh b) (sh d)) iy) d))
    ∧ same_attrs s s' ∧ counted fl 1 s s'.
Proof.
  intros Hz. unfold AVL.rotate_right.
  pose proof (zrep_root_cell _ _ _ _ _ _ Hz) as Hy.
  step.
  apply relink_right_zrep in Hz as (s1 & -> & Hz & Ha1 & Hc1).
  cbn [mbind option_bind].
  apply zrep_down_r in Hz.
  rewrite (update_height_rep _ _ _ _ _ _ (zrep_sub _ _ _ Hz)).
  cbn [mbind option_bind].
  apply zrep_wr_height with (h := 1 + Z.max (sh b) (sh d)) in Hz.
  apply zrep_up_r in Hz.
  rewrite (update_height_rep _ _ _ _ _ _ (zrep_sub _ _ _ Hz)).
  cbn [mbind option_bind].
  apply zrep_wr_height with (h := 1 + Z.max (sh a) (1 + Z.max (sh b) (sh d))) in Hz.
  eexists. split; [reflexivity|]. split_and!.
  - apply zrep_count_rotation, Hz.
  - destruct Ha1 as (?&?&?). split_and!; by unwr.
  - apply (counted_trans _ 0 1 s s1).
    + by apply counted_0.
    + destruct fl; unfold counted; simpl; split; lia.
Qed.

Lemma rotate_left_spec s c a x ix b y iy d fl :
  zrep s c (T a x ix (T b y iy d)) →
  ∃ s', AVL.rotate_left s x fl = Some (y, s')
    ∧ zrep s' c
        (T (T a x (set_ih (1 + Z.max (sh a) (sh b)) ix) b) y
           (set_ih (1 + Z.max (1 + Z.max (sh a) (sh b)) (sh d)) iy) d)
    ∧ same_attrs s s' ∧ counted fl 1 s s'.
Proof.
  intros Hz. unfold AVL.rotate_left.
  pose proof (zrep_root_cell _ _ _ _ _ _ Hz) as Hx.
  step.
  apply relink_left_zrep in Hz as (s1 & -> & Hz & Ha1 & Hc1).
  cbn [mbind option_bind].
  apply zrep_down_l in Hz.
  rewrite (update_height_rep _ _ _ _ _ _ (zrep_sub _ _ _ Hz)).
  cbn [mbind option_bind].
  apply zrep_wr_height with (h := 1 + Z.max (sh a) (sh b)) in Hz.
  apply zrep_up_l in Hz.
  rewrite (update_height_rep _ _ _ _ _ _ (zrep_sub _ _ _ Hz)).
  cbn [mbind option_bind].
  apply zrep_wr_height with (h := 1 + Z.max (1 + Z.max (sh a) (sh b)) (sh d)) in Hz.
  eexists. split; [reflexivity|]. split_and!.
  - apply zrep_count_rotation, Hz.
  - destruct Ha1 as (?&?&?). split_and!; by unwr.
  - apply (counted_trans _ 0 1 s s1).
    + by apply counted_0.
    + destruct fl; unfold counted; simpl; split; lia.
Qed.

Lemma keys_T l x i r : keys (T l x i r) = keys l ++ ikey i :: keys r.
Proof. unfold keys. simpl. by rewrite fmap_app. Qed.

Lemma ids_binds t : ids t = (binds t).*1.
Proof.
  induction t as [|l IHl x i r IHr]; simpl; [done|].
  by rewrite fmap_app, IHl, IHr.
Qed.

Lemma keys_binds t : keys t = (binds t).*2.
Proof.
  induction t as [|l IHl x i r IHr]; [done|].
  rewrite keys_T. simpl. by rewrite fmap_app, IHl, IHr.
Qed.

Ltac list_eq :=
  simpl; rewrite <-?app_assoc; simpl; rewrite <-?app_assoc; reflexivity.

Ltac avl_arith :=
  repeat match goal with
  | H : avl (T _ _ _ _) |- _ => destruct H as (? & ? & ? & ?)
  end;
  repeat match goal with
  | H : avl ?t |- _ => lazymatch goal with
                       | _ : sh t = hgt t |- _ => fail
                       | _ => pose proof (sh_avl t H)
                       end
  end;
  cbn [avl hgt sh set_ih iheight] in *;
  repeat match goal with
  | |- _ ∧ _ => split
  end; try assumption; try lia.

Lemma rebalance_spec s c l n i r fl :
  zrep s c (T l n i r) → avl l → avl r → -2 ≤ hgt l - hgt r ≤ 2 →
  ∃ n' s' t' k,
    AVL.rebalance s n fl = Some (n', s')
    ∧ zrep s' c t' ∧ ptr None t' = Some n' ∧ avl t'
    ∧ binds t' = binds (T l n i r)
    ∧ same_attrs s s' ∧ counted fl k s s'
    ∧ 1 + Z.max (hgt l) (hgt r) - 1 ≤ hgt t' ≤ 1 + Z.max (hgt l) (hgt r)
    ∧ (-1 ≤ hgt l - hgt r ≤ 1 → hgt t' = 1 + Z.max (hgt l) (hgt r)).
Proof.
  intros Hz Hl Hr Hb. unfold AVL.rebalance.
  rewrite (update_height_rep _ _ _ _ _ _ (zrep_sub _ _ _ Hz)).
  cbn [mbind option_bind].
  apply zrep_wr_height with (h := 1 + Z.max (sh l) (sh r)) in Hz.
  rewrite (get_balance_rep _ _ _ _ _ _ (zrep_sub _ _ _ Hz)).
  cbn [mbind option_bind].
  pose proof (sh_avl _ Hl) as Hshl. pose proof (sh_avl _ Hr) as Hshr.
  pose proof (hgt_nonneg l). pose proof (hgt_nonneg r).
  pose proof (zrep_root_cell _ _ _ _ _ _ Hz) as Hn.
  destruct (1 <? sh l - sh r) eqn:Hlt.
  - apply Z.ltb_lt in Hlt. cbn [mbind option_bind].
    destruct l as [|ll x ix lr]; [simpl in *; lia|].
    step. apply zrep_down_l in Hz.
    rewrite (get_balance_rep _ _ _ _ _ _ (zrep_sub _ _ _ Hz)).
    cbn [mbind option_bind].
    pose proof (hgt_nonneg ll). pose proof (hgt_nonneg lr).
    destruct (sh ll - sh lr <? 0) eqn:Hlr.
    + apply Z.ltb_lt in Hlr.
      destruct lr as [|lrl z iz lrr]; [avl_arith|].
      pose proof (hgt_nonneg lrl). pose proof (hgt_nonneg lrr).
      apply (rotate_left_spec _ _ _ _ _ _ _ _ _ fl) in Hz as (s1 & E1 & Hz & Ha1 & Hc1).
      cbn [mbind option_bind]. call E1. cbn [snd].
      apply zrep_up_l in Hz.
      apply (rotate_right_spec _ _ _ _ _ _ _ _ _ fl) in Hz as (s2 & E2 & Hz & Ha2 & Hc2).
      rewrite E2. do 4 eexists. split; [reflexivity|].
      split; [exact Hz|]. split; [done|].
      split; [avl_arith|].
      split; [list_eq|].
      split. { eapply same_attrs_trans; [|done]. eapply same_attrs_trans; [|done]. done. }
      split. { eapply counted_trans; [|done]. eapply counted_trans; [|done]. apply (counted_0 fl s). done. }
      avl_arith.
    + apply Z.ltb_ge in Hlr. cbn [mbind option_bind].
      apply zrep_up_l in Hz.
      apply (rotate_right_spec _ _ _ _ _ _ _ _ _ fl) in Hz as (s2 & E2 & Hz & Ha2 & Hc2).
      rewrite E2. do 4 eexists. split; [reflexivity|].
      split; [exact Hz|]. split; [done|].
      split; [avl_arith|].
      split; [list_eq|].
      split. { eapply same_attrs_trans; [|done]. done. }
      split. { eapply counted_trans; [|done]. apply (counted_0 fl s). done. }
      avl_arith.
  - apply Z.ltb_ge in Hlt. cbn [mbind option_bind].
    destruct (sh l - sh r <? -1) eqn:Hgt.
    + apply Z.ltb_lt in Hgt. cbn [mbind option_bind].
      destruct r as [|rl y iy rr]; [simpl in *; lia|].
      step. apply zrep_down_r in Hz.
      rewrite (get_balance_rep _ _ _ _ _ _ (zrep_sub _ _ _ Hz)).
      cbn [mbind option_bind].
      pose proof (hgt_nonneg rl). pose proof (hgt_nonneg rr).
      destruct (0 <? sh rl - sh rr) eqn:Hrl.
      * apply Z.ltb_lt in Hrl.
        destruct rl as [|rll z iz rlr]; [avl_arith|].
        pose proof (hgt_nonneg rll). pose proof (hgt_nonneg rlr).
        apply (rotate_right_spec _ _ _ _ _ _ _ _ _ fl) in Hz as (s1 & E1 & Hz & Ha1 & Hc1).
        cbn [mbind option_bind]. call E1. cbn [snd].
        apply zrep_up_r in Hz.
        apply (rotate_left_spec _ _ _ _ _ _ _ _ _ fl) in Hz as (s2 & E2 & Hz & Ha2 & Hc2).
        rewrite E2. do 4 eexists. split; [reflexivity|].
        split; [exact Hz|]. split; [done|].
        split; [avl_arith|].
        split; [list_eq|].
        split. { eapply same_attrs_trans; [|done]. eapply same_attrs_trans; [|done]. done. }
        split. { eapply counted_trans; [|done]. eapply counted_trans; [|done]. apply (counted_0 fl s). done. }
        avl_arith.
      * apply Z.ltb_ge in Hrl. cbn [mbind option_bind].
        apply zrep_up_r in Hz.
        apply (rotate_left_spec _ _ _ _ _ _ _ _ _ fl) in Hz as (s2 & E2 & Hz & Ha2 & Hc2).
        rewrite E2. do 4 eexists. split; [reflexivity|].
        split; [exact Hz|]. split; [done|].
        split; [avl_arith|].
        split; [list_eq|].
        split. { eapply same_attrs_trans; [|done]. done. }
        split. { eapply counted_trans; [|done]. apply (counted_0 fl s). done. }
        avl_arith.
    + apply Z.ltb_ge in Hgt.
      exists n, (wr_height n (1 + Z.max (sh l) (sh r)) s), (T l n (set_ih (1 + Z.max (sh l) (sh r)) i) r), 0%nat.
      split; [reflexivity|].
      split; [exact Hz|]. split; [done|].
      split; [avl_arith|].
      split; [list_eq|].
      split; [done|].
      split; [by apply counted_0|].
      avl_arith.
Qed.

(** * AVL insertion *)

Lemma binds_plug_eq c t1 t2 :
  binds t1 = binds t2 → binds (plug c t1) = binds (plug c t2).
Proof.
  revert t1 t2. induction c as [|[x i r|l x i] c IH]; intros t1 t2 Hb; simpl.
  - done.
  - apply IH. simpl. by rewrite Hb.
  - apply IH. simpl. by rewrite Hb.
Qed.

Lemma bst_keys t : bst t ↔ sorted (keys t).
Proof.
  unfold bst, sorted, keys. induction (elems t) as [|i l IH]; simpl.
  - split; constructor.
  - rewrite !StronglySorted_cons, IH, Forall_fmap. done.
Qed.

Lemma bst_binds t1 t2 : binds t1 = binds t2 → bst t1 → bst t2.
Proof. rewrite !bst_keys, !keys_binds. by intros ->. Qed.

Lemma avl_plug c t : avl (plug c t) ↔ avl t ∧ cavl c (hgt t).
Proof.
  revert t. induction c as [|[x i r|l x i] c IH]; intros t; simpl.
  - tauto.
  - rewrite IH. simpl. split.
    + intros ((?&?&Hh&?)&?). rewrite Hh. tauto.
    + intros (?&?&?&Hh&?). rewrite <-Hh. tauto.
  - rewrite IH. simpl. split.
    + intros ((?&?&Hh&?)&?). rewrite Hh. tauto.
    + intros (?&?&?&Hh&?). rewrite <-Hh. tauto.
Qed.

Lemma zrep_ptr_cell s c t n :
  zrep s c t → ptr None t = Some n →
  ∃ n0, cells s !! n = Some n0 ∧ parent n0 = cpar c None.
Proof.
  destruct t as [|l x i r]; [done|]. intros Hz [= <-].
  eexists. split; [by eapply zrep_root_cell|done].
Qed.

Lemma insert_walk_spec c : ∀ fuel s t h0,
  (length c < fuel)%nat → zrep s c t → avl t → cavl c h0 →
  h0 ≤ hgt t ≤ h0 + 1 →
  ∃ s' t' k,
    AVL.insert_walk fuel s (cpar c None) = Some s'
    ∧ zrep s' [] t' ∧ avl t' ∧ binds t' = binds (plug c t)
    ∧ same_attrs s s' ∧ counted false k s s'.
Proof.
  induction c as [|f c IH]; intros fuel s t h0 Hfuel Hz Ht Hc Hh.
  - exists s, t, 0%nat. destruct fuel; simpl; split_and!; try done.
  - destruct fuel as [|fuel]; [simpl in Hfuel; lia|].
    destruct f as [x i r|l x i]; simpl in Hc; destruct Hc as (Hs & Hb & Hi & Hc).
    + apply zrep_up_l in Hz.
      destruct (rebalance_spec _ _ _ _ _ _ false Hz Ht Hs)
        as (n' & s1 & t1 & k1 & E1 & Hz1 & Hp1 & Ht1 & Hb1 & Ha1 & Hc1 & Hh1 & Hh2);
        [lia|].
      simpl. call E1.
      destruct (zrep_ptr_cell _ _ _ _ Hz1 Hp1) as (n0 & Hn0 & Hpar).
      step. rewrite Hpar.
      destruct (IH fuel s1 t1 (iheight i)) as (s' & t' & k & E & Hz' & Ht' & Hb' & Ha' & Hc');
        [simpl in Hfuel; lia|done|done|done| |].
      { destruct (decide (-1 ≤ hgt t - hgt r ≤ 1)) as [Hd|Hd].
        - specialize (Hh2 Hd). lia.
        - lia. }
      exists s', t', (k1 + k)%nat. do 3 (split; [done|]).
      split; [rewrite Hb'; by apply binds_plug_eq|].
      split; [by eapply same_attrs_trans|by eapply counted_trans].
    + apply zrep_up_r in Hz.
      destruct (rebalance_spec _ _ _ _ _ _ false Hz Hs Ht)
        as (n' & s1 & t1 & k1 & E1 & Hz1 & Hp1 & Ht1 & Hb1 & Ha1 & Hc1 & Hh1 & Hh2);
        [lia|].
      simpl. call E1.
      destruct (zrep_ptr_cell _ _ _ _ Hz1 Hp1) as (n0 & Hn0 & Hpar).
      step. rewrite Hpar.
      destruct (IH fuel s1 t1 (iheight i)) as (s' & t' & k & E & Hz' & Ht' & Hb' & Ha' & Hc');
        [simpl in Hfuel; lia|done|done|done| |].
      { destruct (decide (-1 ≤ hgt l - hgt t ≤ 1)) as [Hd|Hd].
        - specialize (Hh2 Hd). lia.
        - lia. }
      exists s', t', (k1 + k)%nat. do 3 (split; [done|]).
      split; [rewrite Hb'; by apply binds_plug_eq|].
      split; [by eapply same_attrs_trans|by eapply counted_trans].
Qed.

Lemma NoDup_bounded_length (l : list ref) (n : nat) :
  NoDup l → Forall (λ x, (x < n)%nat) l → (length l ≤ n)%nat.
Proof.
  intros Hnd Hb.
  assert (l ⊆+ seq 0 n) as Hs.
  { apply NoDup_submseteq; [done|]. intros x Hx.
    rewrite Forall_forall in Hb. apply Hb in Hx.
    apply elem_of_seq. lia. }
  apply submseteq_length in Hs. by rewrite length_seq in Hs.
Qed.

Lemma zrep_nodup s c t : zrep s c t → NoDup (ids t ++ cids c).
Proof. by intros (? & _). Qed.

Lemma bounded_size s t : zrep s [] t → bounded s t → (size t ≤ next s)%nat.
Proof.
  intros Hz Hb. rewrite <-size_ids. apply NoDup_bounded_length; [|done].
  apply zrep_nodup in Hz. simpl in Hz. by rewrite app_nil_r in Hz.
Qed.

Lemma size_plug c t : size (plug c t) = (size t + length (cids c))%nat.
Proof.
  revert t. induction c as [|[x i r|l x i] c IH]; intros t; simpl.
  - lia.
  - rewrite IH. simpl. rewrite length_app, size_ids. lia.
  - rewrite IH. simpl. rewrite length_app, size_ids. lia.
Qed.

Lemma length_cids c : (length c ≤ length (cids c))%nat.
Proof.
  induction c as [|[x i r|l x i] c IH]; simpl; [done| |];
    rewrite length_app; lia.
Qed.

Lemma zrep_plug s c : ∀ c0 t, zrep s c0 (plug c t) ↔ zrep s (c ++ c0) t.
Proof.
  induction c as [|[x i r|l x i] c IH]; intros c0 t; simpl.
  - done.
  - by rewrite IH, zrep_FL.
  - by rewrite IH, zrep_FR.
Qed.

Lemma zrep_focus s c t : zrep s [] (plug c t) → zrep s c t.
Proof. intros H. apply zrep_plug in H. by rewrite app_nil_r in H. Qed.

Lemma zrep_unfocus s c t : zrep s c t → zrep s [] (plug c t).
Proof. intros H. apply zrep_plug. by rewrite app_nil_r. Qed.

Lemma binds_plug_split c :
  ∃ L R, ∀ t, binds (plug c t) = L ++ binds t ++ R.
Proof.
  induction c as [|[x i r|l x i] c (L & R & IH)].
  - exists [], []. intros t. simpl. by rewrite app_nil_r.
  - exists L, ((x, ikey i) :: binds r ++ R). intros t. simpl.
    rewrite IH. simpl. by rewrite <-!app_assoc.
  - exists (L ++ binds l ++ [(x, ikey i)]), R. intros t. simpl.
    rewrite IH. simpl. rewrite <-!app_assoc. simpl. done.
Qed.

Lemma sorted_insert (L R : list Info) i :
  StronglySorted ilt (L ++ R) →
  Forall (λ k, ilt k i) L → Forall (ilt i) R →
  StronglySorted ilt (L ++ i :: R).
Proof.
  rewrite !StronglySorted_app, StronglySorted_cons.
  intros (H1 & H2 & H3) HL HR. rewrite Forall_forall in HL.
  split_and!; try done.
  intros x1 x2 Hx1 [->|Hx2]%elem_of_cons; [by apply HL|by apply H1].
Qed.

Lemma bst_plug_leaf v c x i :
  bst (plug c E) → fits v c → ikey i = v → bst (plug c (T E x i E)).
Proof.
  unfold bst. rewrite !elems_plug. simpl. intros Hs [Hl Hr] <-.
  by apply sorted_insert.
Qed.

Lemma keys_plug_found c l x i r :
  ikey i ∈ keys (plug c (T l x i r)).
Proof.
  unfold keys. rewrite elems_plug. simpl.
  apply list_elem_of_fmap. exists i. split; [done|].
  rewrite !elem_of_app, elem_of_cons. tauto.
Qed.

Lemma fits_FL v x i r c : fits v (FL x i r :: c) → str_lt v (ikey i) = true.
Proof. intros [_ Hr]. simpl in Hr. by apply Forall_cons in Hr as [? _]. Qed.

Lemma fits_FR v l x i c : fits v (FR l x i :: c) → str_lt v (ikey i) = false.
Proof.
  intros [Hl _]. simpl in Hl. apply str_lt_false.
  rewrite !Forall_app in Hl. destruct Hl as (_ & _ & Hl).
  by apply Forall_cons in Hl as [? _].
Qed.

Lemma fits_nil v : fits v [].
Proof. split; constructor. Qed.

(** Linking a fresh leaf into the hole of a represented tree. *)
Lemma link_leaf s f c v co q :
  zrep s (f :: c) E → fits v (f :: c) →
  Forall (λ x, (x < next s)%nat) (cids (f :: c)) →
  let s1 := (alloc (Node_init (Some v) (Some (fid f)) co q) s).2 in
  nd value s1 (fid f) = Some (ikey (finfo f))
  ∧ zrep (if str_lt v (ikey (finfo f))
          then wr_left (fid f) (Some (next s)) s1
          else wr_right (fid f) (Some (next s)) s1)
         (f :: c) (T E (next s) (new_info v co q) E).
Proof.
  intros (Hnd & Hc & _ & Hroot) Hfit Hb.
  assert (Hfresh : next s ∉ cids (f :: c)).
  { intros Hin. rewrite Forall_forall in Hb. apply Hb in Hin. lia. }
  assert (Hnd' : keep (NoDup (next s :: cids (f :: c)))) by (by constructor).
  destruct f as [p i r|l p i]; simpl in *;
    destruct Hc as (Hp & Hr & Hc); nodup_norm.
  - split. { erewrite nd_lookup; [|solve_cell]. done. }
    rewrite (fits_FL _ _ _ _ _ Hfit).
    unfold zrep. simpl. split_and!; try done; first [solve_cell|frame|idtac].
    + lk. reflexivity.
    + rewrite Hroot. apply croot_cons.
  - split. { erewrite nd_lookup; [|solve_cell]. done. }
    rewrite (fits_FR _ _ _ _ _ Hfit).
    unfold zrep. simpl. split_and!; try done; first [solve_cell|frame|idtac].
    + lk. reflexivity.
    + rewrite Hroot. apply croot_cons.
Qed.

Lemma zrep_root s t : zrep s [] t → root s = ptr None t.
Proof. by intros (_ & _ & _ & ?). Qed.

Lemma bounded_ctx s c t :
  bounded s (plug c t) → Forall (λ x, (x < next s)%nat) (ids t ++ cids c).
Proof. unfold bounded. by rewrite ids_plug. Qed.

Lemma locate_not_nil v t c' :
  t ≠ E → locate v [] t = (c', E) → c' ≠ [].
Proof.
  intros Ht Hl Hc. subst c'.
  pose proof (plug_locate v [] t) as Hp. rewrite Hl in Hp. simpl in Hp.
  by subst t.
Qed.

Lemma zrep_leaf s v co q :
  root s = None →
  zrep (set_root (Some (next s)) (alloc (Node_init (Some v) None co q) s).2)
       [] (T E (next s) (new_info v co q) E).
Proof.
  intros Hr. unfold zrep. simpl. split_and!; try done.
  - repeat constructor. apply not_elem_of_nil.
  - apply lookup_insert_eq.
Qed.

Lemma avl_insert_spec s t v :
  avl_inv s t →
  ∃ b s' t',
    AVL.insert s v = Some (b, s') ∧ avl_inv s' t'
    ∧ (if b
       then v ∉ keys t
            ∧ ∃ L R, binds t = L ++ R ∧ binds t' = L ++ (next s, v) :: R
       else v ∈ keys t ∧ s' = s ∧ t' = t)
    ∧ ∃ k, counted false k s s'.
Proof.
  intros (Hnil & Hz & Hb & Hbst & Havl). unfold AVL.insert.
  pose proof (zrep_root _ _ Hz) as Hroot. rewrite Hroot.
  destruct t as [|l x i r].
  - (* empty tree *)
    simpl. exists true. eexists. exists (T E (next s) (new_info v None None) E).
    split; [reflexivity|]. split.
    + split; [done|]. split; [by apply zrep_leaf|].
      split; [repeat constructor; simpl; lia|].
      split; [repeat constructor|].
      simpl. split_and!; try done; lia.
    + split.
      * split; [apply not_elem_of_nil|]. by exists [], [].
      * exists 0%nat. split; simpl; lia.
  - cbn [ptr].
    pose proof (descend_spec (fuel_of s) s v [] (T l x i r)) as Hd.
    cbn [ptr cpar] in Hd. rewrite Hd; [|apply Hz|].
    2:{ pose proof (bounded_size _ _ Hz Hb). unfold fuel_of. lia. }
    clear Hd.
    cbn [mbind option_bind].
    pose proof (plug_locate v [] (T l x i r)) as Hplug.
    change (plug [] (T l x i r)) with (T l x i r) in Hplug.
    pose proof (locate_fits v [] (T l x i r) Hbst (fits_nil v)) as [Hfit Hfound].
    destruct (locate v [] (T l x i r)) as [c' t'] eqn:Hloc.
    cbn [fst snd] in *.
    destruct t' as [|l' x' i' r'].
    + (* the key is new *)
      assert (c' ≠ []) as Hne
        by (apply (locate_not_nil v (T l x i r)); [done|exact Hloc]).
      destruct c' as [|f c']; [done|].
      rewrite <-Hplug in Hz, Hb, Hbst, Havl.
      apply zrep_focus in Hz. apply bounded_ctx in Hb. simpl in Hb.
      assert (cpar (f :: c') None = Some (fid f)) as -> by (by destruct f).
      destruct (link_leaf s f c' v None None Hz Hfit Hb) as [Hv Hz2].
      assert (Hfuel : (length (f :: c') < fuel_of s)%nat).
      { pose proof (length_cids (f :: c')).
        pose proof (NoDup_bounded_length (cids (f :: c')) (next s)
                      (zrep_nodup _ _ _ Hz) Hb).
        unfold fuel_of. lia. }
      do_alloc s. cbn [mbind option_bind].
      set (s1 := (alloc _ s).2) in *.
      rewrite Hv. cbn [mbind option_bind].
      set (s2 := if str_lt v (ikey (finfo f)) then _ else _) in *.
      assert (Ha2 : same_attrs s1 s2) by (subst s2; by destruct (str_lt _ _)).
      assert (Hc2 : same_counters s s2) by (subst s2; by destruct (str_lt _ _)).
      pose proof (zrep_root_cell _ _ _ _ _ _ Hz2) as Hn.
      step.
      apply avl_plug in Havl as [_ Hcavl].
      destruct (insert_walk_spec (f :: c') (fuel_of s2) s2 _ 0
                  ltac:(unfold fuel_of in *; destruct Ha2 as (-> & _); subst s1;
                        simpl in *; lia)
                  Hz2 ltac:(simpl; lia) Hcavl ltac:(simpl; lia))
        as (s' & t' & k & E & Hz' & Ht' & Hb' & Ha' & Hc').
      call E.
      exists true, s', t'. split; [done|]. split; [|split].
      * split. { destruct Ha' as (_ & -> & _), Ha2 as (_ & -> & _). done. }
        split; [done|]. split.
        { unfold bounded. rewrite ids_binds, Hb', <-ids_binds, ids_plug.
          destruct Ha' as (-> & _), Ha2 as (-> & _). subst s1. simpl.
          constructor; [lia|].
          eapply Forall_impl; [exact Hb|]. simpl. lia. }
        split; [|done].
        eapply bst_binds; [symmetry; exact Hb'|].
        by eapply bst_plug_leaf.
      * split.
        { intros (k0 & Hk0 & Hin)%list_elem_of_fmap. by apply Hfound in Hin. }
        destruct (binds_plug_split (f :: c')) as (L & R & HLR).
        exists L, R. rewrite Hb', <-Hplug, !HLR. done.
      * exists k. apply (counted_trans false 0 k s s2 s'); [|done].
        by apply counted_0.
    + (* duplicate *)
      exists false, s, (T l x i r). split; [done|]. split; [done|]. split.
      * split; [|done]. rewrite <-Hplug, <-Hfound. apply keys_plug_found.
      * exists 0%nat. apply counted_0. done.
Qed.


(** * AVL deletion *)

Lemma leftmost_spec l : ∀ fuel s x i r p,
  rep None (cells s) (T l x i r) p → (size l < fuel)%nat →
  AVL.leftmost fuel s x = Some (minid x l).
Proof.
  induction l as [|ll IH y iy lr _]; intros fuel s x i r p (Hx & Hl & Hr) Hf;
    (destruct fuel as [|fuel]; [simpl in Hf; lia|]); simpl.
  - step. done.
  - step. eapply IH; [exact Hl|]. simpl in Hf. lia.
Qed.

Lemma min_cell l : ∀ σ x i r p,
  rep None σ (T l x i r) p →
  ∃ n, σ !! minid x l = Some n ∧ value n = Some (minkey (ikey i) l).
Proof.
  induction l as [|ll IH y iy lr _]; intros σ x i r p (Hx & Hl & Hr); simpl.
  - eexists. split; [exact Hx|done].
  - eapply IH. exact Hl.
Qed.

Lemma zrep_wr_value s c l z i r k :
  zrep s c (T l z i r) →
  zrep (wr_value z (Some k) s) c (T l z (set_ikey k i) r).
Proof.
  intros (Hnd & Hc & (Hx & Hl & Hr) & Hroot). simpl in *.
  split; [done|]. nodup_norm. cbn [rep].
  split_and!; try done; first [solve_cell | frame].
Qed.

Lemma with_cells_id f s : f (cells s) = cells s → with_cells f s = s.
Proof. destruct s. unfold with_cells. simpl. by intros ->. Qed.

Lemma wr_parent_noop s x n :
  cells s !! x = Some n → wr_parent x (parent n) s = s.
Proof.
  intros Hx. apply with_cells_id. apply alter_id.
  intros n' Hn'. rewrite Hx in Hn'. injection Hn' as <-. by destruct n.
Qed.

Lemma zrep_parent_noop s c t x :
  zrep s c t → ptr None t = Some x → wr_parent x (cpar c None) s = s.
Proof.
  destruct t as [|l y i r]; [done|]. intros Hz [= <-].
  apply zrep_root_cell in Hz. by apply wr_parent_noop in Hz.
Qed.

Lemma zrep_to_stale s c t : zrep s c t → zrep_stale s c t.
Proof. intros (?&?&?&?). by exists (ptr None t). Qed.

Lemma stale_fix_l s n i r c t :
  zrep_stale s (FL n i r :: c) t →
  zrep (wr_left n (ptr None t) s) (FL n i r :: c) t.
Proof.
  intros (h & Hnd & (Hn & Hr & Hc) & Ht & Hroot).
  unfold zrep. split; [done|].
  simpl in Hnd. nodup_norm. cbn [rep_ctx].
  split_and!; try done; first [solve_cell | frame | idtac].
  unwr. rewrite Hroot. apply croot_cons.
Qed.

Lemma stale_fix_r s l n i c t :
  zrep_stale s (FR l n i :: c) t →
  zrep (wr_right n (ptr None t) s) (FR l n i :: c) t.
Proof.
  intros (h & Hnd & (Hn & Hr & Hc) & Ht & Hroot).
  unfold zrep. split; [done|].
  simpl in Hnd. nodup_norm. cbn [rep_ctx].
  split_and!; try done; first [solve_cell | frame | idtac].
  unwr. rewrite Hroot. apply croot_cons.
Qed.

Lemma stale_fix_root s t :
  zrep_stale s [] t → zrep (set_root (ptr None t) s) [] t.
Proof. intros (h & Hnd & _ & Ht & _). by split_and!. Qed.

Lemma splice_stale s c l z i r :
  zrep s c (T l z i r) → l = E ∨ r = E →
  zrep_stale
    (match ptr None (match l with E => r | _ => l end) with
     | Some x => wr_parent x (cpar c None) s
     | None => s
     end) c (match l with E => r | _ => l end).
Proof.
  intros (Hnd & Hc & (Hz & Hl & Hr) & Hroot) Hlr. exists (Some z).
  destruct l as [|ll x ix lr]; [destruct r as [|rl y iy rr]|];
    [| |destruct Hlr as [?| ->]; [done|]]; simpl in *.
  - nodup_norm. split_and!; try done.
  - destruct Hr as (Hy & Hrl & Hrr). nodup_norm.
    split; [nodup_solve|].
    split_and!; try done; first [solve_cell | frame].
  - destruct Hl as (Hx & Hll & Hlr). nodup_norm.
    split; [nodup_solve|].
    split_and!; try done; first [solve_cell | frame].
Qed.

Lemma fix_parent_noop s c t :
  zrep s c t →
  match ptr None t with
  | Some x => wr_parent x (cpar c None) s
  | None => s
  end = s.
Proof.
  intros Hz. destruct (ptr None t) as [x|] eqn:Hp; [|done].
  by eapply zrep_parent_noop.
Qed.

Lemma zrep_stale_E s c : zrep s c E → zrep_stale s c E.
Proof. apply zrep_to_stale. Qed.

Lemma delete_node_spec t : ∀ fuel s c v,
  (size t < fuel)%nat → zrep s c t → avl t →
  ∃ s' t' k,
    AVL.delete_node fuel s (ptr None t) v = Some (ptr None t', s')
    ∧ zrep_stale s' c t' ∧ avl t' ∧ binds t' = bdelete v t
    ∧ hgt t - 1 ≤ hgt t' ≤ hgt t
    ∧ same_attrs s s' ∧ counted true k s s'.
Proof.
  induction t as [|l IHl n i r IHr]; intros fuel s c v Hf Hz Havl.
  - exists s, E, 0%nat. destruct fuel; simpl.
    all: split; [done|]; split; [by apply zrep_to_stale|];
      do 2 (split; [done|]); split; [lia|]; split; [done|];
      by apply counted_0.
  - destruct fuel as [|fuel]; [simpl in Hf; lia|].
    simpl in Hf. destruct Havl as (Hal & Har & Hhi & Hbal).
    pose proof (zrep_root_cell _ _ _ _ _ _ Hz) as Hn.
    cbn [AVL.delete_node ptr]. step.
    cbn [bdelete].
    destruct (str_lt v (ikey i)) eqn:Hlt.
    + step.
      destruct (IHl fuel s (FL n i r :: c) v) as
        (s1 & l' & k1 & E1 & Hz1 & Hal' & Hb1 & Hh1 & Ha1 & Hc1);
        [lia|by apply zrep_down_l|done|].
      call E1.
      apply stale_fix_l in Hz1.
      change (Some n) with (cpar (FL n i r :: c) None) at 1.
      rewrite (fix_parent_noop _ _ _ Hz1).
      apply zrep_up_l in Hz1.
      destruct (rebalance_spec _ _ _ _ _ _ true Hz1 Hal' Har)
        as (n' & s2 & t2 & k2 & E2 & Hz2 & Hp2 & Ht2 & Hb2 & Ha2 & Hc2 & Hh2 & Hh3);
        [lia|].
      call E2. exists s2, t2, (k1 + k2)%nat.
      split; [by rewrite Hp2|]. split; [by apply zrep_to_stale|].
      split; [done|]. split; [by rewrite Hb2; simpl; rewrite Hb1|].
      split.
      { simpl. destruct (decide (-1 ≤ hgt l' - hgt r ≤ 1)) as [Hd|Hd].
        - specialize (Hh3 Hd). lia.
        - lia. }
      split.
      { eapply same_attrs_trans; [exact Ha1|].
        eapply same_attrs_trans; [|exact Ha2]. done. }
      eapply counted_trans; [exact Hc1|]. 
      eapply (counted_trans true 0 k2); [|exact Hc2]. by apply counted_0.
    + destruct (str_lt (ikey i) v) eqn:Hgt.
      * step.
        destruct (IHr fuel s (FR l n i :: c) v) as
          (s1 & r' & k1 & E1 & Hz1 & Har' & Hb1 & Hh1 & Ha1 & Hc1);
          [lia|by apply zrep_down_r|done|].
        call E1.
        apply stale_fix_r in Hz1.
        change (Some n) with (cpar (FR l n i :: c) None) at 1.
        rewrite (fix_parent_noop _ _ _ Hz1).
        apply zrep_up_r in Hz1.
        destruct (rebalance_spec _ _ _ _ _ _ true Hz1 Hal Har')
          as (n' & s2 & t2 & k2 & E2 & Hz2 & Hp2 & Ht2 & Hb2 & Ha2 & Hc2 & Hh2 & Hh3);
          [lia|].
        call E2. exists s2, t2, (k1 + k2)%nat.
        split; [by rewrite Hp2|]. split; [by apply zrep_to_stale|].
        split; [done|]. split; [by rewrite Hb2; simpl; rewrite Hb1|].
        split.
        { simpl. destruct (decide (-1 ≤ hgt l - hgt r' ≤ 1)) as [Hd|Hd].
          - specialize (Hh3 Hd). lia.
          - lia. }
        split.
        { eapply same_attrs_trans; [exact Ha1|].
          eapply same_attrs_trans; [|exact Ha2]. done. }
        eapply counted_trans; [exact Hc1|].
        eapply (counted_trans true 0 k2); [|exact Hc2]. by apply counted_0.
      * do 2 step.
        destruct l as [|ll xl il lr]; [|destruct r as [|rl y iy rr]].
        -- (* no left child *)
           cbn [ptr]. step.
           pose proof (splice_stale _ _ _ _ _ _ Hz (or_introl eq_refl)) as Hst.
           cbn [ptr] in Hst |- *.
           eexists _, r, 0%nat. split; [reflexivity|].
           split; [exact Hst|]. split; [done|]. split; [done|].
           pose proof (hgt_nonneg r).
           split; [simpl; lia|].
           split; [by destruct r|]. apply counted_0. by destruct r.
        -- (* no right child *)
           cbn [ptr]. step.
           pose proof (splice_stale _ _ _ _ _ _ Hz (or_intror eq_refl)) as Hst.
           cbn [ptr] in Hst |- *.
           eexists _, (T ll xl il lr), 0%nat. split; [reflexivity|].
           split; [exact Hst|]. split; [done|].
           split; [by rewrite app_nil_r|].
           pose proof (hgt_nonneg (T ll xl il lr)).
           split; [simpl in *; lia|].
           split; [done|]. by apply counted_0.
        -- (* two children *)
           cbn [ptr].
           pose proof (zrep_sub _ _ _ Hz) as (_ & _ & Hrr).
           rewrite (leftmost_spec _ _ _ _ _ _ _ Hrr) by (simpl in Hf; lia).
           cbn [mbind option_bind].
           destruct (min_cell _ _ _ _ _ _ Hrr) as (n0 & Hm & Hv).
           rewrite (rd_lookup value s _ _ Hm), Hv.
           cbn [mbind option_bind].
           apply zrep_wr_value with (k := minkey (ikey iy) rl) in Hz.
           clear Hn. pose proof (zrep_root_cell _ _ _ _ _ _ Hz) as Hn.
           step.
           set (sv := minkey (ikey iy) rl) in *.
           destruct (IHr fuel (wr_value n (Some sv) s)
                       (FR (T ll xl il lr) n (set_ikey sv i) :: c) sv) as
             (s1 & r' & k1 & E1 & Hz1 & Har' & Hb1 & Hh1 & Ha1 & Hc1);
             [lia|by apply zrep_down_r|done|].
           cbn [ptr] in E1. call E1.
           apply stale_fix_r in Hz1.
           change (Some n) with
             (cpar (FR (T ll xl il lr) n (set_ikey sv i) :: c) None) at 1.
           rewrite (fix_parent_noop _ _ _ Hz1).
           apply zrep_up_r in Hz1.
           destruct (rebalance_spec _ _ _ _ _ _ true Hz1 Hal Har')
             as (n' & s2 & t2 & k2 & E2 & Hz2 & Hp2 & Ht2 & Hb2 & Ha2 & Hc2 & Hh2 & Hh3);
             [lia|].
           call E2. exists s2, t2, (k1 + k2)%nat.
           split; [by rewrite Hp2|]. split; [by apply zrep_to_stale|].
           split; [done|]. split; [by rewrite Hb2; simpl; rewrite Hb1|].
           split.
           { destruct (decide (-1 ≤ hgt (T ll xl il lr) - hgt r' ≤ 1)) as [Hd|Hd].
             - specialize (Hh3 Hd). cbn [hgt] in *. lia.
             - cbn [hgt] in *. lia. }
           split.
           { eapply same_attrs_trans; [|exact Ha2].
             eapply same_attrs_trans; [|exact Ha1]. done. }
           eapply counted_trans; [|exact Hc2].
           eapply (counted_trans true 0 k1); [|exact Hc1]. by apply counted_0.
Qed.

Lemma locate_found v t :
  bst t →
  match (locate v [] t).2 with E => false | _ => true end
  = bool_decide (v ∈ keys t).
Proof.
  intros Hb.
  pose proof (plug_locate v [] t) as Hplug.
  pose proof (locate_fits v [] t Hb (fits_nil v)) as [_ Hfound].
  destruct (locate v [] t) as [c' t']. cbn [fst snd plug] in *.
  destruct t' as [|l x i r].
  - rewrite bool_decide_false; [done|].
    intros (k & Hk & Hin)%list_elem_of_fmap. by apply Hfound in Hin.
  - rewrite bool_decide_true; [done|].
    rewrite <-Hplug, <-Hfound. apply keys_plug_found.
Qed.

Lemma avl_contains_spec s t v :
  avl_inv s t → AVL.contains s v = Some (bool_decide (v ∈ keys t)).
Proof.
  intros (Hnil & Hz & Hb & Hbst & Havl). unfold AVL.contains.
  rewrite (zrep_root _ _ Hz).
  rewrite (search_spec _ _ _ [] _ _ (zrep_sub _ _ _ Hz)).
  - by rewrite locate_found.
  - pose proof (bounded_size _ _ Hz Hb). unfold fuel_of. lia.
Qed.

(** ** The nodes that [_delete_node] leaves *)

Lemma binds_min l : ∀ x i r,
  ∃ tl, binds (T l x i r) = (minid x l, minkey (ikey i) l) :: tl.
Proof.
  induction l as [|ll IH y iy lr _]; intros x i r; simpl.
  - by eexists.
  - destruct (IH y iy lr) as (tl & Htl). simpl in Htl. rewrite Htl.
    by eexists.
Qed.

Lemma bst_T l x i r :
  bst (T l x i r) ↔
  bst l ∧ bst r ∧ Forall (λ k, ilt k i) (elems l) ∧ Forall (ilt i) (elems r).
Proof.
  unfold bst. simpl. rewrite StronglySorted_app, StronglySorted_cons.
  split.
  - intros (H1 & H2 & H3 & H4). split_and!; try done.
    apply Forall_forall. intros k Hk. apply H1; [done|left].
  - intros (H1 & H2 & H3 & H4). split_and!; try done.
    rewrite Forall_forall in H3, H4.
    intros k1 k2 Hk1 [->|Hk2]%elem_of_cons; [by apply H3|].
    eapply klt_trans; [by apply H3|by apply H4].
Qed.

Lemma elem_keys k t : k ∈ keys t ↔ ∃ i, i ∈ elems t ∧ ikey i = k.
Proof. unfold keys. rewrite list_elem_of_fmap. naive_solver. Qed.

Lemma minkey_lt l : ∀ d i,
  Forall (λ k, ilt k i) (elems l) → ikey i = d ∨ klt d (ikey i) →
  minkey d l = ikey i ∨ klt (minkey d l) (ikey i).
Proof.
  induction l as [|ll IH y iy lr _]; intros d i Hl Hd; simpl; [naive_solver|].
  simpl in Hl. rewrite Forall_app, Forall_cons in Hl.
  destruct Hl as (Hll & Hy & _). apply IH; [done|by right].
Qed.

Lemma bdelete_T_lt v l x i r :
  klt v (ikey i) → bdelete v (T l x i r) = bdelete v l ++ (x, ikey i) :: binds r.
Proof. intros H. simpl. by rewrite H. Qed.

Lemma bdelete_min l : ∀ x i r,
  bst (T l x i r) →
  bdelete (minkey (ikey i) l) (T l x i r) = tail (binds (T l x i r)).
Proof.
  induction l as [|ll IH y iy lr _]; intros x i r Hb.
  - simpl. destruct (str_lt (ikey i) (ikey i)) eqn:Hirr.
    { by apply klt_irrefl in Hirr. }
    done.
  - apply bst_T in Hb as (Hbl & Hbr & Hl & Hr).
    assert (klt (minkey (ikey iy) ll) (ikey i)) as Hlt.
    { simpl in Hl. rewrite Forall_app, Forall_cons in Hl.
      destruct Hl as (Hll & Hy & _).
      destruct (minkey_lt ll (ikey iy) iy) as [->|?]; auto.
      - apply bst_T in Hbl. tauto.
      - by eapply klt_trans. }
    cbn [minkey]. rewrite (bdelete_T_lt _ _ _ _ _ Hlt), (IH y iy lr Hbl).
    destruct (binds_min ll y iy lr) as (tl & Htl).
    simpl in Htl |- *. by rewrite Htl.
Qed.

Lemma trichotomy_eq v k : str_lt v k = false → str_lt k v = false → v = k.
Proof.
  intros H1 H2. destruct (str_eq v k) eqn:He; [by apply str_eq_true|].
  apply str_trichotomy in H1; [|done]. unfold klt in H1. congruence.
Qed.

Lemma bdelete_split t : ∀ v,
  bst t → v ∈ keys t →
  ∃ L z R, binds t = L ++ (z, v) :: R
    ∧ (bdelete v t = L ++ R
       ∨ ∃ y sv R', R = (y, sv) :: R' ∧ bdelete v t = L ++ (z, sv) :: R').
Proof.
  induction t as [|l IHl x i r IHr]; intros v Hb Hin.
  - by apply elem_of_nil in Hin.
  - apply bst_T in Hb as Hb'. destruct Hb' as (Hbl & Hbr & Hl & Hr).
    rewrite Forall_forall in Hl, Hr.
    rewrite keys_T, elem_of_app, elem_of_cons in Hin.
    cbn [bdelete binds].
    destruct (str_lt v (ikey i)) eqn:Hlt.
    { assert (v ∈ keys l) as Hvl.
      { destruct Hin as [?|[->|Hvr]]; [done|by apply klt_irrefl in Hlt|].
        apply elem_keys in Hvr as (k & Hk & <-). apply Hr in Hk.
        exfalso. eapply klt_irrefl, klt_trans; [exact Hlt|exact Hk]. }
      destruct (IHl v Hbl Hvl) as (L & z & R & -> & Hd).
      exists L, z, (R ++ (x, ikey i) :: binds r).
      split; [by rewrite <-app_assoc|].
      destruct Hd as [->|(y & sv & R' & -> & ->)].
      - left. by rewrite <-app_assoc.
      - right. exists y, sv, (R' ++ (x, ikey i) :: binds r).
        split; [done|]. by rewrite <-app_assoc. }
    destruct (str_lt (ikey i) v) eqn:Hgt.
    { assert (v ∈ keys r) as Hvr.
      { destruct Hin as [Hvl|[->|?]]; [|by apply klt_irrefl in Hgt|done].
        apply elem_keys in Hvl as (k & Hk & <-). apply Hl in Hk.
        exfalso. eapply klt_irrefl, klt_trans; [exact Hgt|exact Hk]. }
      destruct (IHr v Hbr Hvr) as (L & z & R & -> & Hd).
      exists (binds l ++ (x, ikey i) :: L), z, R.
      split; [by rewrite <-app_assoc|].
      destruct Hd as [->|(y & sv & R' & -> & ->)].
      - left. by rewrite <-app_assoc.
      - right. exists y, sv, R'. split; [done|]. by rewrite <-app_assoc. }
    pose proof (trichotomy_eq _ _ Hlt Hgt) as ->.
    exists (binds l), x, (binds r). split; [done|].
    destruct l as [|ll xl il lr]; [by left|].
    destruct r as [|rl y iy rr]; [by left|].
    right. cbn [minkey]. rewrite (bdelete_min rl y iy rr Hbr).
    destruct (binds_min rl y iy rr) as (tl & ->).
    by exists (minid y rl), (minkey (ikey iy) rl), tl.
Qed.

Lemma bdelete_keys t v :
  bst t → v ∈ keys t →
  ∃ L R, keys t = L ++ v :: R ∧ (bdelete v t).*2 = L ++ R.
Proof.
  intros Hb Hin.
  destruct (bdelete_split t v Hb Hin) as (L & z & R & Ht & Hd).
  exists L.*2, R.*2. rewrite keys_binds, Ht, fmap_app. split; [done|].
  destruct Hd as [->|(y & sv & R' & -> & ->)];
    by rewrite fmap_app.
Qed.

Lemma bdelete_ids t v :
  bst t → v ∈ keys t → (bdelete v t).*1 ⊆ ids t.
Proof.
  intros Hb Hin.
  destruct (bdelete_split t v Hb Hin) as (L & z & R & Ht & Hd).
  rewrite ids_binds, Ht.
  destruct Hd as [->|(y & sv & R' & -> & ->)];
    rewrite !fmap_app; simpl; set_solver.
Qed.

Lemma sorted_remove (L R : list string) v :
  sorted (L ++ v :: R) → sorted (L ++ R).
Proof.
  unfold sorted. rewrite !StronglySorted_app, StronglySorted_cons.
  intros (H1 & H2 & H3 & H4). split_and!; try done.
  intros x1 x2 ??. apply H1; [done|by right].
Qed.

Lemma sorted_not_in (L R : list string) v :
  sorted (L ++ v :: R) → v ∉ L ++ R.
Proof.
  unfold sorted. rewrite !StronglySorted_app, StronglySorted_cons.
  intros (H1 & H2 & H3 & H4). rewrite Forall_forall in H3.
  intros [Hin|Hin]%elem_of_app.
  - eapply klt_irrefl, H1; [done|left].
  - eapply klt_irrefl, H3. done.
Qed.

Lemma avl_delete_spec s t v :
  avl_inv s t →
  ∃ b s' t',
    AVL.delete s v = Some (b, s') ∧ avl_inv s' t'
    ∧ (if b
       then v ∈ keys t ∧ binds t' = bdelete v t
       else v ∉ keys t ∧ s' = s ∧ t' = t)
    ∧ ∃ k, counted true k s s'.
Proof.
  intros Hinv. unfold AVL.delete.
  rewrite (avl_contains_spec _ _ _ Hinv). cbn [mbind option_bind].
  destruct Hinv as (Hnil & Hz & Hb & Hbst & Havl).
  destruct (decide (v ∈ keys t)) as [Hin|Hnin].
  - rewrite bool_decide_true by done. cbn [negb].
    rewrite (zrep_root _ _ Hz).
    destruct (delete_node_spec t (fuel_of s) s [] v) as
      (s1 & t1 & k & E1 & Hz1 & Ha1 & Hb1 & Hh1 & Hat1 & Hc1); [|done|done|].
    { pose proof (bounded_size _ _ Hz Hb). unfold fuel_of. lia. }
    call E1.
    apply stale_fix_root in Hz1.
    change None with (cpar [] None) at 2.
    rewrite (fix_parent_noop _ _ _ Hz1).
    exists true. eexists. exists t1. split; [reflexivity|].
    split; [|split; [done|]].
    + split. { destruct Hat1 as (_ & Hn & _). by rewrite <-Hnil, <-Hn. }
      split; [done|]. split.
      { unfold bounded. rewrite ids_binds, Hb1.
        apply Forall_forall. intros x Hx.
        apply (bdelete_ids t v Hbst Hin) in Hx.
        unfold bounded in Hb. rewrite Forall_forall in Hb.
        destruct Hat1 as (Hn & _). simpl. rewrite Hn. by apply Hb. }
      split; [|done].
      apply bst_keys. rewrite keys_binds, Hb1.
      destruct (bdelete_keys t v Hbst Hin) as (L & R & HLR & ->).
      apply bst_keys in Hbst. rewrite HLR in Hbst.
      by eapply sorted_remove.
    + exists k. destruct Hc1 as [? ?]. split; simpl; done.
  - rewrite bool_decide_false by done. cbn [negb].
    exists false, s, t. split; [done|]. split; [done|]. split; [done|].
    exists 0%nat. by apply counted_0.
Qed.


(** * Treap: insertion and deletion *)

Lemma le_prio_mono t p q : le_prio t p → p ≤ q → le_prio t q.
Proof. destruct t; [done|]. intros (p' & ? & ?) ?. exists p'. split; [done|lia]. Qed.

Lemma heap_plug c : ∀ t, heap (plug c t) ↔ heap t ∧ cheap c ∧ cfits t c.
Proof.
  induction c as [|[x i r|l x i] c IH]; intros t; simpl.
  - tauto.
  - rewrite IH. simpl. split.
    + intros ((q & Hq & Ht & Hr & Hht & Hhr) & Hc & Hf).
      split; [done|]. split.
      * exists q. split_and!; try done.
        destruct c as [|f c]; [done|]. destruct Hf as (p & Hp & q' & Hq' & ?).
        exists p. split; [done|]. congruence.
      * by exists q.
    + intros (Hht & (q & Hq & Hr & Hhr & Hcl & Hc) & (p & Hp & Ht)).
      assert (p = q) as -> by congruence.
      split; [by exists q|]. split; [done|].
      destruct c as [|f c]; [done|]. destruct Hcl as (p' & Hp' & ?).
      exists p'. split; [done|]. by exists q.
  - rewrite IH. simpl. split.
    + intros ((q & Hq & Hl & Ht & Hhl & Hht) & Hc & Hf).
      split; [done|]. split.
      * exists q. split_and!; try done.
        destruct c as [|f c]; [done|]. destruct Hf as (p & Hp & q' & Hq' & ?).
        exists p. split; [done|]. congruence.
      * by exists q.
    + intros (Hht & (q & Hq & Hl & Hhl & Hcl & Hc) & (p & Hp & Ht)).
      assert (p = q) as -> by congruence.
      split; [by exists q|]. split; [done|].
      destruct c as [|f c]; [done|]. destruct Hcl as (p' & Hp' & ?).
      exists p'. split; [done|]. by exists q.
Qed.

Lemma treap_rotate_right_spec s c a x ix b y iy d fl :
  zrep s c (T (T a x ix b) y iy d) →
  ∃ s', Treap.rotate_right s y fl = Some (x, s')
    ∧ zrep s' c (T a x ix (T b y iy d))
    ∧ same_attrs s s' ∧ counted fl 1 s s'.
Proof.
  intros Hz. unfold Treap.rotate_right.
  pose proof (zrep_root_cell _ _ _ _ _ _ Hz) as Hy.
  step.
  apply relink_right_zrep in Hz as (s1 & -> & Hz & Ha1 & Hc1).
  cbn [mbind option_bind].
  eexists. split; [reflexivity|]. split; [by apply zrep_count_rotation|].
  split. { destruct Ha1 as (?&?&?). split_and!; by unwr. }
  apply (counted_trans _ 0 1 s s1); [by apply counted_0|apply counted_count].
Qed.

Lemma treap_rotate_left_spec s c a x ix b y iy d fl :
  zrep s c (T a x ix (T b y iy d)) →
  ∃ s', Treap.rotate_left s x fl = Some (y, s')
    ∧ zrep s' c (T (T a x ix b) y iy d)
    ∧ same_attrs s s' ∧ counted fl 1 s s'.
Proof.
  intros Hz. unfold Treap.rotate_left.
  pose proof (zrep_root_cell _ _ _ _ _ _ Hz) as Hx.
  step.
  apply relink_left_zrep in Hz as (s1 & -> & Hz & Ha1 & Hc1).
  cbn [mbind option_bind].
  eexists. split; [reflexivity|]. split; [by apply zrep_count_rotation|].
  split. { destruct Ha1 as (?&?&?). split_and!; by unwr. }
  apply (counted_trans _ 0 1 s s1); [by apply counted_0|apply counted_count].
Qed.

Lemma zrep_ctx_cell s f c t :
  zrep s (f :: c) t →
  ∃ n, cells s !! fid f = Some n
       ∧ priority n = iprio (finfo f)
       ∧ left n = match f with FL _ _ _ => ptr None t | FR l _ _ => ptr None l end.
Proof.
  intros (_ & Hc & _). destruct f; simpl in *; destruct Hc as (Hx & _);
    eexists; (split; [exact Hx|done]).
Qed.

Lemma zrep_FR_left_ne s l p ip c a n i b :
  zrep s (FR l p ip :: c) (T a n i b) → ptr None l ≠ Some n.
Proof.
  intros (Hnd & _). destruct l; simpl in *; [done|]. nodup_norm. congruence.
Qed.

Lemma bubble_up_spec c : ∀ fuel s a n i b q,
  (length c < fuel)%nat → zrep s c (T a n i b) → iprio i = Some q →
  heap (T a n i b) → cheap c → cfits a c → cfits b c →
  ∃ s' t' k,
    Treap.bubble_up fuel s n = Some s'
    ∧ zrep s' [] t' ∧ heap t' ∧ binds t' = binds (plug c (T a n i b))
    ∧ same_attrs s s' ∧ counted false k s s'.
Proof.
  induction c as [|f c IH]; intros fuel s a n i b q Hf Hz Hq Hh Hc Hfa Hfb;
    (destruct fuel as [|fuel]; [simpl in Hf; lia|]);
    pose proof (zrep_root_cell _ _ _ _ _ _ Hz) as Hn; cbn [Treap.bubble_up].
  - step. exists s, (T a n i b), 0%nat. split; [done|]. split; [done|].
    split; [done|]. split; [done|]. split; [done|]. by apply counted_0.
  - step. assert (cpar (f :: c) None = Some (fid f)) as -> by (by destruct f).
    destruct (zrep_ctx_cell _ _ _ _ Hz) as (np & Hp & Hpp & Hpl).
    assert (∃ pq, iprio (finfo f) = Some pq) as (pq & Hpq).
    { destruct f; simpl in Hc; destruct Hc as (pq & ? & _); by exists pq. }
    rewrite (nd_lookup priority _ _ _ Hp), Hpp, Hpq. cbn [mbind option_bind].
    step. rewrite Hq. cbn [mbind option_bind].
    destruct (pq <? q) eqn:Hlt.
    + apply Z.ltb_lt in Hlt.
      rewrite (rd_lookup left _ _ _ Hp), Hpl. cbn [mbind option_bind].
      destruct Hh as (q' & Hq' & Hla & Hlb & Hha & Hhb).
      assert (q' = q) as -> by congruence.
      destruct f as [p ip r|l p ip]; cbn [fid finfo ptr] in *.
      * rewrite bool_decide_true by done.
        apply zrep_up_l in Hz.
        apply (treap_rotate_right_spec _ _ _ _ _ _ _ _ _ false) in Hz
          as (s1 & E1 & Hz & Ha1 & Hc1).
        call E1.
        destruct Hc as (pq' & Hpq' & Hlr & Hhr & Hcl & Hc).
        assert (pq' = pq) as -> by congruence.
        simpl in Hfa, Hfb.
        destruct Hfb as (pb & Hpb & Hfb). assert (pb = pq) as -> by congruence.
        destruct Hfa as (pa & Hpa & Hfa). assert (pa = pq) as -> by congruence.
        destruct (IH fuel s1 a n i (T b p ip r) q) as
          (s' & t' & k & E & Hz' & Hh' & Hb' & Ha' & Hc'); try done.
        { simpl in Hf. lia. }
        { exists q. split_and!; try done.
          - exists pq. split; [done|lia].
          - by exists pq. }
        { destruct c as [|f' c]; [done|]. destruct Hcl as (p' & Hp' & ?).
          exists p'. split; [done|]. by eapply le_prio_mono. }
        { destruct c as [|f' c]; [done|]. destruct Hcl as (p' & Hp' & ?).
          exists p'. split; [done|]. by exists pq. }
        exists s', t', (1 + k)%nat. split; [done|]. split; [done|].
        split; [done|]. split.
        { rewrite Hb'. simpl. apply binds_plug_eq. simpl.
          by rewrite <-app_assoc. }
        split; [by eapply same_attrs_trans|by eapply counted_trans].
      * rewrite bool_decide_false by (by eapply zrep_FR_left_ne).
        apply zrep_up_r in Hz.
        apply (treap_rotate_left_spec _ _ _ _ _ _ _ _ _ false) in Hz
          as (s1 & E1 & Hz & Ha1 & Hc1).
        call E1.
        destruct Hc as (pq' & Hpq' & Hlr & Hhr & Hcl & Hc).
        assert (pq' = pq) as -> by congruence.
        simpl in Hfa, Hfb.
        destruct Hfb as (pb & Hpb & Hfb). assert (pb = pq) as -> by congruence.
        destruct Hfa as (pa & Hpa & Hfa). assert (pa = pq) as -> by congruence.
        destruct (IH fuel s1 (T l p ip a) n i b q) as
          (s' & t' & k & E & Hz' & Hh' & Hb' & Ha' & Hc'); try done.
        { simpl in Hf. lia. }
        { exists q. split_and!; try done.
          - exists pq. split; [done|lia].
          - by exists pq. }
        { destruct c as [|f' c]; [done|]. destruct Hcl as (p' & Hp' & ?).
          exists p'. split; [done|]. by exists pq. }
        { destruct c as [|f' c]; [done|]. destruct Hcl as (p' & Hp' & ?).
          exists p'. split; [done|]. by eapply le_prio_mono. }
        exists s', t', (1 + k)%nat. split; [done|]. split; [done|].
        split; [done|]. split.
        { rewrite Hb'. simpl. apply binds_plug_eq. simpl.
          by rewrite <-app_assoc. }
        split; [by eapply same_attrs_trans|by eapply counted_trans].
    + apply Z.ltb_ge in Hlt.
      exists s, (plug (f :: c) (T a n i b)), 0%nat. split; [done|].
      split; [by apply zrep_unfocus|]. split.
      { apply heap_plug. split; [done|]. split; [done|].
        exists pq. split; [done|]. exists q. done. }
      split; [done|]. split; [done|]. by apply counted_0.
Qed.

Lemma treap_insert_spec s t v q :
  treap_inv s t →
  ∃ b s' t',
    Treap.insert s v q = Some (b, s') ∧ treap_inv s' t'
    ∧ (if b
       then v ∉ keys t
            ∧ ∃ L R, binds t = L ++ R ∧ binds t' = L ++ (next s, v) :: R
       else v ∈ keys t ∧ s' = s ∧ t' = t)
    ∧ ∃ k, counted false k s s'.
Proof.
  intros (Hnil & Hz & Hb & Hbst & Hheap). unfold Treap.insert.
  pose proof (zrep_root _ _ Hz) as Hroot. rewrite Hroot.
  destruct t as [|l x i r].
  - (* empty tree *)
    simpl. exists true. eexists. exists (T E (next s) (new_info v None (Some q)) E).
    split; [reflexivity|]. split.
    + split; [done|]. split; [by apply zrep_leaf|].
      split; [repeat constructor; simpl; lia|].
      split; [repeat constructor|].
      simpl. by exists q.
    + split.
      * split; [apply not_elem_of_nil|]. by exists [], [].
      * exists 0%nat. split; simpl; lia.
  - cbn [ptr].
    pose proof (descend_spec (fuel_of s) s v [] (T l x i r)) as Hd.
    cbn [ptr cpar] in Hd. rewrite Hd; [|apply Hz|].
    2:{ pose proof (bounded_size _ _ Hz Hb). unfold fuel_of. lia. }
    clear Hd.
    cbn [mbind option_bind].
    pose proof (plug_locate v [] (T l x i r)) as Hplug.
    change (plug [] (T l x i r)) with (T l x i r) in Hplug.
    pose proof (locate_fits v [] (T l x i r) Hbst (fits_nil v)) as [Hfit Hfound].
    destruct (locate v [] (T l x i r)) as [c' t'] eqn:Hloc.
    cbn [fst snd] in *.
    destruct t' as [|l' x' i' r'].
    + (* the key is new *)
      assert (c' ≠ []) as Hne
        by (apply (locate_not_nil v (T l x i r)); [done|exact Hloc]).
      destruct c' as [|f c']; [done|].
      rewrite <-Hplug in Hz, Hb, Hbst, Hheap.
      apply zrep_focus in Hz. apply bounded_ctx in Hb. simpl in Hb.
      assert (cpar (f :: c') None = Some (fid f)) as -> by (by destruct f).
      destruct (link_leaf s f c' v None (Some q) Hz Hfit Hb) as [Hv Hz2].
      assert (Hfuel : (length (f :: c') < fuel_of s)%nat).
      { pose proof (length_cids (f :: c')).
        pose proof (NoDup_bounded_length (cids (f :: c')) (next s)
                      (zrep_nodup _ _ _ Hz) Hb).
        unfold fuel_of. lia. }
      do_alloc s. cbn [mbind option_bind].
      set (s1 := (alloc _ s).2) in *.
      rewrite Hv. cbn [mbind option_bind].
      set (s2 := if str_lt v (ikey (finfo f)) then _ else _) in *.
      assert (Ha2 : same_attrs s1 s2) by (subst s2; by destruct (str_lt _ _)).
      assert (Hc2 : same_counters s s2) by (subst s2; by destruct (str_lt _ _)).
      apply heap_plug in Hheap as (_ & Hcheap & _).
      destruct (bubble_up_spec (f :: c') (fuel_of s2) s2 E (next s)
                  (new_info v None (Some q)) E q) as
        (s' & t' & k & E & Hz' & Ht' & Hb' & Ha' & Hc'); try done.
      { unfold fuel_of in *; destruct Ha2 as (-> & _); subst s1; simpl in *; lia. }
      { simpl. by exists q. }
      { destruct f; simpl in Hcheap; destruct Hcheap as (p & ? & _);
          by exists p. }
      { destruct f; simpl in Hcheap; destruct Hcheap as (p & ? & _);
          by exists p. }
      call E.
      exists true, s', t'. split; [done|]. split; [|split].
      * split. { destruct Ha' as (_ & -> & _), Ha2 as (_ & -> & _). done. }
        split; [done|]. split.
        { unfold bounded. rewrite ids_binds, Hb', <-ids_binds, ids_plug.
          destruct Ha' as (-> & _), Ha2 as (-> & _). subst s1. simpl.
          constructor; [lia|].
          eapply Forall_impl; [exact Hb|]. simpl. lia. }
        split; [|done].
        eapply bst_binds; [symmetry; exact Hb'|].
        by eapply bst_plug_leaf.
      * split.
        { intros (k0 & Hk0 & Hin)%list_elem_of_fmap. by apply Hfound in Hin. }
        destruct (binds_plug_split (f :: c')) as (L & R & HLR).
        exists L, R. rewrite Hb', <-Hplug, !HLR. done.
      * exists k. apply (counted_trans false 0 k s s2 s'); [|done].
        by apply counted_0.
    + (* duplicate *)
      exists false, s, (T l x i r). split; [done|]. split; [done|]. split.
      * split; [|done]. rewrite <-Hplug, <-Hfound. apply keys_plug_found.
      * exists 0%nat. apply counted_0. done.
Qed.

Lemma heap_root_prio l x i r : heap (T l x i r) → ∃ q, iprio i = Some q.
Proof. intros (q & ? & _). by exists q. Qed.

Lemma rotate_down_spec fuel : ∀ s c l z i r,
  (size l + size r < fuel)%nat → zrep s c (T l z i r) →
  heap l → heap r → cheap c → cfits l c → cfits r c →
  ∃ s' c' k,
    Treap.rotate_down fuel s z = Some s'
    ∧ zrep s' c' (T E z i E) ∧ cheap c'
    ∧ binds (plug c' (T E z i E)) = binds (plug c (T l z i r))
    ∧ same_attrs s s' ∧ counted true k s s'.
Proof.
  induction fuel as [|fuel IH]; intros s c l z i r Hf Hz Hhl Hhr Hc Hfl Hfr;
    [lia|].
  pose proof (zrep_root_cell _ _ _ _ _ _ Hz) as Hn.
  cbn [Treap.rotate_down]. do 2 step.
  destruct l as [|ll x ix lr]; [destruct r as [|rl y iy rr]|]; cbn [ptr].
  - exists s, c, 0%nat. split; [done|]. split; [done|]. split; [done|].
    split; [done|]. split; [done|]. by apply counted_0.
  - (* only a right child *)
    apply (treap_rotate_left_spec _ _ _ _ _ _ _ _ _ true) in Hz
      as (s1 & E1 & Hz & Ha1 & Hc1).
    call E1. apply zrep_down_l in Hz.
    destruct Hhr as (yq & Hyq & Hlrl & Hlrr & Hhrl & Hhrr).
    destruct (IH s1 (FL y iy rr :: c) E z i rl) as
      (s' & c' & k & E & Hz' & Hc' & Hb' & Ha' & Hc''); try done.
    { simpl in *. lia. }
    { simpl. exists yq. split_and!; try done.
      destruct c as [|f c]; [done|]. destruct Hfr as (p & Hp & q' & ? & ?).
      exists p. split; [done|]. congruence. }
    { by exists yq. }
    { by exists yq. }
    exists s', c', (1 + k)%nat. split; [done|]. split; [done|]. split; [done|].
    split. { rewrite Hb'. simpl. apply binds_plug_eq. simpl.
             by rewrite <-?app_assoc. }
    split; [by eapply same_attrs_trans|by eapply counted_trans].
  - destruct r as [|rl y iy rr]; cbn [ptr].
    + (* only a left child *)
      apply (treap_rotate_right_spec _ _ _ _ _ _ _ _ _ true) in Hz
        as (s1 & E1 & Hz & Ha1 & Hc1).
      call E1. apply zrep_down_r in Hz.
      destruct Hhl as (xq & Hxq & Hlll & Hllr & Hhll & Hhlr).
      destruct (IH s1 (FR ll x ix :: c) lr z i E) as
        (s' & c' & k & E & Hz' & Hc' & Hb' & Ha' & Hc''); try done.
      { simpl in *. lia. }
      { simpl. exists xq. split_and!; try done.
        destruct c as [|f c]; [done|]. destruct Hfl as (p & Hp & q' & ? & ?).
        exists p. split; [done|]. congruence. }
      { by exists xq. }
      { by exists xq. }
      exists s', c', (1 + k)%nat. split; [done|]. split; [done|].
      split; [done|].
      split. { rewrite Hb'. simpl. apply binds_plug_eq. simpl.
               by rewrite <-?app_assoc. }
      split; [by eapply same_attrs_trans|by eapply counted_trans].
    + (* two children *)
      pose proof (zrep_sub _ _ _ Hz) as (_ & (Hx & _) & (Hy & _)).
      destruct Hhl as (xq & Hxq & Hlll & Hllr & Hhll & Hhlr).
      destruct Hhr as (yq & Hyq & Hlrl & Hlrr & Hhrl & Hhrr).
      rewrite (nd_lookup priority _ _ _ Hx). cbn [cell priority].
      rewrite Hxq. cbn [mbind option_bind].
      rewrite (nd_lookup priority _ _ _ Hy). cbn [cell priority].
      rewrite Hyq. cbn [mbind option_bind].
      destruct (xq >? yq) eqn:Hgt.
      * apply Z.gtb_lt in Hgt.
        apply (treap_rotate_right_spec _ _ _ _ _ _ _ _ _ true) in Hz
          as (s1 & E1 & Hz & Ha1 & Hc1).
        call E1. apply zrep_down_r in Hz.
        destruct (IH s1 (FR ll x ix :: c) lr z i (T rl y iy rr)) as
          (s' & c' & k & E & Hz' & Hc' & Hb' & Ha' & Hc''); try done.
        { simpl in *. lia. }
        { by exists yq. }
        { simpl. exists xq. split_and!; try done.
          destruct c as [|f c]; [done|]. destruct Hfl as (p & Hp & q' & ? & ?).
          exists p. split; [done|]. congruence. }
        { by exists xq. }
        { exists xq. split; [done|]. exists yq. split; [done|lia]. }
        exists s', c', (1 + k)%nat. split; [done|]. split; [done|].
        split; [done|].
        split. { rewrite Hb'. simpl. apply binds_plug_eq. simpl.
                 by rewrite <-?app_assoc. }
        split; [by eapply same_attrs_trans|by eapply counted_trans].
      * assert (xq ≤ yq) by (destruct (Z.gtb_spec xq yq); [done|lia]).
        apply (treap_rotate_left_spec _ _ _ _ _ _ _ _ _ true) in Hz
          as (s1 & E1 & Hz & Ha1 & Hc1).
        call E1. apply zrep_down_l in Hz.
        destruct (IH s1 (FL y iy rr :: c) (T ll x ix lr) z i rl) as
          (s' & c' & k & E & Hz' & Hc' & Hb' & Ha' & Hc''); try done.
        { simpl in *. lia. }
        { by exists xq. }
        { simpl. exists yq. split_and!; try done.
          destruct c as [|f c]; [done|]. destruct Hfr as (p & Hp & q' & ? & ?).
          exists p. split; [done|]. congruence. }
        { exists yq. split; [done|]. exists xq. split; [done|lia]. }
        { by exists yq. }
        exists s', c', (1 + k)%nat. split; [done|]. split; [done|].
        split; [done|].
        split. { rewrite Hb'. simpl. apply binds_plug_eq. simpl.
                 by rewrite <-?app_assoc. }
        split; [by eapply same_attrs_trans|by eapply counted_trans].
Qed.

Lemma unlink_leaf s f c z i :
  zrep s (f :: c) (T E z i E) →
  ∃ n, cells s !! fid f = Some n
    ∧ zrep (if bool_decide (left n = Some z)
            then wr_left (fid f) None s else wr_right (fid f) None s)
           (f :: c) E.
Proof.
  intros (Hnd & Hc & _ & Hroot).
  destruct f as [p ip r|l p ip]; simpl in *; destruct Hc as (Hp & Hr & Hc);
    nodup_norm; (eexists; split; [exact Hp|]); cbn [cell left].
  - rewrite bool_decide_true by done.
    unfold zrep. simpl. split; [nodup_solve|].
    split_and!; try done; first [solve_cell|frame|idtac].
    rewrite Hroot. apply croot_cons.
  - rewrite bool_decide_false by ptr_ne l.
    unfold zrep. simpl. split; [nodup_solve|].
    split_and!; try done; first [solve_cell|frame|idtac].
    rewrite Hroot. apply croot_cons.
Qed.

Lemma locate_ctx_fits v t c' l x i r :
  locate v [] t = (c', T l x i r) → plug c' (T l x i r) = t.
Proof.
  intros Hl. pose proof (plug_locate v [] t) as Hp. by rewrite Hl in Hp.
Qed.

Lemma treap_delete_spec s t v :
  treap_inv s t →
  ∃ b s' t',
    Treap.delete s v = Some (b, s') ∧ treap_inv s' t'
    ∧ (if b
       then ∃ L z R, binds t = L ++ (z, v) :: R ∧ binds t' = L ++ R
       else v ∉ keys t ∧ s' = s ∧ t' = t)
    ∧ ∃ k, counted true k s s'.
Proof.
  intros (Hnil & Hz & Hb & Hbst & Hheap). unfold Treap.delete.
  rewrite (zrep_root _ _ Hz).
  rewrite (find_spec _ _ _ [] _ _ (zrep_sub _ _ _ Hz)).
  2:{ pose proof (bounded_size _ _ Hz Hb). unfold fuel_of. lia. }
  cbn [mbind option_bind].
  pose proof (plug_locate v [] t) as Hplug. cbn [plug] in Hplug.
  pose proof (locate_fits v [] t Hbst (fits_nil v)) as [Hfit Hfound].
  destruct (locate v [] t) as [c tz] eqn:Hloc. cbn [fst snd] in *.
  destruct tz as [|l z i r]; cbn [ptr].
  - exists false, s, t. split; [done|]. split; [done|]. split.
    + split; [|done].
      intros (k0 & Hk0 & Hin)%list_elem_of_fmap. by apply Hfound in Hin.
    + exists 0%nat. by apply counted_0.
  - rewrite <-Hplug in Hz, Hb, Hbst, Hheap. apply zrep_focus in Hz.
    apply heap_plug in Hheap as ((q & Hq & Hll & Hlr & Hhl & Hhr) & Hc & Hcf).
    assert (Hsz : (size l + size r < fuel_of s)%nat).
    { pose proof (NoDup_bounded_length _ (next s) (zrep_nodup _ _ _ Hz)
                    (bounded_ctx _ _ _ Hb)) as Hlen.
      rewrite length_app in Hlen. simpl in Hlen.
      rewrite length_app in Hlen. simpl in Hlen. rewrite !size_ids in Hlen.
      unfold fuel_of. lia. }
    destruct (rotate_down_spec (fuel_of s) s c l z i r) as
      (s1 & c1 & k & E1 & Hz1 & Hc1 & Hb1 & Ha1 & Hk1); try done.
    { destruct c as [|f c]; [done|]. destruct Hcf as (p & Hp & q' & ? & ?).
      exists p. split; [done|]. eapply le_prio_mono; [done|]. congruence. }
    { destruct c as [|f c]; [done|]. destruct Hcf as (p & Hp & q' & ? & ?).
      exists p. split; [done|]. eapply le_prio_mono; [done|]. congruence. }
    call E1.
    pose proof (zrep_root_cell _ _ _ _ _ _ Hz1) as Hn. step.
    assert (Hres : ∃ s2, match cpar c1 None with
              | Some p => rd left s1 p ≫= λ pl,
                   Some (true, if bool_decide (pl = Some z)
                               then wr_left p None s1 else wr_right p None s1)
              | None => Some (true, set_root None s1)
              end = Some (true, s2) ∧ zrep s2 c1 E ∧ same_attrs s1 s2
                    ∧ same_counters s1 s2).
    { destruct c1 as [|f c1]; cbn [cpar].
      - eexists. split; [done|]. split; [|done].
        unfold zrep. simpl. split_and!; try done. constructor.
      - assert (cpar (f :: c1) None = Some (fid f)) as Hcp by (by destruct f).
        cbn [cpar] in Hcp. rewrite Hcp.
        destruct (unlink_leaf _ _ _ _ _ Hz1) as (n & Hp & Hz2).
        rewrite (rd_lookup left _ _ _ Hp). cbn [mbind option_bind].
        eexists. split; [done|]. split; [done|].
        by destruct (bool_decide _). }
    destruct Hres as (s2 & -> & Hz2 & Ha2 & Hk2).
    exists true, s2, (plug c1 E). split; [done|].
    destruct (binds_plug_split c1) as (L & R & HLR).
    assert (binds (plug c (T l z i r)) = L ++ (z, v) :: R) as Hbt.
    { rewrite <-Hb1, HLR. simpl. by rewrite Hfound. }
    split; [|split].
    + split. { destruct Ha2 as (_ & -> & _), Ha1 as (_ & -> & _). done. }
      split; [by apply zrep_unfocus|]. split.
      { unfold bounded in *. rewrite ids_binds, HLR. simpl.
        rewrite ids_binds, Hbt in Hb.
        destruct Ha2 as (-> & _), Ha1 as (-> & _).
        rewrite fmap_app in Hb |- *. simpl in Hb.
        rewrite Forall_app in Hb |- *. rewrite Forall_cons in Hb. tauto. }
      split.
      { apply bst_keys. rewrite keys_binds, HLR. simpl.
        apply bst_keys in Hbst. rewrite keys_binds, Hbt in Hbst.
        rewrite fmap_app in Hbst |- *. simpl in Hbst.
        by eapply sorted_remove. }
      apply heap_plug. split; [done|]. split; [done|].
      destruct c1 as [|f c1]; [done|].
      destruct f; simpl in Hc1; destruct Hc1 as (p & ? & _); by exists p.
    + exists L, z, R. split; [by rewrite <-Hplug|]. rewrite HLR. done.
    + exists k. eapply (counted_trans true k 0) in Hk1; [|by apply counted_0].
      by rewrite Nat.add_0_r in Hk1.
Qed.

Lemma treap_contains_spec s t v :
  treap_inv s t → Treap.contains s v = Some (bool_decide (v ∈ keys t)).
Proof.
  intros (Hnil & Hz & Hb & Hbst & Hheap). unfold Treap.contains.
  rewrite (zrep_root _ _ Hz).
  rewrite (search_spec _ _ _ [] _ _ (zrep_sub _ _ _ Hz)).
  - by rewrite locate_found.
  - pose proof (bounded_size _ _ Hz Hb). unfold fuel_of. lia.
Qed.

(** * Red-Black trees

    ** The sentinel and the attributes of the tree object *)

Lemma nil_wr_left x v s : nil (wr_left x v s) = nil s. Proof. done. Qed.
Lemma nil_wr_right x v s : nil (wr_right x v s) = nil s. Proof. done. Qed.
Lemma nil_wr_parent x v s : nil (wr_parent x v s) = nil s. Proof. done. Qed.
Lemma nil_wr_color x v s : nil (wr_color x v s) = nil s. Proof. done. Qed.
Lemma nil_set_root r s : nil (set_root r s) = nil s. Proof. done. Qed.

Lemma root_wr_left x v s : root (wr_left x v s) = root s. Proof. done. Qed.
Lemma root_wr_right x v s : root (wr_right x v s) = root s. Proof. done. Qed.
Lemma root_wr_parent x v s : root (wr_parent x v s) = root s. Proof. done. Qed.
Lemma root_wr_color x v s : root (wr_color x v s) = root s. Proof. done. Qed.
Lemma root_set_root r s : root (set_root r s) = r. Proof. done. Qed.

#[global] Hint Rewrite nil_wr_left nil_wr_right nil_wr_parent nil_wr_color
  nil_set_root nil_count_rotation root_wr_left root_wr_right root_wr_parent
  root_wr_color root_set_root root_count_rotation : attrs.

Lemma bool_decide_some_eq (a : ref) : bool_decide (Some a = Some a) = true.
Proof. by apply bool_decide_true. Qed.

Lemma bool_decide_some_ne (a b : ref) :
  a ≠ b → bool_decide (Some a = Some b) = false.
Proof. intros. apply bool_decide_false. congruence. Qed.

(** Decides the [is nil] tests of the goal. *)
Ltac nil_tests Hnil :=
  unfold RB.is_nil; autorewrite with attrs; rewrite ?Hnil;
  repeat first
    [ rewrite bool_decide_some_eq
    | rewrite bool_decide_some_ne by solve_ne ];
  cbn [mbind option_bind].

Ltac rb_split Hz :=
  destruct Hz as (Hnil & Hnd & Hc & Ht & Hroot & (pn & Hsent)).

(** Decides the identity tests of the goal. *)
Ltac id_tests :=
  repeat match goal with
  | |- context [bool_decide (?a = ?b)] =>
      first [ rewrite (bool_decide_true (a = b)) by done
            | rewrite (bool_decide_false (a = b)) by solve_ne ]
  end;
  cbn [mbind option_bind].

Ltac rb_run Hnil :=
  repeat first [ step | progress nil_tests Hnil | progress id_tests ].

Ltac rb_finish Hnil Hroot :=
  unfold rzrep; cbn [rep rep_ctx ptr cpar ids cids];
  split_and!;
  first [ done | solve_cell | frame
        | unwr; reflexivity
        | unwr; rewrite Hroot; first [reflexivity | apply croot_cons]
        | eexists; solve_cell
        | nodup_solve
        | idtac ].

(** ** The rotations on a represented tree *)

Lemma rb_left_rotate_spec s nl c a x ix b y iy d fl :
  rzrep s nl c (T a x ix (T b y iy d)) →
  ∃ s', RB.left_rotate s x fl = Some s'
    ∧ rzrep s' nl c (T (T a x ix b) y iy d)
    ∧ cells s' !! nl = cells s !! nl
    ∧ same_attrs s s' ∧ counted fl 1 s s'.
Proof.
  intros Hz. rb_split Hz. destruct Ht as (Hx & Ha & (Hy & Hb & Hd)).
  unfold RB.left_rotate.
  destruct c as [|[P iP r|[|ll lx li lr] P iP] c'];
    (destruct b as [|bl t it br]; [|destruct Hb as (Ht & Hbl & Hbr)]);
    simpl in Hnd, Hc, Hx, Hy, Hroot |- *;
    try destruct Hc as (HP & Hr & Hc);
    try destruct Hr as (Hlx & Hll & Hlr); pose proof Hnd as Hk%(id : _ → keep _);
    nodup_norm.
  all: rb_run Hnil; (eexists; split; [reflexivity|]);
    (split; [rb_finish Hnil Hroot|]).
  all: (split; [unwr; lk; reflexivity|]).
  all: split; [split_and!; by unwr|destruct fl; unfold counted; simpl; split; lia].
Qed.

Lemma rb_right_rotate_spec s nl c a x ix b y iy d fl :
  rzrep s nl c (T (T a x ix b) y iy d) →
  ∃ s', RB.right_rotate s y fl = Some s'
    ∧ rzrep s' nl c (T a x ix (T b y iy d))
    ∧ cells s' !! nl = cells s !! nl
    ∧ same_attrs s s' ∧ counted fl 1 s s'.
Proof.
  intros Hz. rb_split Hz. destruct Ht as (Hy & (Hx & Ha & Hb) & Hd).
  unfold RB.right_rotate.
  destruct c as [|[P iP r|[|ll lx li lr] P iP] c'];
    (destruct b as [|bl t it br]; [|destruct Hb as (Ht & Hbl & Hbr)]);
    simpl in Hnd, Hc, Hx, Hy, Hroot |- *;
    try destruct Hc as (HP & Hr & Hc);
    try destruct Hr as (Hlx & Hll & Hlr); pose proof Hnd as Hk%(id : _ → keep _);
    nodup_norm.
  all: rb_run Hnil; (eexists; split; [reflexivity|]);
    (split; [rb_finish Hnil Hroot|]).
  all: (split; [unwr; lk; reflexivity|]).
  all: split; [split_and!; by unwr|destruct fl; unfold counted; simpl; split; lia].
Qed.

(** ** Descents in a tree with a sentinel *)

Lemma ptr_pid nl t : ptr (Some nl) t = Some (pid nl t).
Proof. by destruct t. Qed.

Lemma is_nil_pid s nl t :
  nil s = Some nl → nl ∉ ids t →
  RB.is_nil s (pid nl t) = match t with E => true | _ => false end.
Proof.
  intros Hnil Hnl. unfold RB.is_nil. rewrite Hnil.
  destruct t as [|l x i r]; simpl.
  - by apply bool_decide_true.
  - apply bool_decide_false. intros [= ->]. apply Hnl. set_solver.
Qed.

Lemma notin_T (x : ref) l y i r :
  x ∉ ids (T l y i r) → x ∉ ids l ∧ x ≠ y ∧ x ∉ ids r.
Proof. simpl. rewrite elem_of_app, elem_of_cons. tauto. Qed.

Lemma rb_search_spec fuel s nl v c t p :
  nil s = Some nl → nl ∉ ids t →
  rep (Some nl) (cells s) t p → (size t < fuel)%nat →
  RB.search fuel s v (pid nl t) =
  Some (match (locate v c t).2 with E => false | _ => true end).
Proof.
  intros Hnil. revert fuel c p.
  induction t as [|l IHl x i r IHr]; intros fuel c p Hnl Hrep Hf.
  - destruct fuel; cbn [RB.search RB.find]; by rewrite (is_nil_pid s nl E).
  - destruct fuel as [|fuel]; [simpl in Hf; lia|].
    cbn [RB.search]. rewrite (is_nil_pid s nl (T l x i r)) by done.
    apply notin_T in Hnl as (Hl' & _ & Hr').
    destruct Hrep as (Hx & Hl & Hr). simpl in *.
    step. destruct (str_eq v (ikey i)); [reflexivity|].
    destruct (str_lt v (ikey i)).
    + step. rewrite ptr_pid. simpl. eapply IHl; [done|done|lia].
    + step. rewrite ptr_pid. simpl. eapply IHr; [done|done|lia].
Qed.

Lemma rb_descend_spec fuel s nl v c t y :
  nil s = Some nl → nl ∉ ids t →
  rep (Some nl) (cells s) t (cpar c (Some nl)) → (size t < fuel)%nat →
  cpar c (Some nl) = Some y →
  RB.descend fuel s v (pid nl t) y =
  Some (match (locate v c t).2 with
        | E => Slot (cpar (locate v c t).1 (Some nl))
        | _ => Duplicate
        end).
Proof.
  intros Hnil. revert fuel c y.
  induction t as [|l IHl x i r IHr]; intros fuel c y Hnl Hrep Hf Hy.
  - destruct fuel; cbn [RB.descend]; rewrite (is_nil_pid s nl E) by done; simpl; by rewrite Hy.
  - destruct fuel as [|fuel]; [simpl in Hf; lia|].
    cbn [RB.descend]. rewrite (is_nil_pid s nl (T l x i r)) by done.
    apply notin_T in Hnl as (Hl' & _ & Hr').
    destruct Hrep as (Hx & Hl & Hr). simpl in *.
    step. destruct (str_eq v (ikey i)); [reflexivity|].
    destruct (str_lt v (ikey i)).
    + step. rewrite ptr_pid. simpl.
      apply (IHl fuel (FL x i r :: c)); [done|done|lia|done].
    + step. rewrite ptr_pid. simpl.
      apply (IHr fuel (FR l x i :: c)); [done|done|lia|done].
Qed.

Lemma rb_find_spec fuel s nl v c t p :
  nil s = Some nl → nl ∉ ids t →
  rep (Some nl) (cells s) t p → (size t < fuel)%nat →
  RB.find fuel s v (pid nl t) =
  Some (match (locate v c t).2 with E => None | T _ x _ _ => Some x end).
Proof.
  intros Hnil. revert fuel c p.
  induction t as [|l IHl x i r IHr]; intros fuel c p Hnl Hrep Hf.
  - destruct fuel; cbn [RB.search RB.find]; by rewrite (is_nil_pid s nl E).
  - destruct fuel as [|fuel]; [simpl in Hf; lia|].
    cbn [RB.find]. rewrite (is_nil_pid s nl (T l x i r)) by done.
    apply notin_T in Hnl as (Hl' & _ & Hr').
    destruct Hrep as (Hx & Hl & Hr). simpl in *.
    step. destruct (str_eq v (ikey i)); [reflexivity|].
    destruct (str_lt v (ikey i)).
    + step. rewrite ptr_pid. simpl. eapply IHl; [done|done|lia].
    + step. rewrite ptr_pid. simpl. eapply IHr; [done|done|lia].
Qed.

(** ** Moving the focus *)

Lemma rzrep_FL s nl c l x i r :
  rzrep s nl (FL x i r :: c) l ↔ rzrep s nl c (T l x i r).
Proof.
  unfold rzrep. simpl. rewrite croot_FL, <-app_assoc. simpl. tauto.
Qed.

Lemma rzrep_FR s nl c l x i r :
  rzrep s nl (FR l x i :: c) r ↔ rzrep s nl c (T l x i r).
Proof.
  unfold rzrep. simpl. rewrite croot_FR, <-app_assoc. simpl.
  rewrite (perm_swap (ids r)). tauto.
Qed.

Lemma rzrep_plug s nl c : ∀ c0 t,
  rzrep s nl c0 (plug c t) ↔ rzrep s nl (c ++ c0) t.
Proof.
  induction c as [|[x i r|l x i] c IH]; intros c0 t; simpl.
  - done.
  - by rewrite IH, rzrep_FL.
  - by rewrite IH, rzrep_FR.
Qed.

Lemma rzrep_focus s nl c t : rzrep s nl [] (plug c t) → rzrep s nl c t.
Proof. intros H. apply rzrep_plug in H. by rewrite app_nil_r in H. Qed.

Lemma rzrep_unfocus s nl c t : rzrep s nl c t → rzrep s nl [] (plug c t).
Proof. intros H. apply rzrep_plug. by rewrite app_nil_r. Qed.

Lemma rzrep_nil s nl c t : rzrep s nl c t → nil s = Some nl.
Proof. by intros (? & _). Qed.

Lemma rzrep_nodup s nl c t : rzrep s nl c t → NoDup (nl :: ids t ++ cids c).
Proof. by intros (_ & ? & _). Qed.

Lemma rzrep_root s nl t : rzrep s nl [] t → root s = Some (pid nl t).
Proof. intros (_ & _ & _ & _ & ? & _). by rewrite <-ptr_pid. Qed.

Lemma rzrep_sub s nl c t :
  rzrep s nl c t → rep (Some nl) (cells s) t (cpar c (Some nl)).
Proof. by intros (_ & _ & _ & ? & _). Qed.

Lemma rzrep_fresh s nl c t : rzrep s nl c t → nl ∉ ids t.
Proof.
  intros Hz%rzrep_nodup. apply NoDup_cons_1 in Hz as [Hz _].
  by apply notin_app_1 in Hz as [? _].
Qed.

Lemma rb_bounded_size s nl t :
  rzrep s nl [] t → bounded s t → (nl < next s)%nat →
  (S (size t) ≤ next s)%nat.
Proof.
  intros Hz Hb Hnl. rewrite <-size_ids.
  apply (NoDup_bounded_length (nl :: ids t)).
  - apply rzrep_nodup in Hz. simpl in Hz. by rewrite app_nil_r in Hz.
  - by constructor.
Qed.

Lemma rzrep_count_rotation b s nl c t :
  rzrep s nl c t → rzrep (count_rotation b s) nl c t.
Proof. by destruct b. Qed.

(** ** Colors and black heights *)

Lemma is_red_RED : RB.is_red (Some RED) = true.
Proof. done. Qed.
Lemma is_red_BLACK : RB.is_red (Some BLACK) = false.
Proof. done. Qed.
Lemma is_black_RED : RB.is_black (Some RED) = false.
Proof. done. Qed.
Lemma is_black_BLACK : RB.is_black (Some BLACK) = true.
Proof. done. Qed.

(** Closes a goal by a clash between colors. *)
Ltac col_cong := cbn [rcol] in *; unfold RED, BLACK in *; congruence.

Lemma hred_black t : rcol t = Some BLACK → hred t = false.
Proof. unfold hred. by intros ->. Qed.

Lemma hred_red t : rcol t = Some RED → hred t = true.
Proof. unfold hred. by intros ->. Qed.

Lemma rb_rcol t n : rb t n → rcol t = Some RED ∨ rcol t = Some BLACK.
Proof. destruct t; simpl; [by right|]. naive_solver. Qed.

Lemma rb_black_0 t : rb t 0 → rcol t = Some BLACK → t = E.
Proof.
  destruct t as [|l x i r]; [done|]. simpl.
  intros [(? & _)|(_ & m & ? & _)] ?; [col_cong|lia].
Qed.

Lemma rb_S_not_E t n : rb t (S n) → t ≠ E.
Proof. by destruct t. Qed.

Lemma rb_fun t : ∀ n m, rb t n → rb t m → n = m.
Proof.
  induction t as [|l IHl x i r IHr]; simpl; intros n m.
  - congruence.
  - intros [(? & _ & _ & ? & _)|(? & n' & -> & ? & _)]
           [(? & _ & _ & ? & _)|(? & m' & -> & ? & _)];
      try col_cong; eauto.
Qed.

Lemma crb_weaken c n : crb c n true → crb c n false.
Proof. destruct c as [|[]]; simpl; naive_solver. Qed.

Lemma crb_any c n h : crb c n h → crb c n false.
Proof. destruct h; [apply crb_weaken|done]. Qed.

Lemma crb_irb c n h : crb c n h → irb c n.
Proof. destruct c as [|[]]; simpl; naive_solver. Qed.

Lemma rb_plug c : ∀ t n,
  crb c n (hred t) → rb t n →
  ∃ m, rb (plug c t) m ∧ rcol (plug c t) = Some BLACK.
Proof.
  induction c as [|[x i r|l x i] c IH]; intros t n Hc Ht; simpl in *.
  - exists n. split; [done|]. apply rb_rcol in Ht as [Ht|Ht]; [|done].
    by rewrite (hred_red _ Ht) in Hc.
  - assert (rcol t = Some BLACK ∨ hred t = true) as Hcol.
    { apply rb_rcol in Ht as [Ht|Ht]; [right; by apply hred_red|by left]. }
    destruct Hc as [(Hi & Hh & Hr & Hrb & Hc)|(Hi & Hrb & Hc)].
    + apply (IH _ n); [by rewrite hred_red|]. simpl. left.
      destruct Hcol; [done|col_cong].
    + apply (IH _ (S n)); [by rewrite hred_black|]. simpl. right. eauto.
  - assert (rcol t = Some BLACK ∨ hred t = true) as Hcol.
    { apply rb_rcol in Ht as [Ht|Ht]; [right; by apply hred_red|by left]. }
    destruct Hc as [(Hi & Hh & Hr & Hrb & Hc)|(Hi & Hrb & Hc)].
    + apply (IH _ n); [by rewrite hred_red|]. simpl. left.
      destruct Hcol; [done|col_cong].
    + apply (IH _ (S n)); [by rewrite hred_black|]. simpl. right. eauto.
Qed.

Lemma rb_unplug c : ∀ t m,
  rb (plug c t) m → rcol (plug c t) = Some BLACK →
  ∃ n, rb t n ∧ crb c n (hred t).
Proof.
  induction c as [|[x i r|l x i] c IH]; intros t m Hp Hcol; simpl in *.
  - exists m. split; [done|]. by apply hred_black.
  - destruct (IH _ _ Hp Hcol) as (n & Ht & Hc). simpl in Ht.
    destruct Ht as [(Hi & Hl & Hr & Hrl & Hrr)|(Hi & k & -> & Hrl & Hrr)].
    + exists n. split; [done|]. left. rewrite hred_red in Hc by done.
      split_and!; try done. by apply hred_black.
    + exists k. split; [done|]. right. by rewrite hred_black in Hc.
  - destruct (IH _ _ Hp Hcol) as (n & Ht & Hc). simpl in Ht.
    destruct Ht as [(Hi & Hl & Hr & Hrl & Hrr)|(Hi & k & -> & Hrl & Hrr)].
    + exists n. split; [done|]. left. rewrite hred_red in Hc by done.
      split_and!; try done. by apply hred_black.
    + exists k. split; [done|]. right. by rewrite hred_black in Hc.
Qed.

Lemma binds_blacken t : binds (blacken t) = binds t.
Proof. by destruct t. Qed.

Lemma ids_blacken t : ids (blacken t) = ids t.
Proof. by destruct t. Qed.

Lemma rcol_blacken t : rcol (blacken t) = Some BLACK.
Proof. by destruct t. Qed.

Lemma rb_blacken t n : rb t n → ∃ m, rb (blacken t) m.
Proof.
  destruct t as [|l x i r]; simpl; [by exists n|].
  intros [(_ & _ & _ & ? & ?)|(_ & m & -> & ? & ?)].
  - exists (S n). right. eauto.
  - exists (S m). right. eauto.
Qed.

(** ** Symbolic execution on a represented Red-Black tree *)

Ltac nil_tests' :=
  unfold RB.is_nil; autorewrite with attrs;
  repeat match goal with
  | H : nil ?s = Some _ |- context [nil ?s] => rewrite H
  end;
  repeat first
    [ rewrite bool_decide_some_eq
    | rewrite bool_decide_some_ne by solve_ne ];
  cbn [mbind option_bind].

Lemma rd_color_pid s nl t p pn :
  rep (Some nl) (cells s) t p → cells s !! nl = Some (sentinel pn nl) →
  rd color s (pid nl t) = Some (rcol t).
Proof.
  destruct t; simpl; intros Hr Hs; [by rewrite (rd_lookup _ _ _ _ Hs)|].
  destruct Hr as (Hx & _). by rewrite (rd_lookup _ _ _ _ Hx).
Qed.

Lemma pid_ne (x nl : ref) t : nl ≠ x → x ∉ ids t → x ≠ pid nl t.
Proof. intros Hn Hx. destruct t; simpl; [done|]. set_solver. Qed.

Ltac pid_tests :=
  repeat match goal with
  | |- context [bool_decide (?a = pid ?nl ?t)] =>
      rewrite (bool_decide_false (a = pid nl t))
        by (apply pid_ne; [solve_ne|assumption])
  end;
  cbn [mbind option_bind].

(** Reads the color at the root of a subtree, sentinel or node. *)
Ltac read_color :=
  match goal with
  | Hr : rep (Some ?nl) (cells ?s) ?t _,
    Hs : cells ?s !! ?nl = Some (sentinel _ ?nl)
    |- context [rd color ?s (pid ?nl ?t)] =>
      rewrite (rd_color_pid s nl t _ _ Hr Hs); cbn [mbind option_bind]
  end.

Ltac color_tests :=
  repeat match goal with
  | H : icolor ?i = Some _ |- context [icolor ?i] => rewrite H
  | H : rcol ?t = Some _ |- context [rcol ?t] => rewrite H
  end;
  rewrite ?is_red_RED, ?is_red_BLACK, ?is_black_RED, ?is_black_BLACK;
  cbn [negb mbind option_bind].

(** Runs the straight-line code at the head of the goal. *)
Ltac rb_exec :=
  repeat first
    [ step | read_color
    | progress (rewrite ptr_pid; cbn [mbind option_bind pid])
    | progress nil_tests' | progress id_tests | progress pid_tests
    | progress color_tests ].

Lemma rzrep_down_l s nl c l x i r :
  rzrep s nl c (T l x i r) → rzrep s nl (FL x i r :: c) l.
Proof. apply rzrep_FL. Qed.
Lemma rzrep_up_l s nl c l x i r :
  rzrep s nl (FL x i r :: c) l → rzrep s nl c (T l x i r).
Proof. apply rzrep_FL. Qed.
Lemma rzrep_down_r s nl c l x i r :
  rzrep s nl c (T l x i r) → rzrep s nl (FR l x i :: c) r.
Proof. apply rzrep_FR. Qed.
Lemma rzrep_up_r s nl c l x i r :
  rzrep s nl (FR l x i :: c) r → rzrep s nl c (T l x i r).
Proof. apply rzrep_FR. Qed.

(** Splits a representation fact along the visible part of the tree. *)
Ltac rz_open H :=
  let Hnil := fresh "Hnil" in
  let Hnd := fresh "Hnd" in
  let Hc := fresh "Hc" in
  let Ht := fresh "Ht" in
  let Hroot := fresh "Hroot" in
  let pn := fresh "pn" in
  let Hsent := fresh "Hsent" in
  destruct H as (Hnil & Hnd & Hc & Ht & Hroot & (pn & Hsent));
  cbn [rep rep_ctx ptr cpar ids cids] in Hnd, Hc, Ht;
  destruct_and?; nodup_norm.

(** Proves a representation fact from the cells of the store. *)
Ltac rz_build :=
  unfold rzrep; cbn [rep rep_ctx ptr cpar ids cids];
  split_and!;
  first [ done | solve_cell | frame
        | lk; reflexivity
        | autorewrite with attrs; assumption
        | unwr; reflexivity
        | unwr;
          match goal with
          | H : root ?s = _ |- context [root ?s] =>
              rewrite H;
              repeat first [rewrite croot_FL | rewrite croot_FR]; reflexivity
          end
        | eexists; solve_cell
        | nodup_solve ].

(** Forgets what is known of the references. *)
Ltac clear_atoms :=
  repeat match goal with
  | H : NoDup _ |- _ => clear H
  | H : disj _ _ |- _ => clear H
  | H : @elem_of ref _ _ _ _ → False |- _ => clear H
  | H : _ ∉ ids _ |- _ => clear H
  | H : _ ∉ cids _ |- _ => clear H
  | H : @eq ref _ _ → False |- _ => clear H
  | H : @eq nat _ _ → False |- _ => clear H
  end.

(** Proves a coloring fact about a tree whose parts are colored as
    the hypotheses say. *)
Ltac rb_solve :=
  cbn [rb crb irb rcol plug blacken icolor set_ic];
  first
    [ eassumption | reflexivity
    | lazymatch goal with
      | |- _ ∧ _ => split; rb_solve
      | |- ∃ _, _ => eexists; rb_solve
      | |- _ ∨ _ => first [left; solve [rb_solve] | right; solve [rb_solve]]
      end ].

Lemma plug_ne_E c l x i r : plug c (T l x i r) ≠ E.
Proof.
  revert l x i r. induction c as [|[] c IH]; intros; simpl; [done|..]; apply IH.
Qed.

(** The state on which the goal calls a rotation or resumes a loop. *)
Ltac rot_state k :=
  lazymatch goal with
  | |- context [RB.right_rotate ?st _ _] => k st
  | |- context [RB.left_rotate ?st _ _] => k st
  end.

Ltac loop_state k :=
  lazymatch goal with
  | |- context [RB.insert_fixup_loop _ ?st _] => k st
  end.

Ltac nl_chain :=
  repeat match goal with
  | H : cells _ !! ?nl = cells _ !! ?nl |- cells _ !! ?nl = _ =>
      rewrite H; lk
  end;
  reflexivity.

(** Relates the attributes and counters of the first and last states
    along the states in between. *)
Ltac attrs_chain :=
  unfold same_attrs, counted in *; destruct_and?;
  cbn [next nil max_priority rotations_insert rotations_delete guard_returns
       with_cells set_root wr_left wr_right wr_parent wr_value wr_height
       wr_color] in *;
  split_and!; first [congruence | lia].

Ltac binds_eq Hb :=
  rewrite Hb; cbn [plug]; apply binds_plug_eq; list_eq.

Ltac rb_close E Hz Hne Hrb Hb :=
  split; [exact E|]; split; [exact Hz|]; split; [exact Hne|];
  split; [exact Hrb|]; split; [binds_eq Hb|]; split; [nl_chain|];
  split; attrs_chain.

Lemma insert_fixup_loop_spec nl : ∀ fuel c s l z iz r n,
  rzrep s nl c (T l z iz r) → (length c < fuel)%nat →
  icolor iz = Some RED → rcol l = Some BLACK → rcol r = Some BLACK →
  rb l n → rb r n → irb c n →
  ∃ s' t' k, RB.insert_fixup_loop fuel s z = Some s'
    ∧ rzrep s' nl [] t' ∧ t' ≠ E ∧ (∃ m, rb (blacken t') m)
    ∧ binds t' = binds (plug c (T l z iz r))
    ∧ cells s' !! nl = cells s !! nl
    ∧ same_attrs s s' ∧ counted false k s s'.
Proof.
  induction fuel as [|fuel IH]; intros c s l z iz r n Hz Hf Hiz Hl Hr Hrl Hrr Hc;
    [lia|].
  assert (Hexit : ∀ m, rb (plug c (T l z iz r)) m →
    RB.insert_fixup_loop (S fuel) s z = Some s →
    ∃ s' t' k, RB.insert_fixup_loop (S fuel) s z = Some s'
      ∧ rzrep s' nl [] t' ∧ t' ≠ E ∧ (∃ m, rb (blacken t') m)
      ∧ binds t' = binds (plug c (T l z iz r))
      ∧ cells s' !! nl = cells s !! nl
      ∧ same_attrs s s' ∧ counted false k s s').
  { intros m Hm E. exists s, (plug c (T l z iz r)), 0%nat.
    split; [done|]. split; [by apply rzrep_unfocus|].
    split; [apply plug_ne_E|]. split; [by eapply rb_blacken|].
    split; [done|]. split; [done|]. split; [done|]. by apply counted_0. }
  cbn [RB.insert_fixup_loop].
  destruct c as [|f c].
  { (* z is the root *)
    apply (Hexit n); [simpl; left; done|].
    cbn [RB.insert_fixup_loop]. rz_open Hz. rb_exec. reflexivity. }
  assert (Hblack : irb (f :: c) n → icolor (finfo f) = Some BLACK →
    ∃ m, rb (plug (f :: c) (T l z iz r)) m).
  { intros Hirb Hcol.
    destruct (rb_plug (f :: c) (T l z iz r) n) as (m & Hm & _); [| |by exists m].
    - destruct f; simpl in *; right; destruct Hirb as [(?&_)|(_&?&?)];
        try col_cong; done.
    - simpl. left. done. }
  destruct f as [P iP sP|sP P iP]; simpl in Hc;
    (destruct Hc as [(HiP & HsP & HrsP & Hc)|(HiP & HrsP & Hc)];
     [|edestruct Hblack as (m & Hm); [simpl; right; done|done|];
       apply (Hexit m Hm); cbn [RB.insert_fixup_loop]; rz_open Hz; rb_exec;
       reflexivity]);
    (destruct c as [|g c]; [done|]);
    (destruct g as [G iG U|U G iG]; simpl in Hc;
     (destruct Hc as [(HiG & Hh & _)|(HiG & HrU & Hc)]; [done|]));
    (destruct (rb_rcol _ _ HrU) as [HcU|HcU];
     [destruct U as [|ul U iU ur]; [col_cong|]; simpl in HcU, HrU;
      destruct HrU as [(_ & Hul & Hur & Hrul & Hrur)|(? & _)]; [|col_cong]|]);
    clear Hexit Hblack; pose proof Hz as Hz0; rz_open Hz; rb_exec.
  - (* parent and uncle RED, both on the left *)
    loop_state ltac:(fun st =>
      destruct (IH c st (T (T l z iz r) P (set_ic (Some BLACK) iP) sP) G
                  (set_ic (Some RED) iG) (T ul U (set_ic (Some BLACK) iU) ur)
                  (S n))
        as (s' & t' & k & E & Hz' & Hne & Hrb & Hb & Hnl' & Ha & Hcnt));
      [rz_build|simpl in Hf; lia|done|done|done|rb_solve|rb_solve
      |by eapply crb_irb|].
    exists s', t', k. rb_close E Hz' Hne Hrb Hb.
  - (* z = z.parent.left, z.parent = z.parent.parent.left *)
    rot_state ltac:(fun st =>
      assert (Hz1 : rzrep st nl c
                (T (T (T l z iz r) P (set_ic (Some BLACK) iP) sP) G
                   (set_ic (Some RED) iG) U)) by rz_build).
    eapply rb_right_rotate_spec with (fl := false) in Hz1
      as (s1 & E1 & Hz1 & Hnl1 & Ha1 & Hc1).
    call E1. apply rzrep_down_l in Hz1.
    destruct (IH _ _ _ _ _ _ n Hz1)
      as (s' & t' & k & E & Hz' & Hne & Hrb & Hb & Hnl' & Ha & Hcnt);
      [simpl in Hf |- *; lia|done|done|done|done|done|rb_solve|].
    exists s', t', (1 + k)%nat. rb_close E Hz' Hne Hrb Hb.
  - (* parent RED on the right of z.parent.parent... uncle RED on the left *)
    loop_state ltac:(fun st =>
      destruct (IH c st (T ul U (set_ic (Some BLACK) iU) ur) G
                  (set_ic (Some RED) iG)
                  (T (T l z iz r) P (set_ic (Some BLACK) iP) sP) (S n))
        as (s' & t' & k & E & Hz' & Hne & Hrb & Hb & Hnl' & Ha & Hcnt));
      [rz_build|simpl in Hf; lia|done|done|done|rb_solve|rb_solve
      |by eapply crb_irb|].
    exists s', t', k. rb_close E Hz' Hne Hrb Hb.
  - (* z = z.parent.left, z.parent = z.parent.parent.right *)
    apply rzrep_up_l in Hz0.
    eapply rb_right_rotate_spec with (fl := false) in Hz0
      as (s1 & E1 & Hz1 & Hnl1 & Ha1 & Hc1).
    call E1. pose proof Hz1 as Hz1'. rz_open Hz1'. rb_exec.
    rot_state ltac:(fun st =>
      assert (Hz2 : rzrep st nl c
                (T U G (set_ic (Some RED) iG)
                   (T l z (set_ic (Some BLACK) iz) (T r P iP sP))))
        by rz_build).
    eapply rb_left_rotate_spec with (fl := false) in Hz2
      as (s2 & E2 & Hz2 & Hnl2 & Ha2 & Hc2).
    call E2. apply rzrep_down_r in Hz2.
    destruct (IH _ _ _ _ _ _ n Hz2)
      as (s' & t' & k & E & Hz' & Hne & Hrb & Hb & Hnl' & Ha & Hcnt);
      [simpl in Hf |- *; lia|done|done|done|done|done|rb_solve|].
    exists s', t', (2 + k)%nat. rb_close E Hz' Hne Hrb Hb.
  - (* parent RED on the left, z on its right, uncle RED *)
    loop_state ltac:(fun st =>
      destruct (IH c st (T sP P (set_ic (Some BLACK) iP) (T l z iz r)) G
                  (set_ic (Some RED) iG) (T ul U (set_ic (Some BLACK) iU) ur)
                  (S n))
        as (s' & t' & k & E & Hz' & Hne & Hrb & Hb & Hnl' & Ha & Hcnt));
      [rz_build|simpl in Hf; lia|done|done|done|rb_solve|rb_solve
      |by eapply crb_irb|].
    exists s', t', k. rb_close E Hz' Hne Hrb Hb.
  - (* z = z.parent.right, z.parent = z.parent.parent.left *)
    apply rzrep_up_r in Hz0.
    eapply rb_left_rotate_spec with (fl := false) in Hz0
      as (s1 & E1 & Hz1 & Hnl1 & Ha1 & Hc1).
    call E1. pose proof Hz1 as Hz1'. rz_open Hz1'. rb_exec.
    rot_state ltac:(fun st =>
      assert (Hz2 : rzrep st nl c
                (T (T (T sP P iP l) z (set_ic (Some BLACK) iz) r) G
                   (set_ic (Some RED) iG) U))
        by rz_build).
    eapply rb_right_rotate_spec with (fl := false) in Hz2
      as (s2 & E2 & Hz2 & Hnl2 & Ha2 & Hc2).
    call E2. apply rzrep_down_l in Hz2.
    destruct (IH _ _ _ _ _ _ n Hz2)
      as (s' & t' & k & E & Hz' & Hne & Hrb & Hb & Hnl' & Ha & Hcnt);
      [simpl in Hf |- *; lia|done|done|done|done|done|rb_solve|].
    exists s', t', (2 + k)%nat. rb_close E Hz' Hne Hrb Hb.
  - (* parent and uncle RED, parent on the right, z on its right *)
    loop_state ltac:(fun st =>
      destruct (IH c st (T ul U (set_ic (Some BLACK) iU) ur) G
                  (set_ic (Some RED) iG)
                  (T sP P (set_ic (Some BLACK) iP) (T l z iz r)) (S n))
        as (s' & t' & k & E & Hz' & Hne & Hrb & Hb & Hnl' & Ha & Hcnt));
      [rz_build|simpl in Hf; lia|done|done|done|rb_solve|rb_solve
      |by eapply crb_irb|].
    exists s', t', k. rb_close E Hz' Hne Hrb Hb.
  - (* z = z.parent.right, z.parent = z.parent.parent.right *)
    rot_state ltac:(fun st =>
      assert (Hz1 : rzrep st nl c
                (T U G (set_ic (Some RED) iG)
                   (T sP P (set_ic (Some BLACK) iP) (T l z iz r))))
        by rz_build).
    eapply rb_left_rotate_spec with (fl := false) in Hz1
      as (s1 & E1 & Hz1 & Hnl1 & Ha1 & Hc1).
    call E1. apply rzrep_down_r in Hz1.
    destruct (IH _ _ _ _ _ _ n Hz1)
      as (s' & t' & k & E & Hz' & Hne & Hrb & Hb & Hnl' & Ha & Hcnt);
      [simpl in Hf |- *; lia|done|done|done|done|done|rb_solve|].
    exists s', t', (1 + k)%nat. rb_close E Hz' Hne Hrb Hb.
Qed.

(** ** Insertion *)

Lemma rzrep_wr_color s nl c l x i r co :
  rzrep s nl c (T l x i r) →
  rzrep (wr_color x co s) nl c (T l x (set_ic co i) r).
Proof. intros Hz. rz_open Hz. rz_build. Qed.

Lemma fresh_red_cell v nl s :
  cells (fresh_red v nl s) !! next s
  = Some (cell (new_info v (Some RED) None) (Some nl) (Some nl) (Some nl)).
Proof. unfold fresh_red. lk. reflexivity. Qed.

Lemma fresh_red_other v nl s x :
  x ≠ next s → cells (fresh_red v nl s) !! x = cells s !! x.
Proof. intros Hx. unfold fresh_red. lk. reflexivity. Qed.

Lemma fresh_red_objects v nl s : same_objects s (fresh_red v nl s).
Proof.
  unfold same_objects, fresh_red. unwr. split_and!; try done; [lia|].
  intros x Hx. assert (x ≠ next s) by lia. lk. reflexivity.
Qed.

Lemma rzrep_fresh_red s nl c t v :
  rzrep s nl c t → next s ∉ nl :: ids t ++ cids c →
  rzrep (fresh_red v nl s) nl c t.
Proof.
  intros (Hnil & Hnd & Hc & Ht & Hroot & (pn & Hsent)) Hfresh.
  apply notin_cons_1 in Hfresh as (Hn & (Hft & Hfc)%notin_app_1).
  split; [done|]. split; [done|]. unfold fresh_red. split_and!.
  - frame.
  - frame.
  - done.
  - exists pn. lk. done.
Qed.

Lemma rb_link_root s nl v :
  rzrep s nl [] E → next s ≠ nl →
  rzrep (set_root (Some (next s))
           (wr_parent (next s) (Some nl) (fresh_red v nl s)))
        nl [] (T E (next s) (new_info v (Some RED) None) E).
Proof.
  intros (Hnil & Hnd & Hc & Ht & Hroot & (pn & Hsent)) Hn.
  unfold rzrep. cbn [rep rep_ctx ptr cpar ids cids]. split_and!; try done.
  - repeat constructor; set_solver.
  - unfold fresh_red. lk. reflexivity.
  - exists pn. unfold fresh_red. lk. done.
Qed.

Lemma rb_link_leaf s nl f c v :
  rzrep s nl (f :: c) E → fits v (f :: c) →
  next s ∉ nl :: cids (f :: c) →
  let s1 := wr_parent (next s) (Some (fid f)) (fresh_red v nl s) in
  nd value s1 (fid f) = Some (ikey (finfo f))
  ∧ rzrep (if str_lt v (ikey (finfo f))
           then wr_left (fid f) (Some (next s)) s1
           else wr_right (fid f) (Some (next s)) s1)
          nl (f :: c) (T E (next s) (new_info v (Some RED) None) E).
Proof.
  intros Hz Hfit Hfresh.
  assert (Hnd' : keep (NoDup (next s :: nl :: cids (f :: c)))).
  { constructor; [done|]. apply rzrep_nodup in Hz. done. }
  destruct f as [p i r|l p i]; rz_open Hz; unfold keep in Hnd';
    cbn [cids] in Hnd'; nodup_norm; cbn [fid finfo]; unfold fresh_red.
  - split. { erewrite nd_lookup; [|solve_cell]. done. }
    rewrite (fits_FL _ _ _ _ _ Hfit). rz_build.
  - split. { erewrite nd_lookup; [|solve_cell]. done. }
    rewrite (fits_FR _ _ _ _ _ Hfit). rz_build.
Qed.

Lemma insert_fixup_spec s nl c z i :
  rzrep s nl c (T E z i E) → icolor i = Some RED → irb c 0 →
  (length c < fuel_of s)%nat →
  ∃ s' t' k, RB.insert_fixup s z = Some s'
    ∧ rzrep s' nl [] t' ∧ rcol t' = Some BLACK ∧ (∃ m, rb t' m)
    ∧ binds t' = binds (plug c (T E z i E))
    ∧ same_attrs s s' ∧ counted false k s s'.
Proof.
  intros Hz Hi Hc Hf. unfold RB.insert_fixup.
  destruct (insert_fixup_loop_spec nl _ _ _ _ _ _ _ 0%nat Hz Hf)
    as (s1 & t1 & k & E1 & Hz1 & Hne & (m & Hrb) & Hb & _ & Ha & Hcnt);
    try done.
  call E1. rewrite (rzrep_root _ _ _ Hz1). cbn [mbind option_bind].
  destruct t1 as [|l x ix r]; [done|]. cbn [pid].
  exists (wr_color x (Some BLACK) s1), (blacken (T l x ix r)), k.
  split; [done|]. split; [by apply rzrep_wr_color|]. split; [done|].
  split; [by exists m|]. split; [done|]. split; attrs_chain.
Qed.

Lemma nil_alloc n s : nil (alloc n s).2 = nil s.
Proof. done. Qed.
Lemma nil_fresh_red v nl s : nil (fresh_red v nl s) = nil s.
Proof. done. Qed.
Lemma root_fresh_red v nl s : root (fresh_red v nl s) = root s.
Proof. done. Qed.
Lemma next_fresh_red v nl s : next (fresh_red v nl s) = S (next s).
Proof. done. Qed.

Lemma rb_insert_spec s t v :
  rb_inv s t →
  ∃ b s' t',
    RB.insert s v = Some (b, s') ∧ rb_inv s' t'
    ∧ (if b
       then v ∉ keys t
            ∧ ∃ L R, binds t = L ++ R ∧ binds t' = L ++ (next s, v) :: R
       else v ∈ keys t ∧ same_objects s s' ∧ t' = t)
    ∧ ∃ k, counted false k s s'.
Proof.
  intros (nl & Hz & Hb & Hnl & Hbst & Hcol & n & Hrb).
  pose proof (rzrep_nil _ _ _ _ Hz) as Hnil.
  pose proof (rzrep_root _ _ _ Hz) as Hroot.
  unfold RB.insert. do_alloc s. rewrite !nil_alloc.
  autorewrite with attrs. rewrite !nil_alloc, Hnil.
  fold (fresh_red v nl s). cbn [mbind option_bind].
  change (root (alloc _ s).2) with (root s). rewrite Hroot.
  cbn [mbind option_bind].
  assert (Hfresh : next s ∉ nl :: ids t ++ cids []).
  { simpl. rewrite app_nil_r. intros [Heq|Hin]%elem_of_cons; [lia|].
    unfold bounded in Hb. rewrite Forall_forall in Hb. apply Hb in Hin. lia. }
  pose proof (rzrep_fresh_red _ _ _ _ v Hz Hfresh) as Hz0.
  rewrite (rb_descend_spec _ _ nl v [] t nl);
    [|done|by eapply rzrep_fresh|by eapply rzrep_sub|
     |done].
  2:{ pose proof (rb_bounded_size _ _ _ Hz Hb Hnl). unfold fuel_of.
      change (next (fresh_red v nl s)) with (S (next s)). lia. }
  cbn [mbind option_bind].
  pose proof (plug_locate v [] t) as Hplug. cbn [plug] in Hplug.
  pose proof (locate_fits v [] t Hbst (fits_nil v)) as [Hfit Hfound].
  destruct (locate v [] t) as [c' t'] eqn:Hloc. cbn [fst snd] in *.
  destruct t' as [|l' x' i' r'].
  - (* the key is new *)
    assert (Hkeys : v ∉ keys t).
    { intros (k0 & Hk0 & Hin)%list_elem_of_fmap. by apply Hfound in Hin. }
    rewrite <-Hplug in Hz, Hb, Hbst, Hrb, Hcol.
    apply rzrep_focus in Hz. apply bounded_ctx in Hb. simpl in Hb.
    destruct (rb_unplug _ _ _ Hrb Hcol) as (n0 & Hn0 & Hcrb).
    simpl in Hn0. subst n0. apply crb_irb in Hcrb.
    assert (Hlen : (length c' < fuel_of s)%nat).
    { pose proof (length_cids c').
      pose proof (NoDup_bounded_length (cids c') (next s)) as Hlen.
      apply rzrep_nodup in Hz. simpl in Hz. apply NoDup_cons_1 in Hz as [_ Hz].
      specialize (Hlen Hz Hb). unfold fuel_of. lia. }
    assert (Hfresh' : next s ∉ nl :: cids c').
    { intros [Heq|Hin]%elem_of_cons; [lia|].
      rewrite Forall_forall in Hb. apply Hb in Hin. lia. }
    assert (∃ y s1, cpar c' (Some nl) = Some y ∧
      (if RB.is_nil (wr_parent (next s) (Some y) (fresh_red v nl s)) y
       then Some (set_root (Some (next s))
                    (wr_parent (next s) (Some y) (fresh_red v nl s)))
       else
         nd value (wr_parent (next s) (Some y) (fresh_red v nl s)) y
         ≫= λ yv : string,
              Some (if str_lt v yv
                    then wr_left y (Some (next s))
                           (wr_parent (next s) (Some y) (fresh_red v nl s))
                    else wr_right y (Some (next s))
                           (wr_parent (next s) (Some y) (fresh_red v nl s))))
        = Some s1
      ∧ rzrep s1 nl c' (T E (next s) (new_info v (Some RED) None) E)
      ∧ next s1 = S (next s) ∧ same_counters s s1)
      as (y & s1 & Hy & E1 & Hz1 & Hn1 & Hc1).
    { destruct c' as [|f c'].
      - exists nl. cbn [cpar]. unfold RB.is_nil.
        change (nil (wr_parent _ _ (fresh_red v nl s))) with (nil s).
        rewrite Hnil, bool_decide_some_eq.
        eexists. split; [done|]. split; [reflexivity|]. split; [|done].
        apply rb_link_root; [done|lia].
      - exists (fid f). unfold RB.is_nil.
        change (nil (wr_parent _ _ (fresh_red v nl s))) with (nil s).
        rewrite Hnil, bool_decide_some_ne.
        2:{ apply rzrep_nodup in Hz. simpl in Hz.
            apply NoDup_cons_1 in Hz as [Hz _]. destruct f; set_solver. }
        destruct (rb_link_leaf s nl f c' v Hz Hfit Hfresh') as [Hv Hz2].
        rewrite Hv. cbn [mbind option_bind].
        eexists. split; [by destruct f|]. split; [reflexivity|].
        split; [exact Hz2|].
        by destruct (str_lt v (ikey (finfo f))). }
    rewrite Hy. cbn [mbind option_bind].
    rewrite E1. cbn [mbind option_bind].
    destruct (insert_fixup_spec s1 nl c' (next s) (new_info v (Some RED) None))
      as (s' & t' & k & E & Hz' & Hcol' & Hrb' & Hb' & Ha' & Hcnt'); try done.
    { unfold fuel_of in *. lia. }
    call E. exists true, s', t'. split; [done|]. split; [|split].
    + exists nl. split; [done|].
      destruct Ha' as (Hn' & _). split.
      { unfold bounded. rewrite ids_binds, Hb', <-ids_binds, ids_plug.
        rewrite Hn', Hn1. simpl. constructor; [lia|].
        eapply Forall_impl; [exact Hb|]. simpl. lia. }
      split; [lia|]. split; [|done].
      eapply bst_binds; [symmetry; exact Hb'|].
      by eapply bst_plug_leaf.
    + split; [done|].
      destruct (binds_plug_split c') as (L & R & HLR).
      exists L, R. rewrite Hb', <-Hplug, !HLR. done.
    + exists k. apply (counted_trans false 0 k s s1 s'); [|done].
      by apply counted_0.
  - (* duplicate *)
    exists false, (fresh_red v nl s), t. split; [done|]. split; [|split].
    + exists nl. split; [done|]. split.
      { unfold bounded in *. eapply Forall_impl; [exact Hb|].
        intros x Hx. change (next (fresh_red v nl s)) with (S (next s)). simpl in *. lia. }
      split; [change (next (fresh_red v nl s)) with (S (next s)); lia|eauto].
    + split; [|split; [apply fresh_red_objects|done]].
      rewrite <-Hplug, <-Hfound. apply keys_plug_found.
    + exists 0%nat. apply counted_0. done.
Qed.

(** ** Deletion: the loop of [_delete_fixup] *)

Lemma delete_fixup_loop_eq fuel s x :
  RB.delete_fixup_loop (S fuel) s x =
  r ← root s;
  go ← (if bool_decide (x = r) then Some false
        else xc ← rd color s x; Some (RB.is_black xc));
  if negb go then Some (x, s)
  else
    xp ← nd parent s x;
    xpl ← nd left s xp;
    if bool_decide (x = xpl) then
      w ← nd right s xp;
      wc ← rd color s w;
      '(w, s) ← (if RB.is_red wc then
                   let s := wr_color w (Some BLACK) s in
                   xp ← nd parent s x;
                   let s := wr_color xp (Some RED) s in
                   s ← RB.left_rotate s xp true;
                   xp ← nd parent s x;
                   w ← nd right s xp;
                   Some (w, s)
                 else Some (w, s));
      fixup_left_tail (RB.delete_fixup_loop fuel) s x w
    else
      w ← nd left s xp;
      wc ← rd color s w;
      '(w, s) ← (if RB.is_red wc then
                   let s := wr_color w (Some BLACK) s in
                   xp ← nd parent s x;
                   let s := wr_color xp (Some RED) s in
                   s ← RB.right_rotate s xp true;
                   xp ← nd parent s x;
                   w ← nd left s xp;
                   Some (w, s)
                 else Some (w, s));
      fixup_right_tail (RB.delete_fixup_loop fuel) s x w.
Proof. reflexivity. Qed.

Lemma nd_parent_wr_color s x y co :
  nd parent (wr_color y co s) x = nd parent s x.
Proof.
  unfold nd. unwr. destruct (decide (x = y)) as [->|Hne].
  - rewrite lookup_alter_eq. by destruct (cells s !! y).
  - by rewrite lookup_alter_ne.
Qed.

(** Reads the parent of the node [x] of the loop. *)
Ltac read_par :=
  match goal with
  | H : nd parent ?s ?x = Some _ |- context [nd parent _ ?x] =>
      rewrite ?nd_parent_wr_color; rewrite H; cbn [mbind option_bind]
  end.

Ltac pid_tests' :=
  repeat match goal with
  | |- context [bool_decide (pid ?nl ?t = ?a)] =>
      rewrite (bool_decide_false (pid nl t = a))
        by (apply not_eq_sym, pid_ne; [solve_ne|assumption])
  end;
  cbn [mbind option_bind].

Ltac rb_exec' :=
  repeat first
    [ step | read_color | read_par
    | progress (rewrite ptr_pid; cbn [mbind option_bind pid])
    | progress nil_tests' | progress id_tests | progress pid_tests
    | progress pid_tests' | progress color_tests ].

Lemma fixed_trans nl s0 c0 t0 s1 c1 t1 n res :
  fixed nl s1 c1 t1 res →
  binds (plug c1 t1) = binds (plug c0 t0) →
  same_attrs s0 s1 → counted true n s0 s1 →
  fixed nl s0 c0 t0 res.
Proof.
  intros (s' & c' & t' & n' & E & Hz & Hrb & Hcol & Hb & Ha & Hc) Hb0 Ha0 Hc0.
  exists s', c', t', (n + n')%nat. split; [done|]. split; [done|].
  split; [done|]. split; [done|]. split; [congruence|].
  split; [by eapply same_attrs_trans|by eapply counted_trans].
Qed.

Lemma dzrep_T s nl c l x i r :
  rzrep s nl c (T l x i r) → dzrep s nl c (T l x i r).
Proof.
  intros Hz. split; [done|]. apply rzrep_sub in Hz as (Hx & _).
  by rewrite (nd_lookup _ _ _ _ Hx).
Qed.

Lemma nd_parent_keep s0 s1 nl c t p :
  rzrep s1 nl c t → cells s1 !! nl = cells s0 !! nl →
  nd parent s0 (pid nl t) = Some p → cpar c (Some nl) = Some p →
  nd parent s1 (pid nl t) = Some p.
Proof.
  intros Hz Hnl Hp Hc. destruct t as [|l x i r]; simpl in *.
  - unfold nd in *. by rewrite Hnl.
  - apply rzrep_sub in Hz as (Hx & _). by rewrite (nd_lookup _ _ _ _ Hx).
Qed.

Lemma dzrep_ne s nl c t : t ≠ E → rzrep s nl c t → dzrep s nl c t.
Proof. destruct t; [done|]. intros _. apply dzrep_T. Qed.

(** The rest of the loop once [x] is the root. *)
Lemma fixup_at_root nl fuel rec s0 c0 t0 s1 c t1 n k1 :
  (∀ c s t k, dzrep s nl c t →
     (length c < fuel)%nat ∨ (rcol t = Some RED ∧ (0 < fuel)%nat) →
     short t k → crb c (S k) false →
     fixed nl s c t (rec s (pid nl t))) →
  rzrep s1 nl c t1 → t1 ≠ E → rb t1 n → crb c n (hred t1) → (0 < fuel)%nat →
  binds (plug c t1) = binds (plug c0 t0) →
  same_attrs s0 s1 → counted true k1 s0 s1 →
  fixed nl s0 c0 t0 (root s1 ≫= λ r, rec s1 r).
Proof.
  intros IH Hz Hne Hrb Hc Hf Hb Ha Hk.
  destruct (rb_plug _ _ _ Hc Hrb) as (m & Hm & Hcol).
  apply rzrep_unfocus in Hz. rewrite (rzrep_root _ _ _ Hz).
  cbn [mbind option_bind].
  eapply fixed_trans; [apply (IH [] s1 (plug c t1) m)|done|done|done].
  - apply dzrep_ne; [|done]. destruct t1; [done|]. apply plug_ne_E.
  - left. simpl. lia.
  - by left.
  - done.
Qed.

Ltac hred_solve :=
  unfold hred; cbn [rcol icolor set_ic];
  repeat match goal with
  | H : icolor ?i = Some _ |- context [icolor ?i] => rewrite H
  end;
  first [ assumption | apply crb_weaken; assumption ].

Lemma fixup_left_tail_spec nl fuel rec :
  (∀ c s t k, dzrep s nl c t →
     (length c < fuel)%nat ∨ (rcol t = Some RED ∧ (0 < fuel)%nat) →
     short t k → crb c (S k) false →
     fixed nl s c t (rec s (pid nl t))) →
  ∀ s c t P iP wl w iw wr k,
  rzrep s nl (FL P iP (T wl w iw wr) :: c) t →
  nd parent s (pid nl t) = Some P →
  icolor iw = Some BLACK → rb wl k → rb wr k → rb t k →
  (icolor iP = Some RED ∧ crb c (S k) true)
  ∨ (icolor iP = Some BLACK ∧ crb c (S (S k)) false ∧ (length c < fuel)%nat) →
  (0 < fuel)%nat →
  fixed nl s (FL P iP (T wl w iw wr) :: c) t
    (fixup_left_tail rec s (pid nl t) w).
Proof.
  intros IH s c t P iP wl w iw wr k Hz Hpar Hiw Hrwl Hrwr Hrt HP Hfuel.
  unfold fixup_left_tail.
  destruct (rb_rcol _ _ Hrwr) as [Hcwr|Hcwr].
  - (* case 4: the right child of w is RED *)
    destruct wr as [|wrl WR iwr wrr]; [col_cong|]. simpl in Hcwr, Hrwr.
    destruct Hrwr as [(_ & Hcl & Hcr & Hrl & Hrr)|(? & _)]; [|col_cong].
    destruct (rb_rcol _ _ Hrwl) as [Hcwl|Hcwl];
      destruct HP as [(HcP & Hc)|(HcP & Hc & Hlen)];
      pose proof Hz as Hz0; rz_open Hz; rb_exec'.
    all: rot_state ltac:(fun st =>
      assert (Hz1 : rzrep st nl c
        (T t P (set_ic (Some BLACK) iP)
           (T wl w (set_ic (icolor iP) iw)
              (T wrl WR (set_ic (Some BLACK) iwr) wrr))))
        by (rewrite HcP; rz_build)).
    all: eapply rb_left_rotate_spec with (fl := true) in Hz1
      as (s1 & E1 & Hz1 & Hnl1 & Ha1 & Hc1); call E1.
    all: eapply (fixup_at_root _ _ _ _ _ _ _ _ _ _ 1%nat IH Hz1);
      [done|rb_solve|hred_solve|done
      |cbn [plug]; apply binds_plug_eq; list_eq|attrs_chain|attrs_chain].
  - destruct (rb_rcol _ _ Hrwl) as [Hcwl|Hcwl].
    + (* case 3: the left child of w is RED, the right one BLACK *)
      destruct wl as [|wll WL iwl wlr]; [col_cong|]. simpl in Hcwl, Hrwl.
      destruct Hrwl as [(_ & Hcll & Hclr & Hrll & Hrlr)|(? & _)]; [|col_cong].
      destruct HP as [(HcP & Hc)|(HcP & Hc & Hlen)];
        pose proof Hz as Hz0; rz_open Hz; rb_exec'.
      all: rot_state ltac:(fun st =>
        assert (Hz1 : rzrep st nl (FR t P iP :: c)
          (T (T wll WL (set_ic (Some BLACK) iwl) wlr) w
             (set_ic (Some RED) iw) wr))
          by rz_build).
      all: eapply rb_right_rotate_spec with (fl := true) in Hz1
        as (s1 & E1 & Hz1 & Hnl1 & Ha1 & Hc1); call E1.
      all: apply rzrep_up_r, rzrep_down_l in Hz1.
      all: assert (Hpar1 : nd parent s1 (pid nl t) = Some P)
        by (eapply nd_parent_keep;
              [exact Hz1|exact Hnl1|by rewrite !nd_parent_wr_color|done]).
      all: clear Hpar; pose proof Hz1 as Hz1'; rz_open Hz1'; rb_exec'.
      all: rot_state ltac:(fun st =>
        assert (Hz2 : rzrep st nl c
          (T t P (set_ic (Some BLACK) iP)
             (T wll WL (set_ic (icolor iP) (set_ic (Some BLACK) iwl))
                (T wlr w (set_ic (Some BLACK) (set_ic (Some RED) iw)) wr))))
          by (rewrite HcP; rz_build)).
      all: eapply rb_left_rotate_spec with (fl := true) in Hz2
        as (s2 & E2 & Hz2 & Hnl2 & Ha2 & Hc2); call E2.
      all: eapply (fixup_at_root _ _ _ _ _ _ _ _ _ _ 2%nat IH Hz2);
        [done|rb_solve|hred_solve|done
        |cbn [plug]; apply binds_plug_eq; list_eq|attrs_chain|attrs_chain].
    + (* case 2: both children of w are BLACK *)
      destruct HP as [(HcP & Hc)|(HcP & Hc & Hlen)];
        pose proof Hz as Hz0; rz_open Hz; rb_exec'.
      * eapply (fixed_trans _ _ _ _ _ _ _ 0%nat);
          [apply (IH c _ (T t P iP (T wl w (set_ic (Some RED) iw) wr)) k)
          |cbn [plug]; apply binds_plug_eq; list_eq|attrs_chain|attrs_chain].
        -- apply dzrep_T. rz_build.
        -- right. split; [done|lia].
        -- right. split; [done|rb_solve].
        -- by apply crb_weaken.
      * eapply (fixed_trans _ _ _ _ _ _ _ 0%nat);
          [apply (IH c _ (T t P iP (T wl w (set_ic (Some RED) iw) wr)) (S k))
          |cbn [plug]; apply binds_plug_eq; list_eq|attrs_chain|attrs_chain].
        -- apply dzrep_T. rz_build.
        -- by left.
        -- left. split; [done|rb_solve].
        -- done.
Qed.

Lemma fixup_right_tail_spec nl fuel rec :
  (∀ c s t k, dzrep s nl c t →
     (length c < fuel)%nat ∨ (rcol t = Some RED ∧ (0 < fuel)%nat) →
     short t k → crb c (S k) false →
     fixed nl s c t (rec s (pid nl t))) →
  ∀ s c t P iP wl w iw wr k,
  rzrep s nl (FR (T wl w iw wr) P iP :: c) t →
  nd parent s (pid nl t) = Some P →
  icolor iw = Some BLACK → rb wl k → rb wr k → rb t k →
  (icolor iP = Some RED ∧ crb c (S k) true)
  ∨ (icolor iP = Some BLACK ∧ crb c (S (S k)) false ∧ (length c < fuel)%nat) →
  (0 < fuel)%nat →
  fixed nl s (FR (T wl w iw wr) P iP :: c) t
    (fixup_right_tail rec s (pid nl t) w).
Proof.
  intros IH s c t P iP wl w iw wr k Hz Hpar Hiw Hrwl Hrwr Hrt HP Hfuel.
  unfold fixup_right_tail.
  destruct (rb_rcol _ _ Hrwl) as [Hcwl|Hcwl].
  - (* case 4: the left child of w is RED *)
    destruct wl as [|wll WL iwl wlr]; [col_cong|]. simpl in Hcwl, Hrwl.
    destruct Hrwl as [(_ & Hcl & Hcr & Hrl & Hrr)|(? & _)]; [|col_cong].
    destruct (rb_rcol _ _ Hrwr) as [Hcwr|Hcwr];
      destruct HP as [(HcP & Hc)|(HcP & Hc & Hlen)];
      pose proof Hz as Hz0; rz_open Hz; rb_exec'.
    all: rot_state ltac:(fun st =>
      assert (Hz1 : rzrep st nl c
        (T (T (T wll WL (set_ic (Some BLACK) iwl) wlr) w
              (set_ic (icolor iP) iw) wr)
           P (set_ic (Some BLACK) iP) t))
        by (rewrite HcP; rz_build)).
    all: eapply rb_right_rotate_spec with (fl := true) in Hz1
      as (s1 & E1 & Hz1 & Hnl1 & Ha1 & Hc1); call E1.
    all: eapply (fixup_at_root _ _ _ _ _ _ _ _ _ _ 1%nat IH Hz1);
      [done|rb_solve|hred_solve|done
      |cbn [plug]; apply binds_plug_eq; list_eq|attrs_chain|attrs_chain].
  - destruct (rb_rcol _ _ Hrwr) as [Hcwr|Hcwr].
    + (* case 3: the right child of w is RED, the left one BLACK *)
      destruct wr as [|wrl WR iwr wrr]; [col_cong|]. simpl in Hcwr, Hrwr.
      destruct Hrwr as [(_ & Hcrl & Hcrr & Hrrl & Hrrr)|(? & _)]; [|col_cong].
      destruct HP as [(HcP & Hc)|(HcP & Hc & Hlen)];
        pose proof Hz as Hz0; rz_open Hz; rb_exec'.
      all: rot_state ltac:(fun st =>
        assert (Hz1 : rzrep st nl (FL P iP t :: c)
          (T wl w (set_ic (Some RED) iw)
             (T wrl WR (set_ic (Some BLACK) iwr) wrr)))
          by rz_build).
      all: eapply rb_left_rotate_spec with (fl := true) in Hz1
        as (s1 & E1 & Hz1 & Hnl1 & Ha1 & Hc1); call E1.
      all: apply rzrep_up_l, rzrep_down_r in Hz1.
      all: assert (Hpar1 : nd parent s1 (pid nl t) = Some P)
        by (eapply nd_parent_keep;
              [exact Hz1|exact Hnl1|by rewrite !nd_parent_wr_color|done]).
      all: clear Hpar; pose proof Hz1 as Hz1'; rz_open Hz1'; rb_exec'.
      all: rot_state ltac:(fun st =>
        assert (Hz2 : rzrep st nl c
          (T (T (T wl w (set_ic (Some BLACK) (set_ic (Some RED) iw)) wrl) WR
                (set_ic (icolor iP) (set_ic (Some BLACK) iwr)) wrr)
             P (set_ic (Some BLACK) iP) t))
          by (rewrite HcP; rz_build)).
      all: eapply rb_right_rotate_spec with (fl := true) in Hz2
        as (s2 & E2 & Hz2 & Hnl2 & Ha2 & Hc2); call E2.
      all: eapply (fixup_at_root _ _ _ _ _ _ _ _ _ _ 2%nat IH Hz2);
        [done|rb_solve|hred_solve|done
        |cbn [plug]; apply binds_plug_eq; list_eq|attrs_chain|attrs_chain].
    + (* case 2: both children of w are BLACK *)
      destruct HP as [(HcP & Hc)|(HcP & Hc & Hlen)];
        pose proof Hz as Hz0; rz_open Hz; rb_exec'.
      * eapply (fixed_trans _ _ _ _ _ _ _ 0%nat);
          [apply (IH c _ (T (T wl w (set_ic (Some RED) iw) wr) P iP t) k)
          |cbn [plug]; apply binds_plug_eq; list_eq|attrs_chain|attrs_chain].
        -- apply dzrep_T. rz_build.
        -- right. split; [done|lia].
        -- right. split; [done|rb_solve].
        -- by apply crb_weaken.
      * eapply (fixed_trans _ _ _ _ _ _ _ 0%nat);
          [apply (IH c _ (T (T wl w (set_ic (Some RED) iw) wr) P iP t) (S k))
          |cbn [plug]; apply binds_plug_eq; list_eq|attrs_chain|attrs_chain].
        -- apply dzrep_T. rz_build.
        -- by left.
        -- left. split; [done|rb_solve].
        -- done.
Qed.

Lemma rzrep_root_ne s nl f c t :
  rzrep s nl (f :: c) t → ∃ rt, root s = Some rt ∧ pid nl t ≠ rt.
Proof.
  intros (_ & Hnd & _ & _ & Hroot & _).
  assert (∃ rt, croot (f :: c) (ptr (Some nl) t) = Some rt ∧ rt ∈ cids (f :: c))
    as (rt & Hrt & Hin).
  { clear. revert f. induction c as [|g c IH]; intros f.
    - destruct f; simpl; eexists; (split; [reflexivity|]); set_solver.
    - destruct (IH g) as (rt & Hrt & Hin).
      exists rt. split.
      + destruct f; [rewrite croot_FL|rewrite croot_FR];
          erewrite croot_cons; exact Hrt.
      + destruct f; simpl; set_solver. }
  exists rt. split; [congruence|].
  apply NoDup_cons_1 in Hnd as [Hnl Hnd]. apply NoDup_app_disj in Hnd as (_ & Hd & _).
  destruct t as [|l x i r]; simpl.
  - intros ->. apply Hnl. set_solver.
  - intros ->. apply (Hd rt); [set_solver|done].
Qed.

Lemma short_exit c t k :
  short t k → crb c (S k) false → rcol t = Some RED ∨ c = [] →
  (∃ m, rb (plug c (blacken t)) m) ∧ rcol (plug c (blacken t)) = Some BLACK.
Proof.
  intros Hs Hc Hx.
  assert (∃ m, rb (blacken t) m ∧ crb c m false) as (m & Hm & Hcm).
  { destruct Hs as [(Hb & Hrb)|(Hr & Hrb)].
    - destruct Hx as [Hx | ->]; [col_cong|].
      destruct (rb_blacken _ _ Hrb) as (m & Hm). by exists m.
    - by exists (S k). }
  destruct (rb_plug c (blacken t) m) as (m' & ? & ?); [|done|by eauto].
  by rewrite hred_black by apply rcol_blacken.
Qed.

Lemma delete_fixup_loop_spec nl : ∀ fuel c s t k,
  dzrep s nl c t →
  (length c < fuel)%nat ∨ (rcol t = Some RED ∧ (0 < fuel)%nat) →
  short t k → crb c (S k) false →
  fixed nl s c t (RB.delete_fixup_loop fuel s (pid nl t)).
Proof.
  induction fuel as [|fuel IH]; intros c s t k [Hz Hpar] Hf Hs Hc.
  { destruct Hf as [?|[_ ?]]; lia. }
  rewrite delete_fixup_loop_eq.
  assert (Hexit : rcol t = Some RED ∨ c = [] →
                  fixed nl s c t (Some (pid nl t, s))).
  { intros Hx. destruct (short_exit c t k Hs Hc Hx) as [Hm Hcol].
    exists s, c, t, 0%nat. split; [done|]. split; [done|]. split; [done|].
    split; [done|]. split; [done|]. split; [done|]. by apply counted_0. }
  destruct c as [|f c].
  { rewrite (rzrep_root _ _ _ Hz). cbn [mbind option_bind].
    rewrite bool_decide_true by done. cbn [mbind option_bind negb].
    apply Hexit. by right. }
  destruct (rzrep_root_ne _ _ _ _ _ Hz) as (rt & Hrt & Hne).
  rewrite Hrt. cbn [mbind option_bind].
  rewrite bool_decide_false by done.
  assert (Hxc : rd color s (pid nl t) = Some (rcol t)).
  { destruct Hz as (_ & _ & _ & Ht & _ & (pn & Hsent)).
    by eapply rd_color_pid. }
  rewrite Hxc. cbn [mbind option_bind].
  destruct Hs as [(Hblack & Hrt')|(Hred & Hrt')].
  2:{ rewrite Hred, is_black_RED. cbn [negb]. apply Hexit. by left. }
  rewrite Hblack, is_black_BLACK. cbn [negb].
  assert (Hfuel : (0 < fuel)%nat ∧ (length c < fuel)%nat).
  { destruct Hf as [Hf|[? _]]; [simpl in Hf; lia|col_cong]. }
  destruct Hfuel as [Hfuel Hlen]. clear Hf Hexit Hxc.
  destruct f as [P iP W|W P iP]; cbn [cpar] in Hpar; cbn [crb] in Hc.
  - (* x is the left child *)
    assert (∃ m, rb W (S k)
              ∧ ((icolor iP = Some RED ∧ rcol W = Some BLACK ∧ crb c (S k) true)
                 ∨ (icolor iP = Some BLACK ∧ crb c (S (S k)) false)))
      as (_ & HW & HP) by (exists 0%nat; naive_solver).
    clear Hc. destruct W as [|wl w iw wr]; [done|].
    simpl in HW. destruct HW as [(Hiw & Hcwl & Hcwr & Hrwl & Hrwr)
                                |(Hiw & k' & [= <-] & Hrwl & Hrwr)].
    + (* case 1: the sibling is RED *)
      destruct HP as [(_ & ? & _)|(HcP & Hc)]; [col_cong|].
      destruct wl as [|wll WL iwl wlr]; [done|].
      simpl in Hcwl, Hrwl.
      destruct Hrwl as [(? & _)|(_ & k' & [= <-] & Hrwll & Hrwlr)]; [col_cong|].
      pose proof Hz as Hz0. rz_open Hz. rb_exec'.
      rot_state ltac:(fun st =>
        assert (Hz1 : rzrep st nl c
          (T t P (set_ic (Some RED) iP)
             (T (T wll WL iwl wlr) w (set_ic (Some BLACK) iw) wr)))
          by rz_build).
      eapply rb_left_rotate_spec with (fl := true) in Hz1
        as (s1 & E1 & Hz1 & Hnl1 & Ha1 & Hc1). call E1.
      apply rzrep_down_l, rzrep_down_l in Hz1.
      assert (Hpar1 : nd parent s1 (pid nl t) = Some P)
        by (eapply nd_parent_keep;
              [exact Hz1|exact Hnl1|by rewrite !nd_parent_wr_color|done]).
      clear Hpar. pose proof Hz1 as Hz1'. rz_open Hz1'. rb_exec'.
      eapply (fixed_trans _ _ _ _ _ _ _ 1%nat);
        [apply (fixup_left_tail_spec nl fuel _ IH _ _ _ _ _ _ _ _ _ k Hz1)
        |cbn [plug]; apply binds_plug_eq; list_eq|attrs_chain|attrs_chain];
        try done.
      left. split; [done|]. rb_solve.
    + (* the sibling is BLACK *)
      pose proof Hz as Hz0. rz_open Hz. rb_exec'.
      apply (fixup_left_tail_spec nl fuel _ IH _ _ _ _ _ _ _ _ _ k Hz0);
        try done.
      destruct HP as [(? & _ & ?)|(? & ?)]; [by left|by right].
  - (* x is the right child *)
    assert (∃ m, rb W (S k)
              ∧ ((icolor iP = Some RED ∧ rcol W = Some BLACK ∧ crb c (S k) true)
                 ∨ (icolor iP = Some BLACK ∧ crb c (S (S k)) false)))
      as (_ & HW & HP) by (exists 0%nat; naive_solver).
    clear Hc. destruct W as [|wl w iw wr]; [done|].
    simpl in HW. destruct HW as [(Hiw & Hcwl & Hcwr & Hrwl & Hrwr)
                                |(Hiw & k' & [= <-] & Hrwl & Hrwr)].
    + (* case 1: the sibling is RED *)
      destruct HP as [(_ & ? & _)|(HcP & Hc)]; [col_cong|].
      destruct wr as [|wrl WR iwr wrr]; [done|].
      simpl in Hcwr, Hrwr.
      destruct Hrwr as [(? & _)|(_ & k' & [= <-] & Hrwrl & Hrwrr)]; [col_cong|].
      pose proof Hz as Hz0. rz_open Hz. rb_exec'.
      rot_state ltac:(fun st =>
        assert (Hz1 : rzrep st nl c
          (T (T wl w (set_ic (Some BLACK) iw) (T wrl WR iwr wrr)) P
             (set_ic (Some RED) iP) t))
          by rz_build).
      eapply rb_right_rotate_spec with (fl := true) in Hz1
        as (s1 & E1 & Hz1 & Hnl1 & Ha1 & Hc1). call E1.
      apply rzrep_down_r, rzrep_down_r in Hz1.
      assert (Hpar1 : nd parent s1 (pid nl t) = Some P)
        by (eapply nd_parent_keep;
              [exact Hz1|exact Hnl1|by rewrite !nd_parent_wr_color|done]).
      clear Hpar. pose proof Hz1 as Hz1'. rz_open Hz1'. rb_exec'.
      eapply (fixed_trans _ _ _ _ _ _ _ 1%nat);
        [apply (fixup_right_tail_spec nl fuel _ IH _ _ _ _ _ _ _ _ _ k Hz1)
        |cbn [plug]; apply binds_plug_eq; list_eq|attrs_chain|attrs_chain];
        try done.
      left. split; [done|]. rb_solve.
    + (* the sibling is BLACK *)
      pose proof Hz as Hz0. rz_open Hz. rb_exec'.
      apply (fixup_right_tail_spec nl fuel _ IH _ _ _ _ _ _ _ _ _ k Hz0);
        try done.
      destruct HP as [(? & _ & ?)|(? & ?)]; [by left|by right].
Qed.

(** ** Deletion: the node leaves the tree *)

Lemma delete_eq s v :
  RB.delete s v =
  r ← root s;
  z ← RB.find (fuel_of s) s v r;
  match z with
  | None => Some (false, s)
  | Some z =>
      y_original_color ← rd color s z;
      zl ← nd left s z;
      zr ← nd right s z;
      '(x, y_original_color, s) ← unlink s z y_original_color zl zr;
      s ← (if RB.is_black y_original_color
           then RB.delete_fixup s x else Some s);
      Some (true, s)
  end.
Proof. reflexivity. Qed.

Lemma rzrep_wr_color_nil s nl c t :
  rzrep s nl c t → rzrep (wr_color nl (Some BLACK) s) nl c t.
Proof.
  intros (Hnil & Hnd & Hc & Ht & Hroot & (pn & Hsent)).
  pose proof Hnd as Hnd'%NoDup_cons_1. destruct Hnd' as [Hn _].
  apply notin_app_1 in Hn as [Hnt Hnc].
  split; [done|]. split; [done|]. split_and!.
  - frame.
  - frame.
  - done.
  - exists pn. lk. rewrite Hsent. reflexivity.
Qed.

Lemma delete_fixup_spec s nl c t k :
  dzrep s nl c t → (length c < fuel_of s)%nat →
  short t k → crb c (S k) false →
  ∃ s' t' n, RB.delete_fixup s (pid nl t) = Some s'
    ∧ rzrep s' nl [] t' ∧ rcol t' = Some BLACK ∧ (∃ m, rb t' m)
    ∧ binds t' = binds (plug c t)
    ∧ same_attrs s s' ∧ counted true n s s'.
Proof.
  intros Hz Hf Hs Hc. unfold RB.delete_fixup.
  destruct (delete_fixup_loop_spec nl (fuel_of s) c s t k)
    as (s1 & c1 & t1 & n & E1 & Hz1 & Hrb & Hcol & Hb & Ha & Hcnt);
    [done|by left|done|done|].
  call E1.
  exists (wr_color (pid nl t1) (Some BLACK) s1), (plug c1 (blacken t1)), n.
  split; [done|]. split.
  { apply rzrep_unfocus. destruct t1 as [|l x i r]; cbn [pid blacken].
    - by apply rzrep_wr_color_nil.
    - by apply rzrep_wr_color. }
  split; [done|]. split; [done|]. split.
  { rewrite <-Hb. apply binds_plug_eq, binds_blacken. }
  split; attrs_chain.
Qed.

Ltac par_solve :=
  erewrite nd_lookup; [|first [solve_cell | lk; reflexivity]];
  nsimpl; reflexivity.

Lemma transplant_r_spec s nl c l z iz r :
  rzrep s nl c (T l z iz r) →
  ∃ s1, RB.transplant s z (pid nl r) = Some s1 ∧ dzrep s1 nl c r
    ∧ cells s1 !! z = cells s !! z
    ∧ same_attrs s s1 ∧ same_counters s s1.
Proof.
  intros Hz. unfold RB.transplant.
  destruct c as [|[P iP sP|sP P iP] c'];
    destruct r as [|rl rx ri rr]; rz_open Hz; rb_exec; cbn [pid cpar];
    (eexists; split; [reflexivity|]);
    (split; [split; [rz_build|par_solve]|]);
    (split; [lk; reflexivity|done]).
Qed.

Lemma transplant_l_spec s nl c l z iz r :
  rzrep s nl c (T l z iz r) →
  ∃ s1, RB.transplant s z (pid nl l) = Some s1 ∧ dzrep s1 nl c l
    ∧ cells s1 !! z = cells s !! z
    ∧ same_attrs s s1 ∧ same_counters s s1.
Proof.
  intros Hz. unfold RB.transplant.
  destruct c as [|[P iP sP|sP P iP] c'];
    destruct l as [|ll lx li lr]; rz_open Hz; rb_exec; cbn [pid cpar];
    (eexists; split; [reflexivity|]);
    (split; [split; [rz_build|par_solve]|]);
    (split; [lk; reflexivity|done]).
Qed.

Lemma lmost_plug l : ∀ c x i r c' y iy ry,
  lmost c l x i r = (c', (y, iy, ry)) →
  plug c' (T E y iy ry) = plug c (T l x i r).
Proof.
  induction l as [|ll IH lx li lr _]; intros c x i r c' y iy ry Hl; simpl in *.
  - by simplify_eq.
  - by rewrite (IH _ _ _ _ _ _ _ _ Hl).
Qed.

Lemma lmost_app l : ∀ c x i r,
  lmost c l x i r = ((lmost [] l x i r).1 ++ c, (lmost [] l x i r).2).
Proof.
  induction l as [|ll IH lx li lr _]; intros c x i r; simpl; [done|].
  rewrite (IH (FL x i r :: c)), (IH [FL x i r]). simpl.
  by rewrite <-app_assoc.
Qed.

Lemma lmost_left l : ∀ c x i r,
  Forall is_FL c → Forall is_FL (lmost c l x i r).1.
Proof.
  induction l as [|ll IH lx li lr _]; intros c x i r Hc; simpl; [done|].
  apply IH. by constructor.
Qed.

Lemma lmost_length l : ∀ c x i r,
  (length (lmost c l x i r).1 ≤ size l + length c)%nat.
Proof.
  induction l as [|ll IH lx li lr _]; intros c x i r; simpl; [done|].
  etrans; [apply IH|]. simpl. lia.
Qed.

Lemma binds_left_ctx c :
  Forall is_FL c → ∃ R, ∀ t, binds (plug c t) = binds t ++ R.
Proof.
  induction c as [|[x i r|l x i] c IH]; intros Hc.
  - exists []. intros t. simpl. by rewrite app_nil_r.
  - apply Forall_cons in Hc as [_ Hc]. destruct (IH Hc) as (R & HR).
    eexists. intros t. simpl. rewrite HR. simpl. rewrite <-app_assoc. done.
  - by apply Forall_cons in Hc as [[] _].
Qed.

Lemma rb_minimum_spec l : ∀ fuel s nl x i r p c,
  nil s = Some nl → nl ∉ ids l →
  rep (Some nl) (cells s) (T l x i r) p → (size l < fuel)%nat →
  RB.minimum fuel s x = Some (lmost c l x i r).2.1.1.
Proof.
  induction l as [|ll IH lx li lr _]; intros fuel s nl x i r p c Hnil Hnl Hr Hf;
    (destruct fuel as [|fuel]; [simpl in Hf; lia|]);
    destruct Hr as (Hx & Hl & Hr); cbn [RB.minimum]; simpl in Hx; step.
  - unfold RB.is_nil. rewrite Hnil. by rewrite bool_decide_true.
  - apply notin_T in Hnl as (Hnl & Hne & _).
    unfold RB.is_nil. rewrite Hnil. rewrite bool_decide_false by congruence.
    simpl. eapply IH; [done|done|exact Hl|simpl in Hf; lia].
Qed.

Lemma plug_cons_ne_E f c t : plug (f :: c) t ≠ E.
Proof. destruct f; simpl; apply plug_ne_E. Qed.

Lemma plug_app c1 c2 t : plug (c1 ++ c2) t = plug c2 (plug c1 t).
Proof.
  revert t. induction c1 as [|[] c1 IH]; intros t; simpl; [done|..]; apply IH.
Qed.

Lemma cids_app c1 c2 : cids (c1 ++ c2) = cids c1 ++ cids c2.
Proof.
  induction c1 as [|[] c1 IH]; simpl; [done|..];
    by rewrite IH, <-app_assoc.
Qed.

Lemma is_nil_T s nl l x i r :
  nil s = Some nl → nl ∉ ids (T l x i r) → RB.is_nil s x = false.
Proof. intros Hnil Hnl. apply (is_nil_pid s nl (T l x i r)); done. Qed.

Lemma is_nil_nl s nl : nil s = Some nl → RB.is_nil s nl = true.
Proof. intros Hnil. unfold RB.is_nil. rewrite Hnil. by apply bool_decide_true. Qed.

Lemma unlink_spec s nl c l z iz r :
  rzrep s nl c (T l z iz r) → (size r < fuel_of s)%nat →
  ∃ s1, unlink s z (icolor iz) (pid nl l) (pid nl r)
        = Some (pid nl (unlinked c l iz r).1.2, (unlinked c l iz r).2, s1)
     ∧ dzrep s1 nl (unlinked c l iz r).1.1 (unlinked c l iz r).1.2
     ∧ same_attrs s s1 ∧ same_counters s s1.
Proof.
  intros Hz Hf. unfold unlink.
  pose proof (rzrep_nil _ _ _ _ Hz) as Hnil.
  pose proof (rzrep_fresh _ _ _ _ Hz) as Hfr.
  apply notin_T in Hfr as (Hfl & Hfz & Hfrr).
  destruct l as [|ll lx li lr].
  { (* no left child *)
    cbn [pid unlinked fst snd]. rewrite (is_nil_nl _ _ Hnil).
    destruct (transplant_r_spec _ _ _ _ _ _ _ Hz) as (s1 & E1 & Hz1 & _ & Ha & Hc).
    call E1. by exists s1. }
  cbn [pid]. rewrite (is_nil_T _ _ _ _ _ _ Hnil Hfl).
  destruct r as [|rl rx ri rr].
  { (* no right child *)
    cbn [pid unlinked fst snd]. rewrite (is_nil_nl _ _ Hnil).
    destruct (transplant_l_spec _ _ _ _ _ _ _ Hz) as (s1 & E1 & Hz1 & _ & Ha & Hc).
    cbn [pid] in E1. call E1. by exists s1. }
  cbn [pid]. rewrite (is_nil_T _ _ _ _ _ _ Hnil Hfrr).
  cbn [pid unlinked].
  pose proof (lmost_plug rl [] rx ri rr) as Hplug.
  pose proof (lmost_left rl [] rx ri rr (Forall_nil_2 _)) as Hleft.
  rewrite (rb_minimum_spec rl (fuel_of s) s nl rx ri rr (Some z) []); [|done|..].
  2:{ apply notin_T in Hfrr. tauto. }
  2:{ apply rzrep_sub in Hz as (_ & _ & Hr). exact Hr. }
  2:{ simpl in Hf. lia. }
  destruct (lmost [] rl rx ri rr) as [cy [[y iy] ry]].
  specialize (Hplug _ _ _ _ eq_refl). cbn [plug fst snd] in *.
  cbn [mbind option_bind].
  destruct cy as [|f cy].
  { (* the successor is the right child of z *)
    cbn [plug] in Hplug. symmetry in Hplug. simplify_eq. cbn [app].
    unfold RB.transplant.
    destruct c as [|[P iP sP|sP P iP] c'];
      destruct ry as [|rl rx ri rr]; rz_open Hz; rb_exec; cbn [pid cpar];
      (eexists; split; [reflexivity|]);
      (split; [split; [apply rzrep_down_r; rz_build|par_solve]|done]). }
  (* the successor lies deeper *)
  apply Forall_cons in Hleft as [Hf' _].
  destruct f as [YP iYP sYP|]; [clear Hf'|done].
  set (l := T ll lx li lr) in *.
  pose proof Hz as Hzy. rewrite <-Hplug in Hzy.
  apply rzrep_down_r, rzrep_plug in Hzy. cbn [app] in Hzy.
  destruct (transplant_r_spec _ _ _ _ _ _ _ Hzy)
    as (s1 & E1 & [Hz1 Hpar1] & Hy1 & Ha1 & Hc1).
  pose proof Hz1 as Hz1'.
  change (FL YP iYP sYP :: cy ++ FR l z iz :: c)
    with ((FL YP iYP sYP :: cy) ++ FR l z iz :: c) in Hz1'.
  apply rzrep_plug, rzrep_up_r in Hz1'.
  assert (Hyf : y ∉ nl :: ids (T l z iz (plug (FL YP iYP sYP :: cy) ry))
                  ++ cids c).
  { apply rzrep_nodup in Hzy. cbn [ids cids] in Hzy. rewrite cids_app in Hzy.
    cbn [ids cids]. rewrite ids_plug. cbn [ids cids] in Hzy |- *.
    nodup_norm. nodup_solve. }
  rz_open Hzy. rewrite cids_app in *. cbn [cids] in *. nodup_norm.
  match goal with
  | H : cells s !! y = Some _ |- _ => pose proof H as Hy; rewrite <-Hy1 in Hy
  end.
  rb_exec. rewrite E1. cbn [mbind option_bind].
  destruct (plug (FL YP iYP sYP :: cy) ry) as [|r1 rx' ri' r2] eqn:Hr';
    [by apply plug_cons_ne_E in Hr'|].
  cbn [cpar] in Hpar1. subst l. cbn [ids] in *. nodup_norm.
  destruct c as [|[P iP sP|sP P iP] c']; unfold RB.transplant;
    cbn [cids] in *; nodup_norm; rz_open Hz1'; rb_exec; cbn [pid cpar];
    (eexists; split; [reflexivity|]);
    (split; [|split; unfold same_counters in *; attrs_chain]).
  all: match goal with
       | |- dzrep ?st _ ?C _ =>
           assert (Hfin : rzrep st nl C ry);
             [apply rzrep_plug; rewrite Hr'; apply rzrep_down_r; rz_build|]
       end.
  all: split; [exact Hfin|].
  all: eapply (nd_parent_keep s1); [exact Hfin|lk; reflexivity|exact Hpar1|done].
Qed.

(** ** Deletion: what the tree becomes *)

Lemma lmost_unlinked c l iz rl rx ri rr :
  l ≠ E →
  ∃ cy y iy ry,
    lmost [] rl rx ri rr = (cy, (y, iy, ry))
    ∧ unlinked c l iz (T rl rx ri rr)
      = (cy ++ FR l y (set_ic (icolor iz) iy) :: c, ry, icolor iy)
    ∧ plug cy (T E y iy ry) = T rl rx ri rr
    ∧ Forall is_FL cy.
Proof.
  intros Hl. destruct (lmost [] rl rx ri rr) as [cy [[y iy] ry]] eqn:Hlm.
  exists cy, y, iy, ry. split; [done|]. split.
  - unfold unlinked. rewrite Hlm. by destruct l.
  - split; [by apply (lmost_plug rl [] rx ri rr)|].
    pose proof (lmost_left rl [] rx ri rr (Forall_nil_2 _)) as H.
    by rewrite Hlm in H.
Qed.

Lemma unlinked_binds c l z iz r :
  ∃ L R, binds (plug c (T l z iz r)) = L ++ (z, ikey iz) :: R
       ∧ binds (plug (unlinked c l iz r).1.1 (unlinked c l iz r).1.2) = L ++ R.
Proof.
  destruct (binds_plug_split c) as (Lc & Rc & Hc).
  destruct l as [|ll lx li lr].
  { exists Lc, (binds r ++ Rc). cbn [unlinked fst snd]. by rewrite !Hc. }
  destruct r as [|rl rx ri rr].
  { exists (Lc ++ binds (T ll lx li lr)), Rc. cbn [unlinked fst snd].
    rewrite !Hc. simpl. rewrite <-?app_assoc. simpl. rewrite <-?app_assoc. done. }
  destruct (lmost_unlinked c (T ll lx li lr) iz rl rx ri rr)
    as (cy & y & iy & ry & _ & -> & Hplug & Hleft); [done|].
  cbn [fst snd]. destruct (binds_left_ctx cy Hleft) as (Ry & Hy).
  exists (Lc ++ binds (T ll lx li lr)), ((y, ikey iy) :: binds ry ++ Ry ++ Rc).
  rewrite plug_app. cbn [plug]. rewrite !Hc, <-Hplug. cbn [binds].
  rewrite !Hy. cbn [binds ikey set_ic]. rewrite <-!app_assoc. simpl.
  rewrite <-!app_assoc. done.
Qed.

Lemma crb_swap cy l z iz y iy c : ∀ n h,
  icolor iy = icolor iz →
  crb (cy ++ FR l z iz :: c) n h → crb (cy ++ FR l y iy :: c) n h.
Proof.
  induction cy as [|[x i r|a x i] cy IH]; intros n h Hi; simpl.
  - by rewrite Hi.
  - intros [(? & ? & ? & ? & ?)|(? & ? & ?)]; [left|right]; split_and!;
      try done; by apply IH.
  - intros [(? & ? & ? & ? & ?)|(? & ? & ?)]; [left|right]; split_and!;
      try done; by apply IH.
Qed.

(** A node with at most one child leaves a Red-Black tree. *)
Lemma rb_remove C a y iy b u n :
  rb (T a y iy b) n → crb C n (hred (T a y iy b)) →
  (a = E ∧ u = b) ∨ (b = E ∧ u = a) →
  (icolor iy = Some BLACK ∧ ∃ k, short u k ∧ crb C (S k) false)
  ∨ (icolor iy = Some RED
     ∧ ∃ m, rb (plug C u) m ∧ rcol (plug C u) = Some BLACK).
Proof.
  intros Hrb Hc Hu. simpl in Hrb.
  destruct Hrb as [(Hi & Hca & Hcb & Ha & Hb)|(Hi & k & -> & Ha & Hb)].
  - right. split; [done|].
    rewrite hred_red in Hc by done. apply crb_weaken in Hc.
    assert (rb u n ∧ rcol u = Some BLACK) as [Hru Hcu]
      by (destruct Hu as [[_ ->]|[_ ->]]; done).
    apply (rb_plug C u n); [|done]. by rewrite hred_black.
  - left. split; [done|].
    rewrite hred_black in Hc by done.
    assert (k = 0%nat ∧ rb u k) as [-> Hru].
    { destruct Hu as [[-> ->]|[-> ->]]; simpl in *; by subst. }
    exists 0%nat. split; [|done].
    destruct (rb_rcol _ _ Hru) as [Hcu|Hcu]; [right|by left].
    split; [done|]. destruct u as [|ul ux ui ur]; [done|]. simpl in *.
    destruct Hru as [(_ & _ & _ & ? & ?)|(? & _)]; [|col_cong].
    right. split; [done|]. by exists 0%nat.
Qed.

Lemma unlinked_rb c l z iz r m :
  rb (plug c (T l z iz r)) m → rcol (plug c (T l z iz r)) = Some BLACK →
  ((unlinked c l iz r).2 = Some BLACK
   ∧ ∃ k, short (unlinked c l iz r).1.2 k
          ∧ crb (unlinked c l iz r).1.1 (S k) false)
  ∨ ((unlinked c l iz r).2 = Some RED
     ∧ ∃ m', rb (plug (unlinked c l iz r).1.1 (unlinked c l iz r).1.2) m'
          ∧ rcol (plug (unlinked c l iz r).1.1 (unlinked c l iz r).1.2)
            = Some BLACK).
Proof.
  intros Hrb Hcol.
  destruct l as [|ll lx li lr].
  { destruct (rb_unplug _ _ _ Hrb Hcol) as (n & Hn & Hc).
    cbn [unlinked fst snd]. eapply rb_remove; [done|done|]. by left. }
  destruct r as [|rl rx ri rr].
  { destruct (rb_unplug _ _ _ Hrb Hcol) as (n & Hn & Hc).
    cbn [unlinked fst snd]. eapply rb_remove; [done|done|]. by right. }
  destruct (lmost_unlinked c (T ll lx li lr) iz rl rx ri rr)
    as (cy & y & iy & ry & _ & -> & Hplug & Hleft); [done|].
  cbn [fst snd]. rewrite <-Hplug in Hrb, Hcol.
  change (plug c (T (T ll lx li lr) z iz (plug cy (T E y iy ry))))
    with (plug (FR (T ll lx li lr) z iz :: c) (plug cy (T E y iy ry)))
    in Hrb, Hcol.
  rewrite <-plug_app in Hrb, Hcol.
  destruct (rb_unplug _ _ _ Hrb Hcol) as (n & Hn & Hc).
  apply (crb_swap _ _ _ _ y (set_ic (icolor iz) iy)) in Hc; [|reflexivity].
  eapply rb_remove; [exact Hn|exact Hc|]. by left.
Qed.

(** ** The public operations of the Red-Black tree *)

Lemma rb_contains_spec s t v :
  rb_inv s t → RB.contains s v = Some (bool_decide (v ∈ keys t)).
Proof.
  intros (nl & Hz & Hb & Hnl & Hbst & _). unfold RB.contains.
  rewrite (rzrep_root _ _ _ Hz). cbn [mbind option_bind].
  rewrite (rb_search_spec _ _ nl v [] t (Some nl)).
  - by rewrite locate_found.
  - by eapply rzrep_nil.
  - by eapply rzrep_fresh.
  - apply (rzrep_sub _ _ [] _ Hz).
  - pose proof (rb_bounded_size _ _ _ Hz Hb Hnl). unfold fuel_of. lia.
Qed.

Lemma bounded_remove s s' t t' L (z : ref) (v : string) R :
  bounded s t → next s' = next s →
  binds t = L ++ (z, v) :: R → binds t' = L ++ R → bounded s' t'.
Proof.
  unfold bounded. intros Hb -> Ht Ht'.
  rewrite ids_binds, Ht' . rewrite ids_binds, Ht in Hb.
  rewrite fmap_app in Hb |- *. simpl in Hb.
  rewrite Forall_app in Hb |- *. rewrite Forall_cons in Hb. tauto.
Qed.

Lemma bst_remove t t' L (z : ref) (v : string) R :
  bst t → binds t = L ++ (z, v) :: R → binds t' = L ++ R → bst t'.
Proof.
  intros Hbst Ht Ht'. apply bst_keys. rewrite keys_binds, Ht'.
  apply bst_keys in Hbst. rewrite keys_binds, Ht in Hbst.
  rewrite fmap_app in Hbst |- *. simpl in Hbst.
  by eapply sorted_remove.
Qed.

Lemma rb_delete_spec s t v :
  rb_inv s t →
  ∃ b s' t',
    RB.delete s v = Some (b, s') ∧ rb_inv s' t'
    ∧ (if b
       then ∃ L z R, binds t = L ++ (z, v) :: R ∧ binds t' = L ++ R
       else v ∉ keys t ∧ s' = s ∧ t' = t)
    ∧ ∃ k, counted true k s s'.
Proof.
  intros (nl & Hz & Hb & Hnl & Hbst & Hcol & n & Hrb).
  pose proof (rzrep_nil _ _ _ _ Hz) as Hnil.
  rewrite delete_eq, (rzrep_root _ _ _ Hz). cbn [mbind option_bind].
  rewrite (rb_find_spec _ _ nl v [] t (Some nl));
    [|done|by eapply rzrep_fresh|apply (rzrep_sub _ _ [] _ Hz)|].
  2:{ pose proof (rb_bounded_size _ _ _ Hz Hb Hnl). unfold fuel_of. lia. }
  cbn [mbind option_bind].
  pose proof (plug_locate v [] t) as Hplug. cbn [plug] in Hplug.
  pose proof (locate_fits v [] t Hbst (fits_nil v)) as [Hfit Hfound].
  destruct (locate v [] t) as [c tz] eqn:Hloc. cbn [fst snd] in *.
  destruct tz as [|l z iz r].
  - exists false, s, t. split; [done|]. split.
    { exists nl. split_and!; eauto. }
    split.
    + split; [|done].
      intros (k0 & Hk0 & Hin)%list_elem_of_fmap. by apply Hfound in Hin.
    + exists 0%nat. by apply counted_0.
  - rewrite <-Hplug in Hz, Hb, Hbst, Hrb, Hcol. apply rzrep_focus in Hz.
    pose proof (rzrep_sub _ _ _ _ Hz) as (Hzc & _).
    rb_exec.
    destruct (unlink_spec s nl c l z iz r Hz) as (s1 & E1 & Hz1 & Ha1 & Hc1).
    { pose proof (NoDup_bounded_length _ (next s) (rzrep_nodup _ _ _ _ Hz))
        as Hlen.
      apply bounded_ctx in Hb.
      assert (Hall : Forall (λ x, (x < next s)%nat)
                       (nl :: ids (T l z iz r) ++ cids c)) by (by constructor).
      specialize (Hlen Hall). simpl in Hlen.
      rewrite !length_app in Hlen. simpl in Hlen. rewrite !size_ids in Hlen.
      unfold fuel_of. lia. }
    rewrite E1. cbn [mbind option_bind].
    destruct (unlinked_binds c l z iz r) as (L & R & HL & HR).
    rewrite Hfound in HL.
    pose proof (unlinked_rb c l z iz r n Hrb Hcol) as Hcase.
    destruct (unlinked c l iz r) as [[C tx] col]. cbn [fst snd] in *.
    pose proof Ha1 as (Hn1 & _).
    assert (Hb1 : bounded s1 (plug C tx)) by (by eapply bounded_remove).
    assert (Hbst1 : bst (plug C tx)) by (by eapply bst_remove).
    destruct Hz1 as [Hz1 Hpar1].
    assert (Hlen : (length C < fuel_of s1)%nat).
    { pose proof (length_cids C).
      pose proof (NoDup_bounded_length (ids (plug C tx)) (next s1)) as Hlen.
      rewrite size_ids, size_plug in Hlen. unfold fuel_of.
      enough (size tx + length (cids C) ≤ next s1)%nat by lia.
      apply Hlen; [|exact Hb1].
      apply rzrep_unfocus, rzrep_nodup in Hz1. simpl in Hz1.
      rewrite app_nil_r in Hz1. by apply NoDup_cons_1 in Hz1 as [_ ?]. }
    destruct Hcase as [(-> & k & Hs & Hc)|(-> & m' & Hm' & Hcol')].
    + rewrite is_black_BLACK.
      destruct (delete_fixup_spec s1 nl C tx k)
        as (s' & t' & n' & E & Hz' & Hcol' & Hrb' & Hb' & Ha' & Hcnt');
        try done.
      call E. exists true, s', t'. split; [done|].
      pose proof Ha' as (Hn' & _).
      split; [|split].
      * exists nl. split; [done|]. split.
        { eapply (bounded_remove s); [exact Hb|congruence|exact HL|].
          by rewrite Hb'. }
        split; [lia|]. split; [|done].
        eapply bst_remove; [exact Hbst|exact HL|by rewrite Hb'].
      * exists L, z, R. split; [by rewrite <-Hplug|by rewrite Hb'].
      * exists n'. eapply (counted_trans true 0 n'); [|done].
        by apply counted_0.
    + rewrite is_black_RED. cbn [mbind option_bind].
      exists true, s1, (plug C tx). split; [done|]. split; [|split].
      * exists nl. split; [by apply rzrep_unfocus|]. split; [done|].
        split; [lia|]. split; [done|]. split; [done|]. by exists m'.
      * exists L, z, R. split; [by rewrite <-Hplug|done].
      * exists 0%nat. by apply counted_0.
Qed.

(** * The engines behind their interface *)

Lemma avl_init_inv : avl_inv AVL.init E.
Proof.
  unfold avl_inv, zrep, bounded, bst. cbn.
  split_and!; try done; try constructor.
Qed.

Lemma treap_init_inv m : treap_inv (Treap.init m) E.
Proof.
  unfold treap_inv, zrep, bounded, bst. cbn.
  split_and!; try done; try constructor.
Qed.

Lemma rb_init_inv : rb_inv RB.init E.
Proof.
  exists 0%nat. unfold rzrep, bounded, bst. cbn.
  split_and!; try done; try lia.
  all: try (by constructor).
  all: try apply NoDup_singleton.
  all: try (eexists; vm_compute; reflexivity).
Qed.

Lemma init_inv e : inv e (engine_init e) E.
Proof.
  destruct e; [apply avl_init_inv | apply rb_init_inv | apply treap_init_inv].
Qed.

Lemma keyset_binds t : keyset t = list_to_set (binds t).*2.
Proof. unfold keyset. by rewrite keys_binds. Qed.

Lemma elem_of_keyset v t : v ∈ keyset t ↔ v ∈ keys t.
Proof. unfold keyset. by rewrite elem_of_list_to_set. Qed.

Lemma keyset_insert t t' (L R : list (ref * string)) x v :
  binds t = L ++ R → binds t' = L ++ (x, v) :: R →
  keyset t' = keyset t ∪ {[v]}.
Proof.
  intros H1 H2. rewrite !keyset_binds, H1, H2, !fmap_app, fmap_cons.
  rewrite !list_to_set_app_L, list_to_set_cons. cbn. set_solver.
Qed.

Lemma keyset_remove t t' (L R : list string) v :
  bst t → keys t = L ++ v :: R → keys t' = L ++ R →
  keyset t' = keyset t ∖ {[v]}.
Proof.
  intros Hb H1 H2. apply bst_sorted in Hb. rewrite H1 in Hb.
  apply sorted_not_in in Hb. unfold keyset. rewrite H1, H2.
  rewrite !list_to_set_app_L, list_to_set_cons.
  rewrite elem_of_app in Hb.
  assert (v ∉ (list_to_set L : gset string)) by (rewrite elem_of_list_to_set; tauto).
  assert (v ∉ (list_to_set R : gset string)) by (rewrite elem_of_list_to_set; tauto).
  set_solver.
Qed.

Lemma inv_bst e s t : inv e s t → bst t.
Proof.
  destruct e; cbn.
  - by intros (?&?&?&?&?).
  - by intros (?&?&?&?&?&?).
  - by intros (?&?&?&?&?).
Qed.

Lemma bool_decide_keyset v t :
  bool_decide (v ∈ keyset t) = bool_decide (v ∈ keys t).
Proof. apply bool_decide_ext, elem_of_keyset. Qed.

(** One call: it returns, with the result and the effect on the key set
    that the set semantics prescribes, and keeps the invariant. *)
Lemma exec_spec e o s t :
  inv e s t →
  ∃ s' t',
    exec e o s = Some (op_result o (keyset t), s')
    ∧ inv e s' t'
    ∧ keyset t' = op_keys o (keyset t)
    ∧ op_counted o s s'.
Proof.
  intros Hinv. pose proof (inv_bst _ _ _ Hinv) as Hbst.
  assert (Hins : ∀ (b : bool) t' v,
    (if b then v ∉ keys t ∧ ∃ L R, binds t = L ++ R ∧ binds t' = L ++ (next s, v) :: R
     else v ∈ keys t ∧ t' = t) →
    b = bool_decide (v ∉ keyset t) ∧ keyset t' = keyset t ∪ {[v]}).
  { intros b t' v Hb. destruct b.
    - destruct Hb as (Hn & L & R & H1 & H2). split.
      + symmetry. apply bool_decide_eq_true. by rewrite elem_of_keyset.
      + by eapply keyset_insert.
    - destruct Hb as (Hn & ->). split.
      + symmetry. apply bool_decide_eq_false. rewrite elem_of_keyset. tauto.
      + apply elem_of_keyset in Hn. set_solver. }
  assert (Hdel : ∀ (b : bool) t' v,
    (if b then ∃ L z R, binds t = L ++ (z, v) :: R ∧ binds t' = L ++ R
     else v ∉ keys t ∧ t' = t) →
    b = bool_decide (v ∈ keyset t) ∧ keyset t' = keyset t ∖ {[v]}).
  { intros b t' v Hb. destruct b.
    - destruct Hb as (L & z & R & H1 & H2).
      assert (keys t = L.*2 ++ v :: R.*2) as Hk
        by (by rewrite keys_binds, H1, fmap_app, fmap_cons).
      split.
      + symmetry. apply bool_decide_eq_true. rewrite elem_of_keyset, Hk.
        set_solver.
      + eapply keyset_remove; [done|done|].
        by rewrite keys_binds, H2, fmap_app.
    - destruct Hb as (Hn & ->). split.
      + symmetry. apply bool_decide_eq_false. by rewrite elem_of_keyset.
      + rewrite <- elem_of_keyset in Hn. set_solver. }
  destruct e, o as [v q|v|v]; cbn [exec inv op_result op_keys op_counted] in *.
  - destruct (avl_insert_spec _ _ v Hinv) as (b & s' & t' & E1 & Hi & Hb & Hc).
    destruct (Hins b t' v) as [-> Hk].
    { destruct b; [done|]. by destruct Hb as (? & -> & ->). }
    by exists s', t'.
  - rewrite (avl_contains_spec _ _ _ Hinv). cbn.
    rewrite bool_decide_keyset. by exists s, t.
  - destruct (avl_delete_spec _ _ v Hinv) as (b & s' & t' & E1 & Hi & Hb & Hc).
    exists s', t'. destruct b.
    + destruct Hb as (Hin & Hb).
      destruct (bdelete_keys _ _ Hbst Hin) as (L & R & H1 & H2).
      rewrite <- Hb, <- keys_binds in H2.
      split_and!; try done.
      * rewrite E1. do 2 f_equal. symmetry. apply bool_decide_eq_true.
        by rewrite elem_of_keyset.
      * by eapply keyset_remove.
    + destruct Hb as (Hn & -> & ->). split_and!; try done.
      * rewrite E1. do 2 f_equal. symmetry. apply bool_decide_eq_false.
        by rewrite elem_of_keyset.
      * rewrite <- elem_of_keyset in Hn. set_solver.
  - destruct (rb_insert_spec _ _ v Hinv) as (b & s' & t' & E1 & Hi & Hb & Hc).
    destruct (Hins b t' v) as [-> Hk].
    { destruct b; [done|]. by destruct Hb as (? & ? & ->). }
    by exists s', t'.
  - rewrite (rb_contains_spec _ _ _ Hinv). cbn.
    rewrite bool_decide_keyset. by exists s, t.
  - destruct (rb_delete_spec _ _ v Hinv) as (b & s' & t' & E1 & Hi & Hb & Hc).
    destruct (Hdel b t' v) as [-> Hk].
    { destruct b; [done|]. by destruct Hb as (? & -> & ->). }
    by exists s', t'.
  - destruct (treap_insert_spec _ _ v q Hinv) as (b & s' & t' & E1 & Hi & Hb & Hc).
    destruct (Hins b t' v) as [-> Hk].
    { destruct b; [done|]. by destruct Hb as (? & -> & ->). }
    by exists s', t'.
  - rewrite (treap_contains_spec _ _ _ Hinv). cbn.
    rewrite bool_decide_keyset. by exists s, t.
  - destruct (treap_delete_spec _ _ v Hinv) as (b & s' & t' & E1 & Hi & Hb & Hc).
    destruct (Hdel b t' v) as [-> Hk].
    { destruct b; [done|]. by destruct Hb as (? & -> & ->). }
    by exists s', t'.
Qed.

Lemma op_counted_guard o s s' :
  op_counted o s s' → guard_returns s' = guard_returns s.
Proof.
  destruct o; cbn; [intros (k & Hg & _)|intros ->|intros (k & Hg & _)]; done.
Qed.

Lemma op_counted_mono o s s' :
  op_counted o s s' →
  (rotations_insert s ≤ rotations_insert s')%nat
  ∧ (rotations_delete s ≤ rotations_delete s')%nat.
Proof.
  destruct o; cbn; unfold counted; [intros (k & Hg & H)|intros ->|intros (k & Hg & H)];
    simpl in *; lia.
Qed.

(** A sequence of calls from a state that satisfies the invariant. *)
Lemma run_outs_spec e ops : ∀ s t,
  inv e s t →
  ∃ s' t',
    run_outs e ops s = Some (results_from (keyset t) ops, s')
    ∧ inv e s' t'
    ∧ keyset t' = present_from (keyset t) ops
    ∧ guard_returns s' = guard_returns s
    ∧ (rotations_insert s ≤ rotations_insert s')%nat
    ∧ (rotations_delete s ≤ rotations_delete s')%nat.
Proof.
  induction ops as [|o ops IH]; intros s t Hinv.
  - exists s, t. by cbn.
  - destruct (exec_spec e o s t Hinv) as (s1 & t1 & E1 & Hi1 & Hk1 & Hc1).
    destruct (IH s1 t1 Hi1) as (s2 & t2 & E2 & Hi2 & Hk2 & Hg2 & Hm2).
    exists s2, t2. cbn [run_outs results_from present_from].
    rewrite E1. cbn. rewrite E2. cbn. rewrite <- Hk1.
    split_and!; try done.
    + rewrite Hg2. by eapply op_counted_guard.
    + apply op_counted_mono in Hc1. lia.
    + apply op_counted_mono in Hc1. lia.
Qed.

Lemma keyset_E : keyset E = ∅.
Proof. done. Qed.

Lemma run_spec e ops :
  ∃ s t,
    run e ops (engine_init e) = Some s
    ∧ inv e s t
    ∧ keyset t = present ops
    ∧ guard_returns s = 0%nat.
Proof.
  destruct (run_outs_spec e ops _ _ (init_inv e))
    as (s & t & E1 & Hi & Hk & Hg & _).
  exists s, t. unfold run. rewrite E1. split_and!; try done.
  rewrite Hg. by destruct e.
Qed.

(** * The in-order walk of a represented tree *)

Lemma inorder_values_rep nilp s t : ∀ p fuel,
  rep nilp (cells s) t p →
  (∀ x, x ∈ ids t → nilp ≠ Some x) →
  (size t ≤ fuel)%nat →
  inorder_values fuel s nilp (ptr nilp t) = Some (Some <$> keys t).
Proof.
  induction t as [|l IHl x i r IHr]; intros p fuel Hr Hn Hf.
  - destruct fuel; cbn; by rewrite bool_decide_eq_true_2.
  - destruct fuel as [|fuel]; [simpl in Hf; lia|].
    destruct Hr as (Hx & Hl & Hrr). rewrite keys_T, fmap_app, fmap_cons.
    cbn [inorder_values ptr].
    rewrite bool_decide_eq_false_2.
    2:{ intros Heq. eapply Hn; [|done]. cbn. set_solver. }
    cbn [mbind option_bind]. rewrite Hx. cbn [mbind option_bind].
    change (left (cell i p (ptr nilp l) (ptr nilp r))) with (ptr nilp l).
    change (right (cell i p (ptr nilp l) (ptr nilp r))) with (ptr nilp r).
    rewrite (IHl (Some x) fuel Hl).
    2:{ intros y Hy. apply Hn. cbn. set_solver. }
    2:{ simpl in Hf. lia. }
    cbn [mbind option_bind].
    rewrite (IHr (Some x) fuel Hrr).
    2:{ intros y Hy. apply Hn. cbn. set_solver. }
    2:{ simpl in Hf. lia. }
    done.
Qed.

Lemma inorder_spec e s t : inv e s t → inorder s = Some (Some <$> keys t).
Proof.
  unfold inorder. destruct e; cbn [inv].
  - intros (Hnil & Hz & Hb & Hbst & _).
    rewrite Hnil, (zrep_root _ _ Hz).
    eapply inorder_values_rep; [by eapply (zrep_sub _ [])|done|].
    pose proof (bounded_size _ _ Hz Hb). unfold fuel_of. lia.
  - intros (nl & Hz & Hb & Hnl & Hbst & _).
    pose proof (rzrep_nil _ _ _ _ Hz) as Hnil.
    rewrite Hnil, (rzrep_root _ _ _ Hz), <-ptr_pid.
    eapply inorder_values_rep; [by eapply (rzrep_sub _ _ [])| |].
    + intros x Hx [= ->]. apply rzrep_nodup in Hz.
      apply NoDup_cons in Hz as [Hz _]. apply Hz. set_solver.
    + pose proof (rb_bounded_size _ _ _ Hz Hb Hnl). unfold fuel_of. lia.
  - intros (Hnil & Hz & Hb & Hbst & _).
    rewrite Hnil, (zrep_root _ _ Hz).
    eapply inorder_values_rep; [by eapply (zrep_sub _ [])|done|].
    pose proof (bounded_size _ _ Hz Hb). unfold fuel_of. lia.
Qed.

(** * The claims of the specification *)

Lemma rep_child_ok s t : ∀ p,
  rep None (cells s) t p → heap t →
  ∀ x, x ∈ ids t →
    ∃ cx, cells s !! x = Some cx
          ∧ child_ok s x (left cx) ∧ child_ok s x (right cx).
Proof.
  induction t as [|l IHl y i r IHr]; intros p Hr Hh x Hx.
  - by apply elem_of_nil in Hx.
  - destruct Hr as (Hy & Hl & Hrr).
    destruct Hh as (q & Hq & Hlq & Hrq & Hhl & Hhr).
    cbn [ids] in Hx. rewrite elem_of_app, elem_of_cons in Hx.
    destruct Hx as [Hx|[->|Hx]]; [by eapply IHl| |by eapply IHr].
    eexists. split; [exact Hy|]. cbn [left right cell].
    assert (Hc : ∀ u, rep None (cells s) u (Some y) → le_prio u q →
                      child_ok s y (ptr None u)).
    { intros [|ul z iz ur]; [done|]. intros (Hz & _) (pz & Hpz & Hle).
      exists q, pz. unfold nd, rd. rewrite Hy, Hz. by cbn. }
    split; by apply Hc.
Qed.

(** C1: for every engine and every sequence of insert, contains and
    delete calls on the empty tree, the calls all return and the
    in-order walk of the tree they leave lists a strictly increasing
    sequence of keys (so each once), which are exactly the keys present:
    those whose last effective call was a successful insert. *)
Theorem inorder_is_sorted_present_keys (e : engine) (ops : list op) :
  ∃ s ks,
    run e ops (engine_init e) = Some s
    ∧ inorder s = Some (Some <$> ks)
    ∧ sorted ks
    ∧ ∀ k, k ∈ ks ↔ k ∈ present ops.
Proof.
  destruct (run_spec e ops) as (s & t & E1 & Hinv & Hk & _).
  exists s, (keys t). split_and!; [done| | |].
  - by eapply inorder_spec.
  - by eapply bst_sorted, inv_bst.
  - intros k. by rewrite <- Hk, elem_of_keyset.
Qed.

(** C4: after every sequence of public calls on a new Red-Black tree,
    the store represents a tree [t] under the sentinel [nl]; the
    sentinel holds no value and is BLACK; the root of [t] is BLACK; no
    RED node of [t] has a RED child and, below every node, all paths to
    a sentinel cross the same number of BLACK nodes ([rb t n]). *)
Theorem rb_invariants_after_calls (ops : list op) :
  ∃ s nl t n p,
    run ERB ops RB.init = Some s
    ∧ rzrep s nl [] t
    ∧ cells s !! nl = Some (sentinel p nl)
    ∧ rcol t = Some BLACK
    ∧ rb t n.
Proof.
  destruct (run_spec ERB ops) as (s & t & E1 & Hinv & _).
  destruct Hinv as (nl & Hz & _ & _ & _ & Hroot & n & Hrb).
  pose proof Hz as (_ & _ & _ & _ & _ & p & Hp).
  by exists s, nl, t, n, p.
Qed.

(** C5: after every sequence of public calls on a new AVL tree, the
    store represents a tree in which the [height] attribute of every
    node is one more than the greater of the heights of its two
    subtrees (1 at a leaf), the two heights differing by at most 1. *)
Theorem avl_invariants_after_calls (ops : list op) :
  ∃ s t,
    run EAVL ops AVL.init = Some s
    ∧ zrep s [] t
    ∧ avl t.
Proof.
  destruct (run_spec EAVL ops) as (s & t & E1 & Hinv & _).
  destruct Hinv as (_ & Hz & _ & _ & Havl).
  by exists s, t.
Qed.

(** C6: after every sequence of public calls on a new Treap, whatever
    priorities the insertions draw, the store represents a tree that is
    a max-heap on the priorities, and at every node of it each child
    link that leads to a node leads to one of no greater priority whose
    [parent] link leads back. *)
Theorem treap_invariants_after_calls (max_prio : Z) (ops : list op) :
  ∃ s t,
    run (ETreap max_prio) ops (Treap.init max_prio) = Some s
    ∧ zrep s [] t
    ∧ heap t
    ∧ ∀ x, x ∈ ids t →
        ∃ cx, cells s !! x = Some cx
              ∧ child_ok s x (left cx) ∧ child_ok s x (right cx).
Proof.
  destruct (run_spec (ETreap max_prio) ops) as (s & t & E1 & Hinv & _).
  destruct Hinv as (_ & Hz & _ & _ & Hheap).
  exists s, t. split_and!; try done.
  eapply rep_child_ok; [|done]. by apply (zrep_sub _ []).
Qed.

(** C7: in every state [s] that a sequence of public calls reaches, for
    every engine: if [v] is present, [insert v] returns false and leaves
    the tree object and every node object as they were (the engine of
    Red-Black trees has by then created a Node that no link leads to);
    if [v] is absent, [delete v] returns false in the very state [s]. *)
Theorem rejected_calls_leave_the_tree (e : engine) (ops : list op)
    (v : string) (q : Z) :
  ∃ s t,
    run e ops (engine_init e) = Some s
    ∧ inv e s t
    ∧ if bool_decide (v ∈ present ops)
      then ∃ s', exec e (Insert v q) s = Some (false, s')
                 ∧ same_objects s s' ∧ inv e s' t
                 ∧ (e ≠ ERB → s' = s)
      else exec e (Delete v) s = Some (false, s).
Proof.
  destruct (run_spec e ops) as (s & t & E1 & Hinv & Hk & _).
  exists s, t. split; [done|]. split; [done|].
  assert (Hso : same_objects s s).
  { unfold same_objects. split_and!; try done. }
  case_bool_decide as Hin; rewrite <- Hk, elem_of_keyset in Hin.
  - destruct e; cbn [exec inv] in *.
    + destruct (avl_insert_spec _ _ v Hinv) as (b & s' & t' & E2 & Hi & Hb & _).
      destruct b; [by destruct Hb|]. destruct Hb as (_ & -> & ->).
      by exists s.
    + destruct (rb_insert_spec _ _ v Hinv) as (b & s' & t' & E2 & Hi & Hb & _).
      destruct b; [by destruct Hb|]. destruct Hb as (_ & Hs & ->).
      by exists s'.
    + destruct (treap_insert_spec _ _ v q Hinv) as (b & s' & t' & E2 & Hi & Hb & _).
      destruct b; [by destruct Hb|]. destruct Hb as (_ & -> & ->).
      by exists s.
  - destruct e; cbn [exec inv] in *.
    + destruct (avl_delete_spec _ _ v Hinv) as (b & s' & t' & E2 & Hi & Hb & _).
      destruct b; [by destruct Hb|]. by destruct Hb as (_ & -> & ->).
    + destruct (rb_delete_spec _ _ v Hinv) as (b & s' & t' & E2 & Hi & Hb & _).
      destruct b.
      * destruct Hb as (L & z & R & Hb & _). exfalso. apply Hin.
        rewrite keys_binds, Hb, fmap_app, fmap_cons. set_solver.
      * by destruct Hb as (_ & -> & ->).
    + destruct (treap_delete_spec _ _ v Hinv) as (b & s' & t' & E2 & Hi & Hb & _).
      destruct b.
      * destruct Hb as (L & z & R & Hb & _). exfalso. apply Hin.
        rewrite keys_binds, Hb, fmap_app, fmap_cons. set_solver.
      * by destruct Hb as (_ & -> & ->).
Qed.

(** C10: no call of a rotation primitive made by a public operation, in
    any sequence of calls on a new tree of any engine, returns through
    the guard on the missing child: the ghost counter of such returns
    is still 0 at the end. *)
Theorem rotation_guards_never_taken (e : engine) (ops : list op) :
  ∃ s, run e ops (engine_init e) = Some s ∧ guard_returns s = 0%nat.
Proof.
  destruct (run_spec e ops) as (s & t & E1 & _ & _ & Hg). by exists s.
Qed.

Lemma same_counters_refl s : same_counters s s.
Proof. done. Qed.

Lemma same_counters_trans s1 s2 s3 :
  same_counters s1 s2 → same_counters s2 s3 → same_counters s1 s3.
Proof. unfold same_counters. intros (?&?&?) (?&?&?). split_and!; congruence. Qed.

Lemma relink_right_counters s y x s' :
  relink_right s y x = Some s' → same_counters s s'.
Proof.
  unfold relink_right. intros H.
  repeat (simplify_option_eq; try case_match); by unfold same_counters.
Qed.

Lemma relink_left_counters s y x s' :
  relink_left s y x = Some s' → same_counters s s'.
Proof.
  unfold relink_left. intros H.
  repeat (simplify_option_eq; try case_match); by unfold same_counters.
Qed.

Lemma update_height_counters s n s' :
  AVL.update_height s n = Some s' → same_counters s s'.
Proof.
  unfold AVL.update_height. intros H.
  repeat (simplify_option_eq; try case_match); by unfold same_counters.
Qed.

Lemma counts_one_rotation fl s s' :
  same_counters s s' → counts_one fl s (Some (count_rotation fl s')).
Proof.
  intros (H1 & H2 & H3). left. destruct fl; unfold counted; simpl; lia.
Qed.

Lemma counts_one_guard fl s : counts_one fl s (Some (count_guard s)).
Proof. right. by simpl. Qed.

Lemma avl_rotate_right_counts s y fl :
  counts_one fl s (snd <$> AVL.rotate_right s y fl).
Proof.
  unfold AVL.rotate_right.
  destruct (rd left s y) as [[x|]|]; cbn [mbind option_bind]; try done.
  2:{ apply counts_one_guard. }
  destruct (relink_right s y x) as [s1|] eqn:E1; cbn [mbind option_bind]; [|done].
  destruct (AVL.update_height s1 (Some y)) as [s2|] eqn:E2; cbn [mbind option_bind]; [|done].
  destruct (AVL.update_height s2 (Some x)) as [s3|] eqn:E3; cbn [mbind option_bind]; [|done].
  apply counts_one_rotation.
  eapply same_counters_trans; [by eapply relink_right_counters|].
  eapply same_counters_trans; by eapply update_height_counters.
Qed.

Lemma avl_rotate_left_counts s x fl :
  counts_one fl s (snd <$> AVL.rotate_left s x fl).
Proof.
  unfold AVL.rotate_left.
  destruct (rd right s x) as [[y|]|]; cbn [mbind option_bind]; try done.
  2:{ apply counts_one_guard. }
  destruct (relink_left s x y) as [s1|] eqn:E1; cbn [mbind option_bind]; [|done].
  destruct (AVL.update_height s1 (Some x)) as [s2|] eqn:E2; cbn [mbind option_bind]; [|done].
  destruct (AVL.update_height s2 (Some y)) as [s3|] eqn:E3; cbn [mbind option_bind]; [|done].
  apply counts_one_rotation.
  eapply same_counters_trans; [by eapply relink_left_counters|].
  eapply same_counters_trans; by eapply update_height_counters.
Qed.

Lemma treap_rotate_right_counts s y fl :
  counts_one fl s (snd <$> Treap.rotate_right s y fl).
Proof.
  unfold Treap.rotate_right.
  destruct (rd left s y) as [[x|]|]; cbn [mbind option_bind]; try done.
  2:{ apply counts_one_guard. }
  destruct (relink_right s y x) as [s1|] eqn:E1; cbn [mbind option_bind]; [|done].
  apply counts_one_rotation.
  by eapply relink_right_counters.
Qed.

Lemma treap_rotate_left_counts s x fl :
  counts_one fl s (snd <$> Treap.rotate_left s x fl).
Proof.
  unfold Treap.rotate_left.
  destruct (rd right s x) as [[y|]|]; cbn [mbind option_bind]; try done.
  2:{ apply counts_one_guard. }
  destruct (relink_left s x y) as [s1|] eqn:E1; cbn [mbind option_bind]; [|done].
  apply counts_one_rotation.
  by eapply relink_left_counters.
Qed.

Lemma rb_left_rotate_counts s x fl :
  counts_one fl s (RB.left_rotate s x fl).
Proof.
  unfold RB.left_rotate.
  destruct (nd right s x) as [y|]; cbn [mbind option_bind]; [|done].
  destruct (RB.is_nil s y); [apply counts_one_guard|].
  repeat (match goal with
          | |- counts_one _ _ (mbind _ ?m) =>
              destruct m eqn:?; cbn [mbind option_bind]; [|done]
          | |- counts_one _ _ (match ?m with _ => _ end) =>
              destruct m eqn:?; cbn [mbind option_bind]
          end); try done.
  all: repeat match goal with
       | H : (if ?b then _ else _) = Some _ |- _ => destruct b
       | H : mbind _ ?m = Some _ |- _ => destruct m; cbn [mbind option_bind] in H
       | H : Some _ = Some _ |- _ => apply (inj Some) in H; subst
       | H : None = Some _ |- _ => discriminate H
       end.
  all: apply counts_one_rotation; repeat case_match; by unfold same_counters.
Qed.

Lemma rb_right_rotate_counts s x fl :
  counts_one fl s (RB.right_rotate s x fl).
Proof.
  unfold RB.right_rotate.
  destruct (nd left s x) as [y|]; cbn [mbind option_bind]; [|done].
  destruct (RB.is_nil s y); [apply counts_one_guard|].
  repeat (match goal with
          | |- counts_one _ _ (mbind _ ?m) =>
              destruct m eqn:?; cbn [mbind option_bind]; [|done]
          | |- counts_one _ _ (match ?m with _ => _ end) =>
              destruct m eqn:?; cbn [mbind option_bind]
          end); try done.
  all: repeat match goal with
       | H : (if ?b then _ else _) = Some _ |- _ => destruct b
       | H : mbind _ ?m = Some _ |- _ => destruct m; cbn [mbind option_bind] in H
       | H : Some _ = Some _ |- _ => apply (inj Some) in H; subst
       | H : None = Some _ |- _ => discriminate H
       end.
  all: apply counts_one_rotation; repeat case_match; by unfold same_counters.
Qed.

Lemma sink_eq l c r :
  sink l c r =
    match l, r with
    | E, E => c
    | E, T rl y iy rr => sink l (FL y iy rr :: c) rl
    | T ll x ix lr, E => sink lr (FR ll x ix :: c) E
    | T ll x ix lr, T rl y iy rr =>
        if prio_gt ix iy
        then sink lr (FR ll x ix :: c) r
        else sink l (FL y iy rr :: c) rl
    end.
Proof. destruct l, r; reflexivity. Qed.

Lemma sink_length l : ∀ r c, (length c ≤ length (sink l c r))%nat.
Proof.
  induction l as [|ll _ x ix lr IHl]; intros r; induction r as [|rl IHr y iy rr _];
    intros c; rewrite sink_eq.
  - done.
  - specialize (IHr (FL y iy rr :: c)). cbn [length] in IHr. lia.
  - specialize (IHl E (FR ll x ix :: c)). cbn [length] in IHl. lia.
  - destruct (prio_gt ix iy).
    + specialize (IHl (T rl y iy rr) (FR ll x ix :: c)). cbn [length] in IHl. lia.
    + specialize (IHr (FL y iy rr :: c)). cbn [length] in IHr. lia.
Qed.

(** The loop of [Treap.delete] performs the rotations of the rule, one
    per frame that ends up above the node. *)
Lemma rotate_down_sink fuel : ∀ s c l z i r,
  (size l + size r < fuel)%nat → zrep s c (T l z i r) →
  heap l → heap r →
  ∃ s',
    Treap.rotate_down fuel s z = Some s'
    ∧ zrep s' (sink l c r) (T E z i E)
    ∧ same_attrs s s'
    ∧ counted true (length (sink l c r) - length c) s s'.
Proof.
  induction fuel as [|fuel IH]; intros s c l z i r Hf Hz Hhl Hhr; [lia|].
  pose proof (zrep_root_cell _ _ _ _ _ _ Hz) as Hn.
  cbn [Treap.rotate_down]. do 2 step. rewrite sink_eq.
  assert (Hcnt : ∀ c' l' r' s1 s',
    counted true 1 s s1 →
    counted true (length (sink l' (c' :: c) r') - length (c' :: c)) s1 s' →
    counted true (length (sink l' (c' :: c) r') - length c) s s').
  { intros c' l' r' s1 s' H1 H2.
    pose proof (sink_length l' r' (c' :: c)) as Hlen. simpl in Hlen.
    replace (length (sink l' (c' :: c) r') - length c)%nat
      with (1 + (length (sink l' (c' :: c) r') - length (c' :: c)))%nat
      by (simpl; lia).
    by eapply counted_trans. }
  destruct l as [|ll x ix lr]; [destruct r as [|rl y iy rr]|]; cbn [ptr].
  - exists s. rewrite Nat.sub_diag. split_and!; try done.
  - (* only a right child *)
    apply (treap_rotate_left_spec _ _ _ _ _ _ _ _ _ true) in Hz
      as (s1 & E1 & Hz & Ha1 & Hc1).
    call E1. apply zrep_down_l in Hz.
    destruct Hhr as (yq & Hyq & Hlrl & Hlrr & Hhrl & Hhrr).
    destruct (IH s1 (FL y iy rr :: c) E z i rl) as
      (s' & E & Hz' & Ha' & Hc'); try done.
    { simpl in *. lia. }
    exists s'. split_and!; try done; [by eapply same_attrs_trans|].
    by eapply Hcnt.
  - destruct r as [|rl y iy rr]; cbn [ptr].
    + (* only a left child *)
      apply (treap_rotate_right_spec _ _ _ _ _ _ _ _ _ true) in Hz
        as (s1 & E1 & Hz & Ha1 & Hc1).
      call E1. apply zrep_down_r in Hz.
      destruct Hhl as (xq & Hxq & Hlll & Hllr & Hhll & Hhlr).
      destruct (IH s1 (FR ll x ix :: c) lr z i E) as
        (s' & E & Hz' & Ha' & Hc'); try done.
      { simpl in *. lia. }
      exists s'. split_and!; try done; [by eapply same_attrs_trans|].
      by eapply Hcnt.
    + (* two children *)
      pose proof (zrep_sub _ _ _ Hz) as (_ & (Hx & _) & (Hy & _)).
      pose proof Hhl as (xq & Hxq & Hlll & Hllr & Hhll & Hhlr).
      pose proof Hhr as (yq & Hyq & Hlrl & Hlrr & Hhrl & Hhrr).
      rewrite (nd_lookup priority _ _ _ Hx). cbn [cell priority].
      rewrite Hxq. cbn [mbind option_bind].
      rewrite (nd_lookup priority _ _ _ Hy). cbn [cell priority].
      rewrite Hyq. cbn [mbind option_bind].
      unfold prio_gt. rewrite Hxq, Hyq.
      destruct (xq >? yq) eqn:Hgt.
      * apply (treap_rotate_right_spec _ _ _ _ _ _ _ _ _ true) in Hz
          as (s1 & E1 & Hz & Ha1 & Hc1).
        call E1. apply zrep_down_r in Hz.
        destruct (IH s1 (FR ll x ix :: c) lr z i (T rl y iy rr)) as
          (s' & E & Hz' & Ha' & Hc'); try done.
        { simpl in *. lia. }
        exists s'. split_and!; try done; [by eapply same_attrs_trans|].
        by eapply Hcnt.
      * apply (treap_rotate_left_spec _ _ _ _ _ _ _ _ _ true) in Hz
          as (s1 & E1 & Hz & Ha1 & Hc1).
        call E1. apply zrep_down_l in Hz.
        destruct (IH s1 (FL y iy rr :: c) (T ll x ix lr) z i rl) as
          (s' & E & Hz' & Ha' & Hc'); try done.
        { simpl in *. lia. }
        exists s'. split_and!; try done; [by eapply same_attrs_trans|].
        by eapply Hcnt.
Qed.

(** [Treap.delete] of a key that the tree holds: the node is rotated
    down by the rule and then detached. *)
Lemma treap_delete_sink s t v c l z i r :
  treap_inv s t → locate v [] t = (c, T l z i r) →
  ∃ s',
    Treap.delete s v = Some (true, s')
    ∧ zrep s' [] (plug (sink l c r) E)
    ∧ counted true (length (sink l c r) - length c) s s'.
Proof.
  intros (Hnil & Hz & Hb & Hbst & Hheap) Hloc. unfold Treap.delete.
  rewrite (zrep_root _ _ Hz).
  rewrite (find_spec _ _ _ [] _ _ (zrep_sub _ _ _ Hz)).
  2:{ pose proof (bounded_size _ _ Hz Hb). unfold fuel_of. lia. }
  cbn [mbind option_bind].
  pose proof (plug_locate v [] t) as Hplug. cbn [plug] in Hplug.
  rewrite Hloc in *. cbn [fst snd ptr] in *.
  rewrite <-Hplug in Hz, Hb, Hbst, Hheap. apply zrep_focus in Hz.
  apply heap_plug in Hheap as ((q & Hq & Hll & Hlr & Hhl & Hhr) & Hc & Hcf).
  assert (Hsz : (size l + size r < fuel_of s)%nat).
  { pose proof (NoDup_bounded_length _ (next s) (zrep_nodup _ _ _ Hz)
                  (bounded_ctx _ _ _ Hb)) as Hlen.
    rewrite length_app in Hlen. simpl in Hlen.
    rewrite length_app in Hlen. simpl in Hlen. rewrite !size_ids in Hlen.
    unfold fuel_of. lia. }
  destruct (rotate_down_sink (fuel_of s) s c l z i r) as
    (s1 & E1 & Hz1 & Ha1 & Hk1); try done.
  call E1. set (c1 := sink l c r) in *.
  pose proof (zrep_root_cell _ _ _ _ _ _ Hz1) as Hn. step.
  assert (Hres : ∃ s2, match cpar c1 None with
            | Some p => rd left s1 p ≫= λ pl,
                 Some (true, if bool_decide (pl = Some z)
                             then wr_left p None s1 else wr_right p None s1)
            | None => Some (true, set_root None s1)
            end = Some (true, s2) ∧ zrep s2 c1 E ∧ same_attrs s1 s2
                  ∧ same_counters s1 s2).
  { destruct c1 as [|f c1]; cbn [cpar].
    - eexists. split; [done|]. split; [|done].
      unfold zrep. simpl. split_and!; try done. constructor.
    - assert (cpar (f :: c1) None = Some (fid f)) as Hcp by (by destruct f).
      cbn [cpar] in Hcp. rewrite Hcp.
      destruct (unlink_leaf _ _ _ _ _ Hz1) as (n & Hp & Hz2).
      rewrite (rd_lookup left _ _ _ Hp). cbn [mbind option_bind].
      eexists. split; [done|]. split; [done|].
      by destruct (bool_decide _). }
  destruct Hres as (s2 & -> & Hz2 & Ha2 & Hk2).
  exists s2. split; [done|]. split; [by apply zrep_unfocus|].
  eapply (counted_trans true _ 0) in Hk1; [|by apply counted_0].
  by rewrite Nat.add_0_r in Hk1.
Qed.

(** ** Deletion of a node with two children *)








(** C8: in every state that a sequence of public calls on a new Treap
    reaches, [delete v] of a key that the node [z] holds, with the
    subtrees [l] and [r] under the frames [c], returns true and leaves
    the tree in which [z] has been rotated down by the rule of [sink]
    (left with only a right child, right with only a left child, right
    if the left child has the strictly greater priority and left
    otherwise, ties included) and then detached; the rotations are
    counted on [rotations_delete].  An absent key gives false and the
    same state. *)
Theorem treap_delete_rotates_down (max_prio : Z) (ops : list op) (v : string) :
  ∃ s t,
    run (ETreap max_prio) ops (Treap.init max_prio) = Some s
    ∧ zrep s [] t
    ∧ match locate v [] t with
      | (c, T l z i r) =>
          ∃ s', Treap.delete s v = Some (true, s')
                ∧ zrep s' [] (plug (sink l c r) E)
                ∧ rotations_delete s'
                  = (rotations_delete s + (length (sink l c r) - length c))%nat
      | (_, E) => Treap.delete s v = Some (false, s)
      end.
Proof.
  destruct (run_spec (ETreap max_prio) ops) as (s & t & E1 & Hinv & _).
  cbn [inv engine_init] in *. exists s, t. split; [done|].
  split; [by destruct Hinv as (_ & ? & _)|].
  destruct (locate v [] t) as [c [|l z i r]] eqn:Hloc.
  - destruct (treap_delete_spec _ _ v Hinv) as (b & s' & t' & E2 & _ & Hb & _).
    destruct b; [|by destruct Hb as (_ & -> & _)].
    destruct Hb as (L & z & R & Hb & _). exfalso.
    assert (bst t) as Hbst by (by destruct Hinv as (_ & _ & _ & ? & _)).
    pose proof (locate_found v t Hbst) as Hf.
    rewrite Hloc in Hf. cbn [snd] in Hf.
    symmetry in Hf. rewrite bool_decide_eq_false in Hf.
    apply Hf. rewrite keys_binds, Hb, fmap_app, fmap_cons. set_solver.
  - destruct (treap_delete_sink _ _ _ _ _ _ _ _ Hinv Hloc)
      as (s' & E2 & Hz & Hg & _ & Hd).
    by exists s'.
Qed.

(** C9: in every state [s] that a sequence of public calls reaches, in
    every engine, a further call [o] returns and: [insert] leaves
    [rotations_delete] as it was, [delete] leaves [rotations_insert],
    [contains] leaves both, and no counter decreases.  In any state,
    [total_rotations] is the sum of the two counters, [reset_metrics]
    sets both to 0, and each of the six rotation primitives, when it
    returns, has added one to the counter that its flag selects and
    nothing to the other, unless it returned through its guard. *)
Theorem rotation_counters (e : engine) (ops : list op) (o : op)
    (st : Tree) (x : ref) (fl : bool) :
  (∃ s b s',
     run e ops (engine_init e) = Some s
     ∧ exec e o s = Some (b, s')
     ∧ (rotations_insert s ≤ rotations_insert s')%nat
     ∧ (rotations_delete s ≤ rotations_delete s')%nat
     ∧ match o with
       | Insert _ _ => rotations_delete s' = rotations_delete s
       | Contains _ => rotations_insert s' = rotations_insert s
                       ∧ rotations_delete s' = rotations_delete s
       | Delete _ => rotations_insert s' = rotations_insert s
       end)
  ∧ total_rotations st = (rotations_insert st + rotations_delete st)%nat
  ∧ rotations_insert (reset_metrics st) = 0%nat
  ∧ rotations_delete (reset_metrics st) = 0%nat
  ∧ counts_one fl st (snd <$> AVL.rotate_right st x fl)
  ∧ counts_one fl st (snd <$> AVL.rotate_left st x fl)
  ∧ counts_one fl st (snd <$> Treap.rotate_right st x fl)
  ∧ counts_one fl st (snd <$> Treap.rotate_left st x fl)
  ∧ counts_one fl st (RB.right_rotate st x fl)
  ∧ counts_one fl st (RB.left_rotate st x fl).
Proof.
  split.
  - destruct (run_spec e ops) as (s & t & E1 & Hinv & _).
    destruct (exec_spec e o s t Hinv) as (s' & t' & E2 & _ & _ & Hc).
    exists s, (op_result o (keyset t)), s'.
    pose proof (op_counted_mono _ _ _ Hc) as [? ?].
    split_and!; try done.
    destruct o; cbn [op_counted] in Hc.
    + destruct Hc as (k & _ & _ & ?). done.
    + by subst s'.
    + destruct Hc as (k & _ & ? & _). done.
  - split_and!; try done.
    + apply avl_rotate_right_counts.
    + apply avl_rotate_left_counts.
    + apply treap_rotate_right_counts.
    + apply treap_rotate_left_counts.
    + apply rb_right_rotate_counts.
    + apply rb_left_rotate_counts.
Qed.

(** Decides the facts that make up the invariant of a concrete state. *)
Ltac concrete :=
  repeat match goal with
         | |- _ ∧ _ => split
         | |- True => exact I
         | |- NoDup _ => apply (bool_decide_unpack _); vm_compute; exact I
         | |- StronglySorted _ _ => constructor
         | |- Forall _ _ => constructor
         | |- bst _ => unfold bst; cbn [elems app]
         | |- bounded _ _ => unfold bounded; cbn [ids app]
         | |- ilt _ _ => reflexivity
         | |- (_ < _)%nat => vm_compute; lia
         | |- (_ ≤ _)%nat => vm_compute; lia
         | |- (_ ≤ _)%Z => vm_compute; discriminate
         | |- @eq _ _ _ => vm_compute; reflexivity
         end.


Lemma rb_mct_inv : rb_inv rb_mct rb_mct_tree.
Proof.
  exists 0%nat. unfold rzrep. cbn [rb_mct_tree rep rep_ctx ids cids app].
  concrete.
  - eexists. vm_compute. reflexivity.
  - exists 1%nat. cbn. right. split; [done|]. exists 0%nat.
    split; [done|]. split; left; split_and!; done.
Qed.



(** C3: [AVLTree.validate] passes on a store in which z, greater than
    m, lies in the left subtree of m: [_check] compares a node with its
    two children only.  The walk of the store is not in order and
    [contains] does not find z.  The walk of [validate] nests four
    calls of [_check]; it passes wherever the interpreter allows
    them. *)
Theorem avl_validate_misses_descendants (limit : nat) :
  AVL.validate (4 + limit) avl_hidden_violation = Some (Passed tt)
  ∧ str_lt "m" "z" = true
  ∧ rd left avl_hidden_violation 0%nat = Some (Some 1%nat)
  ∧ rd right avl_hidden_violation 1%nat = Some (Some 3%nat)
  ∧ rd value avl_hidden_violation 0%nat = Some (Some "m")
  ∧ rd value avl_hidden_violation 3%nat = Some (Some "z")
  ∧ inorder avl_hidden_violation
    = Some [Some "c"; Some "z"; Some "m"; Some "t"]
  ∧ AVL.contains avl_hidden_violation "z" = Some false.
Proof. split_and!; vm_compute; reflexivity. Qed.

(** * The [validate] methods *)

Lemma bst_child_ordered t : bst t → child_ordered t.
Proof.
  induction t as [|l IHl x i r IHr]; [done|].
  intros (Hbl & Hbr & Hl & Hr)%bst_T. cbn [child_ordered].
  split_and!; [by apply IHl|by apply IHr| |].
  - destruct l as [|ll y iy lr]; [done|]. cbn [elems] in Hl.
    rewrite Forall_app, Forall_cons in Hl. by destruct Hl as (_ & ? & _).
  - destruct r as [|rl y iy rr]; [done|]. cbn [elems] in Hr.
    rewrite Forall_app, Forall_cons in Hr. by destruct Hr as (_ & ? & _).
Qed.

(** [_check] of [AVLTree.validate] on a subtree that the store
    represents, with [limit] nested calls allowed: it returns the
    height of the subtree only if every node of it has the right
    [height], a balance factor in {-1, 0, 1} and is in order with its
    children, and the calls sufficed; it raises AssertionError only if
    some node is not so, and RecursionError only if the subtree is at
    least [limit] levels high. *)
Lemma avl_check_spec s t : ∀ limit p,
  rep None (cells s) t p →
  ∃ res,
    AVL.check limit s (ptr None t) = Some res
    ∧ match res with
      | Passed h =>
          h = hgt t ∧ hgt t < Z.of_nat limit ∧ avl t ∧ child_ordered t
      | AssertionError _ => ¬ (avl t ∧ child_ordered t)
      | RecursionError => Z.of_nat limit ≤ hgt t
      end.
Proof.
  induction t as [|l IHl x i r IHr]; intros limit p Hr;
    (destruct limit as [|limit];
     [exists RecursionError; split; [done|]; apply hgt_nonneg|]).
  - exists (Passed 0). split; [done|]. cbn [hgt avl child_ordered].
    split_and!; try done; lia.
  - destruct Hr as (Hx & Hl & Hrr). cbn [AVL.check ptr].
    rewrite Hx. cbn [mbind option_bind].
    change (left (cell i p (ptr None l) (ptr None r))) with (ptr None l).
    change (right (cell i p (ptr None l) (ptr None r))) with (ptr None r).
    change (value (cell i p (ptr None l) (ptr None r))) with (Some (ikey i)).
    change (height (cell i p (ptr None l) (ptr None r))) with (iheight i).
    pose proof (hgt_nonneg l). pose proof (hgt_nonneg r).
    destruct (IHl limit (Some x) Hl) as (lres & -> & Hlres).
    cbn [mbind option_bind].
    destruct lres as [lh|a|].
    2:{ eexists. split; [done|]. cbn [avl child_ordered]. tauto. }
    2:{ eexists. split; [done|]. cbn [hgt]. lia. }
    destruct Hlres as (-> & Hfl & Hal & Hol).
    destruct (IHr limit (Some x) Hrr) as (rres & -> & Hrres).
    cbn [mbind option_bind].
    destruct rres as [rh|a|].
    2:{ eexists. split; [done|]. cbn [avl child_ordered]. tauto. }
    2:{ eexists. split; [done|]. cbn [hgt]. lia. }
    destruct Hrres as (-> & Hfr & Har & Hor).
    assert (Hokl : ∃ okl,
      match ptr None l with
      | Some l0 => nd value s l0 ≫= λ lv, Some (str_lt lv (ikey i))
      | None => Some true
      end = Some okl
      ∧ (okl = true ↔ match l with E => True | T _ _ il _ => klt (ikey il) (ikey i) end)).
    { destruct l as [|ll y iy lr]; cbn [ptr]; [by exists true|].
      destruct Hl as (Hy & _). rewrite (nd_lookup value _ _ _ Hy).
      cbn. eexists. split; [done|]. done. }
    destruct Hokl as (okl & -> & Hokl). cbn [mbind option_bind].
    destruct okl; cbn [negb].
    2:{ eexists. split; [done|]. cbn [avl child_ordered].
        intros (_ & _ & _ & Hc & _). by apply Hokl in Hc. }
    assert (Hokr : ∃ okr,
      match ptr None r with
      | Some r0 => nd value s r0 ≫= λ rv, Some (str_lt (ikey i) rv)
      | None => Some true
      end = Some okr
      ∧ (okr = true ↔ match r with E => True | T _ _ ir _ => klt (ikey i) (ikey ir) end)).
    { destruct r as [|rl y iy rr]; cbn [ptr]; [by exists true|].
      destruct Hrr as (Hy & _). rewrite (nd_lookup value _ _ _ Hy).
      cbn. eexists. split; [done|]. done. }
    destruct Hokr as (okr & -> & Hokr). cbn [mbind option_bind].
    destruct okr; cbn [negb].
    2:{ eexists. split; [done|]. cbn [avl child_ordered].
        intros (_ & _ & _ & _ & Hc). by apply Hokr in Hc. }
    cbv zeta.
    destruct (iheight i =? 1 + Z.max (hgt l) (hgt r)) eqn:Hh; cbn [negb].
    2:{ eexists. split; [done|]. cbn [avl child_ordered].
        apply Z.eqb_neq in Hh. tauto. }
    apply Z.eqb_eq in Hh.
    destruct ((-1 <=? hgt l - hgt r) && (hgt l - hgt r <=? 1)) eqn:Hbal;
      cbn [negb].
    2:{ eexists. split; [done|]. cbn [avl child_ordered].
        apply andb_false_iff in Hbal. rewrite !Z.leb_gt in Hbal. lia. }
    apply andb_true_iff in Hbal. rewrite !Z.leb_le in Hbal.
    eexists. split; [done|]. cbn [avl child_ordered hgt].
    split_and!; try done; try lia; tauto.
Qed.

Lemma avl_validate_spec limit s t :
  zrep s [] t →
  ∃ res,
    AVL.validate limit s = Some res
    ∧ match res with
      | Passed _ =>
          avl t ∧ child_ordered t ∧ validate_fits EAVL limit t = true
      | AssertionError _ => ¬ (avl t ∧ child_ordered t)
      | RecursionError => validate_fits EAVL limit t = false
      end.
Proof.
  intros Hz. unfold AVL.validate. rewrite (zrep_root _ _ Hz).
  destruct t as [|l x i r]; cbn [ptr].
  - exists (Passed tt). done.
  - destruct (avl_check_spec s (T l x i r) limit None)
      as (res & E1 & Hres).
    { by apply (zrep_sub _ []). }
    cbn [ptr] in E1. rewrite E1. cbn [mbind option_bind].
    unfold validate_fits.
    destruct res as [h|a|].
    + exists (Passed tt). split; [done|].
      destruct Hres as (_ & ? & ? & ?). split_and!; try done.
      by apply bool_decide_eq_true.
    + eexists. split; [done|]. done.
    + eexists. split; [done|]. by apply bool_decide_eq_false, Z.le_ngt.
Qed.

Lemma within_T lo hi l x i r :
  bst (T l x i r) ∧ within lo hi (T l x i r)
  ↔ in_range lo hi (ikey i)
    ∧ (bst l ∧ within lo (Some (ikey i)) l)
    ∧ (bst r ∧ within (Some (ikey i)) hi r).
Proof.
  rewrite bst_T. unfold within. cbn [elems].
  rewrite Forall_app, Forall_cons, !Forall_forall.
  unfold in_range, ilt. split.
  - intros ((Hbl & Hbr & Hl & Hr) & Hwl & Hi & Hwr).
    split_and!; try done; naive_solver.
  - intros ((Hlo & Hhi) & (Hbl & Hwl) & (Hbr & Hwr)).
    split_and!; try done.
    + intros k Hk. by apply Hwl.
    + intros k Hk. by apply Hwr.
    + intros k Hk. split; [by apply Hwl|].
      destruct hi as [m|]; [|done].
      eapply klt_trans; [by apply Hwl|done].
    + intros k Hk. split; [|by apply Hwr].
      destruct lo as [m|]; [|done].
      eapply klt_trans; [done|]. by apply Hwr.
Qed.

Lemma within_None t : within None None t.
Proof. unfold within. apply Forall_forall. done. Qed.

(** [_check] of [Treap.validate] on a subtree that the store
    represents, all of whose nodes have a priority, with [limit] nested
    calls allowed. *)
Lemma treap_check_spec s t : ∀ limit p lo hi,
  rep None (cells s) t p → prioritized t →
  ∃ res,
    Treap.check limit s (ptr None t) lo hi = Some res
    ∧ match res with
      | Passed _ =>
          hgt t < Z.of_nat limit ∧ (bst t ∧ within lo hi t) ∧ heap t
      | AssertionError _ => ¬ ((bst t ∧ within lo hi t) ∧ heap t)
      | RecursionError => Z.of_nat limit ≤ hgt t
      end.
Proof.
  induction t as [|l IHl x i r IHr]; intros limit p lo hi Hr Hp;
    (destruct limit as [|limit];
     [exists RecursionError; split; [done|]; apply hgt_nonneg|]).
  - exists (Passed tt). split; [done|]. cbn [hgt].
    split_and!; try done; try lia; constructor.
  - destruct Hr as (Hx & Hl & Hrr). cbn [Treap.check ptr].
    unfold prioritized in Hp. cbn [elems] in Hp.
    rewrite Forall_app, Forall_cons in Hp. destruct Hp as (Hpl & [q Hq] & Hpr).
    pose proof (within_T lo hi l x i r) as HW.
    pose proof (hgt_nonneg l). pose proof (hgt_nonneg r).
    rewrite Hx. cbn [mbind option_bind].
    change (left (cell i p (ptr None l) (ptr None r))) with (ptr None l).
    change (right (cell i p (ptr None l) (ptr None r))) with (ptr None r).
    change (value (cell i p (ptr None l) (ptr None r))) with (Some (ikey i)).
    change (priority (cell i p (ptr None l) (ptr None r))) with (iprio i).
    rewrite Hq.
    assert (Hlo : ∃ b, match lo with
                       | Some m => Some (ikey i) ≫= λ nv, Some (str_lt m nv)
                       | None => Some true
                       end = Some b
                       ∧ (b = true ↔ match lo with Some m => klt m (ikey i) | None => True end)).
    { destruct lo; cbn; eexists; (split; [done|]); done. }
    destruct Hlo as (b & -> & Hlo). cbn [mbind option_bind].
    destruct b; cbn [negb].
    2:{ eexists. split; [done|]. lazy beta iota. rewrite HW.
        unfold in_range. intros (((Hc & _) & _) & _). by apply Hlo in Hc. }
    assert (Hhi : ∃ b, match hi with
                       | Some m => Some (str_lt (ikey i) m)
                       | None => Some true
                       end = Some b
                       ∧ (b = true ↔ match hi with Some m => klt (ikey i) m | None => True end)).
    { destruct hi; cbn; eexists; (split; [done|]); done. }
    destruct Hhi as (b & -> & Hhi). cbn [mbind option_bind].
    destruct b; cbn [negb].
    2:{ eexists. split; [done|]. lazy beta iota. rewrite HW.
        unfold in_range. intros (((_ & Hc) & _) & _). by apply Hhi in Hc. }
    assert (Hch : ∀ u, rep None (cells s) u (Some x) → prioritized u →
      ∃ b, match ptr None u with
           | Some l0 =>
               nd priority s l0 ≫= λ lp,
               rd parent s l0 ≫= λ lpar,
               Some (if lp <=? q then bool_decide (lpar = Some x) else false)
           | None => Some true
           end = Some b ∧ (b = true ↔ le_prio u q)).
    { intros [|ul y iy ur]; cbn [ptr]; [by exists true|].
      intros (Hy & _) Hpu. unfold prioritized in Hpu. cbn [elems] in Hpu.
      rewrite Forall_app, Forall_cons in Hpu. destruct Hpu as (_ & [qy Hqy] & _).
      rewrite (nd_lookup priority _ _ _ Hy), (rd_lookup parent _ _ _ Hy).
      cbn [cell priority parent mbind option_bind]. rewrite Hqy.
      cbn [mbind option_bind]. rewrite bool_decide_eq_true_2 by done.
      eexists. split; [done|]. cbn [le_prio].
      destruct (Z.leb_spec qy q); split; try done.
      - intros _. by exists qy.
      - intros (q' & Hq' & Hle). rewrite Hqy in Hq'. injection Hq' as <-. lia. }
    destruct (Hch l Hl Hpl) as (b & -> & Hokl). cbn [mbind option_bind].
    destruct b; cbn [negb].
    2:{ eexists. split; [done|]. lazy beta iota. rewrite HW. cbn [heap].
        intros (_ & q' & Hq' & Hc & _). rewrite Hq in Hq'. injection Hq' as <-.
        by apply Hokl in Hc. }
    destruct (Hch r Hrr Hpr) as (b & -> & Hokr). cbn [mbind option_bind].
    destruct b; cbn [negb].
    2:{ eexists. split; [done|]. lazy beta iota. rewrite HW. cbn [heap].
        intros (_ & q' & Hq' & _ & Hc & _). rewrite Hq in Hq'. injection Hq' as <-.
        by apply Hokr in Hc. }
    destruct (IHl limit (Some x) lo (Some (ikey i)) Hl Hpl) as (lres & -> & Hlres).
    cbn [mbind option_bind].
    destruct lres as [[]|a|].
    2:{ eexists. split; [done|]. lazy beta iota. rewrite HW. cbn [heap].
        intros ((_ & Hc & _) & q' & _ & _ & _ & Hhl & _).
        apply Hlres. done. }
    2:{ eexists. split; [done|]. cbn [hgt]. lia. }
    destruct Hlres as (Hfl & Hbl & Hhl).
    destruct (IHr limit (Some x) (Some (ikey i)) hi Hrr Hpr) as (rres & -> & Hrres).
    exists rres. split; [done|].
    destruct rres as [[]|a|]; rewrite ?HW; cbn [heap hgt].
    + destruct Hrres as (Hfr & Hbr & Hhr). unfold in_range.
      split_and!; try tauto; try lia. exists q. split_and!; try tauto.
    + intros ((_ & _ & Hc) & q' & _ & _ & _ & _ & Hhr). apply Hrres. done.
    + lia.
Qed.

Lemma treap_validate_spec limit s t :
  zrep s [] t → prioritized t →
  ∃ res,
    Treap.validate limit s = Some res
    ∧ match res with
      | Passed _ =>
          bst t ∧ heap t ∧ validate_fits (ETreap 0) limit t = true
      | AssertionError _ => ¬ (bst t ∧ heap t)
      | RecursionError => validate_fits (ETreap 0) limit t = false
      end.
Proof.
  intros Hz Hp. unfold Treap.validate. rewrite (zrep_root _ _ Hz).
  destruct (treap_check_spec s t limit None None None)
    as (res & E1 & Hres); try done.
  { by apply (zrep_sub _ []). }
  exists res. split; [done|]. pose proof (within_None t).
  change (validate_fits (ETreap 0) limit t)
    with (bool_decide (hgt t < Z.of_nat limit)).
  destruct res as [[]|a|].
  - destruct Hres as (? & (? & _) & ?). split_and!; try done.
    by apply bool_decide_eq_true.
  - tauto.
  - by apply bool_decide_eq_false, Z.le_ngt.
Qed.

Lemma heap_prioritized t : heap t → prioritized t.
Proof.
  unfold prioritized. induction t as [|l IHl x i r IHr]; [constructor|].
  intros (q & Hq & _ & _ & Hl & Hr). cbn [elems].
  rewrite Forall_app, Forall_cons. split_and!; [by apply IHl|by exists q|by apply IHr].
Qed.

Lemma rb_colored t n : rb t n → colored t.
Proof.
  unfold colored. revert n. induction t as [|l IHl x i r IHr]; intros n; [constructor|].
  cbn [rb elems]. rewrite Forall_app, Forall_cons.
  intros [(Hc & _ & _ & Hl & Hr)|(Hc & m & _ & Hl & Hr)];
    (split_and!; [by eapply IHl|by rewrite Hc|by eapply IHr]).
Qed.

(** [check_node] of [RBTree.validate] on a subtree that the store
    represents, all of whose nodes have a color, with [limit] nested
    calls allowed: it returns one more than the black height only if
    the subtree is in order within the bounds and has the Red-Black
    shape, raises AssertionError only if it is not so, and
    RecursionError only if it is at least [limit] levels high. *)
Lemma rb_check_spec s nl pn t : ∀ limit p lo hi,
  nil s = Some nl → cells s !! nl = Some (sentinel pn nl) →
  rep (Some nl) (cells s) t p → nl ∉ ids t → colored t →
  ∃ res,
    RB.check_node limit s (pid nl t) lo hi = Some res
    ∧ match res with
      | Passed h =>
          hgt t < Z.of_nat limit
          ∧ (bst t ∧ within lo hi t) ∧ ∃ n, h = Z.of_nat n + 1 ∧ rb t n
      | AssertionError _ => ¬ ((bst t ∧ within lo hi t) ∧ ∃ n, rb t n)
      | RecursionError => Z.of_nat limit ≤ hgt t
      end.
Proof.
  intros limit p lo hi Hnil Hs. revert limit p lo hi.
  induction t as [|l IHl x i r IHr]; intros limit p lo hi Hr Hnl Hco;
    (destruct limit as [|limit];
     [exists RecursionError; split; [done|]; apply hgt_nonneg|]).
  - exists (Passed 1). split.
    + cbn [RB.check_node pid]. by rewrite (is_nil_nl _ _ Hnil).
    + cbn [hgt]. split_and!; try constructor; try lia. by exists 0%nat.
  - destruct Hr as (Hx & Hl & Hrr). cbn [RB.check_node pid].
    rewrite (is_nil_T _ _ _ _ _ _ Hnil Hnl).
    unfold colored in Hco. cbn [elems] in Hco.
    rewrite Forall_app, Forall_cons in Hco. destruct Hco as (Hcl & [co Hc] & Hcr).
    assert (nl ∉ ids l ∧ nl ∉ ids r) as [Hnll Hnlr].
    { cbn [ids] in Hnl. set_solver. }
    pose proof (within_T lo hi l x i r) as HW.
    pose proof (hgt_nonneg l). pose proof (hgt_nonneg r).
    rewrite Hx. cbn [mbind option_bind].
    change (left (cell i p (ptr (Some nl) l) (ptr (Some nl) r)))
      with (ptr (Some nl) l).
    change (right (cell i p (ptr (Some nl) l) (ptr (Some nl) r)))
      with (ptr (Some nl) r).
    change (value (cell i p (ptr (Some nl) l) (ptr (Some nl) r)))
      with (Some (ikey i)).
    change (color (cell i p (ptr (Some nl) l) (ptr (Some nl) r)))
      with (icolor i).
    rewrite !ptr_pid.
    assert (Hlo : ∃ b, match lo with
                       | Some m => Some (ikey i) ≫= λ nv, Some (str_lt m nv)
                       | None => Some true
                       end = Some b
                       ∧ (b = true ↔ match lo with Some m => klt m (ikey i) | None => True end)).
    { destruct lo; cbn; eexists; (split; [done|]); done. }
    destruct Hlo as (b & -> & Hlo). cbn [mbind option_bind].
    destruct b; cbn [negb].
    2:{ eexists. split; [done|]. lazy beta iota. rewrite HW.
        unfold in_range. intros (((Hc' & _) & _) & _). by apply Hlo in Hc'. }
    assert (Hhi : ∃ b, match hi with
                       | Some m => Some (str_lt (ikey i) m)
                       | None => Some true
                       end = Some b
                       ∧ (b = true ↔ match hi with Some m => klt (ikey i) m | None => True end)).
    { destruct hi; cbn; eexists; (split; [done|]); done. }
    destruct Hhi as (b & -> & Hhi). cbn [mbind option_bind].
    destruct b; cbn [negb].
    2:{ eexists. split; [done|]. lazy beta iota. rewrite HW.
        unfold in_range. intros (((_ & Hc') & _) & _). by apply Hhi in Hc'. }
    destruct (IHl limit (Some x) lo (Some (ikey i)) Hl Hnll Hcl) as (lres & -> & Hlres).
    cbn [mbind option_bind].
    destruct lres as [lh|a|].
    2:{ eexists. split; [done|]. lazy beta iota. rewrite HW. cbn [rb].
        intros ((_ & Hc' & _) & n & Hrb). apply Hlres. split; [done|].
        destruct Hrb as [(_ & _ & _ & ? & _)|(_ & m & _ & ? & _)]; eauto. }
    2:{ eexists. split; [done|]. cbn [hgt]. lia. }
    destruct Hlres as (Hfl & Hbl & nlh & -> & Hrbl).
    destruct (IHr limit (Some x) (Some (ikey i)) hi Hrr Hnlr Hcr) as (rres & -> & Hrres).
    cbn [mbind option_bind].
    destruct rres as [rh|a|].
    2:{ eexists. split; [done|]. lazy beta iota. rewrite HW. cbn [rb].
        intros ((_ & _ & Hc') & n & Hrb). apply Hrres. split; [done|].
        destruct Hrb as [(_ & _ & _ & _ & ?)|(_ & m & _ & _ & ?)]; eauto. }
    2:{ eexists. split; [done|]. cbn [hgt]. lia. }
    destruct Hrres as (Hfr & Hbr & nrh & -> & Hrbr).
    destruct (Z.of_nat nlh + 1 =? Z.of_nat nrh + 1) eqn:Hh; cbn [negb].
    2:{ eexists. split; [done|]. lazy beta iota. cbn [rb]. apply Z.eqb_neq in Hh.
        intros (_ & n & Hrb).
        destruct Hrb as [(_ & _ & _ & H1 & H2)|(_ & m & _ & H1 & H2)];
          pose proof (rb_fun _ _ _ Hrbl H1); pose proof (rb_fun _ _ _ Hrbr H2);
          lia. }
    apply Z.eqb_eq in Hh. assert (nrh = nlh) as -> by lia.
    rewrite (rd_color_pid _ _ _ _ _ Hl Hs), (rd_color_pid _ _ _ _ _ Hrr Hs).
    cbn [mbind option_bind]. rewrite Hc.
    destruct (rb_rcol _ _ Hrbl) as [Hlc|Hlc], (rb_rcol _ _ Hrbr) as [Hrc|Hrc];
      rewrite Hlc, Hrc; destruct co; cbn; (eexists; split; [done|]);
      cbn beta iota; rewrite ?HW; cbn [rb hgt]; rewrite ?Hc.
    all: try (intros (_ & n & [(_ & ? & ? & _)|(? & _)]); col_cong).
    all: (split; [lia|]).
    all: (split; [unfold in_range; tauto|]).
    all: try (exists (S nlh);
              split; [change (RB.is_black (Some false)) with true; lia|];
              right; split; [done|]; exists nlh; done).
    all: try (exists nlh;
              split; [change (RB.is_black (Some true)) with false; lia|];
              left; done).
Qed.

Lemma rb_validate_spec limit s nl t :
  rzrep s nl [] t → colored t →
  ∃ res,
    RB.validate limit s = Some res
    ∧ match res with
      | Passed _ =>
          bst t ∧ rcol t = Some BLACK ∧ (∃ n, rb t n)
          ∧ validate_fits ERB limit t = true
      | AssertionError _ => ¬ (bst t ∧ rcol t = Some BLACK ∧ ∃ n, rb t n)
      | RecursionError => validate_fits ERB limit t = false
      end.
Proof.
  intros Hz Hco. unfold RB.validate.
  pose proof (rzrep_nil _ _ _ _ Hz) as Hnil.
  pose proof Hz as (_ & Hnd & _ & Hr & _ & pn & Hs).
  assert (Hnl : nl ∉ ids t).
  { apply NoDup_cons in Hnd as [Hnd _]. set_solver. }
  rewrite (rzrep_root _ _ _ Hz). cbn [mbind option_bind].
  rewrite (is_nil_pid _ _ _ Hnil Hnl).
  rewrite (rd_color_pid _ _ _ _ _ Hr Hs).
  assert (Hroot : ∃ ok,
    (if negb match t with E => true | T _ _ _ _ => false end
     then Some (rcol t) ≫= λ c, Some (RB.is_black c) else Some true) = Some ok
    ∧ (ok = true ↔ rcol t = Some BLACK)).
  { destruct t as [|l x i r]; cbn; [by exists true|].
    eexists. split; [done|]. unfold RB.is_black.
    by rewrite bool_decide_eq_true. }
  destruct Hroot as (ok & -> & Hok). cbn [mbind option_bind].
  destruct ok; cbn [negb].
  2:{ eexists. split; [done|].
      intros (_ & Hc & _). by apply Hok in Hc. }
  destruct Hok as [Hok _]. specialize (Hok eq_refl).
  destruct (rb_check_spec s nl pn t limit (Some nl) None None)
    as (res & E1 & Hres); try done.
  rewrite E1. cbn [mbind option_bind].
  pose proof (within_None t).
  change (validate_fits ERB limit t)
    with (bool_decide (hgt t < Z.of_nat limit)).
  destruct res as [h|a|].
  - exists (Passed tt). split; [done|].
    destruct Hres as (? & (? & _) & n & _ & ?).
    split_and!; try done; [by exists n|by apply bool_decide_eq_true].
  - eexists. split; [done|].
    intros (? & _ & ?). apply Hres. done.
  - eexists. split; [done|]. by apply bool_decide_eq_false, Z.le_ngt.
Qed.

(** X1: on a tree that public calls have built, [validate] raises no
    AssertionError: after every sequence of calls on a new tree of any
    engine it returns normally when the interpreter allows the nested
    calls of its walk, one per level of the tree and one more, and
    raises RecursionError when it does not. *)
Theorem validate_passes_after_calls (e : engine) (ops : list op) :
  ∃ s t,
    run e ops (engine_init e) = Some s
    ∧ inv e s t
    ∧ ∀ limit,
        validate e limit s
        = Some (if validate_fits e limit t
                then Passed tt else RecursionError).
Proof.
  destruct (run_spec e ops) as (s & t & E1 & Hinv & _).
  exists s, t. split; [done|]. split; [done|]. intros limit.
  destruct e; cbn [inv validate] in *.
  - destruct Hinv as (_ & Hz & Hb & Hbst & Havl).
    destruct (avl_validate_spec limit _ _ Hz) as (res & -> & Hres).
    destruct res as [[]|a|].
    + by destruct Hres as (_ & _ & ->).
    + exfalso. apply Hres. split; [done|]. by apply bst_child_ordered.
    + by rewrite Hres.
  - destruct Hinv as (nl & Hz & Hb & Hn & Hbst & Hc & n & Hrb).
    destruct (rb_validate_spec limit _ _ _ Hz (rb_colored _ _ Hrb))
      as (res & -> & Hres).
    destruct res as [[]|a|].
    + by destruct Hres as (_ & _ & _ & ->).
    + exfalso. apply Hres. split_and!; try done. by exists n.
    + by rewrite Hres.
  - destruct Hinv as (_ & Hz & Hb & Hbst & Hheap).
    destruct (treap_validate_spec limit _ _ Hz (heap_prioritized _ Hheap))
      as (res & -> & Hres).
    unfold validate_fits in *.
    destruct res as [[]|a|].
    + destruct Hres as (_ & _ & Hf). by rewrite Hf.
    + exfalso. by apply Hres.
    + by rewrite Hres.
Qed.

(** X2: on a store that represents a tree [t], [AVLTree.validate]
    returns, raises AssertionError or raises RecursionError.  It
    returns only when every node of [t] has the [height] of its
    subtree, a balance factor in {-1, 0, 1} and lies between its two
    children; it raises AssertionError only when some node is not so;
    it raises RecursionError only when [t] is too deep for the nested
    calls that the interpreter allows. *)
Theorem avl_validate_accepts (limit : nat) (s : Tree) (t : tree) :
  zrep s [] t →
  ∃ res,
    AVL.validate limit s = Some res
    ∧ match res with
      | Passed _ =>
          avl t ∧ child_ordered t ∧ validate_fits EAVL limit t = true
      | AssertionError _ => ¬ (avl t ∧ child_ordered t)
      | RecursionError => validate_fits EAVL limit t = false
      end.
Proof. apply avl_validate_spec. Qed.

Lemma avl_validate_accepts_witness :
  ∃ res,
    AVL.validate 1000 avl_hidden_violation = Some res
    ∧ match res with
      | Passed _ =>
          avl avl_hidden_tree ∧ child_ordered avl_hidden_tree
          ∧ validate_fits EAVL 1000 avl_hidden_tree = true
      | AssertionError _ =>
          ¬ (avl avl_hidden_tree ∧ child_ordered avl_hidden_tree)
      | RecursionError => validate_fits EAVL 1000 avl_hidden_tree = false
      end.
Proof.
  apply (avl_validate_accepts 1000 avl_hidden_violation avl_hidden_tree).
  unfold zrep. cbn [avl_hidden_tree rep rep_ctx ids cids app]. concrete.
Defined.

(** X3: on a store that represents a tree [t] whose nodes all have a
    priority, [Treap.validate] returns, raises AssertionError or raises
    RecursionError.  It returns only when [t] is a search tree and a
    max-heap on the priorities, raises AssertionError only when it is
    not, and raises RecursionError only when [t] is too deep for the
    nested calls that the interpreter allows. *)
Theorem treap_validate_accepts (limit : nat) (s : Tree) (t : tree) :
  zrep s [] t → prioritized t →
  ∃ res,
    Treap.validate limit s = Some res
    ∧ match res with
      | Passed _ =>
          bst t ∧ heap t ∧ validate_fits (ETreap 0) limit t = true
      | AssertionError _ => ¬ (bst t ∧ heap t)
      | RecursionError => validate_fits (ETreap 0) limit t = false
      end.
Proof. apply treap_validate_spec. Qed.

Lemma treap_validate_accepts_witness :
  ∃ res,
    Treap.validate 1000 treap_mct = Some res
    ∧ match res with
      | Passed _ =>
          bst treap_mct_tree ∧ heap treap_mct_tree
          ∧ validate_fits (ETreap 0) 1000 treap_mct_tree = true
      | AssertionError _ => ¬ (bst treap_mct_tree ∧ heap treap_mct_tree)
      | RecursionError => validate_fits (ETreap 0) 1000 treap_mct_tree = false
      end.
Proof.
  apply (treap_validate_accepts 1000 treap_mct treap_mct_tree).
  - unfold zrep. cbn [treap_mct_tree rep rep_ctx ids cids app]. concrete.
  - unfold prioritized. cbn [treap_mct_tree elems app].
    repeat constructor; by eexists.
Defined.

(** X4: on a store that represents a tree [t] under the sentinel, all
    nodes of [t] having a color, [RBTree.validate] returns, raises
    AssertionError or raises RecursionError.  It returns only when [t]
    is a search tree with a BLACK root, no RED node with a RED child
    and the same number of BLACK nodes on all paths, raises
    AssertionError only when it is not, and raises RecursionError only
    when [t] is too deep for the nested calls that the interpreter
    allows. *)
Theorem rb_validate_accepts (limit : nat) (s : Tree) (nl : ref) (t : tree) :
  rzrep s nl [] t → colored t →
  ∃ res,
    RB.validate limit s = Some res
    ∧ match res with
      | Passed _ =>
          bst t ∧ rcol t = Some BLACK ∧ (∃ n, rb t n)
          ∧ validate_fits ERB limit t = true
      | AssertionError _ => ¬ (bst t ∧ rcol t = Some BLACK ∧ ∃ n, rb t n)
      | RecursionError => validate_fits ERB limit t = false
      end.
Proof. apply rb_validate_spec. Qed.

Lemma rb_validate_accepts_witness :
  ∃ res,
    RB.validate 1000 rb_mct = Some res
    ∧ match res with
      | Passed _ =>
          bst rb_mct_tree ∧ rcol rb_mct_tree = Some BLACK
          ∧ (∃ n, rb rb_mct_tree n)
          ∧ validate_fits ERB 1000 rb_mct_tree = true
      | AssertionError _ =>
          ¬ (bst rb_mct_tree ∧ rcol rb_mct_tree = Some BLACK
             ∧ ∃ n, rb rb_mct_tree n)
      | RecursionError => validate_fits ERB 1000 rb_mct_tree = false
      end.
Proof.
  apply (rb_validate_accepts 1000 rb_mct 0%nat rb_mct_tree).
  - unfold rzrep. cbn [rb_mct_tree rep rep_ctx ids cids app]. concrete.
    eexists. vm_compute. reflexivity.
  - unfold colored. cbn [rb_mct_tree elems app].
    repeat constructor; by eexists.
Defined.

(** X5: the three engines implement a set of strings: in every sequence
    of calls on a new tree, [insert] returns true exactly when the key
    was absent, [delete] and [contains] exactly when it was present. *)
Theorem calls_return_set_results (e : engine) (ops : list op) :
  ∃ s, run_outs e ops (engine_init e) = Some (results ops, s).
Proof.
  destruct (run_outs_spec e ops _ _ (init_inv e)) as (s & t & E1 & _).
  by exists s.
Qed.

(** X6: in every state that public calls reach, [insert] of an absent
    key creates one node for it, in its place in the order of the keys,
    and every other node keeps its key; [insert] of a present key
    leaves the tree as it is. *)
Theorem insert_adds_one_node (e : engine) (ops : list op) (v : string) (q : Z) :
  ∃ s t s' t',
    run e ops (engine_init e) = Some s
    ∧ inv e s t
    ∧ exec e (Insert v q) s = Some (bool_decide (v ∉ present ops), s')
    ∧ inv e s' t'
    ∧ if bool_decide (v ∈ present ops)
      then t' = t
      else ∃ L R, binds t = L ++ R ∧ binds t' = L ++ (next s, v) :: R.
Proof.
  destruct (run_spec e ops) as (s & t & E1 & Hinv & Hk & _).
  assert (Hgen : ∃ b s' t',
    exec e (Insert v q) s = Some (b, s') ∧ inv e s' t'
    ∧ if b then v ∉ keys t
                ∧ ∃ L R, binds t = L ++ R ∧ binds t' = L ++ (next s, v) :: R
      else v ∈ keys t ∧ t' = t).
  { destruct e; cbn [exec inv] in *.
    - destruct (avl_insert_spec _ _ v Hinv) as (b & s' & t' & E2 & Hi & Hb & _).
      exists b, s', t'. split_and!; try done. destruct b; [done|].
      by destruct Hb as (? & _ & ?).
    - destruct (rb_insert_spec _ _ v Hinv) as (b & s' & t' & E2 & Hi & Hb & _).
      exists b, s', t'. split_and!; try done. destruct b; [done|].
      by destruct Hb as (? & _ & ?).
    - destruct (treap_insert_spec _ _ v q Hinv) as (b & s' & t' & E2 & Hi & Hb & _).
      exists b, s', t'. split_and!; try done. destruct b; [done|].
      by destruct Hb as (? & _ & ?). }
  destruct Hgen as (b & s' & t' & E2 & Hi & Hb).
  exists s, t, s', t'. rewrite <-Hk.
  destruct b.
  - destruct Hb as (Hn & Hb). rewrite <-elem_of_keyset in Hn.
    rewrite bool_decide_eq_true_2, bool_decide_eq_false_2 by done. done.
  - destruct Hb as (Hn & ->). rewrite <-elem_of_keyset in Hn.
    rewrite bool_decide_eq_false_2, bool_decide_eq_true_2 by tauto. done.
Qed.

Lemma insert_all_spec e values : ∀ s t,
  inv e s t →
  ∃ s' t',
    insert_all e values s = Some s' ∧ inv e s' t'
    ∧ keyset t' = keyset t ∪ list_to_set values.*1
    ∧ rotations_delete s' = rotations_delete s
    ∧ guard_returns s' = guard_returns s.
Proof.
  induction values as [|[v q] values IH]; intros s t Hinv.
  - exists s, t. cbn. split_and!; try done. set_solver.
  - destruct (exec_spec e (Insert v q) s t Hinv) as (s1 & t1 & E1 & Hi1 & Hk1 & Hc1).
    destruct (IH s1 t1 Hi1) as (s2 & t2 & E2 & Hi2 & Hk2 & Hd2 & Hg2).
    exists s2, t2. cbn [insert_all]. rewrite E1. cbn. rewrite E2.
    cbn [op_counted op_keys] in *. destruct Hc1 as (k & Hg & _ & Hd).
    split_and!; try done; [|congruence|congruence].
    rewrite Hk2, Hk1. set_solver.
Qed.

(** X7: a tree constructed with [values] holds exactly these values,
    each once: its in-order walk is strictly increasing and lists the
    values; no rotation has been counted as a deletion. *)
Theorem constructor_inserts_the_values (e : engine) (values : list (string * Z)) :
  ∃ s ks,
    construct e values = Some s
    ∧ inorder s = Some (Some <$> ks)
    ∧ sorted ks
    ∧ (∀ k, k ∈ ks ↔ k ∈ values.*1)
    ∧ rotations_delete s = 0%nat.
Proof.
  destruct (insert_all_spec e values _ _ (init_inv e))
    as (s & t & E1 & Hinv & Hk & Hd & _).
  exists s, (keys t). split_and!; try done.
  - by eapply inorder_spec.
  - by eapply bst_sorted, inv_bst.
  - intros k. rewrite <-elem_of_keyset, Hk, keyset_E. set_solver.
  - rewrite Hd. by destruct e.
Qed.

Lemma inorder_values_reset_metrics fuel s stop : ∀ n,
  inorder_values fuel (reset_metrics s) stop n = inorder_values fuel s stop n.
Proof.
  induction fuel as [|fuel IH]; intros n; cbn [inorder_values]; [done|].
  case_bool_decide; [done|]. destruct n as [x|]; [|done].
  cbn [mbind option_bind]. change (cells (reset_metrics s)) with (cells s).
  destruct (cells s !! x) as [c|]; [|done]. cbn [mbind option_bind].
  by rewrite !IH.
Qed.

Lemma inv_reset_metrics e s t : inv e s t → inv e (reset_metrics s) t.
Proof. destruct e; exact id. Qed.

(** X8: [reset_metrics] sets both counters to 0 and leaves the tree
    alone: the in-order walk is the same, and every further sequence of
    calls returns what it returns without the reset. *)
Theorem reset_metrics_keeps_the_tree (e : engine) (ops ops' : list op) :
  ∃ s s',
    run e ops (engine_init e) = Some s
    ∧ total_rotations (reset_metrics s) = 0%nat
    ∧ inorder (reset_metrics s) = inorder s
    ∧ run_outs e ops' (reset_metrics s)
      = Some (results_from (present ops) ops', s').
Proof.
  destruct (run_spec e ops) as (s & t & E1 & Hinv & Hk & _).
  destruct (run_outs_spec e ops' _ _ (inv_reset_metrics _ _ _ Hinv))
    as (s' & t' & E2 & _).
  exists s, s'. rewrite <-Hk. split_and!; [done|reflexivity| |done].
  apply inorder_values_reset_metrics.
Qed.

Lemma rep_links_back nilp s t : ∀ p,
  rep nilp (cells s) t p →
  ∀ x, x ∈ ids t →
    ∃ cx, cells s !! x = Some cx
          ∧ links_back nilp s x (left cx) ∧ links_back nilp s x (right cx).
Proof.
  induction t as [|l IHl y i r IHr]; intros p Hr x Hx.
  - by apply elem_of_nil in Hx.
  - destruct Hr as (Hy & Hl & Hrr).
    cbn [ids] in Hx. rewrite elem_of_app, elem_of_cons in Hx.
    destruct Hx as [Hx|[->|Hx]]; [by eapply IHl| |by eapply IHr].
    eexists. split; [exact Hy|]. cbn [left right cell].
    assert (Hc : ∀ u, rep nilp (cells s) u (Some y) →
                      links_back nilp s y (ptr nilp u)).
    { intros [|ul z iz ur]; [by left|]. intros (Hz & _). right.
      exists z. split; [done|]. by rewrite (rd_lookup parent _ _ _ Hz). }
    split; by apply Hc.
Qed.

(** X9: after every sequence of public calls, in every engine, the
    parent links are consistent: the [parent] of the root is [None]
    (the sentinel in a Red-Black tree), and every child link of a node
    of the tree leads to the missing-child mark or to a node whose
    [parent] link leads back. *)
Theorem parent_links_after_calls (e : engine) (ops : list op) :
  ∃ s t,
    run e ops (engine_init e) = Some s
    ∧ inv e s t
    ∧ (∀ r, root s = Some r → nil s ≠ Some r → rd parent s r = Some (nil s))
    ∧ ∀ x, x ∈ ids t →
        ∃ cx, cells s !! x = Some cx
              ∧ links_back (nil s) s x (left cx)
              ∧ links_back (nil s) s x (right cx).
Proof.
  destruct (run_spec e ops) as (s & t & E1 & Hinv & _).
  exists s, t. split; [done|]. split; [done|].
  assert (Hrep : rep (nil s) (cells s) t (nil s) ∧ root s = ptr (nil s) t).
  { destruct e; cbn [inv] in Hinv.
    - destruct Hinv as (-> & Hz & _). split; [by apply (zrep_sub _ [])|].
      by apply zrep_root.
    - destruct Hinv as (nl & Hz & _). rewrite (rzrep_nil _ _ _ _ Hz).
      split; [by apply (rzrep_sub _ _ [])|].
      by rewrite (rzrep_root _ _ _ Hz), ptr_pid.
    - destruct Hinv as (-> & Hz & _). split; [by apply (zrep_sub _ [])|].
      by apply zrep_root. }
  destruct Hrep as [Hrep Hroot]. split.
  - intros r Hr Hn. rewrite Hroot in Hr.
    destruct t as [|l x i rr]; cbn [ptr] in Hr; [congruence|].
    injection Hr as <-. destruct Hrep as (Hx & _).
    by rewrite (rd_lookup parent _ _ _ Hx).
  - by eapply rep_links_back.
Qed.

(** * [utils/tree_util.py] on represented trees *)

Import TreeUtil.

Lemma imbalance_nonneg t : 0 ≤ imbalance t.
Proof. induction t; simpl; lia. Qed.

(** [_h] on a subtree that the store represents and none of whose
    nodes is in [visited], with [limit] nested calls allowed: it meets
    no node twice, and returns the height of the subtree when that is
    less than [limit]; otherwise the interpreter raises
    RecursionError. *)
Lemma h_spec s nilp t : ∀ limit p V,
  rep nilp (cells s) t p → mark_has_no_value s nilp →
  NoDup (ids t) → (∀ x, x ∈ ids t → x ∉ V) →
  ∃ V',
    h limit s V (ptr nilp t)
    = Some (if bool_decide (hgt t < Z.of_nat limit)
            then Returned (hgt t, V') else RecursionError)
    ∧ ∀ y, y ∈ V' ↔ y ∈ ids t ∨ y ∈ V.
Proof.
  induction t as [|l IHl x i r IHr]; intros limit p V Hr Hm Hnd HV.
  - exists V. split; [|set_solver]. cbn [hgt].
    destruct limit as [|limit]; [done|].
    rewrite bool_decide_eq_true_2 by lia.
    destruct nilp as [nl|]; cbn [ptr h]; [|done].
    destruct Hm as (c & Hc & Hv). by rewrite Hc; cbn; rewrite Hv.
  - pose proof (hgt_nonneg l). pose proof (hgt_nonneg r).
    destruct limit as [|limit].
    { exists (list_to_set (ids (T l x i r)) ∪ V).
      split; [|intros y; rewrite elem_of_union, elem_of_list_to_set; done].
      cbn [h hgt]. by rewrite bool_decide_eq_false_2 by lia. }
    destruct Hr as (Hx & Hl & Hrr). cbn [h ptr].
    rewrite Hx. cbn [mbind option_bind].
    change (left (cell i p (ptr nilp l) (ptr nilp r))) with (ptr nilp l).
    change (right (cell i p (ptr nilp l) (ptr nilp r))) with (ptr nilp r).
    change (value (cell i p (ptr nilp l) (ptr nilp r))) with (Some (ikey i)).
    cbn [ids] in Hnd, HV. apply NoDup_app in Hnd as (Hndl & Hlx & Hndr).
    apply NoDup_cons in Hndr as (Hxr & Hndr).
    rewrite bool_decide_eq_false_2 by (apply HV; set_solver).
    destruct (IHl limit (Some x) ({[x]} ∪ V) Hl Hm Hndl) as (V1 & -> & HV1).
    { intros y Hy. specialize (Hlx y Hy). specialize (HV y). set_solver. }
    destruct (IHr limit (Some x) V1 Hrr Hm Hndr) as (V2 & E2 & HV2).
    { intros y Hy. rewrite HV1. specialize (Hlx y). specialize (HV y).
      set_solver. }
    exists V2. split; [|intros y; rewrite HV2, HV1; cbn [ids]; set_solver].
    cbn [mbind option_bind hgt].
    destruct (decide (hgt l < Z.of_nat limit)) as [Hfl|Hfl];
      [rewrite (bool_decide_eq_true_2 _ Hfl)|rewrite (bool_decide_eq_false_2 _ Hfl)];
      cbn [mbind option_bind].
    2:{ by rewrite bool_decide_eq_false_2 by lia. }
    rewrite E2. cbn [mbind option_bind].
    destruct (decide (hgt r < Z.of_nat limit)) as [Hfr|Hfr];
      [rewrite (bool_decide_eq_true_2 _ Hfr)|rewrite (bool_decide_eq_false_2 _ Hfr)];
      cbn [mbind option_bind].
    2:{ by rewrite bool_decide_eq_false_2 by lia. }
    by rewrite bool_decide_eq_true_2 by lia.
Qed.

(** [helper] of [compute_balance_metrics] on a subtree that the store
    represents, with [limit] nested calls allowed. *)
Lemma helper_spec s nilp t : ∀ limit p ds mi d,
  rep nilp (cells s) t p → mark_has_no_value s nilp → 0 ≤ mi →
  helper limit s ds mi (ptr nilp t) d
  = Some (if bool_decide (hgt t < Z.of_nat limit)
          then Returned (hgt t, ds ++ depths_of t d, Z.max mi (imbalance t))
          else RecursionError).
Proof.
  induction t as [|l IHl x i r IHr]; intros limit p ds mi d Hr Hm Hmi.
  - cbn [hgt depths_of imbalance]. rewrite app_nil_r, Z.max_l by done.
    destruct limit as [|limit]; [done|].
    rewrite bool_decide_eq_true_2 by lia.
    destruct nilp as [nl|]; cbn [ptr helper]; [|done].
    destruct Hm as (c & Hc & Hv). by rewrite Hc; cbn; rewrite Hv.
  - pose proof (hgt_nonneg l). pose proof (hgt_nonneg r).
    destruct limit as [|limit].
    { cbn [helper hgt]. by rewrite bool_decide_eq_false_2 by lia. }
    destruct Hr as (Hx & Hl & Hrr). cbn [helper ptr].
    rewrite Hx. cbn [mbind option_bind].
    change (left (cell i p (ptr nilp l) (ptr nilp r))) with (ptr nilp l).
    change (right (cell i p (ptr nilp l) (ptr nilp r))) with (ptr nilp r).
    change (value (cell i p (ptr nilp l) (ptr nilp r))) with (Some (ikey i)).
    rewrite (IHl limit (Some x) _ _ _ Hl Hm) by done.
    cbn [mbind option_bind hgt].
    destruct (decide (hgt l < Z.of_nat limit)) as [Hfl|Hfl];
      [rewrite (bool_decide_eq_true_2 _ Hfl)|rewrite (bool_decide_eq_false_2 _ Hfl)];
      cbn [mbind option_bind].
    2:{ by rewrite bool_decide_eq_false_2 by lia. }
    pose proof (imbalance_nonneg l). pose proof (imbalance_nonneg r).
    rewrite (IHr limit (Some x) _ _ _ Hrr Hm) by lia.
    cbn [mbind option_bind].
    destruct (decide (hgt r < Z.of_nat limit)) as [Hfr|Hfr];
      [rewrite (bool_decide_eq_true_2 _ Hfr)|rewrite (bool_decide_eq_false_2 _ Hfr)];
      cbn [mbind option_bind].
    2:{ by rewrite bool_decide_eq_false_2 by lia. }
    rewrite bool_decide_eq_true_2 by lia.
    cbn [depths_of imbalance].
    rewrite <-!app_assoc. do 3 f_equal. lia.
Qed.

Lemma avl_imbalance t : avl t → imbalance t ≤ 1.
Proof.
  induction t as [|l IHl x i r IHr]; [done|].
  intros (Hl & Hr & _ & Hb). cbn [imbalance].
  specialize (IHl Hl). specialize (IHr Hr). lia.
Qed.

(** An AVL tree of height at least [2 k] has at least [2 ^ k - 1]
    nodes. *)
Lemma avl_size t : avl t →
  ∀ k, 0 ≤ k → 2 * k ≤ hgt t → 2 ^ k ≤ Z.of_nat (size t) + 1.
Proof.
  induction t as [|l IHl x i r IHr]; intros Ha k Hk Hh.
  - simpl in *. assert (k = 0) as -> by lia. done.
  - destruct Ha as (Hal & Har & _ & Hb). cbn [hgt size] in *.
    destruct (decide (k = 0)) as [->|Hk0]; [simpl; lia|].
    pose proof (hgt_nonneg l). pose proof (hgt_nonneg r).
    specialize (IHl Hal (k - 1)). specialize (IHr Har (k - 1)).
    replace k with (Z.succ (k - 1)) by lia.
    rewrite Z.pow_succ_r by lia. lia.
Qed.

Lemma rb_size t : ∀ n, rb t n →
  2 ^ Z.of_nat n ≤ Z.of_nat (size t) + 1
  ∧ hgt t ≤ 2 * Z.of_nat n + (if hred t then 1 else 0).
Proof.
  induction t as [|l IHl x i r IHr]; intros n Hrb.
  - simpl in Hrb. subst n. by cbn.
  - cbn [rb] in Hrb. cbn [size hgt]. unfold hred. cbn [rcol].
    destruct Hrb as [(Hc & Hlc & Hrc & Hl & Hr)|(Hc & m & -> & Hl & Hr)].
    + destruct (IHl _ Hl) as [Hsl Hhl], (IHr _ Hr) as [Hsr Hhr].
      rewrite (hred_black _ Hlc) in Hhl. rewrite (hred_black _ Hrc) in Hhr.
      rewrite Hc, bool_decide_eq_true_2 by done. lia.
    + destruct (IHl _ Hl) as [Hsl Hhl], (IHr _ Hr) as [Hsr Hhr].
      rewrite Hc, bool_decide_eq_false_2 by done.
      rewrite Nat2Z.inj_succ, Z.pow_succ_r by lia.
      destruct (hred l), (hred r); lia.
Qed.

Lemma size_keys t : length (keys t) = size t.
Proof.
  unfold keys. rewrite length_fmap.
  induction t as [|l IHl x i r IHr]; [done|].
  cbn [elems size]. rewrite length_app. simpl. lia.
Qed.

Lemma pow_div_le h n : 0 ≤ h → h ≤ 2 * n → 2 ^ (h / 2) ≤ 2 ^ n.
Proof.
  intros Hh Hn. apply Z.pow_le_mono_r; [lia|].
  apply Z.div_le_upper_bound; lia.
Qed.

Lemma inv_rep e s t :
  inv e s t →
  rep (nil s) (cells s) t (nil s) ∧ root s = ptr (nil s) t
  ∧ mark_has_no_value s (nil s) ∧ NoDup (ids t)
  ∧ match e with ERB => is_Some (nil s) | _ => nil s = None end.
Proof.
  destruct e; cbn [inv].
  - intros (-> & Hz & Hb & _).
    pose proof (zrep_nodup _ _ _ Hz) as Hnd.
    rewrite app_nil_r in Hnd.
    split_and!; try done; [by apply (zrep_sub _ [])|by apply zrep_root].
  - intros (nl & Hz & Hb & Hn & _).
    pose proof (rzrep_nodup _ _ _ _ Hz) as Hnd. cbn [cids] in Hnd.
    rewrite app_nil_r in Hnd. apply NoDup_cons in Hnd as [_ Hnd].
    rewrite (rzrep_nil _ _ _ _ Hz).
    split_and!; try done.
    + by apply (rzrep_sub _ _ []).
    + by rewrite (rzrep_root _ _ _ Hz), ptr_pid.
    + destruct Hz as (_ & _ & _ & _ & _ & pn & Hs). by eexists.
  - intros (-> & Hz & Hb & _).
    pose proof (zrep_nodup _ _ _ Hz) as Hnd.
    rewrite app_nil_r in Hnd.
    split_and!; try done; [by apply (zrep_sub _ [])|by apply zrep_root].
Qed.

Lemma tree_height_spec e limit s t :
  inv e s t →
  tree_height limit s (root s)
  = Some (if tree_height_fits e limit t
          then Returned (hgt t) else RecursionError).
Proof.
  intros Hinv. destruct (inv_rep _ _ _ Hinv) as (Hr & Hroot & Hm & Hnd & Hn).
  unfold tree_height.
  destruct (h_spec s (nil s) t limit (nil s) ∅ Hr Hm Hnd)
    as (V' & E1 & _); [set_solver|].
  rewrite <-Hroot in E1.
  assert (Hfit : tree_height_fits e limit t
                 = match root s with
                   | Some _ => bool_decide (hgt t < Z.of_nat limit)
                   | None => true
                   end).
  { rewrite Hroot.
    destruct e; [rewrite Hn|destruct Hn as [nl ->]|rewrite Hn];
      by destruct t. }
  rewrite Hfit.
  destruct (root s) as [rt|] eqn:Hrt.
  - rewrite E1. cbn [mbind option_bind]. by case_bool_decide.
  - destruct t as [|l x i r]; [done|].
    destruct (nil s); cbn [ptr] in Hroot; congruence.
Qed.

Lemma compute_balance_metrics_spec e limit s t :
  inv e s t →
  compute_balance_metrics limit s (root s)
  = Some (if metrics_fits limit t
          then Returned (mkMetrics (hgt t) (sum_list (depths_of t 1))
                                   (size t) (imbalance t))
          else RecursionError).
Proof.
  intros Hinv. destruct (inv_rep _ _ _ Hinv) as (Hr & Hroot & Hm & Hnd & _).
  assert (Hdl : ∀ d, length (depths_of t d) = size t).
  { clear. induction t as [|l IHl x i r IHr]; intros d; [done|].
    cbn [depths_of size]. rewrite !length_app, IHl, IHr. simpl. lia. }
  pose proof (imbalance_nonneg t) as Hnn.
  unfold compute_balance_metrics. rewrite Hroot.
  destruct t as [|l x i r].
  - cbn [metrics_fits].
    destruct (nil s) as [nl|]; cbn [ptr]; [|done].
    destruct Hm as (c & -> & Hv). cbn. by rewrite Hv.
  - cbn [ptr]. pose proof Hr as (Hx & _). rewrite Hx.
    cbn [mbind option_bind cell value].
    change (Some x) with (ptr (nil s) (T l x i r)).
    rewrite (helper_spec _ _ _ _ _ _ _ _ Hr Hm) by done.
    unfold metrics_fits.
    case_bool_decide; cbn [mbind option_bind]; [|done].
    rewrite Z.max_r by done. by rewrite app_nil_l, Hdl.
Qed.

(** X10: on the tree that a sequence of public calls leaves, in every
    engine, [tree_height] meets no node twice: it raises no
    RuntimeError for a cycle.  It returns the height of the tree, the
    number of nodes on the longest path from the root down, when the
    interpreter allows the nested calls of [_h], one per level of the
    tree and one more; when it does not, the call ends in
    RecursionError. *)
Theorem tree_height_after_calls (e : engine) (ops : list op) :
  ∃ s t,
    run e ops (engine_init e) = Some s
    ∧ inv e s t
    ∧ ∀ limit,
        tree_height limit s (root s)
        = Some (if tree_height_fits e limit t
                then Returned (hgt t) else RecursionError).
Proof.
  destruct (run_spec e ops) as (s & t & E1 & Hinv & _).
  exists s, t. split_and!; try done.
  intros limit. by eapply tree_height_spec.
Qed.

(** X11: an AVL tree is balanced: after every sequence of public calls
    the height [h] that [tree_height] measures wherever the interpreter
    allows more than [h] nested calls, which is also the [height] that
    [_get_height] reads at the root, and the number [n] of keys of the
    in-order walk satisfy [2 ^ (h / 2) ≤ n + 1]. *)
Theorem avl_height_is_logarithmic (ops : list op) :
  ∃ s hh ks,
    run EAVL ops AVL.init = Some s
    ∧ (∀ limit,
         tree_height limit s (root s)
         = Some (if bool_decide (hh = 0 ∨ hh < Z.of_nat limit)
                 then Returned hh else RecursionError))
    ∧ AVL.get_height s (root s) = Some hh
    ∧ inorder s = Some (Some <$> ks)
    ∧ 2 ^ (hh / 2) ≤ Z.of_nat (length ks) + 1.
Proof.
  destruct (run_spec EAVL ops) as (s & t & E1 & Hinv & _).
  exists s, (hgt t), (keys t). split; [done|].
  split.
  { intros limit. rewrite (tree_height_spec EAVL limit _ _ Hinv).
    destruct t as [|l x i r]; cbn [tree_height_fits].
    - by rewrite bool_decide_eq_true_2 by (by left).
    - pose proof (hgt_nonneg l). pose proof (hgt_nonneg r).
      rewrite (bool_decide_ext (hgt (T l x i r) = 0
                                ∨ hgt (T l x i r) < Z.of_nat limit)
                               (hgt (T l x i r) < Z.of_nat limit)); [done|].
      cbn [hgt]. lia. }
  split; [|split; [by eapply (inorder_spec EAVL)|]].
  - destruct Hinv as (_ & Hz & _ & _ & Havl).
    rewrite (zrep_root _ _ Hz).
    destruct t as [|l x i r]; [done|]. cbn [ptr AVL.get_height].
    pose proof (zrep_sub _ _ _ Hz) as (Hx & _).
    rewrite (rd_lookup height _ _ _ Hx). cbn [cell height].
    by destruct Havl as (_ & _ & -> & _).
  - destruct Hinv as (_ & _ & _ & _ & Havl). rewrite size_keys.
    pose proof (hgt_nonneg t).
    apply avl_size; [done| |].
    + apply Z.div_pos; lia.
    + apply Z.mul_div_le. lia.
Qed.

(** X12: a Red-Black tree is balanced: after every sequence of public
    calls the height [h] that [tree_height] measures wherever the
    interpreter allows more than [h] nested calls and the number [n]
    of keys of the in-order walk satisfy [2 ^ (h / 2) ≤ n + 1]. *)
Theorem rb_height_is_logarithmic (ops : list op) :
  ∃ s hh ks,
    run ERB ops RB.init = Some s
    ∧ (∀ limit,
         tree_height limit s (root s)
         = Some (if bool_decide (hh < Z.of_nat limit)
                 then Returned hh else RecursionError))
    ∧ inorder s = Some (Some <$> ks)
    ∧ 2 ^ (hh / 2) ≤ Z.of_nat (length ks) + 1.
Proof.
  destruct (run_spec ERB ops) as (s & t & E1 & Hinv & _).
  exists s, (hgt t), (keys t). split; [done|].
  split; [intros limit; by rewrite (tree_height_spec ERB limit _ _ Hinv)|].
  split; [by eapply (inorder_spec ERB)|].
  destruct Hinv as (nl & _ & _ & _ & _ & Hc & n & Hrb).
  destruct (rb_size _ _ Hrb) as [Hs Hh].
  rewrite (hred_black _ Hc) in Hh. rewrite size_keys.
  pose proof (hgt_nonneg t).
  etrans; [|exact Hs]. apply pow_div_le; lia.
Qed.

(** X13: on the tree that a sequence of public calls leaves,
    [compute_balance_metrics] returns when the interpreter allows the
    nested calls of its [helper], one per level of the tree and one
    more, and ends in RecursionError when it does not.  What it returns
    reports the height that [tree_height] measures and one depth per
    key; on an AVL tree the greatest difference of the heights of two
    sibling subtrees that it reports is at most 1. *)
Theorem balance_metrics_after_calls (e : engine) (ops : list op) :
  ∃ s t m ks,
    run e ops (engine_init e) = Some s
    ∧ inv e s t
    ∧ (∀ limit,
         compute_balance_metrics limit s (root s)
         = Some (if metrics_fits limit t
                 then Returned m else RecursionError))
    ∧ inorder s = Some (Some <$> ks)
    ∧ (∀ limit,
         tree_height limit s (root s)
         = Some (if tree_height_fits e limit t
                 then Returned (m_height m) else RecursionError))
    ∧ m_depths_len m = length ks
    ∧ 0 ≤ m_max_subtree_imbalance m
    ∧ (e = EAVL → m_max_subtree_imbalance m ≤ 1).
Proof.
  destruct (run_spec e ops) as (s & t & E1 & Hinv & _).
  exists s, t,
    (mkMetrics (hgt t) (sum_list (depths_of t 1)) (size t) (imbalance t)),
    (keys t).
  cbn [m_height m_depths_len m_max_subtree_imbalance].
  split_and!; try done.
  - intros limit. by eapply compute_balance_metrics_spec.
  - by eapply inorder_spec.
  - intros limit. by eapply tree_height_spec.
  - by rewrite size_keys.
  - apply imbalance_nonneg.
  - intros ->. destruct Hinv as (_ & _ & _ & _ & Havl). by apply avl_imbalance.
Qed.

Lemma rb_minimum_minid l : ∀ fuel s nl x i r p,
  nil s = Some nl → nl ∉ ids l →
  rep (Some nl) (cells s) (T l x i r) p → (size l < fuel)%nat →
  RB.minimum fuel s x = Some (minid x l)
  ∧ nd value s (minid x l) = Some (minkey (ikey i) l).
Proof.
  induction l as [|ll IH lx li lr _]; intros fuel s nl x i r p Hnil Hnl Hr Hf;
    (destruct fuel as [|fuel]; [simpl in Hf; lia|]);
    pose proof Hr as (Hx & Hl & _); cbn [RB.minimum minid minkey].
  - rewrite (nd_lookup left _ _ _ Hx). cbn [cell left ptr mbind option_bind].
    rewrite (is_nil_nl _ _ Hnil). split; [done|].
    by rewrite (nd_lookup value _ _ _ Hx).
  - rewrite (nd_lookup left _ _ _ Hx). cbn [cell left ptr mbind option_bind].
    rewrite (is_nil_T _ _ _ _ _ _ Hnil Hnl).
    apply notin_T in Hnl as (Hnl & _ & _).
    eapply IH; [done|done|exact Hl|simpl in Hf; lia].
Qed.

Lemma bst_plug_sub c t : bst (plug c t) → bst t.
Proof.
  unfold bst. rewrite elems_plug, !StronglySorted_app. tauto.
Qed.

(** X14: [RBTree._minimum] on a node [x] of a Red-Black tree returns
    the node with the smallest value in the subtree of [x]: the first
    key of the subtree in order, smaller than all others. *)
Theorem rb_minimum_is_least (s : Tree) (t : tree) (c : ctx) (l : tree)
    (x : ref) (i : Info) (r : tree) :
  rb_inv s t → t = plug c (T l x i r) →
  ∃ y k ks,
    RB.minimum (fuel_of s) s x = Some y
    ∧ nd value s y = Some k
    ∧ keys (T l x i r) = k :: ks
    ∧ Forall (klt k) ks.
Proof.
  intros (nl & Hz & Hb & Hn & Hbst & _) ->.
  pose proof (rb_bounded_size _ _ _ Hz Hb Hn) as Hsz.
  rewrite size_plug in Hsz. cbn [size] in Hsz.
  apply bst_plug_sub in Hbst.
  apply rzrep_focus in Hz.
  pose proof (rzrep_nil _ _ _ _ Hz) as Hnil.
  pose proof (rzrep_nodup _ _ _ _ Hz) as Hnd.
  apply NoDup_cons in Hnd as [Hnl _].
  assert (nl ∉ ids l) as Hnll by (cbn [ids] in Hnl; set_solver).
  destruct (rb_minimum_minid l (fuel_of s) s nl x i r _ Hnil Hnll
              (rzrep_sub _ _ _ _ Hz)) as [E1 E2].
  { unfold fuel_of. lia. }
  destruct (binds_min l x i r) as (tl & Htl).
  exists (minid x l), (minkey (ikey i) l), tl.*2.
  split_and!; try done.
  - by rewrite keys_binds, Htl.
  - apply bst_sorted in Hbst. rewrite keys_binds, Htl in Hbst.
    unfold sorted in Hbst. rewrite fmap_cons in Hbst.
    by apply StronglySorted_cons in Hbst as [? _].
Qed.

Lemma rb_minimum_is_least_witness :
  ∃ y k ks,
    RB.minimum (fuel_of rb_mct) rb_mct 1%nat = Some y
    ∧ nd value rb_mct y = Some k
    ∧ keys rb_mct_tree = k :: ks
    ∧ Forall (klt k) ks.
Proof.
  apply (rb_minimum_is_least rb_mct rb_mct_tree []
           (T E 2%nat (mkInfo "c" 1 (Some RED) None) E) 1%nat
           (mkInfo "m" 1 (Some BLACK) None)
           (T E 3%nat (mkInfo "t" 1 (Some RED) None) E)).
  - exact rb_mct_inv.
  - reflexivity.
Defined.

Lemma wr_height_same s x c :
  cells s !! x = Some c → wr_height x (height c) s = s.
Proof.
  intros Hx. destruct s as [σ n rt nl mp ri rdel g]. unfold wr_height, with_cells.
  cbn in *. f_equal. apply map_eq. intros y.
  destruct (decide (y = x)) as [->|Hne].
  - rewrite lookup_alter_eq, Hx. by destruct c.
  - by rewrite lookup_alter_ne.
Qed.

Lemma rep_heights s t : ∀ p,
  rep None (cells s) t p → avl t →
  AVL.get_height s (ptr None t) = Some (hgt t)
  ∧ ∀ x, x ∈ ids t →
      ∃ b, AVL.get_balance s (Some x) = Some b ∧ -1 ≤ b ≤ 1
           ∧ AVL.update_height s (Some x) = Some s.
Proof.
  induction t as [|l IHl y i r IHr]; intros p Hr Ha.
  - split; [done|]. intros x Hx. by apply elem_of_nil in Hx.
  - destruct Hr as (Hy & Hl & Hrr). destruct Ha as (Hal & Har & Hh & Hb).
    destruct (IHl _ Hl Hal) as [Hgl Hxl], (IHr _ Hrr Har) as [Hgr Hxr].
    split.
    { cbn [ptr AVL.get_height hgt]. rewrite (rd_lookup height _ _ _ Hy).
      cbn [cell height]. by rewrite Hh. }
    intros x Hx. cbn [ids] in Hx. rewrite elem_of_app, elem_of_cons in Hx.
    destruct Hx as [Hx|[->|Hx]]; [by apply Hxl| |by apply Hxr].
    exists (hgt l - hgt r). unfold AVL.get_balance, AVL.update_height.
    rewrite (rd_lookup left _ _ _ Hy), (rd_lookup right _ _ _ Hy).
    cbn [cell left right mbind option_bind]. rewrite Hgl, Hgr.
    cbn [mbind option_bind]. split_and!; try done; try lia.
    f_equal. rewrite <-Hh.
    by apply (wr_height_same s y _ Hy).
Qed.

(** X15: after every sequence of public calls on an AVL tree, the
    helpers agree with the tree at every node: [_get_balance] returns
    -1, 0 or 1 and [_update_height] finds the [height] it computes
    already there, so that it leaves the store as it is. *)
Theorem avl_helpers_after_calls (ops : list op) :
  ∃ s t,
    run EAVL ops AVL.init = Some s
    ∧ zrep s [] t
    ∧ ∀ x, x ∈ ids t →
        ∃ b, AVL.get_balance s (Some x) = Some b ∧ -1 ≤ b ≤ 1
             ∧ AVL.update_height s (Some x) = Some s.
Proof.
  destruct (run_spec EAVL ops) as (s & t & E1 & Hinv & _).
  destruct Hinv as (_ & Hz & _ & _ & Havl).
  exists s, t. split_and!; try done.
  by apply (rep_heights s t None (zrep_sub _ _ _ Hz) Havl).
Qed.

(** X16: in the Red-Black tree and in the Treap, [delete] of a present
    key unlinks the very node that holds it, whatever its children:
    every other node stays in the tree with its key, in the same
    order.  [delete] of an absent key changes nothing. *)
Theorem delete_unlinks_the_node (max_prio : option Z) (ops : list op)
    (v : string) :
  ∃ s t,
    run (rb_or_treap max_prio) ops (engine_init (rb_or_treap max_prio)) = Some s
    ∧ inv (rb_or_treap max_prio) s t
    ∧ if bool_decide (v ∈ present ops)
      then ∃ s' t' L z R,
             exec (rb_or_treap max_prio) (Delete v) s = Some (true, s')
             ∧ inv (rb_or_treap max_prio) s' t'
             ∧ binds t = L ++ (z, v) :: R
             ∧ binds t' = L ++ R
      else exec (rb_or_treap max_prio) (Delete v) s = Some (false, s).
Proof.
  set (e := rb_or_treap max_prio).
  destruct (run_spec e ops) as (s & t & E1 & Hinv & Hk & _).
  exists s, t. split; [done|]. split; [done|].
  assert (Hgen : ∃ b s' t',
    exec e (Delete v) s = Some (b, s') ∧ inv e s' t'
    ∧ if b then ∃ L z R, binds t = L ++ (z, v) :: R ∧ binds t' = L ++ R
      else v ∉ keys t ∧ s' = s ∧ t' = t).
  { subst e. destruct max_prio as [m|]; cbn [rb_or_treap exec inv] in *.
    - destruct (treap_delete_spec _ _ v Hinv) as (b & s' & t' & E2 & Hi & Hb & _).
      by exists b, s', t'.
    - destruct (rb_delete_spec _ _ v Hinv) as (b & s' & t' & E2 & Hi & Hb & _).
      by exists b, s', t'. }
  destruct Hgen as (b & s' & t' & E2 & Hi & Hb).
  rewrite <-Hk. destruct b.
  - destruct Hb as (L & z & R & H1 & H2).
    rewrite bool_decide_eq_true_2.
    2:{ rewrite elem_of_keyset, keys_binds, H1, fmap_app, fmap_cons. set_solver. }
    by exists s', t', L, z, R.
  - destruct Hb as (Hn & -> & ->).
    rewrite bool_decide_eq_false_2 by (by rewrite elem_of_keyset). done.
Qed.

Lemma redraw_results ops : ∀ qs K,
  results_from K (redraw qs ops) = results_from K ops
  ∧ present_from K (redraw qs ops) = present_from K ops.
Proof.
  induction ops as [|o ops IH]; intros qs K; [done|].
  destruct o as [v q|v|v]; [destruct qs as [|q' qs]|..];
    cbn [redraw results_from present_from op_result op_keys];
    by destruct (IH qs (K ∪ {[v]})) as [-> ->] ||
       (by destruct (IH [] (K ∪ {[v]})) as [-> ->]) ||
       (by destruct (IH qs K) as [-> ->]) ||
       (by destruct (IH qs (K ∖ {[v]})) as [-> ->]).
Qed.

Lemma sorted_NoDup l : sorted l → NoDup l.
Proof.
  induction 1 as [|x l Hs IH Hx]; constructor; [|done].
  intros Hin. rewrite Forall_forall in Hx. by apply (klt_irrefl x), Hx.
Qed.

Lemma sorted_same_elements l1 l2 :
  sorted l1 → sorted l2 → (∀ k, k ∈ l1 ↔ k ∈ l2) → l1 = l2.
Proof.
  intros H1 H2 Heq.
  apply (StronglySorted_unique_strong klt); try done.
  - intros x1 x2 _ _ Ha Hb. by apply klt_asym in Ha.
  - apply NoDup_Permutation; [by apply sorted_NoDup..|done].
Qed.

(** X17: the engines are interchangeable, and the priorities that a
    Treap draws do not show in what it holds: a sequence of calls on a
    new tree of one engine, and the same calls with any other draws on
    a new tree of another engine, return the same results and leave the
    same in-order walk. *)
Theorem engines_agree (e1 e2 : engine) (ops : list op) (qs : list Z) :
  ∃ s1 s2 outs walk,
    run_outs e1 ops (engine_init e1) = Some (outs, s1)
    ∧ run_outs e2 (redraw qs ops) (engine_init e2) = Some (outs, s2)
    ∧ inorder s1 = Some walk
    ∧ inorder s2 = Some walk.
Proof.
  destruct (run_outs_spec e1 ops _ _ (init_inv e1))
    as (s1 & t1 & E1 & Hi1 & Hk1 & _).
  destruct (run_outs_spec e2 (redraw qs ops) _ _ (init_inv e2))
    as (s2 & t2 & E2 & Hi2 & Hk2 & _).
  destruct (redraw_results ops qs (keyset E)) as [Hr Hp].
  rewrite Hr in E2. rewrite Hp in Hk2.
  exists s1, s2, (results_from (keyset E) ops), (Some <$> keys t1).
  split_and!; try done; [by eapply inorder_spec|].
  rewrite (inorder_spec _ _ _ Hi2). do 2 f_equal.
  apply sorted_same_elements.
  - by eapply bst_sorted, inv_bst.
  - by eapply bst_sorted, inv_bst.
  - intros k. by rewrite <-!elem_of_keyset, Hk1, Hk2.
Qed.

(** * The rotation primitives undo each other *)

Lemma counted_2 fl s s1 s2 :
  counted fl 1 s s1 → counted fl 1 s1 s2 → counted fl 2 s s2.
Proof. apply (counted_trans fl 1 1). Qed.

Lemma set_ih_same i h : iheight i = h → set_ih h i = i.
Proof. intros <-. by destruct i. Qed.

(** X18: [Treap._rotate_right] at a node [y] with a left child [x]
    makes [x] the parent of [y], handing the right subtree of [x] over
    to [y], and returns [x]; [Treap._rotate_left] at [x] then undoes
    it.  Both keep the order of the nodes, and each of the two calls
    adds one to the counter of its phase and leaves the other counter
    as it is, which makes two rotations counted in all. *)
Theorem treap_rotations_inverse (s : Tree) (c : ctx) (a : tree) (x : ref)
    (ix : Info) (b : tree) (y : ref) (iy : Info) (d : tree) (fl : bool) :
  zrep s c (T (T a x ix b) y iy d) →
  ∃ s1 s2,
    Treap.rotate_right s y fl = Some (x, s1)
    ∧ zrep s1 c (T a x ix (T b y iy d))
    ∧ Treap.rotate_left s1 x fl = Some (y, s2)
    ∧ zrep s2 c (T (T a x ix b) y iy d)
    ∧ counted fl 1 s s1
    ∧ counted fl 1 s1 s2
    ∧ counted fl 2 s s2.
Proof.
  intros Hz.
  destruct (treap_rotate_right_spec _ _ _ _ _ _ _ _ _ fl Hz)
    as (s1 & E1 & Hz1 & _ & Hc1).
  destruct (treap_rotate_left_spec _ _ _ _ _ _ _ _ _ fl Hz1)
    as (s2 & E2 & Hz2 & _ & Hc2).
  exists s1, s2. split_and!; try done. by eapply counted_2.
Qed.

Lemma treap_rotations_inverse_witness :
  ∃ s1 s2,
    Treap.rotate_right treap_mct 0%nat false = Some (1%nat, s1)
    ∧ zrep s1 []
        (T E 1%nat (mkInfo "c" 1 None (Some 0))
           (T E 0%nat (mkInfo "m" 1 None (Some 0))
              (T E 2%nat (mkInfo "t" 1 None (Some 0)) E)))
    ∧ Treap.rotate_left s1 1%nat false = Some (0%nat, s2)
    ∧ zrep s2 [] treap_mct_tree
    ∧ counted false 1 treap_mct s1
    ∧ counted false 1 s1 s2
    ∧ counted false 2 treap_mct s2.
Proof.
  apply (treap_rotations_inverse treap_mct [] E 1%nat
           (mkInfo "c" 1 None (Some 0)) E 0%nat (mkInfo "m" 1 None (Some 0))
           (T E 2%nat (mkInfo "t" 1 None (Some 0)) E) false).
  unfold zrep. cbn [rep rep_ctx ids cids app]. concrete.
Defined.

(** X19: the same for [AVLTree._rotate_right] and [_rotate_left], which
    also update the [height] of the two nodes: when the heights of [x]
    and [y] are those of their subtrees, the two rotations in turn give
    back the tree they started from. *)
Theorem avl_rotations_inverse (s : Tree) (c : ctx) (a : tree) (x : ref)
    (ix : Info) (b : tree) (y : ref) (iy : Info) (d : tree) (fl : bool) :
  zrep s c (T (T a x ix b) y iy d) →
  iheight ix = 1 + Z.max (sh a) (sh b) →
  iheight iy = 1 + Z.max (iheight ix) (sh d) →
  ∃ s1 s2,
    AVL.rotate_right s y fl = Some (x, s1)
    ∧ zrep s1 c
        (T a x (set_ih (1 + Z.max (sh a) (1 + Z.max (sh b) (sh d))) ix)
           (T b y (set_ih (1 + Z.max (sh b) (sh d)) iy) d))
    ∧ AVL.rotate_left s1 x fl = Some (y, s2)
    ∧ zrep s2 c (T (T a x ix b) y iy d)
    ∧ counted fl 2 s s2.
Proof.
  intros Hz Hx Hy.
  destruct (rotate_right_spec _ _ _ _ _ _ _ _ _ fl Hz)
    as (s1 & E1 & Hz1 & _ & Hc1).
  destruct (rotate_left_spec _ _ _ _ _ _ _ _ _ fl Hz1)
    as (s2 & E2 & Hz2 & _ & Hc2).
  exists s1, s2. split_and!; try done; [|by eapply counted_2].
  assert (Hix : set_ih (1 + Z.max (sh a) (sh b))
                  (set_ih (1 + Z.max (sh a) (1 + Z.max (sh b) (sh d))) ix) = ix).
  { destruct ix. unfold set_ih. cbn in *. by rewrite Hx. }
  assert (Hiy : set_ih (1 + Z.max (1 + Z.max (sh a) (sh b)) (sh d))
                  (set_ih (1 + Z.max (sh b) (sh d)) iy) = iy).
  { destruct iy. unfold set_ih. cbn in *. by rewrite Hy, Hx. }
  by rewrite Hix, Hiy in Hz2.
Qed.

Lemma avl_rotations_inverse_witness :
  ∃ s1 s2,
    AVL.rotate_right avl_mct 0%nat true = Some (1%nat, s1)
    ∧ zrep s1 []
        (T E 1%nat (set_ih 3 (mkInfo "c" 1 None None))
           (T E 0%nat (set_ih 2 (mkInfo "m" 2 None None))
              (T E 2%nat (mkInfo "t" 1 None None) E)))
    ∧ AVL.rotate_left s1 1%nat true = Some (0%nat, s2)
    ∧ zrep s2 [] avl_mct_tree
    ∧ counted true 2 avl_mct s2.
Proof.
  apply (avl_rotations_inverse avl_mct [] E 1%nat
           (mkInfo "c" 1 None None) E 0%nat (mkInfo "m" 2 None None)
           (T E 2%nat (mkInfo "t" 1 None None) E) true).
  - unfold zrep. cbn [rep rep_ctx ids cids app]. concrete.
  - reflexivity.
  - reflexivity.
Defined.

(** X20: under the sentinel, [RBTree._right_rotate] at a node [y] with
    a left child [x] makes [x] the parent of [y], handing the right
    subtree of [x] over to [y]; [RBTree._left_rotate] at [x] then
    undoes it.  Both keep the order of the nodes, and each of the two
    calls adds one to the counter of its phase and leaves the other
    counter as it is, which makes two rotations counted in all. *)
Theorem rb_rotations_inverse (s : Tree) (nl : ref) (c : ctx) (a : tree)
    (x : ref) (ix : Info) (b : tree) (y : ref) (iy : Info) (d : tree)
    (fl : bool) :
  rzrep s nl c (T (T a x ix b) y iy d) →
  ∃ s1 s2,
    RB.right_rotate s y fl = Some s1
    ∧ rzrep s1 nl c (T a x ix (T b y iy d))
    ∧ RB.left_rotate s1 x fl = Some s2
    ∧ rzrep s2 nl c (T (T a x ix b) y iy d)
    ∧ counted fl 1 s s1
    ∧ counted fl 1 s1 s2
    ∧ counted fl 2 s s2.
Proof.
  intros Hz.
  destruct (rb_right_rotate_spec _ _ _ _ _ _ _ _ _ _ fl Hz)
    as (s1 & E1 & Hz1 & _ & _ & Hc1).
  destruct (rb_left_rotate_spec _ _ _ _ _ _ _ _ _ _ fl Hz1)
    as (s2 & E2 & Hz2 & _ & _ & Hc2).
  exists s1, s2. split_and!; try done. by eapply counted_2.
Qed.

Lemma rb_rotations_inverse_witness :
  ∃ s1 s2,
    RB.right_rotate rb_mct 1%nat false = Some s1
    ∧ rzrep s1 0%nat []
        (T E 2%nat (mkInfo "c" 1 (Some RED) None)
           (T E 1%nat (mkInfo "m" 1 (Some BLACK) None)
              (T E 3%nat (mkInfo "t" 1 (Some RED) None) E)))
    ∧ RB.left_rotate s1 2%nat false = Some s2
    ∧ rzrep s2 0%nat [] rb_mct_tree
    ∧ counted false 1 rb_mct s1
    ∧ counted false 1 s1 s2
    ∧ counted false 2 rb_mct s2.
Proof.
  apply (rb_rotations_inverse rb_mct 0%nat [] E 2%nat
           (mkInfo "c" 1 (Some RED) None) E 1%nat
           (mkInfo "m" 1 (Some BLACK) None)
           (T E 3%nat (mkInfo "t" 1 (Some RED) None) E) false).
  unfold rzrep. cbn [rep rep_ctx ids cids app]. concrete.
  eexists. vm_compute. reflexivity.
Defined.

(** * The walk of a new Treap node towards the root *)

Lemma rise_length q c : ∀ l r, (length (rise q c l r).1.1 ≤ length c)%nat.
Proof.
  induction c as [|[p ip pr|pl p ip] c IH]; intros l r; cbn [rise]; [done|..];
    destruct (prio_lt ip q); cbn [fst length]; try lia.
  - specialize (IH l (T r p ip pr)). lia.
  - specialize (IH (T pl p ip l) r). lia.
Qed.

Lemma bubble_up_rise c : ∀ fuel s a n i b q,
  (length c < fuel)%nat → zrep s c (T a n i b) → iprio i = Some q →
  cheap c →
  ∃ s',
    Treap.bubble_up fuel s n = Some s'
    ∧ zrep s' (rise q c a b).1.1 (T (rise q c a b).1.2 n i (rise q c a b).2)
    ∧ same_attrs s s'
    ∧ counted false (length c - length (rise q c a b).1.1) s s'.
Proof.
  induction c as [|f c IH]; intros fuel s a n i b q Hf Hz Hq Hc;
    (destruct fuel as [|fuel]; [simpl in Hf; lia|]);
    pose proof (zrep_root_cell _ _ _ _ _ _ Hz) as Hn; cbn [Treap.bubble_up].
  - step. exists s. cbn [rise fst snd]. split_and!; done.
  - step. assert (cpar (f :: c) None = Some (fid f)) as -> by (by destruct f).
    destruct (zrep_ctx_cell _ _ _ _ Hz) as (np & Hp & Hpp & Hpl).
    assert (∃ pq, iprio (finfo f) = Some pq) as (pq & Hpq).
    { destruct f; simpl in Hc; destruct Hc as (pq & ? & _); by exists pq. }
    rewrite (nd_lookup priority _ _ _ Hp), Hpp, Hpq. cbn [mbind option_bind].
    step. rewrite Hq. cbn [mbind option_bind].
    assert (Hcnt : ∀ (c' : ctx) s1 s',
      (length c' ≤ length c)%nat →
      counted false 1 s s1 → counted false (length c - length c') s1 s' →
      counted false (length (f :: c) - length c') s s').
    { intros c' s1 s' Hlen H1 H2.
      replace (length (f :: c) - length c')%nat
        with (1 + (length c - length c'))%nat by (simpl; lia).
      by eapply counted_trans. }
    destruct (pq <? q) eqn:Hlt.
    + rewrite (rd_lookup left _ _ _ Hp), Hpl. cbn [mbind option_bind].
      destruct f as [p ip r|l p ip]; cbn [fid finfo ptr] in *;
        cbn [rise]; unfold prio_lt; rewrite Hpq, Hlt.
      * rewrite bool_decide_true by done.
        apply zrep_up_l in Hz.
        apply (treap_rotate_right_spec _ _ _ _ _ _ _ _ _ false) in Hz
          as (s1 & E1 & Hz & Ha1 & Hc1).
        call E1.
        destruct Hc as (pq' & Hpq' & Hlr & Hhr & Hcl & Hc).
        destruct (IH fuel s1 a n i (T b p ip r) q) as
          (s' & E & Hz' & Ha' & Hc'); try done.
        { simpl in Hf. lia. }
        exists s'. split_and!; try done; [by eapply same_attrs_trans|].
        eapply Hcnt; [apply rise_length|done|done].
      * rewrite bool_decide_false by (by eapply zrep_FR_left_ne).
        apply zrep_up_r in Hz.
        apply (treap_rotate_left_spec _ _ _ _ _ _ _ _ _ false) in Hz
          as (s1 & E1 & Hz & Ha1 & Hc1).
        call E1.
        destruct Hc as (pq' & Hpq' & Hlr & Hhr & Hcl & Hc).
        destruct (IH fuel s1 (T l p ip a) n i b q) as
          (s' & E & Hz' & Ha' & Hc'); try done.
        { simpl in Hf. lia. }
        exists s'. split_and!; try done; [by eapply same_attrs_trans|].
        eapply Hcnt; [apply rise_length|done|done].
    + exists s.
      assert (rise q (f :: c) a b = (f :: c, a, b)) as ->.
      { destruct f; cbn [rise finfo] in *; unfold prio_lt; by rewrite Hpq, Hlt. }
      cbn [fst snd]. rewrite Nat.sub_diag.
      split_and!; done.
Qed.

(** [Treap.insert] of a key that the tree does not hold: the new node
    is linked as a leaf where the search ends and then lifted by the
    rule of [rise]. *)
Lemma treap_insert_rise s t v q c :
  treap_inv s t → locate v [] t = (c, E) →
  ∃ s',
    Treap.insert s v q = Some (true, s')
    ∧ zrep s' []
        (plug (rise q c E E).1.1
           (T (rise q c E E).1.2 (next s) (new_info v None (Some q))
              (rise q c E E).2))
    ∧ counted false (length c - length (rise q c E E).1.1) s s'.
Proof.
  intros (Hnil & Hz & Hb & Hbst & Hheap) Hloc. unfold Treap.insert.
  pose proof (zrep_root _ _ Hz) as Hroot. rewrite Hroot.
  destruct t as [|l x i r].
  - (* empty tree *)
    cbn in Hloc. injection Hloc as <-.
    cbn [ptr rise fst snd plug length Nat.sub]. eexists. split; [reflexivity|].
    split; [by apply zrep_leaf|]. split; simpl; lia.
  - cbn [ptr].
    pose proof (descend_spec (fuel_of s) s v [] (T l x i r)) as Hd.
    cbn [ptr cpar] in Hd. rewrite Hd; [|apply Hz|].
    2:{ pose proof (bounded_size _ _ Hz Hb). unfold fuel_of. lia. }
    clear Hd.
    cbn [mbind option_bind].
    pose proof (plug_locate v [] (T l x i r)) as Hplug.
    change (plug [] (T l x i r)) with (T l x i r) in Hplug.
    pose proof (locate_fits v [] (T l x i r) Hbst (fits_nil v)) as [Hfit Hfound].
    rewrite Hloc in *. cbn [fst snd] in *.
    assert (c ≠ []) as Hne
      by (apply (locate_not_nil v (T l x i r)); [done|exact Hloc]).
    destruct c as [|f c']; [done|].
    rewrite <-Hplug in Hz, Hb, Hbst, Hheap.
    apply zrep_focus in Hz. apply bounded_ctx in Hb. simpl in Hb.
    assert (cpar (f :: c') None = Some (fid f)) as -> by (by destruct f).
    destruct (link_leaf s f c' v None (Some q) Hz Hfit Hb) as [Hv Hz2].
    assert (Hfuel : (length (f :: c') < fuel_of s)%nat).
    { pose proof (length_cids (f :: c')).
      pose proof (NoDup_bounded_length (cids (f :: c')) (next s)
                    (zrep_nodup _ _ _ Hz) Hb).
      unfold fuel_of. lia. }
    do_alloc s. cbn [mbind option_bind].
    set (s1 := (alloc _ s).2) in *.
    rewrite Hv. cbn [mbind option_bind].
    set (s2 := if str_lt v (ikey (finfo f)) then _ else _) in *.
    assert (Ha2 : same_attrs s1 s2) by (subst s2; by destruct (str_lt _ _)).
    assert (Hc2 : same_counters s s2) by (subst s2; by destruct (str_lt _ _)).
    apply heap_plug in Hheap as (_ & Hcheap & _).
    destruct (bubble_up_rise (f :: c') (fuel_of s2) s2 E (next s)
                (new_info v None (Some q)) E q) as
      (s' & E & Hz' & Ha' & Hc'); try done.
    { unfold fuel_of in *; destruct Ha2 as (-> & _); subst s1; simpl in *; lia. }
    call E.
    exists s'. split; [done|]. split; [by apply zrep_unfocus|].
    eapply (counted_trans false 0 _ s s2 s'); [|done].
    by apply counted_0.
Qed.

(** X21: in every state that a sequence of public calls on a new Treap
    reaches, [insert] of an absent key with the priority [q] links the
    new node as a leaf where the search for the key ends, under the
    frames [c], and lifts it by the rule of [rise]: while its parent
    has a strictly smaller priority the parent is rotated down on the
    other side; a parent of equal priority stops the walk.  The
    rotations are counted on [rotations_insert].  A present key gives
    false and the same state. *)
Theorem treap_insert_lifts_the_node (max_prio : Z) (ops : list op)
    (v : string) (q : Z) :
  ∃ s t,
    run (ETreap max_prio) ops (Treap.init max_prio) = Some s
    ∧ zrep s [] t
    ∧ match locate v [] t with
      | (c, E) =>
          ∃ s', Treap.insert s v q = Some (true, s')
                ∧ zrep s' []
                    (plug (rise q c E E).1.1
                       (T (rise q c E E).1.2 (next s)
                          (new_info v None (Some q)) (rise q c E E).2))
                ∧ rotations_insert s'
                  = (rotations_insert s
                     + (length c - length (rise q c E E).1.1))%nat
      | (_, T _ _ _ _) => Treap.insert s v q = Some (false, s)
      end.
Proof.
  destruct (run_spec (ETreap max_prio) ops) as (s & t & E1 & Hinv & _).
  cbn [inv engine_init] in *. exists s, t. split; [done|].
  split; [by destruct Hinv as (_ & ? & _)|].
  destruct (locate v [] t) as [c [|l z i r]] eqn:Hloc.
  - destruct (treap_insert_rise _ _ v q _ Hinv Hloc) as (s' & E2 & Hz & _ & Hc & _).
    by exists s'.
  - destruct (treap_insert_spec _ _ v q Hinv) as (b & s' & t' & E2 & _ & Hb & _).
    destruct b; [|by destruct Hb as (_ & -> & _)].
    destruct Hb as (Hn & _). exfalso. apply Hn.
    assert (bst t) as Hbst by (by destruct Hinv as (_ & _ & _ & ? & _)).
    pose proof (locate_found v t Hbst) as Hf.
    rewrite Hloc in Hf. cbn [snd] in Hf.
    symmetry in Hf. by apply bool_decide_eq_true in Hf.
Qed.

(** X22: [RBTree._transplant] of a node [z] by one of its children
    puts the subtree of that child in the place of [z], in the parent
    of [z] or at the root, and sets the [parent] of the child, be it
    the sentinel, to the parent of [z]; the node [z] itself is not
    written. *)
Theorem rb_transplant_replaces (s : Tree) (nl : ref) (c : ctx) (l : tree)
    (z : ref) (iz : Info) (r : tree) :
  rzrep s nl c (T l z iz r) →
  (∃ s1, RB.transplant s z (pid nl r) = Some s1
         ∧ rzrep s1 nl c r
         ∧ nd parent s1 (pid nl r) = cpar c (Some nl)
         ∧ cells s1 !! z = cells s !! z)
  ∧ (∃ s1, RB.transplant s z (pid nl l) = Some s1
           ∧ rzrep s1 nl c l
           ∧ nd parent s1 (pid nl l) = cpar c (Some nl)
           ∧ cells s1 !! z = cells s !! z).
Proof.
  intros Hz. split.
  - destruct (transplant_r_spec _ _ _ _ _ _ _ Hz) as (s1 & E1 & [Hz1 Hp] & Hc & _).
    by exists s1.
  - destruct (transplant_l_spec _ _ _ _ _ _ _ Hz) as (s1 & E1 & [Hz1 Hp] & Hc & _).
    by exists s1.
Qed.

Lemma rb_transplant_replaces_witness :
  (∃ s1, RB.transplant rb_mct 1%nat 3%nat = Some s1
         ∧ rzrep s1 0%nat [] (T E 3%nat (mkInfo "t" 1 (Some RED) None) E)
         ∧ nd parent s1 3%nat = Some 0%nat
         ∧ cells s1 !! 1%nat = cells rb_mct !! 1%nat)
  ∧ (∃ s1, RB.transplant rb_mct 1%nat 2%nat = Some s1
           ∧ rzrep s1 0%nat [] (T E 2%nat (mkInfo "c" 1 (Some RED) None) E)
           ∧ nd parent s1 2%nat = Some 0%nat
           ∧ cells s1 !! 1%nat = cells rb_mct !! 1%nat).
Proof.
  apply (rb_transplant_replaces rb_mct 0%nat []
           (T E 2%nat (mkInfo "c" 1 (Some RED) None) E) 1%nat
           (mkInfo "m" 1 (Some BLACK) None)
           (T E 3%nat (mkInfo "t" 1 (Some RED) None) E)).
  unfold rzrep. cbn [rep rep_ctx ids cids app]. concrete.
  eexists. vm_compute. reflexivity.
Defined.

(** X23: the block of [AVLTree.insert] and [_delete_node] that updates
    the height of a node and rebalances it: when the two subtrees of
    the node are AVL trees whose heights differ by at most 2, it
    returns the root of an AVL tree of the same nodes in the same
    order, whose height is that of the taller subtree plus one, or one
    less; the rotations it makes are counted on the counter that the
    flag selects. *)
Theorem avl_rebalance_restores (s : Tree) (c : ctx) (l : tree) (n : ref)
    (i : Info) (r : tree) (fl : bool) :
  zrep s c (T l n i r) → avl l → avl r → -2 ≤ hgt l - hgt r ≤ 2 →
  ∃ n' s' t' k,
    AVL.rebalance s n fl = Some (n', s')
    ∧ zrep s' c t' ∧ ptr None t' = Some n' ∧ avl t'
    ∧ binds t' = binds (T l n i r)
    ∧ counted fl k s s'
    ∧ Z.max (hgt l) (hgt r) ≤ hgt t' ≤ 1 + Z.max (hgt l) (hgt r).
Proof.
  intros Hz Hl Hr Hb.
  destruct (rebalance_spec _ _ _ _ _ _ fl Hz Hl Hr Hb)
    as (n' & s' & t' & k & E1 & Hz' & Hp & Ha & Hbi & _ & Hc & Hh & _).
  exists n', s', t', k. split_and!; try done; lia.
Qed.

Lemma avl_rebalance_restores_witness :
  ∃ n' s' t' k,
    AVL.rebalance avl_left_chain 0%nat false = Some (n', s')
    ∧ zrep s' [] t' ∧ ptr None t' = Some n' ∧ avl t'
    ∧ binds t'
      = binds (T (T (T E 2%nat (mkInfo "a" 1 None None) E)
                    1%nat (mkInfo "c" 2 None None) E)
                 0%nat (mkInfo "m" 2 None None) E)
    ∧ counted false k avl_left_chain s'
    ∧ Z.max (hgt (T (T E 2%nat (mkInfo "a" 1 None None) E)
                    1%nat (mkInfo "c" 2 None None) E)) (hgt E) ≤ hgt t'
      ≤ 1 + Z.max (hgt (T (T E 2%nat (mkInfo "a" 1 None None) E)
                          1%nat (mkInfo "c" 2 None None) E)) (hgt E).
Proof.
  apply (avl_rebalance_restores avl_left_chain []
           (T (T E 2%nat (mkInfo "a" 1 None None) E)
              1%nat (mkInfo "c" 2 None None) E)
           0%nat (mkInfo "m" 2 None None) E false).
  - unfold zrep. cbn [rep rep_ctx ids cids app]. concrete.
  - cbn [avl]. concrete.
  - exact I.
  - vm_compute. split; discriminate.
Defined.
